(** * qvz codebook generation: a shallow embedding of [src/codebook.c]

  The development follows the C source function by function.

  - Unsigned 32-bit values ([uint32_t]) are integers of [Z] reduced by
    [u32]; arrays are lists read and written through [Z] indexes, and an
    access outside the allocated block (undefined behaviour in C) makes
    the enclosing operation return [None].
  - [double] values are modelled by the type [double]: a real number, one
    of the two infinities, or NaN.  The operations of [Dbl] on finite
    values are exact real arithmetic; they serve where a property does not
    depend on the last place of a result.  [Binary64] adds the rounding to
    nearest of the binary64 format, with its overflow to infinity: the
    uniform draw of [choose_quantizer], the ratio byte of [write_codebook],
    the ratio of the mode [BIT_ALLOC_MODE_INT_POWER] and
    [Rounded.find_states] round as the machine does.  Signed zeros are not
    modelled; the special values produced by a division by zero are.
  - The headers [pmf.h], [quantizer.h], [well.h], [lines.h] and [util.h]
    and the functions they declare are not part of the sources at hand.
    Their types are introduced with the fields [codebook.c] accesses, and
    their functions are section variables or definitions following the
    specification; each is marked as such. *)

From Stdlib Require Import ZArith List Bool Lia Reals Lra FinFun Sorted.
Import ListNotations.

(** ** Machine integers *)

Module U32.

Definition modulus : Z := 2 ^ 32.
Definition UINT32_MAX : Z := modulus - 1.

(** Reduction of an integer expression to its [uint32_t] value. *)
Definition u32 (x : Z) : Z := x mod modulus.

Definition in_range (x : Z) : Prop := (0 <= x < modulus)%Z.

End U32.
Export U32.

(** ** Doubles *)

Module Dbl.

Local Open Scope R_scope.

Inductive double : Type :=
| Fin (x : R)
| PInf
| NInf
| NaN.

Definition is_nan (d : double) : bool :=
  match d with NaN => true | _ => false end.

(** Sign of a real, used by the sign rules of [dmul] and [ddiv]. *)
Inductive sign := Neg | Zero | Pos.

Definition Rsign (x : R) : sign :=
  match total_order_T x 0 with
  | inleft (left _) => Neg
  | inleft (right _) => Zero
  | inright _ => Pos
  end.

Definition inf_of (s : sign) : double :=
  match s with Neg => NInf | Zero => NaN | Pos => PInf end.

Definition sign_mul (a b : sign) : sign :=
  match a, b with
  | Zero, _ | _, Zero => Zero
  | Pos, s | s, Pos => s
  | Neg, Neg => Pos
  end.

Definition dsign (d : double) : option sign :=
  match d with
  | Fin x => Some (Rsign x)
  | PInf => Some Pos
  | NInf => Some Neg
  | NaN => None
  end.

Definition dadd (a b : double) : double :=
  match a, b with
  | NaN, _ | _, NaN => NaN
  | Fin x, Fin y => Fin (x + y)
  | PInf, NInf | NInf, PInf => NaN
  | PInf, _ | _, PInf => PInf
  | NInf, _ | _, NInf => NInf
  end.

Definition dopp (a : double) : double :=
  match a with
  | Fin x => Fin (- x)
  | PInf => NInf
  | NInf => PInf
  | NaN => NaN
  end.

Definition dsub (a b : double) : double := dadd a (dopp b).

Definition dmul (a b : double) : double :=
  match a, b with
  | NaN, _ | _, NaN => NaN
  | Fin x, Fin y => Fin (x * y)
  | Fin x, PInf | PInf, Fin x => inf_of (Rsign x)
  | Fin x, NInf | NInf, Fin x => inf_of (sign_mul Neg (Rsign x))
  | PInf, PInf | NInf, NInf => PInf
  | PInf, NInf | NInf, PInf => NInf
  end.

(** [a / b].  A zero divisor is the positive zero: [0/0] is NaN and
    [x/0] is the infinity of the sign of [x]. *)
Definition ddiv (a b : double) : double :=
  match a, b with
  | NaN, _ | _, NaN => NaN
  | Fin x, Fin y =>
      match Rsign y with
      | Zero => inf_of (Rsign x)
      | _ => Fin (x / y)
      end
  | Fin _, (PInf | NInf) => Fin 0
  | (PInf | NInf), (PInf | NInf) => NaN
  | PInf, Fin y => match Rsign y with Neg => NInf | _ => PInf end
  | NInf, Fin y => match Rsign y with Neg => PInf | _ => NInf end
  end.

(** [a >= b]; every comparison with NaN is false. *)
Definition dge (a b : double) : bool :=
  match a, b with
  | NaN, _ | _, NaN => false
  | Fin x, Fin y => if Rge_dec x y then true else false
  | PInf, _ => true
  | _, NInf => true
  | _, PInf => false
  | NInf, _ => false
  end.

Definition dlt (a b : double) : bool :=
  match a, b with
  | NaN, _ | _, NaN => false
  | Fin x, Fin y => if Rlt_dec x y then true else false
  | PInf, _ => false
  | _, NInf => false
  | _, PInf => true
  | NInf, _ => true
  end.

(** Integer part functions on reals. *)
Definition Rfloor (x : R) : Z := Int_part x.
Definition Rceil (x : R) : Z := (- Int_part (- x))%Z.
(** Truncation toward zero, the rounding of a C cast to an integer type. *)
Definition Rtrunc (x : R) : Z :=
  if Rle_dec 0 x then Rfloor x else Rceil x.

(** [pow(2.0, x)] *)
Definition dpow2 (d : double) : double :=
  match d with
  | Fin x => Fin (Rpower 2 x)
  | PInf => PInf
  | NInf => Fin 0
  | NaN => NaN
  end.

Definition Rlog2 (x : R) : R := ln x / ln 2.

(** [log2(x)] *)
Definition dlog2 (d : double) : double :=
  match d with
  | Fin x =>
      match Rsign x with
      | Pos => Fin (Rlog2 x)
      | Zero => NInf
      | Neg => NaN
      end
  | PInf => PInf
  | NInf | NaN => NaN
  end.

(** [ceil(x)] *)
Definition dceil (d : double) : double :=
  match d with
  | Fin x => Fin (IZR (Rceil x))
  | _ => d
  end.

(** [(uint32_t) d]: the value truncated toward zero when that is
    representable; otherwise the conversion is undefined. *)
Definition double_to_uint32 (d : double) : option Z :=
  match d with
  | Fin x =>
      let t := Rtrunc x in
      if ((0 <=? t) && (t <? U32.modulus))%Z then Some t else None
  | _ => None
  end.

(** [(uint8_t) d] *)
Definition double_to_uint8 (d : double) : option Z :=
  match d with
  | Fin x =>
      let t := Rtrunc x in
      if ((0 <=? t) && (t <? 256))%Z then Some t else None
  | _ => None
  end.

(** [(double) n] for an unsigned integer [n]: exact. *)
Definition uint_to_double (n : Z) : double := Fin (IZR n).

End Dbl.
Export Dbl.

(** ** Binary64 rounding *)

(** The operations of [Dbl] are exact.  The machine rounds the result of
    an operation to a binary64 number: [round] is the rounding to nearest,
    ties to even, of IEEE 754 for that format (53 significant bits, the
    last place never below [2^-1074], overflow to an infinity from
    [2^1024] on).  Zero has no sign here. *)
Module Binary64.

Local Open Scope R_scope.

(** [2^e] *)
Definition bpow (e : Z) : R := powerRZ 2 e.

(** The integer nearest to [m], the even one of two that are as near. *)
Definition nearest_even (m : R) : Z :=
  let f := Rfloor m in
  match total_order_T (m - IZR f) (1/2) with
  | inleft (left _) => f
  | inleft (right _) => if Z.even f then f else (f + 1)%Z
  | inright _ => (f + 1)%Z
  end.

(** The exponent of the last place of the binary64 numbers in the binade
    of [x > 0], which is the one from [2^k] to [2^(k+1)] for
    [k = floor (log2 x)]. *)
Definition ulp_exponent (x : R) : Z :=
  (Z.max (Rfloor (Rlog2 x)) (-1022) - 52)%Z.

(** The multiple of the last place nearest to [x > 0]. *)
Definition round_value (x : R) : R :=
  let e := ulp_exponent x in
  IZR (nearest_even (x * bpow (- e))) * bpow e.

Definition round_pos (x : R) : double :=
  if Rlt_dec (round_value x) (bpow 1024) then Fin (round_value x) else PInf.

Definition round (x : R) : double :=
  match Rsign x with
  | Zero => Fin 0
  | Pos => round_pos x
  | Neg => dopp (round_pos (- x))
  end.

(** The result of an operation as the machine delivers it. *)
Definition rounded (d : double) : double :=
  match d with
  | Fin x => round x
  | _ => d
  end.

Definition fsub (a b : double) : double := rounded (dsub a b).
Definition fmul (a b : double) : double := rounded (dmul a b).
Definition fdiv (a b : double) : double := rounded (ddiv a b).

(** A binary64 number is a real that rounding leaves as it is. *)
Definition representable (x : R) : Prop := round x = Fin x.

(** [d] is [t] rounded to a binary64 number next to it, up or down: no
    binary64 number lies strictly between the two. *)
Definition faithful (t : R) (d : double) : Prop :=
  exists y, d = Fin y /\ representable y /\
    forall z, representable z -> (z <= t -> z <= y) /\ (t <= z -> y <= z).

End Binary64.
Export Binary64.

Open Scope Z_scope.

(** ** Arrays, loops and partial operations *)

Module Arr.

Definition obind {A B} (m : option A) (k : A -> option B) : option B :=
  match m with
  | Some a => k a
  | None => None
  end.

Notation "x <- m ;; k" := (obind m (fun x => k))
  (at level 61, m at next level, right associativity).

(** [a[i]]: the read of an array element; [None] outside the block. *)
Definition zget {A} (a : list A) (i : Z) : option A :=
  if (i <? 0)%Z then None else nth_error a (Z.to_nat i).

Fixpoint set_nth {A} (a : list A) (n : nat) (v : A) : option (list A) :=
  match a, n with
  | [], _ => None
  | _ :: r, O => Some (v :: r)
  | x :: r, S m =>
      match set_nth r m v with
      | Some r' => Some (x :: r')
      | None => None
      end
  end.

(** [a[i] = v]: the write of an array element; [None] outside the block. *)
Definition zset {A} (a : list A) (i : Z) (v : A) : option (list A) :=
  if (i <? 0)%Z then None else set_nth a (Z.to_nat i) v.

(** The values [lo, lo+1, ..., hi-1] taken by the counter of
    [for (i = lo; i < hi; ++i)]. *)
Definition zrange (lo hi : Z) : list Z :=
  map (fun n => (lo + Z.of_nat n)%Z) (seq 0 (Z.to_nat (hi - lo))).

(** A loop whose body may run into undefined behaviour. *)
Fixpoint ofold {A S} (body : S -> A -> option S) (l : list A) (s : S)
  : option S :=
  match l with
  | [] => Some s
  | a :: r =>
      match body s a with
      | Some s' => ofold body r s'
      | None => None
      end
  end.

(** A loop that produces one value per iteration. *)
Fixpoint omap {A B} (f : A -> option B) (l : list A) : option (list B) :=
  match l with
  | [] => Some []
  | a :: r =>
      match f a with
      | Some b =>
          match omap f r with
          | Some bs => Some (b :: bs)
          | None => None
          end
      | None => None
      end
  end.

End Arr.
Export Arr.

(** ** Alphabets *)

(** [symbol_t] is declared in [util.h]; symbols are kept as integers. *)
Definition symbol_t : Type := Z.

(** [struct alphabet_t] is declared in [pmf.h].  [codebook.c] reads its
    fields [size] and [symbols]: an alphabet is its array of symbols and
    [size] is the length of that array. *)
Definition alphabet_t : Type := list symbol_t.

Definition alphabet_size (a : alphabet_t) : Z := Z.of_nat (length a).

(** Modelled from the spec: the macro [ALPHABET_SYMBOL_NOT_FOUND] of
    [pmf.h], the sentinel NOT_FOUND that index-of returns for a missing
    symbol.  It is an index no array of the program has. *)
Definition ALPHABET_SYMBOL_NOT_FOUND : Z := UINT32_MAX.

Fixpoint index_from (a : alphabet_t) (s : symbol_t) (i : Z) : Z :=
  match a with
  | [] => ALPHABET_SYMBOL_NOT_FOUND
  | x :: r => if (x =? s)%Z then i else index_from r s (i + 1)
  end.

(** Modelled from the spec: [get_symbol_index] of [pmf.c], the position of
    a symbol in the alphabet or the sentinel for a missing symbol. *)
Definition get_symbol_index (a : alphabet_t) (s : symbol_t) : Z :=
  index_from a s 0.

(** Modelled from the spec: [alloc_alphabet] of [pmf.c], the constructor
    trivial(n) that yields the symbols 0, ..., n-1. *)
Definition alloc_alphabet (n : Z) : alphabet_t := zrange 0 n.

(** Modelled from the spec: [duplicate_alphabet] of [pmf.c]. *)
Definition duplicate_alphabet (a : alphabet_t) : alphabet_t := a.

Fixpoint insert_symbol (s : symbol_t) (a : alphabet_t) : alphabet_t :=
  match a with
  | [] => [s]
  | x :: r =>
      if (s <? x)%Z then s :: a
      else if (s =? x)%Z then a
      else x :: insert_symbol s r
  end.

(** Modelled from the spec: [alphabet_union] of [pmf.c], the set union of
    two alphabets with the symbols of the result in ascending order.  The
    third argument of the C function is the destination; the result is
    returned here. *)
Definition alphabet_union (a b : alphabet_t) : alphabet_t :=
  fold_right insert_symbol [] (a ++ b).

(** ** Probability mass functions *)

(** [struct pmf_t] is declared in [pmf.h].  [codebook.c] reads and writes
    its fields [pmf] (the vector of values) and [pmf_ready]. *)
Record pmf_t : Type := mkPmf {
  pmf_ready : bool;
  pmf : list double
}.

(** [struct pmf_list_t]: [size] PMFs; [size] is the length of [pmfs]. *)
Definition pmf_list_t : Type := list pmf_t.

Definition pmf_list_size (l : pmf_list_t) : Z := Z.of_nat (length l).

(** The functions of [pmf.c] that [codebook.c] calls.  Their code is not
    at hand; what the specification says of them is the class [PmfLaws]
    further down. *)
Class PmfOps : Type := {
  alloc_pmf : alphabet_t -> pmf_t;
  (** [pmf_increment(pmf, index)] *)
  pmf_increment : pmf_t -> Z -> pmf_t;
  (** [get_probability(pmf, idx)] *)
  get_probability : pmf_t -> Z -> double;
  (** [combine_pmfs(a, b, weight_a, weight_b, result)]: the new contents of
      [result]. *)
  combine_pmfs : pmf_t -> pmf_t -> double -> double -> pmf_t -> pmf_t;
  (** [renormalize_pmf(pmf)]; [None] when it fails. *)
  renormalize_pmf : pmf_t -> option pmf_t;
  (** [get_entropy(pmf)] *)
  get_entropy : pmf_t -> double
}.

(** [alloc_pmf_list(size, alphabet)] *)
Definition alloc_pmf_list `{pops : PmfOps} (size : Z) (a : alphabet_t)
  : pmf_list_t :=
  repeat (alloc_pmf a) (Z.to_nat size).

(** ** Quantizers *)

(** [struct quantizer_t] is declared in [quantizer.h].  [codebook.c] reads
    its fields [alphabet], [output_alphabet], [q] and [ratio]. *)
Record quantizer_t : Type := mkQuantizer {
  qz_alphabet : alphabet_t;
  qz_output_alphabet : alphabet_t;
  qz_q : list symbol_t;
  qz_ratio : double
}.

(** The quantizer designer of [quantizer.c] and the distortion table it
    takes.  [generate_quantizer(pmf, dist, states, &mse, ratio)] returns the
    quantizer and the distortion it writes to [mse]. *)
Class Designer : Type := {
  distortion_t : Type;
  generate_quantizer :
    pmf_t -> distortion_t -> Z -> double -> quantizer_t * double
}.

(** The generator of [well.c]: [well_1024a(&state)] returns a [uint32_t]
    and advances the state. *)
Class Well : Type := {
  well_state_t : Type;
  (** the all-zero state that [calloc] leaves *)
  well_zeroed : well_state_t;
  well_1024a : well_state_t -> Z * well_state_t
}.

(** ** The two conditional stores (codebook.h) *)

(** [struct cond_pmf_list_t].  [marginal_pmfs] is a pointer that
    [calculate_statistics] sets; it is [None] before. *)
Record cond_pmf_list_t : Type := mkCondPmfList {
  cp_columns : Z;
  cp_alphabet : alphabet_t;
  pmfs : list pmf_t;
  marginal_pmfs : option pmf_list_t
}.

(** [struct quality_file_t] and [struct line_t] are declared in [lines.h].
    [codebook.c] reads [columns], the blocks with their lines, and the
    [data] of a line. *)
Definition line_t : Type := list symbol_t.

Record quality_file_t : Type := mkQualityFile {
  qf_columns : Z;
  qf_blocks : list (list line_t)
}.

(** The end of a call: a returned value, the failure of an [assert], or
    undefined behaviour. *)
Inductive outcome (A : Type) : Type :=
| Returned (a : A)
| AssertionFailed
| Undefined.
Arguments Returned {A} a.
Arguments AssertionFailed {A}.
Arguments Undefined {A}.

Section CondQuantizerList.
Context `{wl : Well}.

(** [struct cond_quantizer_list_t].  The pointers of [input_alphabets], [q]
    and [ratio] are null ([None]) until the column is initialised, and so
    is a quantizer slot until it is stored.  [qratio] is never allocated
    nor read by [codebook.c] and is left out. *)
Record cond_quantizer_list_t : Type := mkCondQuantizerList {
  columns : Z;
  input_alphabets : list (option alphabet_t);
  q : list (option (list (option quantizer_t)));
  ratio : list (option (list double));
  well : well_state_t
}.

(** codebook.c, 52-59 *)
Definition alloc_conditional_quantizer_list (columns : Z)
  : cond_quantizer_list_t :=
  let n := Z.to_nat columns in
  mkCondQuantizerList columns (repeat None n) (repeat None n)
    (repeat None n) well_zeroed.

(** codebook.c, 94-100 *)
Definition cond_quantizer_init_column (lst : cond_quantizer_list_t)
  (column : Z) (input_union : alphabet_t) : option cond_quantizer_list_t :=
  ia <- zset (input_alphabets lst) column
          (Some (duplicate_alphabet input_union)) ;;
  qs <- zset (q lst) column
          (Some (repeat None (Z.to_nat (u32 (alphabet_size input_union * 2))))) ;;
  rs <- zset (ratio lst) column
          (Some (repeat (Fin 0) (Z.to_nat (alphabet_size input_union)))) ;;
  Some (mkCondQuantizerList (columns lst) ia qs rs (well lst)).

(** codebook.c, 114-116.  The result is the pointer read from the slot:
    [Some None] is a null pointer. *)
Definition get_cond_quantizer_indexed (lst : cond_quantizer_list_t)
  (column index : Z) : option (option quantizer_t) :=
  col <- zget (q lst) column ;;
  slots <- col ;;
  zget slots index.

(** codebook.c, 121-126 *)
Definition get_cond_quantizer (lst : cond_quantizer_list_t)
  (column : Z) (prev : symbol_t) : option (option quantizer_t) :=
  oa <- zget (input_alphabets lst) column ;;
  a <- oa ;;
  let idx := get_symbol_index a prev in
  if negb (idx =? ALPHABET_SYMBOL_NOT_FOUND)%Z
  then get_cond_quantizer_indexed lst column idx
  else Some None.

(** codebook.c, 132-137 *)
Definition store_cond_quantizers (lo hi : quantizer_t)
  (lst : cond_quantizer_list_t) (column : Z) (prev : symbol_t)
  : option cond_quantizer_list_t :=
  oa <- zget (input_alphabets lst) column ;;
  a <- oa ;;
  let idx := get_symbol_index a prev in
  col <- zget (q lst) column ;;
  slots <- col ;;
  slots1 <- zset slots (u32 (2 * idx)) (Some lo) ;;
  slots2 <- zset slots1 (u32 (2 * idx + 1)) (Some hi) ;;
  rcol <- zget (ratio lst) column ;;
  ratios <- rcol ;;
  ratios' <- zset ratios idx (qz_ratio lo) ;;
  qs <- zset (q lst) column (Some slots2) ;;
  rs <- zset (ratio lst) column (Some ratios') ;;
  Some (mkCondQuantizerList (columns lst) (input_alphabets lst) qs rs
          (well lst)).

(** The read [list->ratio[column][idx]]. *)
Definition get_ratio (lst : cond_quantizer_list_t) (column idx : Z)
  : option double :=
  rcol <- zget (ratio lst) column ;;
  ratios <- rcol ;;
  zget ratios idx.

Definition set_well (lst : cond_quantizer_list_t) (w : well_state_t)
  : cond_quantizer_list_t :=
  mkCondQuantizerList (columns lst) (input_alphabets lst) (q lst)
    (ratio lst) w.

(** The uniform draw [well_1024a(&list->well) / ((double)UINT32_MAX)]:
    the two conversions are exact, the quotient is rounded. *)
Definition well_uniform (v : Z) : double :=
  fdiv (uint_to_double v) (uint_to_double UINT32_MAX).

(** codebook.c, 142-149.  The call returns the chosen pointer and leaves
    the generator state advanced in the list. *)
Definition choose_quantizer (lst : cond_quantizer_list_t)
  (column : Z) (prev : symbol_t)
  : outcome (option quantizer_t * cond_quantizer_list_t) :=
  match oa <- zget (input_alphabets lst) column ;; oa with
  | None => Undefined
  | Some a =>
      let idx := get_symbol_index a prev in
      if (idx =? ALPHABET_SYMBOL_NOT_FOUND)%Z then AssertionFailed
      else
        let (v, w) := well_1024a (well lst) in
        match get_ratio lst column idx with
        | None => Undefined
        | Some r =>
            let slot :=
              if dge (well_uniform v) r
              then u32 (2 * idx + 1)
              else u32 (2 * idx) in
            match get_cond_quantizer_indexed lst column slot with
            | None => Undefined
            | Some p => Returned (p, set_well lst w)
            end
        end
  end.

End CondQuantizerList.

Section Statistics.
Context `{pops : PmfOps}.

(** codebook.c, 13-29 *)
Definition alloc_conditional_pmf_list (alphabet : alphabet_t) (columns : Z)
  : cond_pmf_list_t :=
  let count := u32 (1 + alphabet_size alphabet * (columns - 1)) in
  mkCondPmfList columns alphabet
    (repeat (alloc_pmf alphabet) (Z.to_nat count)) None.

(** The position in [list->pmfs] that [get_cond_pmf] resolves
    (codebook.c, 105-109). *)
Definition cond_pmf_index (lst : cond_pmf_list_t) (column : Z)
  (prev : symbol_t) : Z :=
  if (column =? 0)%Z then 0
  else u32 (1 + (column - 1) * alphabet_size (cp_alphabet lst) + prev).

Definition get_cond_pmf (lst : cond_pmf_list_t) (column : Z)
  (prev : symbol_t) : option pmf_t :=
  zget (pmfs lst) (cond_pmf_index lst column prev).

Definition set_pmfs (lst : cond_pmf_list_t) (ps : list pmf_t)
  : cond_pmf_list_t :=
  mkCondPmfList (cp_columns lst) (cp_alphabet lst) ps
    (marginal_pmfs lst).

(** [pmf_increment(get_cond_pmf(list, column, prev), s)]: the PMF is
    updated in place in the array of the list. *)
Definition increment_cond_pmf (lst : cond_pmf_list_t) (column : Z)
  (prev s : symbol_t) : option cond_pmf_list_t :=
  let i := cond_pmf_index lst column prev in
  p <- zget (pmfs lst) i ;;
  ps <- zset (pmfs lst) i (pmf_increment p s) ;;
  Some (set_pmfs lst ps).

(** The body of the loop over lines of [calculate_statistics]
    (codebook.c, 171-175). *)
Definition count_line (columns : Z) (lst : cond_pmf_list_t) (line : line_t)
  : option cond_pmf_list_t :=
  d0 <- zget line 0 ;;
  list0 <- increment_cond_pmf lst 0 0 d0 ;;
  ofold (fun l column =>
           dprev <- zget line (column - 1) ;;
           d <- zget line column ;;
           increment_cond_pmf l column dprev d)
        (zrange 1 columns) list0.

(** The marginal of one column (codebook.c, 183-185). *)
Definition marginal_column (lst : cond_pmf_list_t) (marg : pmf_list_t)
  (column : Z) : option pmf_list_t :=
  ofold (fun m j =>
           mc <- zget m column ;;
           cj <- get_cond_pmf lst column j ;;
           mp <- zget m (column - 1) ;;
           zset m column
             (combine_pmfs mc cj (Fin 1) (get_probability mp j) mc))
        (zrange 0 (alphabet_size (cp_alphabet lst))) marg.

(** codebook.c, 163-187 *)
Definition calculate_statistics (info : quality_file_t)
  (pmf_list : cond_pmf_list_t) : option cond_pmf_list_t :=
  counted <- ofold (count_line (qf_columns info))
               (concat (qf_blocks info)) pmf_list ;;
  let marg := alloc_pmf_list (qf_columns info) (cp_alphabet counted) in
  c0 <- get_cond_pmf counted 0 0 ;;
  m0 <- zget marg 0 ;;
  marg0 <- zset marg 0 (combine_pmfs c0 m0 (Fin 1) (Fin 0) m0) ;;
  marg' <- ofold (marginal_column counted) (zrange 1 (qf_columns info))
             marg0 ;;
  Some (mkCondPmfList (cp_columns counted) (cp_alphabet counted)
          (pmfs counted) (Some marg')).

End Statistics.
(** ** The bit allocator: [find_states] (codebook.c, 281-293) *)

(** The three outputs [*high], [*low] and [*ratio]. *)
Record states : Type := mkStates {
  st_high : Z;
  st_low : Z;
  st_ratio : double
}.

(** codebook.c, 281-293, over exact arithmetic: [pow], [log2], the two
    subtractions and the division deliver the exact value.  The state
    counts are those of the machine unless rounding carries [pow(2, H)]
    onto or across an integer, and the ratio is the one of the machine up
    to rounding; [Rounded.find_states] below rounds. *)
Definition find_states (entropy : double) : option states :=
  let h_lo := dpow2 entropy in
  match double_to_uint32 h_lo with
  | None => None
  | Some low =>
      match double_to_uint32 (dceil h_lo) with
      | None => None
      | Some high =>
          let h_lo := dlog2 (uint_to_double low) in
          let h_hi := dlog2 (uint_to_double high) in
          Some (mkStates high low
                  (ddiv (dsub entropy h_hi) (dsub h_lo h_hi)))
      end
  end.

(** ** The bit allocator in binary64 arithmetic *)

(** [pow] and [log2] are functions of the C library, whose code is not
    part of the sources: [c_pow2 x] is [pow(2, x)] and [c_log2 x] is
    [log2(x)]. *)
Class Libm : Type := {
  c_pow2 : double -> double;
  c_log2 : double -> double
}.

(** What is assumed of the library: a number it returns is a faithful
    rounding of the exact value; [pow(2, x)] is a number up to the
    exponents of the format; [log2(0)] is minus infinity. *)
Class LibmLaws `{lm : Libm} : Prop := {
  c_pow2_faithful :
    forall x p, c_pow2 (Fin x) = Fin p -> faithful (Rpower 2 x) (Fin p);
  c_pow2_finite :
    forall x, (x < 1023)%R -> exists p, c_pow2 (Fin x) = Fin p;
  c_log2_faithful :
    forall n, 1 <= n <= UINT32_MAX ->
      faithful (Rlog2 (IZR n)) (c_log2 (Fin (IZR n)));
  c_log2_zero : c_log2 (Fin 0) = NInf
}.

Module Rounded.
Section FindStates.
Context `{lm : Libm}.

(** codebook.c, 281-293, with the results of [pow], [log2], the two
    subtractions and the division as the machine delivers them.  The two
    casts, [ceil] and the conversions of [low] and [high] to [double] are
    exact. *)
Definition find_states (entropy : double) : option states :=
  let h_lo := c_pow2 entropy in
  match double_to_uint32 h_lo with
  | None => None
  | Some low =>
      match double_to_uint32 (dceil h_lo) with
      | None => None
      | Some high =>
          let h_lo := c_log2 (uint_to_double low) in
          let h_hi := c_log2 (uint_to_double high) in
          Some (mkStates high low
                  (fdiv (fsub entropy h_hi) (fsub h_lo h_hi)))
      end
  end.

End FindStates.
End Rounded.

(** A stand-in for the C library: the correctly rounded functions. *)
Definition rounded_libm : Libm :=
  {| c_pow2 := fun d => rounded (dpow2 d);
     c_log2 := fun d => rounded (dlog2 d) |}.

(** The binary64 number nearest to 0.1, which is what the constant [0.1]
    denotes in C, and the one nearest to 0.9. *)
Definition tenth : R := (3602879701896397 / 36028797018963968)%R.
Definition nine_tenths : R := (8106479329266893 / 9007199254740992)%R.

(** ** Propagation of the conditional distributions *)

(** [pmfs[x]->pmf[idx] = f (pmfs[x]->pmf[idx])], the compound assignments
    [+=] and [*=] on an entry of a PMF of a list. *)
Definition update_entry (f : double -> double) (l : pmf_list_t) (x idx : Z)
  : option pmf_list_t :=
  p <- zget l x ;;
  e <- zget (pmf p) idx ;;
  v <- zset (pmf p) idx (f e) ;;
  zset l x (mkPmf (pmf_ready p) v).

(** codebook.c, 296-318 *)
Definition compute_qpmf_quan_list (q_lo q_hi : quantizer_t)
  (q_x_pmf : pmf_list_t) (ratio : double) (q_output_union : alphabet_t)
  : option pmf_list_t :=
  ofold (fun l x =>
    ofold (fun l idx =>
      q_symbol <- zget q_output_union idx ;;
      lo_x <- zget (qz_q q_lo) x ;;
      l1 <- (if lo_x =? q_symbol
             then update_entry (fun e => dadd e ratio) l x idx
             else Some l) ;;
      hi_x <- zget (qz_q q_hi) x ;;
      if hi_x =? q_symbol
      then update_entry (fun e => dadd e (dsub (Fin 1) ratio)) l1 x idx
      else Some l1)
    (zrange 0 (alphabet_size q_output_union)) l)
  (zrange 0 (alphabet_size (qz_alphabet q_lo))) q_x_pmf.

Section Generator.
Context `{pops : PmfOps} `{des : Designer} `{wl : Well}.

(** Sets [pmf_ready] and renormalizes [l[k]] (codebook.c, 369-370 and
    397-398). *)
Definition ready_and_renormalize (l : pmf_list_t) (k : Z)
  : option pmf_list_t :=
  p <- zget l k ;;
  p' <- renormalize_pmf (mkPmf true (pmf p)) ;;
  zset l k p'.

(** The body of the loop over [j] of [compute_qpmf_list]
    (codebook.c, 342-365); the state is the list under construction and the
    running value of [p_q_xq]. *)
Definition qpmf_inner (in_pmfs : cond_pmf_list_t) (column : Z)
  (prev_qpmf_list : pmf_list_t) (prev_q_alphabet_union : alphabet_t)
  (q_list : cond_quantizer_list_t) (k idx : Z) (q_symbol : Z)
  (acc : pmf_list_t * double) (j : Z) : option (pmf_list_t * double) :=
  let (l, p_q_xq) := acc in
  lo_ptr <- get_cond_quantizer_indexed q_list (column - 1) (u32 (2 * j)) ;;
  hi_ptr <- get_cond_quantizer_indexed q_list (column - 1)
              (u32 (2 * j + 1)) ;;
  q_prev_symbol <- zget prev_q_alphabet_union j ;;
  q_lo <- lo_ptr ;;
  lo_k <- zget (qz_q q_lo) k ;;
  let p1 := if lo_k =? q_symbol then dadd p_q_xq (qz_ratio q_lo)
            else p_q_xq in
  q_hi <- hi_ptr ;;
  hi_k <- zget (qz_q q_hi) k ;;
  let p2 := if hi_k =? q_symbol then dadd p1 (qz_ratio q_hi) else p1 in
  marg <- marginal_pmfs in_pmfs ;;
  l1 <- ofold (fun l x =>
          px <- zget prev_qpmf_list x ;;
          cx <- get_cond_pmf in_pmfs (column - 1) x ;;
          mx <- zget marg (u32 (column - 2)) ;;
          update_entry
            (fun e => dadd e (dmul (dmul (get_probability px j)
                                         (get_probability cx k))
                                   (get_probability mx x)))
            l k idx)
        (zrange 0 (pmf_list_size prev_qpmf_list)) l ;;
  l2 <- update_entry (fun e => dmul e p2) l1 k idx ;;
  Some (l2, p2).

(** codebook.c, 320-373 *)
Definition compute_qpmf_list (qpmf_list : pmf_list_t)
  (in_pmfs : cond_pmf_list_t) (column : Z) (prev_qpmf_list : pmf_list_t)
  (q_alphabet_union prev_q_alphabet_union : alphabet_t)
  (q_list : cond_quantizer_list_t) : option pmf_list_t :=
  ofold (fun l k =>
    l' <- ofold (fun l idx =>
            q_symbol <- zget q_alphabet_union idx ;;
            r <- ofold (qpmf_inner in_pmfs column prev_qpmf_list
                          prev_q_alphabet_union q_list k idx q_symbol)
                   (zrange 0 (alphabet_size prev_q_alphabet_union))
                   (l, Fin 0) ;;
            Some (fst r))
          (zrange 0 (alphabet_size q_alphabet_union)) l ;;
    ready_and_renormalize l' k)
  (zrange 0 (pmf_list_size qpmf_list)) qpmf_list.

(** codebook.c, 375-401 *)
Definition compute_xpmf_list (qpmf_list : pmf_list_t)
  (in_pmfs : cond_pmf_list_t) (column : Z) (xpmf_list : pmf_list_t)
  (q_alphabet_union : alphabet_t) : option pmf_list_t :=
  ofold (fun l idx =>
    q_symbol <- zget q_alphabet_union idx ;;
    l' <- ofold (fun l k =>
            ofold (fun l x =>
              qx <- zget qpmf_list x ;;
              cx <- get_cond_pmf in_pmfs column x ;;
              marg <- marginal_pmfs in_pmfs ;;
              mx <- zget marg (u32 (column - 1)) ;;
              update_entry
                (fun e => dadd e (dmul (dmul (get_probability qx idx)
                                             (get_probability cx k))
                                       (get_probability mx x)))
                l idx k)
            (zrange 0 (pmf_list_size qpmf_list)) l)
          (zrange 0 (pmf_list_size qpmf_list)) l ;;
    ready_and_renormalize l' idx)
  (zrange 0 (alphabet_size q_alphabet_union)) xpmf_list.

(** ** The codebook generator: [generate_codebooks] (codebook.c, 407-521) *)

(** The variables of [generate_codebooks] that live across columns. *)
Record gen_state : Type := mkGenState {
  g_list : cond_quantizer_list_t;
  g_lo : quantizer_t;
  g_hi : quantizer_t;
  g_ratio : double;
  g_prev_output_union : alphabet_t;
  g_prev_qpmf_list : pmf_list_t
}.

(** The design of the two quantizers of one context and their storage
    (codebook.c, 454-458 and 498-501).  Also returns the values left in
    [q_lo], [q_hi] and [ratio]. *)
Definition design_and_store (p : pmf_t) (dist : distortion_t)
  (comp : double) (q_list : cond_quantizer_list_t) (column : Z)
  (q_symbol : symbol_t)
  : option (cond_quantizer_list_t * quantizer_t * quantizer_t * double) :=
  st <- find_states (dmul (get_entropy p) comp) ;;
  let q_lo := fst (generate_quantizer p dist (st_low st) (st_ratio st)) in
  let q_hi := fst (generate_quantizer p dist (st_high st)
                     (dsub (Fin 1) (st_ratio st))) in
  q_list' <- store_cond_quantizers q_lo q_hi q_list column q_symbol ;;
  Some (q_list', q_lo, q_hi, st_ratio st).

(** Column 0 (codebook.c, 442-466). *)
Definition codebook_column0 (info : quality_file_t)
  (in_pmfs : cond_pmf_list_t) (dist : distortion_t) (comp : double)
  : option gen_state :=
  let q_list := alloc_conditional_quantizer_list (qf_columns info) in
  let A := cp_alphabet in_pmfs in
  let q_output_union := alloc_alphabet 1 in
  q_list0 <- cond_quantizer_init_column q_list 0 q_output_union ;;
  let qpmf_list := alloc_pmf_list (alphabet_size A) q_output_union in
  p0 <- get_cond_pmf in_pmfs 0 0 ;;
  r <- design_and_store p0 dist comp q_list0 0 0 ;;
  let '(q_list1, q_lo, q_hi, ratio) := r in
  Some (mkGenState q_list1 q_lo q_hi ratio q_output_union qpmf_list).

(** The union of the output alphabets of the quantizers of a column
    (codebook.c, 473-476). *)
Definition output_union (q_list : cond_quantizer_list_t) (column : Z)
  (q_prev_output_union : alphabet_t) : option alphabet_t :=
  first_ptr <- get_cond_quantizer_indexed q_list (column - 1) 0 ;;
  first <- first_ptr ;;
  ofold (fun u j =>
           ptr <- get_cond_quantizer_indexed q_list (column - 1) j ;;
           qz <- ptr ;;
           Some (alphabet_union u (qz_output_alphabet qz)))
        (zrange 1 (u32 (2 * alphabet_size q_prev_output_union)))
        (duplicate_alphabet (qz_output_alphabet first)).

(** The body of the loop over the contexts of a column
    (codebook.c, 493-502); the state is the list and the values of [q_lo],
    [q_hi] and [ratio]. *)
Definition design_context (xpmf_list : pmf_list_t) (dist : distortion_t)
  (comp : double) (column : Z) (q_output_union : alphabet_t)
  (acc : cond_quantizer_list_t * quantizer_t * quantizer_t * double)
  (j : Z)
  : option (cond_quantizer_list_t * quantizer_t * quantizer_t * double) :=
  let '(l, _, _, _) := acc in
  q_symbol <- zget q_output_union j ;;
  pj <- zget xpmf_list j ;;
  design_and_store pj dist comp l column q_symbol.

(** The body of the loop over columns (codebook.c, 470-513). *)
Definition codebook_column (in_pmfs : cond_pmf_list_t)
  (dist : distortion_t) (comp : double) (g : gen_state) (column : Z)
  : option gen_state :=
  let A := cp_alphabet in_pmfs in
  q_output_union <- output_union (g_list g) column
                      (g_prev_output_union g) ;;
  q_list <- cond_quantizer_init_column (g_list g) column q_output_union ;;
  let qpmf0 := alloc_pmf_list (alphabet_size A) q_output_union in
  let xpmf0 := alloc_pmf_list (alphabet_size q_output_union) A in
  qpmf_list <-
    (if column =? 1
     then compute_qpmf_quan_list (g_lo g) (g_hi g) qpmf0 (g_ratio g)
            q_output_union
     else compute_qpmf_list qpmf0 in_pmfs column (g_prev_qpmf_list g)
            q_output_union (g_prev_output_union g) q_list) ;;
  xpmf_list <- compute_xpmf_list qpmf_list in_pmfs column xpmf0
                 q_output_union ;;
  r <- ofold (design_context xpmf_list dist comp column q_output_union)
         (zrange 0 (alphabet_size q_output_union))
         (q_list, g_lo g, g_hi g, g_ratio g) ;;
  let '(q_list', q_lo, q_hi, ratio) := r in
  Some (mkGenState q_list' q_lo q_hi ratio q_output_union qpmf_list).

(** [generate_codebooks(info, in_pmfs, dist, comp, mode,
    expected_distortion)]; the last two parameters are not used by the
    function. *)
Definition generate_codebooks (info : quality_file_t)
  (in_pmfs : cond_pmf_list_t) (dist : distortion_t) (comp : double)
  : option cond_quantizer_list_t :=
  stats <- calculate_statistics info in_pmfs ;;
  g0 <- codebook_column0 info stats dist comp ;;
  g <- ofold (codebook_column stats dist comp)
         (zrange 1 (qf_columns info)) g0 ;;
  Some (g_list g).

End Generator.

(** ** The codebook file: [write_codebook] (codebook.c, 725-789) *)

Section WriteCodebook.
Context `{wl : Well}.

(** The bytes of a file, in the order written. *)
Definition file : Type := list Z.

(** [fwrite(buf, sizeof(char), n, fp)] for a buffer whose first [n] bytes
    are [bytes]. *)
Definition fwrite (bytes : list Z) (fp : file) : file := fp ++ bytes.

Definition eol : list Z := [10].

(** A value stored into a [char] of the line buffer and written out. *)
Definition to_char (x : Z) : Z := x mod 256.

(** [memset(empty, 32, ...)]: [n] spaces. *)
Definition empty (n : Z) : list Z := repeat 32 (Z.to_nat n).

(** The line buffer after [linebuf[i] = q->q[i] + 33] for [i < size]
    (codebook.c, 762-764 and 775-777). *)
Definition quantizer_line (qz : quantizer_t) (size : Z) : option (list Z) :=
  omap (fun i => s <- zget (qz_q qz) i ;; Some (to_char (s + 33)))
       (zrange 0 size).

(** The line buffer after
    [linebuf[i] = ((uint8_t)(quantizers->ratio[i][0]*100)) + 33]
    for [i < columns] (codebook.c, 753-755); the product is rounded
    before the cast. *)
Definition ratio_line (quantizers : cond_quantizer_list_t) : option (list Z) :=
  omap (fun i =>
          r <- get_ratio quantizers i 0 ;;
          t <- double_to_uint8 (fmul r (Fin 100)) ;;
          Some (to_char (t + 33)))
       (zrange 0 (columns quantizers)).

(** One pass of the loop over [j] for a column (codebook.c, 772-784): the
    blocks of the line followed by the end of line. *)
Definition write_column_line (quantizers : cond_quantizer_list_t)
  (size i : Z) (fp : file) : option file :=
  fp' <- ofold (fun fp j =>
            q_temp <- get_cond_quantizer quantizers i j ;;
            match q_temp with
            | Some qz =>
                linebuf <- quantizer_line qz size ;;
                Some (fwrite linebuf fp)
            | None => Some (fwrite (empty size) fp)
            end)
         (zrange 0 size) fp ;;
  Some (fwrite eol fp').

(** The contents of the file written; the failure of [fopen] is left
    out. *)
Definition write_codebook (quantizers : cond_quantizer_list_t)
  : option file :=
  let columns := columns quantizers in
  ptr <- get_cond_quantizer_indexed quantizers 0 0 ;;
  q_temp <- ptr ;;
  let size := alphabet_size (qz_alphabet q_temp) in
  let fp := fwrite eol (fwrite (empty columns) []) in
  let fp := fwrite eol (fwrite (empty columns) fp) in
  linebuf <- ratio_line quantizers ;;
  let fp := fwrite eol (fwrite linebuf fp) in
  linebuf <- quantizer_line q_temp size ;;
  let fp := fwrite eol (fwrite linebuf fp) in
  let fp := fwrite eol (fwrite linebuf fp) in
  ofold (fun fp i =>
           ofold (fun fp z => write_column_line quantizers size i fp)
                 (zrange 0 2) fp)
        (zrange 1 columns) fp.

End WriteCodebook.

(** The lines of a file: the maximal runs of bytes ended by a newline. *)
Fixpoint lines_from (cur : list Z) (bytes : file) : list (list Z) :=
  match bytes with
  | [] => []
  | b :: r =>
      if b =? 10 then rev cur :: lines_from [] r
      else lines_from (b :: cur) r
  end.

Definition file_lines (fp : file) : list (list Z) := lines_from [] fp.

(** Line [n] of a file, counted from 1. *)
Definition file_line (fp : file) (n : nat) : option (list Z) :=
  nth_error (file_lines fp) (n - 1).

(** ** The records of the codebook file *)

Section ColumnLine.
Context `{wl : Well}.

(** The block that the body of the loop over [j] writes for the context
    [j] of column [i] (codebook.c, 773-782). *)
Definition block_bytes (quantizers : cond_quantizer_list_t) (size i j : Z)
  : option (list Z) :=
  q_temp <- get_cond_quantizer quantizers i j ;;
  match q_temp with
  | Some qz => quantizer_line qz size
  | None => Some (empty size)
  end.

(** The bytes of one line of column [i], without the end of line. *)
Definition column_line (quantizers : cond_quantizer_list_t) (size i : Z)
  : option (list Z) :=
  blocks <- omap (block_bytes quantizers size i) (zrange 0 size) ;;
  Some (concat blocks).

End ColumnLine.

(** The file made of the given records, each ended by a newline. *)
Definition file_of_records (records : list (list Z)) : file :=
  concat (map (fun l => l ++ eol) records).

(** ** Vocabulary of the statements about the statistics *)

(** [line->data[c]], with 0 for a position the line does not have. *)
Definition line_symbol (line : line_t) (c : Z) : symbol_t :=
  match zget line c with
  | Some s => s
  | None => 0
  end.

(** The first symbols of the lines. *)
Definition column0_symbols (lines : list line_t) : list symbol_t :=
  map (fun line => line_symbol line 0) lines.

(** The symbols at column [c] of the lines whose symbol at column [c - 1]
    is [s], in the order of the lines. *)
Definition context_symbols (lines : list line_t) (c : Z) (s : symbol_t)
  : list symbol_t :=
  map (fun line => line_symbol line c)
      (filter (fun line => line_symbol line (c - 1) =? s) lines).

(** The sum of a list of doubles, accumulated from the left from 0. *)
Definition dsum (l : list double) : double := fold_left dadd l (Fin 0).

Section PmfVocabulary.
Context `{pops : PmfOps}.

(** A PMF after [pmf_increment] at each of the symbols, in order. *)
Definition increments (p : pmf_t) (syms : list symbol_t) : pmf_t :=
  fold_left pmf_increment syms p.

(** [get_probability(get_cond_pmf(list, c, s), k)] *)
Definition cond_probability (lst : cond_pmf_list_t) (c : Z) (s k : symbol_t)
  : double :=
  match get_cond_pmf lst c s with
  | Some p => get_probability p k
  | None => NaN
  end.

(** What the specification says of the functions of [pmf.c] used by
    [calculate_statistics]: [combine_pmfs] leaves in its result the
    combination [weight_a * a + weight_b * b] of the probabilities, and a
    freshly allocated PMF has probability 0 at every symbol of its
    alphabet. *)
Class PmfLaws : Prop := {
  combine_pmfs_probability :
    forall a b wa wb out s,
      get_probability (combine_pmfs a b wa wb out) s
      = dadd (dmul wa (get_probability a s)) (dmul wb (get_probability b s));
  alloc_pmf_probability :
    forall A s, 0 <= s < alphabet_size A ->
      get_probability (alloc_pmf A) s = Fin 0
}.

End PmfVocabulary.

(** ** The PMF operations of the specification *)

Module SpecPmf.

Definition is_zero (d : double) : bool :=
  match d with
  | Fin x => match Rsign x with Zero => true | _ => false end
  | _ => false
  end.

(** Modelled from the spec: [alloc_pmf] of [pmf.c], a vector of zeros of
    the length of the alphabet, not ready. *)
Definition alloc_pmf (a : alphabet_t) : pmf_t :=
  mkPmf false (repeat (Fin 0) (length a)).

(** Modelled from the spec: [pmf_increment] of [pmf.c], bumps the count at
    the symbol. *)
Definition pmf_increment (p : pmf_t) (s : Z) : pmf_t :=
  match zget (pmf p) s with
  | Some c =>
      match zset (pmf p) s (dadd c (Fin 1)) with
      | Some v => mkPmf (pmf_ready p) v
      | None => p
      end
  | None => p
  end.

(** Modelled from the spec: [get_probability] of [pmf.c], the
    probability-of a symbol read from the vector. *)
Definition get_probability (p : pmf_t) (idx : Z) : double :=
  match zget (pmf p) idx with
  | Some v => v
  | None => NaN
  end.

(** Modelled from the spec: [combine_pmfs] of [pmf.c],
    OUT[s] = alpha * P[s] + beta * Q[s]. *)
Definition combine_pmfs (a b : pmf_t) (wa wb : double) (out : pmf_t)
  : pmf_t :=
  mkPmf true
    (map (fun xy => dadd (dmul wa (fst xy)) (dmul wb (snd xy)))
         (combine (pmf a) (pmf b))).

(** Modelled from the spec: [renormalize_pmf] of [pmf.c], divides by the
    total mass and fails when the total is zero. *)
Definition renormalize_pmf (p : pmf_t) : option pmf_t :=
  let total := dsum (pmf p) in
  if is_zero total then None
  else Some (mkPmf (pmf_ready p) (map (fun v => ddiv v total) (pmf p))).

(** Modelled from the spec: [get_entropy] of [pmf.c], minus the sum of
    [p log2 p] with [0 log 0 = 0]. *)
Definition get_entropy (p : pmf_t) : double :=
  dopp (dsum (map (fun v => if is_zero v then Fin 0
                            else dmul v (dlog2 v)) (pmf p))).

Definition ops : PmfOps :=
  Build_PmfOps alloc_pmf pmf_increment get_probability combine_pmfs
    renormalize_pmf get_entropy.

End SpecPmf.

(** ** The propagation step as the specification words it *)

Section QpmfSpec.
Context `{pops : PmfOps} `{wl : Well}.

Variable in_pmfs : cond_pmf_list_t.
Variable column : Z.
Variable prev_qpmf_list : pmf_list_t.
Variable q_alphabet_union prev_q_alphabet_union : alphabet_t.
Variable q_list : cond_quantizer_list_t.

(** The contribution of the quantizers of one previous context:
    [ratio_lo * [q_lo(k) = q] + ratio_hi * [q_hi(k) = q]]. *)
Definition indicator_contribution (q_lo q_hi : quantizer_t)
  (k : Z) (q_symbol : symbol_t) : option double :=
  lo_k <- zget (qz_q q_lo) k ;;
  hi_k <- zget (qz_q q_hi) k ;;
  Some (dadd (if lo_k =? q_symbol then qz_ratio q_lo else Fin 0)
             (if hi_k =? q_symbol then qz_ratio q_hi else Fin 0)).

(** The weight of the previous context [j]: the sum over [x] of the
    product of the previous quantized PMF, the stored conditional PMF and
    the marginal. *)
Definition context_weight (j k : Z) : option double :=
  marg <- marginal_pmfs in_pmfs ;;
  mx <- zget marg (column - 2) ;;
  terms <- omap (fun x =>
             px <- zget prev_qpmf_list x ;;
             cx <- get_cond_pmf in_pmfs (column - 1) x ;;
             Some (dmul (dmul (get_probability px j) (get_probability cx k))
                        (get_probability mx x)))
           (zrange 0 (pmf_list_size prev_qpmf_list)) ;;
  Some (dsum terms).

(** The sum over the previous contexts of contribution times weight. *)
Definition qpmf_entry_spec (k : Z) (q_symbol : symbol_t) : option double :=
  terms <- omap (fun j =>
             lo_ptr <- get_cond_quantizer_indexed q_list (column - 1)
                         (2 * j) ;;
             hi_ptr <- get_cond_quantizer_indexed q_list (column - 1)
                         (2 * j + 1) ;;
             q_lo <- lo_ptr ;;
             q_hi <- hi_ptr ;;
             c <- indicator_contribution q_lo q_hi k q_symbol ;;
             w <- context_weight j k ;;
             Some (dmul c w))
           (zrange 0 (alphabet_size prev_q_alphabet_union)) ;;
  Some (dsum terms).

(** The row of the source symbol [k], renormalized. *)
Definition qpmf_row_spec (k : Z) : option pmf_t :=
  entries <- omap (fun idx =>
               q_symbol <- zget q_alphabet_union idx ;;
               qpmf_entry_spec k q_symbol)
             (zrange 0 (alphabet_size q_alphabet_union)) ;;
  renormalize_pmf (mkPmf true entries).

(** The list that step (b) of the specification describes, one row per
    source symbol. *)
Definition compute_qpmf_list_spec (qpmf_list : pmf_list_t)
  : option pmf_list_t :=
  omap qpmf_row_spec (zrange 0 (pmf_list_size qpmf_list)).

End QpmfSpec.

(** ** Vocabulary of the invariants *)

(** A context of the conditional PMF list: a column [c >= 1] below
    [columns] and a previous symbol below the alphabet size [N]. *)
Definition valid_context (columns N : Z) (c : Z) (s : symbol_t) : Prop :=
  1 <= c < columns /\ 0 <= s < N.

(** Every symbol of the line is below the alphabet size [N]. *)
Definition line_in_range (N : Z) (line : line_t) : Prop :=
  Forall (fun s => 0 <= s < N) line.

(** Symbols are below this limit: [symbol_t] holds a byte. *)
Definition SYMBOL_LIMIT : Z := 256.

Definition output_in_range (qz : quantizer_t) : Prop :=
  forall s, In s (qz_output_alphabet qz) -> 0 <= s < SYMBOL_LIMIT.

Section InvariantVocabulary.
Context `{pops : PmfOps} `{des : Designer} `{wl : Well}.

(** [get_probability(marg[c - 1], j)] *)
Definition prev_probability (m : pmf_list_t) (c j : Z) : double :=
  match zget m (c - 1) with
  | Some mp => get_probability mp j
  | None => NaN
  end.

(** The marginal of column [c] as a sum over the contexts. *)
Definition marginal_ok (counted : cond_pmf_list_t) (m : pmf_list_t) (c : Z)
  : Prop :=
  forall k, 0 <= k < alphabet_size (cp_alphabet counted) ->
    exists mc mp,
      zget m c = Some mc /\ zget m (c - 1) = Some mp /\
      get_probability mc k =
      dsum (map (fun s => dmul (get_probability mp s)
                               (cond_probability counted c s k))
                (zrange 0 (alphabet_size (cp_alphabet counted)))).

(** Every quantizer held by the list satisfies [P]. *)
Definition stored (P : quantizer_t -> Prop) (lst : cond_quantizer_list_t)
  : Prop :=
  forall c j qz,
    get_cond_quantizer_indexed lst c j = Some (Some qz) -> P qz.

(** The slots of column [c] are allocated, [n] of them. *)
Definition slots_length (lst : cond_quantizer_list_t) (c : Z) (n : nat)
  : Prop :=
  exists slots, zget (q lst) c = Some (Some slots) /\ length slots = n.

(** [P] holds of every quantizer the designer returns. *)
Definition designed (P : quantizer_t -> Prop) : Prop :=
  forall p d n r, P (fst (generate_quantizer p d n r)).

(** What an operation on the list leaves unchanged when it works on the
    column [c]: the input alphabets and the slots of the other columns, the
    properties of the stored quantizers, and the number of slots of
    [c]. *)
Definition frame (c : Z) (lst lst' : cond_quantizer_list_t) : Prop :=
  input_alphabets lst' = input_alphabets lst /\
  (forall c', c' <> c -> zget (q lst') c' = zget (q lst) c') /\
  (forall P, designed P -> stored P lst -> stored P lst') /\
  forall n, slots_length lst c n -> slots_length lst' c n.

(** The input alphabet of column [c] is the union of the output alphabets
    of the quantizers in the [2 * |input_alphabet[c-1]|] slots of column
    [c - 1], and every one of these slots holds a quantizer. *)
Definition column_ok (lst : cond_quantizer_list_t) (c : Z) : Prop :=
  exists a a',
    zget (input_alphabets lst) c = Some (Some a) /\
    zget (input_alphabets lst) (c - 1) = Some (Some a') /\
    (forall j, 0 <= j < 2 * alphabet_size a' ->
       exists qz,
         get_cond_quantizer_indexed lst (c - 1) j = Some (Some qz)) /\
    forall s, In s a <->
      exists j qz, 0 <= j < 2 * alphabet_size a' /\
        get_cond_quantizer_indexed lst (c - 1) j = Some (Some qz) /\
        In s (qz_output_alphabet qz).

(** The state of the generator before it works on column [c >= 1]. *)
Definition gen_invariant (col0 : option (option (list (option quantizer_t))))
  (c : Z) (g : gen_state) : Prop :=
  zget (input_alphabets (g_list g)) (c - 1)
    = Some (Some (g_prev_output_union g)) /\
  alphabet_size (g_prev_output_union g) <= SYMBOL_LIMIT /\
  slots_length (g_list g) (c - 1)
    (Z.to_nat (2 * alphabet_size (g_prev_output_union g))) /\
  stored output_in_range (g_list g) /\
  zget (input_alphabets (g_list g)) 0 = Some (Some [0]) /\
  zget (q (g_list g)) 0 = col0 /\
  forall c', 1 <= c' < c -> column_ok (g_list g) c'.

End InvariantVocabulary.

(** ** Instances and inputs of the examples *)

(** A stand-in for the generator of [well.c], whose code is not at hand: a
    counter that returns its successive values. *)
Definition counter_well : Well :=
  {| well_state_t := Z;
     well_zeroed := 0;
     well_1024a := fun s => (u32 s, s + 1) |}.

(** Two quantizers over the alphabet {0,1,2,3} with the output alphabets
    {0,2} and {0,1,3}. *)
Definition ex_lo : quantizer_t :=
  mkQuantizer [0; 1; 2; 3] [0; 2] [0; 0; 2; 2] (Fin (1/4)).

Definition ex_hi : quantizer_t :=
  mkQuantizer [0; 1; 2; 3] [0; 1; 3] [0; 1; 3; 3] (Fin (3/4)).

(** A one-column list after [cond_quantizer_init_column] for the
    alphabet {0}. *)
Definition ex_opened : @cond_quantizer_list_t counter_well :=
  mkCondQuantizerList (wl := counter_well) 1 [Some [0]]
    [Some [None; None]] [Some [Fin 0]] 0.

(** The same list with [ex_lo] and [ex_hi] stored under the context 0. *)
Definition ex_store : @cond_quantizer_list_t counter_well :=
  mkCondQuantizerList (wl := counter_well) 1 [Some [0]]
    [Some [Some ex_lo; Some ex_hi]] [Some [Fin (1/4)]] 0.

(** A two-column list: the column 0 of [ex_store], and a column 1 opened
    for the union {0,1,2,3} of the output alphabets of [ex_lo] and [ex_hi],
    with a low and a high quantizer under each of the four contexts. *)
Definition ex_store2 : @cond_quantizer_list_t counter_well :=
  mkCondQuantizerList (wl := counter_well) 2
    [Some [0]; Some [0; 1; 2; 3]]
    [Some [Some ex_lo; Some ex_hi];
     Some [Some ex_lo; Some ex_hi; Some ex_lo; Some ex_hi;
           Some ex_lo; Some ex_hi; Some ex_lo; Some ex_hi]]
    [Some [Fin (1/4)]; Some [Fin (1/4); Fin (1/4); Fin (1/4); Fin (1/4)]]
    0.

(** The training corpus of four lines of length 3 over {0,1,2,3}, in one
    block, and the conditional PMF list allocated for it. *)
Definition ex_info : quality_file_t :=
  mkQualityFile 3 [[[0; 0; 0]; [0; 1; 0]; [1; 1; 2]; [3; 2; 1]]].

Definition ex_pmf_list : cond_pmf_list_t :=
  alloc_conditional_pmf_list (pops := SpecPmf.ops) [0; 1; 2; 3] 3.

(** An input of [compute_qpmf_list] for column 2 over the alphabet {0,1}.
    Column 1 has the two contexts 0 and 1: under context 0 a low quantizer
    that maps every symbol to 0 and a high one that is the identity, under
    context 1 a low quantizer that maps every symbol to 1 and a high one
    that is the identity, each with the ratio 1/2. *)
Definition ex3_const0 : quantizer_t :=
  mkQuantizer [0; 1] [0] [0; 0] (Fin (1/2)).
Definition ex3_const1 : quantizer_t :=
  mkQuantizer [0; 1] [1] [1; 1] (Fin (1/2)).
Definition ex3_id : quantizer_t :=
  mkQuantizer [0; 1] [0; 1] [0; 1] (Fin (1/2)).

Definition ex3_q_list : @cond_quantizer_list_t counter_well :=
  mkCondQuantizerList (wl := counter_well) 3
    [Some [0]; Some [0; 1]; Some [0; 1]]
    [Some [Some ex3_const0; Some ex3_id];
     Some [Some ex3_const0; Some ex3_id; Some ex3_const1; Some ex3_id];
     Some [None; None; None; None]]
    [Some [Fin (1/2)]; Some [Fin (1/2); Fin (1/2)];
     Some [Fin 0; Fin 0]]
    0.

Definition ex3_half : pmf_t := mkPmf true [Fin (1/2); Fin (1/2)].

(** Uniform conditional PMFs and marginals for three columns. *)
Definition ex3_in_pmfs : cond_pmf_list_t :=
  mkCondPmfList 3 [0; 1]
    [ex3_half; ex3_half; ex3_half; ex3_half; ex3_half]
    (Some [ex3_half; ex3_half; ex3_half]).

(** P(Q_1 | X_1 = x) = (3/4, 1/4) for both [x]. *)
Definition ex3_prev_qpmf_list : pmf_list_t :=
  [mkPmf true [Fin (3/4); Fin (1/4)]; mkPmf true [Fin (3/4); Fin (1/4)]].

Definition ex3_qpmf_list : pmf_list_t :=
  alloc_pmf_list (pops := SpecPmf.ops) 2 [0; 1].

(** A stand-in for the designer of [quantizer.c], whose code is not at
    hand: the quantizer with [states] states that maps a symbol [s] to
    [min(s, states - 1)], with symbols kept below 256. *)
Definition clamp_quantizer (size states : Z) (ratio : double) : quantizer_t :=
  mkQuantizer (zrange 0 size)
    (zrange 0 (Z.min (Z.min states size) 256))
    (map (fun s => Z.min s (Z.min (states - 1) 255)) (zrange 0 size))
    ratio.

Definition clamp_designer : Designer :=
  {| distortion_t := unit;
     generate_quantizer := fun p _ states ratio =>
       (clamp_quantizer (Z.of_nat (length (pmf p))) states ratio, Fin 0) |}.

(** A two-column input over {0,1,2,3} without training lines, whose PMFs
    all hold the probabilities (1/2, 1/4, 0, 1/4), of entropy 1.5 bits. *)
Definition ex7_pmf : pmf_t :=
  mkPmf true [Fin (1/2); Fin (1/4); Fin 0; Fin (1/4)].

Definition ex7_info : quality_file_t := mkQualityFile 2 [].

Definition ex7_in_pmfs : cond_pmf_list_t :=
  mkCondPmfList 2 [0; 1; 2; 3]
    [ex7_pmf; ex7_pmf; ex7_pmf; ex7_pmf; ex7_pmf] None.

(** The statistics of that input: the marginals are the same PMF. *)
Definition ex7_stats : cond_pmf_list_t :=
  mkCondPmfList 2 [0; 1; 2; 3]
    [ex7_pmf; ex7_pmf; ex7_pmf; ex7_pmf; ex7_pmf]
    (Some [ex7_pmf; ex7_pmf]).

(** A one-column list after [cond_quantizer_init_column] for the
    alphabet {5,7}. *)
Definition ex_opened_pair : @cond_quantizer_list_t counter_well :=
  mkCondQuantizerList (wl := counter_well) 1 [Some [5; 7]]
    [Some [None; None; None; None]] [Some [Fin 0; Fin 0]] 0.

(** A list whose ratio for the context 0 is the quotient [0/0]. *)
Definition ex_store_nan : @cond_quantizer_list_t counter_well :=
  mkCondQuantizerList (wl := counter_well) 1 [Some [0]]
    [Some [Some ex_lo; Some ex_hi]] [Some [NaN]] 0.

(** ** The deprecated bit allocator: [find_bit_allocation]
    (codebook.c, 194-272) *)

(** The modes of the [switch].  The macros [BIT_ALLOC_MODE_INT_STATES],
    [BIT_ALLOC_MODE_INT_POWER] and [BIT_ALLOC_MODE_NO_MIX] are defined in a
    header that is not at hand; they are three distinct case labels.  Every
    other value of [mode] is [BIT_ALLOC_MODE_OTHER] and takes the [default]
    branch. *)
Inductive bit_alloc_mode : Type :=
| BIT_ALLOC_MODE_INT_STATES
| BIT_ALLOC_MODE_INT_POWER
| BIT_ALLOC_MODE_NO_MIX
| BIT_ALLOC_MODE_OTHER.

(** [floor(x)] *)
Definition dfloor (d : double) : double :=
  match d with
  | Fin x => Fin (IZR (Rfloor x))
  | _ => d
  end.

(** The body of the loop over the columns (codebook.c, 245-268): the
    values written to [high[i]], [low[i]] and [ratio[i]] for the entropy
    [entropies[i]].  The first case is the body of [find_states] over exact
    arithmetic.  In the second case the two powers have integer exponents
    and are exact, and the two differences and the quotient of the ratio
    are rounded. *)
Definition bit_allocation (mode : bit_alloc_mode) (entropy : double)
  : option states :=
  match mode with
  | BIT_ALLOC_MODE_INT_STATES =>
      let h_lo := dpow2 entropy in
      low <- double_to_uint32 h_lo ;;
      high <- double_to_uint32 (dceil h_lo) ;;
      let h_lo := dlog2 (uint_to_double low) in
      let h_hi := dlog2 (uint_to_double high) in
      Some (mkStates high low (ddiv (dsub entropy h_hi) (dsub h_lo h_hi)))
  | BIT_ALLOC_MODE_INT_POWER =>
      let h_lo := dfloor entropy in
      let h_hi := dceil entropy in
      low <- double_to_uint32 (dpow2 h_lo) ;;
      high <- double_to_uint32 (dpow2 h_hi) ;;
      Some (mkStates high low (fdiv (fsub entropy h_hi) (fsub h_lo h_hi)))
  | BIT_ALLOC_MODE_NO_MIX | BIT_ALLOC_MODE_OTHER =>
      low <- double_to_uint32 (dfloor (dpow2 entropy)) ;;
      Some (mkStates 0 low (Fin 1))
  end.

Section BitAllocation.
Context `{pops : PmfOps}.

(** The unconditional PMFs of the columns (codebook.c, 207-217).  The loop
    over [i] and [j] is the one of [calculate_statistics]. *)
Definition unconditional_pmfs (pmf_list : cond_pmf_list_t)
  : option pmf_list_t :=
  let uc_pmf_list :=
    alloc_pmf_list (cp_columns pmf_list) (cp_alphabet pmf_list) in
  pmf_temp <- get_cond_pmf pmf_list 0 0 ;;
  u0 <- zget uc_pmf_list 0 ;;
  uc0 <- zset uc_pmf_list 0
           (combine_pmfs pmf_temp pmf_temp (Fin 1) (Fin 0) u0) ;;
  ofold (marginal_column pmf_list) (zrange 1 (cp_columns pmf_list)) uc0.

(** [entropies[i]] for a column [i >= 1] (codebook.c, 226-232). *)
Definition accumulate_entropy (pmf_list : cond_pmf_list_t)
  (uc_pmf_list : pmf_list_t) (comp : double) (entropies : list double)
  (i : Z) : option (list double) :=
  pmf_temp <- zget uc_pmf_list (i - 1) ;;
  es <- ofold (fun es j =>
          e <- zget es i ;;
          cj <- get_cond_pmf pmf_list i j ;;
          zset es i (dadd e (dmul (get_probability pmf_temp j)
                                  (get_entropy cj))))
        (zrange 0 (alphabet_size (cp_alphabet pmf_list))) entropies ;;
  e <- zget es i ;;
  zset es i (dmul e comp).

(** The entropies of the columns (codebook.c, 219-232). *)
Definition column_entropies (pmf_list : cond_pmf_list_t)
  (uc_pmf_list : pmf_list_t) (comp : double) : option (list double) :=
  let entropies := repeat (Fin 0) (Z.to_nat (cp_columns pmf_list)) in
  p0 <- get_cond_pmf pmf_list 0 0 ;;
  entropies0 <- zset entropies 0 (dmul (get_entropy p0) comp) ;;
  ofold (accumulate_entropy pmf_list uc_pmf_list comp)
        (zrange 1 (cp_columns pmf_list)) entropies0.

(** The arrays returned through [high_out], [low_out] and [ratio_out]. *)
Record bit_allocation_t : Type := mkBitAllocation {
  ba_high : list Z;
  ba_low : list Z;
  ba_ratio : list double
}.

(** codebook.c, 194-272 *)
Definition find_bit_allocation (pmf_list : cond_pmf_list_t) (comp : double)
  (mode : bit_alloc_mode) : option bit_allocation_t :=
  let n := Z.to_nat (cp_columns pmf_list) in
  let out := mkBitAllocation (repeat 0 n) (repeat 0 n) (repeat (Fin 0) n) in
  uc_pmf_list <- unconditional_pmfs pmf_list ;;
  entropies <- column_entropies pmf_list uc_pmf_list comp ;;
  ofold (fun out i =>
           e <- zget entropies i ;;
           st <- bit_allocation mode e ;;
           high <- zset (ba_high out) i (st_high st) ;;
           low <- zset (ba_low out) i (st_low st) ;;
           ratio <- zset (ba_ratio out) i (st_ratio st) ;;
           Some (mkBitAllocation high low ratio))
        (zrange 0 (cp_columns pmf_list)) out.

(** The entropy of column [i] in closed form: the scaled entropy of the
    unconditional PMF for column 0, and for the others the scaled mean,
    under the unconditional PMF of the column before, of the entropies of
    the conditional PMFs. *)
Definition column_entropy (pmf_list : cond_pmf_list_t)
  (uc_pmf_list : pmf_list_t) (comp : double) (i : Z) : option double :=
  if i =? 0 then
    p0 <- get_cond_pmf pmf_list 0 0 ;;
    Some (dmul (get_entropy p0) comp)
  else
    pmf_temp <- zget uc_pmf_list (i - 1) ;;
    terms <- omap (fun j =>
               cj <- get_cond_pmf pmf_list i j ;;
               Some (dmul (get_probability pmf_temp j) (get_entropy cj)))
             (zrange 0 (alphabet_size (cp_alphabet pmf_list))) ;;
    Some (dmul (dsum terms) comp).

End BitAllocation.

(** A two-column input over {0,1} for the bit allocator: every PMF is
    uniform, of entropy 1 bit. *)
Definition ex_ba_pmfs : cond_pmf_list_t :=
  mkCondPmfList 2 [0; 1] [ex3_half; ex3_half; ex3_half] None.

(** ** The legacy codebooks (codebook.c, 795-924; codebook.h, 74-93) *)

(** Reduction of an integer expression to its [uint8_t] value. *)
Definition u8 (x : Z) : Z := x mod 256.

(** [struct codebook_t].  The arrays [quantizer] and [uniques] are the
    blocks that [init_codebook_array] allocates. *)
Record codebook_t : Type := mkCodebook {
  cb_quantizer : list Z;
  cb_uniques : list Z;
  cb_max_unique_count : Z;
  cb_actual_unique_count : Z;
  cb_bits : Z;
  cb_symbols : Z
}.

(** [#define MAX_CODEBOOK_LINE_LENGTH 4096] *)
Definition MAX_CODEBOOK_LINE_LENGTH : Z := 4096.

(** The buffer [char line[MAX_CODEBOOK_LINE_LENGTH]] of [read_codebook]:
    a byte that was never written is indeterminate, [None]. *)
Definition line_buffer : Type := list (option Z).

(** The characters that [fgets(line, n, fp)] takes from the stream when it
    may store [k = n - 1] of them: up to and including the first newline,
    and the rest of the stream. *)
Fixpoint fgets_chars (k : nat) (fp : file) : list Z * file :=
  match k, fp with
  | S k', b :: rest =>
      if b =? 10 then ([b], rest)
      else let (cs, r) := fgets_chars k' rest in (b :: cs, r)
  | _, _ => ([], fp)
  end.

(** The block [buf] after the bytes [new] are stored at its start. *)
Fixpoint overwrite {A} (buf new : list A) {struct new}
  : option (list A) :=
  match new, buf with
  | [], _ => Some buf
  | x :: new', _ :: buf' =>
      match overwrite buf' new' with
      | Some r => Some (x :: r)
      | None => None
      end
  | _ :: _, [] => None
  end.

(** [fgets(line, MAX_CODEBOOK_LINE_LENGTH, fp)]; the file is open in text
    mode, which on POSIX systems translates nothing.  The characters read
    are stored followed by a null character; at the end of the file nothing
    is read and the buffer is left as it was.  The value returned by
    [fgets] is not looked at by [read_codebook]. *)
Definition fgets (line : line_buffer) (fp : file)
  : option (line_buffer * file) :=
  match fgets_chars (Z.to_nat (MAX_CODEBOOK_LINE_LENGTH - 1)) fp with
  | ([], _) => Some (line, fp)
  | (cs, rest) =>
      line' <- overwrite line (map Some cs ++ [Some 0]) ;;
      Some (line', rest)
  end.

(** [strlen(line)]: undefined when an indeterminate byte or the end of the
    buffer comes before a null character. *)
Fixpoint strlen (line : line_buffer) : option Z :=
  match line with
  | [] => None
  | None :: _ => None
  | Some c :: r =>
      if c =? 0 then Some 0
      else match strlen r with
           | Some n => Some (n + 1)
           | None => None
           end
  end.

(** The [n] bytes that [memcpy(dst, &line[off], n)] reads. *)
Definition line_bytes (line : line_buffer) (off n : Z) : option (list Z) :=
  omap (fun i => c <- zget line (off + i) ;; c) (zrange 0 n).

Section LegacyCodebooks.
Context `{wl : Well}.

(** [cb_log2] is declared in [util.h], which is not at hand; its result
    is stored in the [uint8_t] field [bits]. *)
Variable cb_log2 : Z -> Z.

(** The assignment [state.n = v] to the field [n] of
    [struct well_state_t], declared in [well.h]. *)
Variable well_set_n : well_state_t -> Z -> well_state_t.

(** [struct codebook_list_t].  [high[c]] and [low[c]] are null pointers
    ([None]) until [init_codebook_array] allocates the column. *)
Record codebook_list_t : Type := mkCodebookList {
  cl_high : list (option (list codebook_t));
  cl_low : list (option (list codebook_t));
  cl_ratio : list Z;
  cl_select_count : list Z;
  cl_symbols : Z;
  cl_columns : Z;
  cl_well : well_state_t
}.

(** A codebook fresh from [calloc] with its two arrays of [symbols] zero
    bytes and its field [symbols] set (codebook.c, 881-884 and 889-891). *)
Definition fresh_codebook (symbols : Z) : codebook_t :=
  mkCodebook (repeat 0 (Z.to_nat symbols)) (repeat 0 (Z.to_nat symbols))
    0 0 0 symbols.

(** codebook.c, 877-894 *)
Definition init_codebook_array (cb : list (option (list codebook_t)))
  (symbols columns : Z) : option (list (option (list codebook_t))) :=
  cb0 <- zset cb 0 (Some [fresh_codebook symbols]) ;;
  ofold (fun cb c =>
           zset cb c
             (Some (repeat (fresh_codebook symbols) (Z.to_nat symbols))))
        (zrange 1 columns) cb0.

(** codebook.c, 856-872.  The list is the caller's; of its previous
    contents only the generator state outlives the call. *)
Definition init_codebook_list (lst : codebook_list_t) (symbols columns : Z)
  : option codebook_list_t :=
  let n := Z.to_nat columns in
  high <- init_codebook_array (repeat None n) symbols columns ;;
  low <- init_codebook_array (repeat None n) symbols columns ;;
  Some (mkCodebookList high low (repeat 0 n) (repeat 0 n) symbols columns
          (well_set_n (cl_well lst) 0)).

(** codebook.c, 899-913.  The state of the loop is the array [uniques] and
    the counter [u]. *)
Definition generate_uniques (cb : codebook_t) : option codebook_t :=
  q0 <- zget (cb_quantizer cb) 0 ;;
  un0 <- zset (cb_uniques cb) 0 q0 ;;
  r <- ofold (fun (acc : list Z * Z) s =>
          let (un, u) := acc in
          qs <- zget (cb_quantizer cb) s ;;
          uu <- zget un u ;;
          if negb (qs =? uu) then
            let u' := u8 (u + 1) in
            un' <- zset un u' qs ;;
            Some (un', u')
          else Some (un, u))
        (zrange 1 (cb_symbols cb)) (un0, 0) ;;
  let (un, u) := r in
  let count := u8 (u + 1) in
  Some (mkCodebook (cb_quantizer cb) un (cb_max_unique_count cb) count
          (u8 (cb_log2 count)) (cb_symbols cb)).

(** codebook.c, 918-924.  The result is the codebook that the returned
    pointer designates, an element of the column, and the list with the
    generator state advanced. *)
Definition choose_codebook (lst : codebook_list_t) (column prev_value : Z)
  : option (codebook_t * codebook_list_t) :=
  let (v, w) := well_1024a (cl_well lst) in
  r <- zget (cl_ratio lst) column ;;
  if v mod 100 >=? r then
    count <- zget (cl_select_count lst) column ;;
    counts <- zset (cl_select_count lst) column (u32 (count + 1)) ;;
    col <- zget (cl_high lst) column ;;
    cbs <- col ;;
    cb <- zget cbs prev_value ;;
    Some (cb, mkCodebookList (cl_high lst) (cl_low lst) (cl_ratio lst)
                counts (cl_symbols lst) (cl_columns lst) w)
  else
    col <- zget (cl_low lst) column ;;
    cbs <- col ;;
    cb <- zget cbs prev_value ;;
    Some (cb, mkCodebookList (cl_high lst) (cl_low lst) (cl_ratio lst)
                (cl_select_count lst) (cl_symbols lst) (cl_columns lst) w).

(** [memcpy(cb[column][j].quantizer, &line[off], symbols)] followed by
    [generate_uniques(&cb[column][j])] (codebook.c, 823-824, 827-828,
    834-835 and 840-841). *)
Definition load_codebook (cb : list (option (list codebook_t)))
  (column j : Z) (line : line_buffer) (off symbols : Z)
  : option (list (option (list codebook_t))) :=
  col <- zget cb column ;;
  cbs <- col ;;
  c <- zget cbs j ;;
  bytes <- line_bytes line off symbols ;;
  quantizer <- overwrite (cb_quantizer c) bytes ;;
  c' <- generate_uniques
          (mkCodebook quantizer (cb_uniques c) (cb_max_unique_count c)
             (cb_actual_unique_count c) (cb_bits c) (cb_symbols c)) ;;
  cbs' <- zset cbs j c' ;;
  zset cb column (Some cbs').

(** The loop over [j] that loads the codebooks of one line
    (codebook.c, 833-836 and 839-842). *)
Definition load_line (cb : list (option (list codebook_t))) (column : Z)
  (line : line_buffer) (symbols : Z)
  : option (list (option (list codebook_t))) :=
  ofold (fun cb j => load_codebook cb column j line (u32 (j * symbols))
                       symbols)
        (zrange 0 symbols) cb.

(** The variables of [read_codebook] that the loop over the columns
    changes: the stream, the line buffer and the two arrays of
    codebooks. *)
Record read_state : Type := mkReadState {
  rs_fp : file;
  rs_line : line_buffer;
  rs_low : list (option (list codebook_t));
  rs_high : list (option (list codebook_t))
}.

(** The body of the loop over the columns (codebook.c, 831-843). *)
Definition read_column (symbols : Z) (st : read_state) (column : Z)
  : option read_state :=
  r <- fgets (rs_line st) (rs_fp st) ;;
  let (line, fp) := r in
  low <- load_line (rs_low st) column line symbols ;;
  r <- fgets line fp ;;
  let (line, fp) := r in
  high <- load_line (rs_high st) column line symbols ;;
  Some (mkReadState fp line low high).

(** codebook.c, 795-850.  [fp] is the contents of the file, whose opening
    is taken to succeed; the result is the number of columns returned and
    the list that [cb_list] points to. *)
Definition read_codebook (fp : file) (cb_list : codebook_list_t)
  (symbols : Z) : option (Z * codebook_list_t) :=
  let line := repeat None (Z.to_nat MAX_CODEBOOK_LINE_LENGTH) in
  r <- fgets line fp ;;
  let (line, fp) := r in
  len <- strlen line ;;
  let columns := u32 (len - 1) in
  cb_list <- init_codebook_list cb_list symbols columns ;;
  r <- fgets line fp ;;
  let (line, fp) := r in
  r <- fgets line fp ;;
  let (line, fp) := r in
  ratio <- ofold (fun ratio j =>
             c <- zget line j ;;
             b <- c ;;
             zset ratio j (u8 (b - 33)))
           (zrange 0 columns) (cl_ratio cb_list) ;;
  r <- fgets line fp ;;
  let (line, fp) := r in
  low <- load_codebook (cl_low cb_list) 0 0 line 0 symbols ;;
  r <- fgets line fp ;;
  let (line, fp) := r in
  high <- load_codebook (cl_high cb_list) 0 0 line 0 symbols ;;
  st <- ofold (read_column symbols) (zrange 1 columns)
          (mkReadState fp line low high) ;;
  Some (columns,
        mkCodebookList (rs_high st) (rs_low st) ratio
          (cl_select_count cb_list) (cl_symbols cb_list)
          (cl_columns cb_list) (cl_well cb_list)).

End LegacyCodebooks.

(** The values of a table with each run of equal consecutive values
    reduced to one. *)
Fixpoint runs (l : list Z) : list Z :=
  match l with
  | [] => []
  | x :: r =>
      match r with
      | [] => [x]
      | y :: _ => if x =? y then runs r else x :: runs r
      end
  end.

(** Stand-ins for [cb_log2] and for the assignment to the field [n] of the
    generator state, whose declarations are not at hand: the rounded-up
    binary logarithm, and the replacement of the counter of
    [counter_well]. *)
Definition ex_cb_log2 : Z -> Z := Z.log2_up.

Definition ex_well_set_n : Z -> Z -> Z := fun _ v => v.

(** A legacy codebook of four symbols whose table is the line that
    [write_codebook] writes for [ex_lo], before [generate_uniques]. *)
Definition ex_codebook : codebook_t :=
  mkCodebook [33; 33; 35; 35] [0; 0; 0; 0] 0 0 0 4.

(** A legacy list of one column whose ratio is 100. *)
Definition ex_codebook_list : @codebook_list_t counter_well :=
  mkCodebookList (wl := counter_well)
    [Some [mkCodebook [33; 34; 36; 36] [33; 34; 36; 0] 0 3 2 4]]
    [Some [mkCodebook [33; 33; 35; 35] [33; 35; 0; 0] 0 2 1 4]]
    [100] [0] 4 1 0.

(** ** Vocabulary of the statements about the codebook file *)

(** The symbols of the table of a quantizer are below 223, so that a symbol
    plus 33 is a byte. *)
Definition byte_symbols (qz : quantizer_t) : Prop :=
  Forall (fun s => 0 <= s < 223) (qz_q qz).

(** The legacy codebook of a table of bytes: what [generate_uniques]
    leaves in a zeroed codebook that holds the table. *)
Definition loaded_codebook (cb_log2 : Z -> Z) (symbols : Z)
  (bytes : list Z) : codebook_t :=
  let R := runs bytes in
  mkCodebook bytes (R ++ skipn (length R) (repeat 0 (Z.to_nat symbols)))
    0 (Z.of_nat (length R)) (u8 (cb_log2 (Z.of_nat (length R)))) symbols.

(** An input without columns. *)
Definition ex_no_columns : quality_file_t := mkQualityFile 0 [].

Section CompleteVocabulary.
Context `{wl : Well}.

(** The column [c] is complete: its input alphabet has no duplicates and
    at most [SYMBOL_LIMIT] symbols, and each of its contexts has a low
    quantizer, a high quantizer, and as its ratio the [ratio] field of the
    low quantizer. *)
Definition column_complete (lst : cond_quantizer_list_t) (c : Z) : Prop :=
  exists a,
    zget (input_alphabets lst) c = Some (Some a) /\
    NoDup a /\ alphabet_size a <= SYMBOL_LIMIT /\
    forall idx, 0 <= idx < alphabet_size a ->
      exists lo hi,
        get_cond_quantizer_indexed lst c (2 * idx) = Some (Some lo) /\
        get_cond_quantizer_indexed lst c (2 * idx + 1) = Some (Some hi) /\
        get_ratio lst c idx = Some (qz_ratio lo).

End CompleteVocabulary.

(** ** Vocabulary of the propagated distributions *)

(** [l->pmfs[x]->pmf[idx]] *)
Definition pmf_entry (l : pmf_list_t) (x idx : Z) : option double :=
  p <- zget l x ;; zget (pmf p) idx.

(** What the body of the loops of [compute_qpmf_quan_list] leaves in an
    entry that held [e], for the outputs [lo_x] and [hi_x] of the two
    quantizers and the symbol [q_symbol] of the union (codebook.c,
    306-312). *)
Definition qpmf_quan_entry (ratio : double) (lo_x hi_x q_symbol : Z)
  (e : double) : double :=
  let e1 := if lo_x =? q_symbol then dadd e ratio else e in
  if hi_x =? q_symbol then dadd e1 (dsub (Fin 1) ratio) else e1.

Section XpmfVocabulary.
Context `{pops : PmfOps}.

(** The product that [compute_xpmf_list] adds to
    [xpmf_list->pmfs[idx]->pmf[k]] for the source symbol [x]
    (codebook.c, 393). *)
Definition xpmf_term (qpmf_list : pmf_list_t) (in_pmfs : cond_pmf_list_t)
  (column idx k x : Z) : option double :=
  qx <- zget qpmf_list x ;;
  cx <- get_cond_pmf in_pmfs column x ;;
  marg <- marginal_pmfs in_pmfs ;;
  mx <- zget marg (u32 (column - 1)) ;;
  Some (dmul (dmul (get_probability qx idx) (get_probability cx k))
             (get_probability mx x)).

End XpmfVocabulary.

(** * Properties *)

(** ** Integer parts and powers of two *)

Section RealFacts.
Local Open Scope R_scope.

Lemma Rfloor_bounds x : IZR (Rfloor x) <= x < IZR (Rfloor x) + 1.
Proof.
  unfold Rfloor. destruct (base_Int_part x) as [Hlo Hhi]. split; lra.
Qed.

Lemma Rfloor_unique x n : IZR n <= x < IZR n + 1 -> Rfloor x = n.
Proof.
  intros [Hlo Hhi]. unfold Rfloor. symmetry.
  apply Int_part_spec. split; lra.
Qed.

Lemma Rceil_bounds x : IZR (Rceil x) - 1 < x <= IZR (Rceil x).
Proof.
  unfold Rceil. rewrite opp_IZR.
  destruct (base_Int_part (- x)) as [Hlo Hhi]. split; lra.
Qed.

Lemma Rceil_unique x n : IZR n - 1 < x <= IZR n -> Rceil x = n.
Proof.
  intros [Hlo Hhi]. unfold Rceil.
  assert (E : Int_part (- x) = (- n)%Z).
  { symmetry. apply Int_part_spec. rewrite opp_IZR. split; lra. }
  rewrite E. lia.
Qed.

Lemma Rfloor_IZR n : Rfloor (IZR n) = n.
Proof. apply Rfloor_unique. split; lra. Qed.

Lemma Rfloor_le_Rceil x : (Rfloor x <= Rceil x)%Z.
Proof.
  destruct (Rfloor_bounds x) as [H1 _], (Rceil_bounds x) as [_ H2].
  apply le_IZR. lra.
Qed.

Lemma Rtrunc_nonneg x : 0 <= x -> Rtrunc x = Rfloor x.
Proof. intros Hx. unfold Rtrunc. now destruct (Rle_dec 0 x). Qed.

Lemma Rsign_pos x : 0 < x -> Rsign x = Pos.
Proof.
  intros Hx. unfold Rsign.
  destruct (total_order_T x 0) as [[Hl | He] | Hg]; try reflexivity; lra.
Qed.

Lemma Rsign_neg x : x < 0 -> Rsign x = Neg.
Proof.
  intros Hx. unfold Rsign.
  destruct (total_order_T x 0) as [[Hl | He] | Hg]; try reflexivity; lra.
Qed.

Lemma Rsign_zero x : x = 0 -> Rsign x = Zero.
Proof.
  intros Hx. unfold Rsign.
  destruct (total_order_T x 0) as [[Hl | He] | Hg]; try reflexivity; lra.
Qed.

Lemma ln2_pos : 0 < ln 2.
Proof. pose proof ln_lt_2. lra. Qed.

Lemma Rpower2_ge_1 h : 0 <= h -> 1 <= Rpower 2 h.
Proof.
  intros Hh. destruct Hh as [Hh | <-].
  - left. rewrite <- (Rpower_O 2) by lra. apply Rpower_lt; lra.
  - rewrite Rpower_O; lra.
Qed.

Lemma Rlog2_Rpower h : Rlog2 (Rpower 2 h) = h.
Proof.
  unfold Rlog2, Rpower. rewrite ln_exp. field.
  pose proof ln2_pos. lra.
Qed.

Lemma Rlog2_lt x y : 0 < x -> x < y -> Rlog2 x < Rlog2 y.
Proof.
  intros Hx Hxy. unfold Rlog2.
  apply Rmult_lt_compat_r.
  - apply Rinv_0_lt_compat, ln2_pos.
  - apply ln_increasing; assumption.
Qed.

Lemma Rlog2_1 : Rlog2 1 = 0.
Proof. unfold Rlog2. rewrite ln_1. field. pose proof ln2_pos; lra. Qed.

Lemma Rlog2_2 : Rlog2 2 = 1.
Proof. unfold Rlog2. field. pose proof ln2_pos; lra. Qed.

Lemma Rfloor_mono x y : x <= y -> (Rfloor x <= Rfloor y)%Z.
Proof.
  intros Hxy.
  pose proof (Rfloor_bounds x) as Hx. pose proof (Rfloor_bounds y) as Hy.
  apply Z.lt_succ_r, lt_IZR. rewrite succ_IZR. lra.
Qed.

Lemma Rceil_mono x y : x <= y -> (Rceil x <= Rceil y)%Z.
Proof.
  intros Hxy.
  pose proof (Rceil_bounds x) as Hx. pose proof (Rceil_bounds y) as Hy.
  apply Z.lt_succ_r, lt_IZR. rewrite succ_IZR. lra.
Qed.

Lemma Rceil_le_succ_Rfloor x : (Rceil x <= Rfloor x + 1)%Z.
Proof.
  pose proof (Rfloor_bounds x) as Hx. pose proof (Rceil_bounds x) as Hy.
  apply Z.lt_succ_r, lt_IZR. rewrite succ_IZR, plus_IZR. lra.
Qed.

Lemma Rpower2_pos h : 0 < Rpower 2 h.
Proof. unfold Rpower. apply exp_pos. Qed.

Lemma Rpower2_mono h1 h2 : h1 <= h2 -> Rpower 2 h1 <= Rpower 2 h2.
Proof.
  intros [H | ->]; [| lra]. left. apply Rpower_lt; lra.
Qed.

End RealFacts.

(** ** Rounding to binary64 *)

Section Binary64Facts.
Local Open Scope R_scope.

Lemma Rpower2_Rlog2 x : 0 < x -> Rpower 2 (Rlog2 x) = x.
Proof.
  intros Hx. unfold Rpower, Rlog2.
  replace (ln x / ln 2 * ln 2) with (ln x)
    by (field; pose proof ln2_pos; lra).
  now apply exp_ln.
Qed.

Lemma Rlog2_le x y : 0 < x -> x <= y -> Rlog2 x <= Rlog2 y.
Proof.
  intros Hx [Hxy | ->]; [| lra]. left. now apply Rlog2_lt.
Qed.

Lemma Rpower2_lt h1 h2 : h1 < h2 -> Rpower 2 h1 < Rpower 2 h2.
Proof. intros H. apply Rpower_lt; lra. Qed.

Lemma Rpower2_le h1 h2 : h1 <= h2 -> Rpower 2 h1 <= Rpower 2 h2.
Proof. intros [H | ->]; [| lra]. left. now apply Rpower2_lt. Qed.

Lemma bpow_Rpower e : bpow e = Rpower 2 (IZR e).
Proof. unfold bpow. apply powerRZ_Rpower. lra. Qed.

Lemma bpow_pos e : 0 < bpow e.
Proof. unfold bpow. apply powerRZ_lt. lra. Qed.

Lemma bpow_add a b : bpow (a + b) = bpow a * bpow b.
Proof. unfold bpow. apply powerRZ_add. lra. Qed.

Lemma bpow_opp e : bpow (- e) = / bpow e.
Proof. unfold bpow. apply powerRZ_neg'. Qed.

Lemma bpow_0 : bpow 0 = 1.
Proof. reflexivity. Qed.

Lemma bpow_le a b : (a <= b)%Z -> bpow a <= bpow b.
Proof. intros H. rewrite !bpow_Rpower. apply Rpower2_le. now apply IZR_le. Qed.

Lemma bpow_lt a b : (a < b)%Z -> bpow a < bpow b.
Proof. intros H. rewrite !bpow_Rpower. apply Rpower2_lt. now apply IZR_lt. Qed.

Lemma bpow_lt_inv a b : bpow a < bpow b -> (a < b)%Z.
Proof.
  intros H. destruct (Z.lt_ge_cases a b) as [Hlt | Hge]; [exact Hlt |].
  pose proof (bpow_le b a Hge). lra.
Qed.

Lemma bpow_IZR e : (0 <= e)%Z -> bpow e = IZR (2 ^ e).
Proof.
  intros He. unfold bpow. destruct e as [| p | p]; [reflexivity | | lia].
  cbn [powerRZ]. rewrite pow_IZR, positive_nat_Z. reflexivity.
Qed.

Lemma bpow_cancel e : bpow e * bpow (- e) = 1.
Proof. rewrite <- bpow_add. replace (e + - e)%Z with 0%Z by lia. reflexivity. Qed.

(** The binade of a positive real. *)
Lemma binade_bounds x :
  0 < x ->
  bpow (Rfloor (Rlog2 x)) <= x < bpow (Rfloor (Rlog2 x) + 1).
Proof.
  intros Hx. pose proof (Rfloor_bounds (Rlog2 x)) as [Hlo Hhi].
  rewrite !bpow_Rpower, plus_IZR.
  rewrite <- (Rpower2_Rlog2 x Hx) at 2 3.
  split; [now apply Rpower2_le | now apply Rpower2_lt].
Qed.

Lemma binade_unique x k :
  bpow k <= x < bpow (k + 1) -> Rfloor (Rlog2 x) = k.
Proof.
  intros [Hlo Hhi]. pose proof (bpow_pos k) as Hk.
  apply Rfloor_unique. rewrite !bpow_Rpower, plus_IZR in *.
  split.
  - rewrite <- (Rlog2_Rpower (IZR k)). apply Rlog2_le; lra.
  - rewrite <- (Rlog2_Rpower (IZR k + 1)). apply Rlog2_lt; lra.
Qed.

(** The nearest integer. *)
Lemma nearest_even_IZR n : nearest_even (IZR n) = n.
Proof.
  unfold nearest_even. rewrite Rfloor_IZR.
  destruct (total_order_T (IZR n - IZR n) (1/2)) as [[H | H] | H];
    [reflexivity | lra | lra].
Qed.

Lemma nearest_even_cases m :
  nearest_even m = Rfloor m \/ nearest_even m = (Rfloor m + 1)%Z.
Proof.
  unfold nearest_even.
  destruct (total_order_T _ _) as [[H | H] | H]; auto.
  destruct (Z.even _); auto.
Qed.

Lemma nearest_even_error m : Rabs (IZR (nearest_even m) - m) <= 1/2.
Proof.
  pose proof (Rfloor_bounds m) as Hf. unfold nearest_even.
  destruct (total_order_T _ _) as [[H | H] | H].
  - apply Rabs_le. lra.
  - destruct (Z.even _); [| rewrite plus_IZR]; apply Rabs_le; lra.
  - rewrite plus_IZR. apply Rabs_le. lra.
Qed.

Lemma nearest_even_le_int m j : m <= IZR j -> (nearest_even m <= j)%Z.
Proof.
  intros Hm. pose proof (Rfloor_bounds m) as Hf.
  assert (Hfj : (Rfloor m <= j)%Z) by (apply le_IZR; lra).
  destruct (Z.eq_dec (Rfloor m) j) as [E | Hne].
  - assert (Em : m = IZR j) by (rewrite E in Hf; lra).
    rewrite Em, nearest_even_IZR. lia.
  - destruct (nearest_even_cases m) as [-> | ->]; lia.
Qed.

Lemma nearest_even_ge_int m j : IZR j <= m -> (j <= nearest_even m)%Z.
Proof.
  intros Hm. pose proof (Rfloor_bounds m) as Hf.
  assert (Hfj : (j <= Rfloor m)%Z).
  { apply Z.lt_succ_r, lt_IZR. rewrite succ_IZR. lra. }
  destruct (nearest_even_cases m) as [-> | ->]; lia.
Qed.

Lemma nearest_even_mono m m' :
  m <= m' -> (nearest_even m <= nearest_even m')%Z.
Proof.
  intros Hm.
  pose proof (Rfloor_bounds m) as Hf. pose proof (Rfloor_bounds m') as Hf'.
  pose proof (Rfloor_mono m m' Hm) as Hff.
  destruct (Z.eq_dec (Rfloor m) (Rfloor m')) as [E | Hne].
  - unfold nearest_even. rewrite <- E.
    destruct (total_order_T (m - IZR (Rfloor m)) (1/2)) as [[H | H] | H];
      destruct (total_order_T (m' - IZR (Rfloor m)) (1/2))
        as [[H' | H'] | H'];
      try destruct (Z.even (Rfloor m)); try lia; lra.
  - destruct (nearest_even_cases m) as [-> | ->];
      destruct (nearest_even_cases m') as [-> | ->]; lia.
Qed.

Lemma bpow_m1 : bpow (-1) = 1/2.
Proof.
  unfold bpow, powerRZ. cbv [Pos.to_nat Pos.iter_op Init.Nat.add].
  simpl pow. lra.
Qed.

Lemma bpow_1 : bpow 1 = 2.
Proof.
  unfold bpow, powerRZ. cbv [Pos.to_nat Pos.iter_op Init.Nat.add].
  simpl pow. lra.
Qed.

(** The rounding of a positive real. *)
Lemma bpow_half e : bpow e / 2 = bpow (e - 1).
Proof.
  replace (e - 1)%Z with (e + -1)%Z by lia. rewrite bpow_add, bpow_m1.
  field.
Qed.

Lemma scaled_back x e : x * bpow (- e) * bpow e = x.
Proof.
  rewrite Rmult_assoc, Rmult_comm with (r1 := bpow (- e)), bpow_cancel. lra.
Qed.

Lemma round_value_error x :
  Rabs (round_value x - x) <= bpow (ulp_exponent x) / 2.
Proof.
  unfold round_value. set (e := ulp_exponent x).
  set (m := x * bpow (- e)).
  pose proof (bpow_pos e) as He.
  replace (IZR (nearest_even m) * bpow e - x)
    with ((IZR (nearest_even m) - m) * bpow e)
    by (unfold m; rewrite Rmult_minus_distr_r, scaled_back; reflexivity).
  rewrite Rabs_mult, (Rabs_pos_eq (bpow e)) by lra.
  pose proof (nearest_even_error m). nra.
Qed.

Lemma ulp_exponent_bound x :
  0 < x -> bpow (ulp_exponent x) / 2 <= bpow (-53) * x + bpow (-1075).
Proof.
  intros Hx. pose proof (binade_bounds x Hx) as [Hlo _].
  unfold ulp_exponent. set (k := Rfloor (Rlog2 x)) in *.
  rewrite bpow_half. pose proof (bpow_pos (-53)). pose proof (bpow_pos (-1075)).
  destruct (Z.max_spec k (-1022)) as [[Hk ->] | [Hk ->]].
  - change (-1022 - 52 - 1)%Z with (-1075)%Z. nra.
  - replace (k - 52 - 1)%Z with (-53 + k)%Z by lia. rewrite bpow_add. nra.
Qed.

Lemma scaled_nonneg x e : 0 < x -> 0 < x * bpow (- e).
Proof. intros Hx. apply Rmult_lt_0_compat; [exact Hx | apply bpow_pos]. Qed.

Lemma round_value_nonneg x : 0 < x -> 0 <= round_value x.
Proof.
  intros Hx. unfold round_value.
  apply Rmult_le_pos; [| left; apply bpow_pos].
  apply IZR_le with (n := 0%Z). apply nearest_even_ge_int.
  left. now apply scaled_nonneg.
Qed.

Lemma round_value_grid n g :
  (0 < n < 2 ^ 53)%Z -> (-1074 <= g)%Z ->
  round_value (IZR n * bpow g) = IZR n * bpow g.
Proof.
  intros [Hn0 Hn] Hg. pose proof (bpow_pos g) as Hbg.
  assert (Hx : 0 < IZR n * bpow g).
  { apply Rmult_lt_0_compat; [now apply IZR_lt with (n := 0%Z) | exact Hbg]. }
  pose proof (binade_bounds _ Hx) as [Hlo _].
  unfold round_value, ulp_exponent.
  set (k := Rfloor (Rlog2 (IZR n * bpow g))) in *.
  assert (Hk : (k < 53 + g)%Z).
  { apply bpow_lt_inv. rewrite bpow_add, (bpow_IZR 53) by lia.
    apply Rle_lt_trans with (1 := Hlo).
    apply Rmult_lt_compat_r; [exact Hbg | now apply IZR_lt]. }
  set (e := (Z.max k (-1022) - 52)%Z).
  assert (He : (e <= g)%Z) by (unfold e; lia).
  assert (Em : IZR n * bpow g * bpow (- e) = IZR (n * 2 ^ (g - e))).
  { rewrite mult_IZR, <- bpow_IZR by lia.
    replace (g - e)%Z with (g + - e)%Z by lia. rewrite bpow_add. ring. }
  rewrite Em, nearest_even_IZR, <- Em. apply scaled_back.
Qed.

Lemma round_value_ge_bpow x :
  0 < x -> (-1074 <= Rfloor (Rlog2 x))%Z ->
  bpow (Rfloor (Rlog2 x)) <= round_value x.
Proof.
  intros Hx Hk. pose proof (binade_bounds x Hx) as [Hlo _].
  unfold round_value, ulp_exponent. set (k := Rfloor (Rlog2 x)) in *.
  set (e := (Z.max k (-1022) - 52)%Z).
  assert (He : (e <= k)%Z) by (unfold e; lia).
  pose proof (bpow_pos e) as Hbe. pose proof (bpow_pos (- e)) as Hbe'.
  assert (Hm : IZR (2 ^ (k - e)) <= x * bpow (- e)).
  { rewrite <- bpow_IZR by lia.
    replace (k - e)%Z with (k + - e)%Z by lia. rewrite bpow_add. nra. }
  apply nearest_even_ge_int, IZR_le in Hm.
  replace (bpow k) with (IZR (2 ^ (k - e)) * bpow e).
  - nra.
  - rewrite <- bpow_IZR, <- bpow_add by lia. f_equal. lia.
Qed.

Lemma round_value_le_bpow x :
  0 < x -> (-1075 <= Rfloor (Rlog2 x))%Z ->
  round_value x <= bpow (Rfloor (Rlog2 x) + 1).
Proof.
  intros Hx Hk. pose proof (binade_bounds x Hx) as [_ Hhi].
  unfold round_value, ulp_exponent. set (k := Rfloor (Rlog2 x)) in *.
  set (e := (Z.max k (-1022) - 52)%Z).
  assert (He : (e <= k + 1)%Z) by (unfold e; lia).
  pose proof (bpow_pos e) as Hbe. pose proof (bpow_pos (- e)) as Hbe'.
  assert (Hm : x * bpow (- e) <= IZR (2 ^ (k + 1 - e))).
  { rewrite <- bpow_IZR by lia.
    replace (k + 1 - e)%Z with (k + 1 + - e)%Z by lia. rewrite bpow_add. nra. }
  apply nearest_even_le_int, IZR_le in Hm.
  replace (bpow (k + 1)) with (IZR (2 ^ (k + 1 - e)) * bpow e).
  - nra.
  - rewrite <- bpow_IZR, <- bpow_add by lia. f_equal. lia.
Qed.

Lemma round_value_tiny x :
  0 < x -> (Rfloor (Rlog2 x) < -1075)%Z -> round_value x = 0.
Proof.
  intros Hx Hk. pose proof (binade_bounds x Hx) as [_ Hhi].
  unfold round_value, ulp_exponent. set (k := Rfloor (Rlog2 x)) in *.
  replace (Z.max k (-1022) - 52)%Z with (-1074)%Z by lia.
  set (m := x * bpow (- -1074)).
  assert (Hm0 : 0 < m) by now apply scaled_nonneg.
  assert (Hm1 : m < 1/2).
  { unfold m. pose proof (bpow_pos (- -1074)).
    apply Rlt_le_trans with (bpow (k + 1) * bpow (- -1074)); [nra |].
    rewrite <- bpow_add, <- bpow_m1. apply bpow_le. lia. }
  assert (Ef : Rfloor m = 0%Z) by (apply Rfloor_unique; lra).
  unfold nearest_even. rewrite Ef.
  destruct (total_order_T (m - 0) (1/2)) as [[H | H] | H]; [lra | lra | lra].
Qed.

Lemma round_value_mono x x' :
  0 < x -> x <= x' -> round_value x <= round_value x'.
Proof.
  intros Hx Hxx'. assert (Hx' : 0 < x') by lra.
  pose proof (Rfloor_mono _ _ (Rlog2_le x x' Hx Hxx')) as Hkk'.
  destruct (Z.eq_dec (Rfloor (Rlog2 x)) (Rfloor (Rlog2 x'))) as [E | Hne].
  - unfold round_value, ulp_exponent. rewrite <- E.
    set (e := (Z.max (Rfloor (Rlog2 x)) (-1022) - 52)%Z).
    pose proof (bpow_pos e). pose proof (bpow_pos (- e)).
    apply Rmult_le_compat_r; [lra |].
    apply IZR_le, nearest_even_mono. nra.
  - destruct (Z.lt_ge_cases (Rfloor (Rlog2 x)) (-1075)) as [Ht | Ht].
    + rewrite (round_value_tiny x Hx Ht). now apply round_value_nonneg.
    + apply Rle_trans with (1 := round_value_le_bpow x Hx Ht).
      apply Rle_trans with (2 := round_value_ge_bpow x' Hx' ltac:(lia)).
      apply bpow_le. lia.
Qed.

(** The integer that [round_value] multiplies by the last place has at
    most 53 bits, or is [2^53]. *)
Lemma round_value_representable x :
  0 < x ->
  round_value x = 0 \/
  exists n g, (0 < n < 2 ^ 53)%Z /\ (-1074 <= g)%Z /\
              round_value x = IZR n * bpow g.
Proof.
  intros Hx. pose proof (binade_bounds x Hx) as [_ Hhi].
  destruct (Z.lt_ge_cases (Rfloor (Rlog2 x)) (-1075)) as [Ht | Ht];
    [left; now apply round_value_tiny |].
  unfold round_value, ulp_exponent. set (k := Rfloor (Rlog2 x)) in *.
  set (e := (Z.max k (-1022) - 52)%Z). set (m := x * bpow (- e)).
  assert (He : (-1074 <= e)%Z) by (unfold e; lia).
  assert (Hm0 : (0 <= nearest_even m)%Z).
  { apply nearest_even_ge_int. left. now apply scaled_nonneg. }
  assert (Hm1 : (nearest_even m <= 2 ^ 53)%Z).
  { apply nearest_even_le_int. rewrite <- bpow_IZR by lia. unfold m.
    pose proof (bpow_pos (- e)).
    apply Rle_trans with (bpow (k + 1) * bpow (- e)); [nra |].
    rewrite <- bpow_add. apply bpow_le. unfold e. lia. }
  destruct (Z.eq_dec (nearest_even m) 0) as [E0 | Hn0];
    [left; rewrite E0; lra |].
  right. destruct (Z.eq_dec (nearest_even m) (2 ^ 53)) as [E | Hn].
  - exists (2 ^ 52)%Z, (e + 1)%Z. split; [lia |]. split; [lia |].
    rewrite E, bpow_add, <- !bpow_IZR by lia.
    replace (bpow 53) with (bpow 52 * bpow 1); [ring |].
    rewrite <- bpow_add. reflexivity.
  - exists (nearest_even m), e. split; [lia |]. split; [lia | reflexivity].
Qed.

(** Rounding proper. *)
Lemma round_pos_fin x y :
  round_pos x = Fin y -> y = round_value x /\ round_value x < bpow 1024.
Proof.
  unfold round_pos. destruct (Rlt_dec _ _) as [H | H]; [| discriminate].
  intros E. injection E as <-. auto.
Qed.

Lemma round_pos_small x :
  0 < x -> x < bpow 1023 -> round_pos x = Fin (round_value x).
Proof.
  intros Hx Hmax. unfold round_pos.
  destruct (Rlt_dec _ _) as [H | H]; [reflexivity |]. exfalso. apply H.
  pose proof (binade_bounds x Hx) as [Hlo _].
  assert (Hk : (Rfloor (Rlog2 x) < 1023)%Z)
    by (apply bpow_lt_inv; lra).
  destruct (Z.lt_ge_cases (Rfloor (Rlog2 x)) (-1075)) as [Ht | Ht].
  - rewrite (round_value_tiny x Hx Ht). apply bpow_pos.
  - apply Rle_lt_trans with (1 := round_value_le_bpow x Hx Ht).
    apply bpow_lt. lia.
Qed.

Lemma round_0 : round 0 = Fin 0.
Proof. unfold round. now rewrite Rsign_zero. Qed.

Lemma round_of_pos x : 0 < x -> round x = round_pos x.
Proof. intros Hx. unfold round. now rewrite Rsign_pos. Qed.

Lemma round_of_neg x : x < 0 -> round x = dopp (round_pos (- x)).
Proof. intros Hx. unfold round. now rewrite Rsign_neg. Qed.

Lemma round_opp x : round (- x) = dopp (round x).
Proof.
  destruct (Rtotal_order x 0) as [H | [-> | H]].
  - rewrite round_of_pos, (round_of_neg x) by lra.
    now destruct (round_pos (- x)) as [y | | |]; cbn; rewrite ?Ropp_involutive.
  - rewrite Ropp_0, round_0. cbn. now rewrite Ropp_0.
  - rewrite round_of_neg, (round_of_pos x), Ropp_involutive by lra.
    reflexivity.
Qed.

(** The value of [round x], when it is a number. *)
Lemma round_fin x y :
  round x = Fin y ->
  (x = 0 /\ y = 0) \/
  (0 < x /\ y = round_value x /\ round_value x < bpow 1024) \/
  (x < 0 /\ y = - round_value (- x) /\ round_value (- x) < bpow 1024).
Proof.
  intros E. destruct (Rtotal_order x 0) as [H | [-> | H]].
  - right. right. rewrite round_of_neg in E by exact H.
    destruct (round_pos (- x)) as [z | | |] eqn:Ez; try discriminate.
    injection E as <-. apply round_pos_fin in Ez as [-> Hz]. auto.
  - left. rewrite round_0 in E. injection E as <-. auto.
  - right. left. rewrite round_of_pos in E by exact H.
    apply round_pos_fin in E as [-> Hz]. auto.
Qed.

Lemma round_error x y :
  round x = Fin y ->
  Rabs (y - x) <= bpow (-53) * Rabs x + bpow (-1075).
Proof.
  intros E. pose proof (bpow_pos (-1075)).
  destruct (round_fin x y E) as [[-> ->] | [[Hx [-> _]] | [Hx [-> _]]]].
  - rewrite Rminus_0_r, Rabs_R0. lra.
  - rewrite (Rabs_pos_eq x) by lra.
    apply Rle_trans with (1 := round_value_error x).
    now apply ulp_exponent_bound.
  - rewrite (Rabs_left x) by lra.
    replace (- round_value (- x) - x) with (- (round_value (- x) - - x))
      by ring.
    rewrite Rabs_Ropp.
    apply Rle_trans with (1 := round_value_error (- x)).
    apply ulp_exponent_bound. lra.
Qed.

Lemma round_finite x :
  Rabs x < bpow 1023 -> exists y, round x = Fin y.
Proof.
  intros Hmax. destruct (Rtotal_order x 0) as [H | [-> | H]].
  - rewrite Rabs_left in Hmax by exact H.
    rewrite round_of_neg, round_pos_small by lra. cbn. eauto.
  - rewrite round_0. eauto.
  - rewrite Rabs_pos_eq in Hmax by lra.
    rewrite round_of_pos, round_pos_small by lra. eauto.
Qed.

Lemma round_mono x x' y y' :
  x <= x' -> round x = Fin y -> round x' = Fin y' -> y <= y'.
Proof.
  intros Hxx' E E'.
  destruct (round_fin x y E) as [[-> ->] | [[Hx [-> _]] | [Hx [-> _]]]];
    destruct (round_fin x' y' E')
      as [[-> ->] | [[Hx' [-> _]] | [Hx' [-> _]]]];
    try lra.
  - now apply round_value_nonneg.
  - now apply round_value_mono.
  - pose proof (round_value_nonneg (- x) ltac:(lra)). lra.
  - pose proof (round_value_nonneg (- x) ltac:(lra)).
    pose proof (round_value_nonneg x' Hx'). lra.
  - pose proof (round_value_mono (- x') (- x) ltac:(lra) ltac:(lra)). lra.
Qed.

Lemma representable_0 : representable 0.
Proof. exact round_0. Qed.

Lemma representable_opp x : representable x -> representable (- x).
Proof. unfold representable. intros E. now rewrite round_opp, E. Qed.

Lemma representable_grid n g :
  (0 < n < 2 ^ 53)%Z -> (-1074 <= g)%Z ->
  IZR n * bpow g < bpow 1024 ->
  representable (IZR n * bpow g).
Proof.
  intros Hn Hg Hmax. pose proof (bpow_pos g).
  assert (Hx : 0 < IZR n * bpow g).
  { apply Rmult_lt_0_compat; [apply IZR_lt with (n := 0%Z); lia | lra]. }
  unfold representable. rewrite round_of_pos by exact Hx.
  unfold round_pos. rewrite (round_value_grid n g Hn Hg).
  now destruct (Rlt_dec _ _).
Qed.

Lemma representable_IZR n : (Z.abs n < 2 ^ 53)%Z -> representable (IZR n).
Proof.
  intros Hn.
  assert (Hpos : forall m, (0 < m < 2 ^ 53)%Z -> representable (IZR m)).
  { intros m Hm. rewrite <- (Rmult_1_r (IZR m)), <- bpow_0.
    apply representable_grid; [exact Hm | lia |].
    rewrite bpow_0, Rmult_1_r, (bpow_IZR 1024) by lia.
    apply IZR_lt. 
    apply Z.lt_trans with (2 ^ 53)%Z; [lia |].
    apply Z.pow_lt_mono_r; lia. }
  destruct (Z.lt_trichotomy n 0) as [H | [-> | H]].
  - replace n with (- - n)%Z by lia. rewrite opp_IZR.
    apply representable_opp, Hpos. lia.
  - apply representable_0.
  - apply Hpos. lia.
Qed.

Lemma round_representable x y : round x = Fin y -> representable y.
Proof.
  intros E.
  assert (Hpos : forall t, 0 < t -> round_value t < bpow 1024 ->
            representable (round_value t)).
  { intros t Ht Hmax.
    destruct (round_value_representable t Ht)
      as [-> | (n & g & Hn & Hg & En)]; [apply representable_0 |].
    rewrite En in *. now apply representable_grid. }
  destruct (round_fin x y E) as [[-> ->] | [[Hx [-> Hm]] | [Hx [-> Hm]]]].
  - apply representable_0.
  - now apply Hpos.
  - apply representable_opp, Hpos; [lra | exact Hm].
Qed.

Lemma round_faithful t y : round t = Fin y -> faithful t (Fin y).
Proof.
  intros E. exists y. split; [reflexivity |].
  split; [now apply (round_representable t) |].
  intros z Hz. split; intros H.
  - now apply (round_mono z t z y).
  - now apply (round_mono t z y z).
Qed.

(** A faithful rounding of a real in the range of the normal numbers is
    off by at most one unit in the last place. *)
Lemma faithful_error t y :
  bpow (-1022) <= t -> t < bpow 1023 ->
  faithful t (Fin y) ->
  Rabs (y - t) <= bpow (-52) * t.
Proof.
  intros Hmin Hmax (y' & E & _ & Hord). injection E as <-.
  pose proof (bpow_pos (-1022)).
  assert (Ht : 0 < t) by lra.
  pose proof (binade_bounds t Ht) as [Hlo Hhi].
  set (k := Rfloor (Rlog2 t)) in *.
  assert (Hk1 : (-1022 <= k)%Z).
  { apply Z.lt_succ_r, bpow_lt_inv.
    replace (Z.succ k) with (k + 1)%Z by lia. lra. }
  assert (Hk2 : (k < 1023)%Z) by (apply bpow_lt_inv; lra).
  set (e := (k - 52)%Z).
  pose proof (bpow_pos e) as Hbe. pose proof (bpow_pos (- e)) as Hbe'.
  set (m := t * bpow (- e)).
  pose proof (Rfloor_bounds m) as Hf.
  assert (Hm1 : IZR (2 ^ 52) <= m).
  { rewrite <- bpow_IZR by lia. unfold m.
    replace 52%Z with (k + - e)%Z by (unfold e; lia).
    rewrite bpow_add. nra. }
  assert (Hm2 : m < IZR (2 ^ 53)).
  { rewrite <- bpow_IZR by lia. unfold m.
    replace 53%Z with (k + 1 + - e)%Z by (unfold e; lia).
    rewrite bpow_add. nra. }
  assert (Hf1 : (2 ^ 52 <= Rfloor m)%Z).
  { rewrite <- (Rfloor_IZR (2 ^ 52)). now apply Rfloor_mono. }
  assert (Hf2 : (Rfloor m < 2 ^ 53)%Z) by (apply lt_IZR; lra).
  assert (Et : m * bpow e = t) by apply scaled_back.
  assert (Hb1024 : bpow 1023 < bpow 1024) by (apply bpow_lt; lia).
  assert (Hz1 : representable (IZR (Rfloor m) * bpow e)).
  { apply representable_grid; [lia | unfold e; lia | nra]. }
  assert (Hz2 : representable (IZR (Rfloor m + 1) * bpow e)).
  { destruct (Z.eq_dec (Rfloor m + 1) (2 ^ 53)) as [E | Hne].
    - replace (IZR (Rfloor m + 1) * bpow e)
        with (IZR (2 ^ 52) * bpow (e + 1)).
      + apply representable_grid; [lia | unfold e; lia |].
        rewrite <- bpow_IZR, <- bpow_add by lia.
        apply bpow_lt. unfold e. lia.
      + rewrite E, <- !bpow_IZR, <- !bpow_add by lia. f_equal. lia.
    - apply representable_grid; [lia | unfold e; lia |].
      rewrite plus_IZR.
      apply Rle_lt_trans with (IZR (2 ^ 53) * bpow e).
      + apply Rmult_le_compat_r; [lra |].
        rewrite <- plus_IZR. apply IZR_le. lia.
      + rewrite <- bpow_IZR, <- bpow_add by lia.
        apply bpow_lt. unfold e. lia. }
  destruct (Hord _ Hz1) as [L1 _]. destruct (Hord _ Hz2) as [_ L2].
  rewrite plus_IZR in L2.
  specialize (L1 ltac:(nra)). specialize (L2 ltac:(nra)).
  assert (Ee : bpow e = bpow (-52) * bpow k).
  { rewrite <- bpow_add. f_equal. unfold e. lia. }
  pose proof (bpow_pos (-52)).
  apply Rabs_le. nra.
Qed.

End Binary64Facts.

(** ** The bit allocator *)

Section FindStates.
Local Open Scope R_scope.

(** What [find_states] computes for a finite, non-negative entropy whose
    power of two fits [uint32_t]. *)
Lemma find_states_finite h :
  0 <= h ->
  (Rceil (Rpower 2 h) < U32.modulus)%Z ->
  find_states (Fin h) =
    Some (mkStates (Rceil (Rpower 2 h)) (Rfloor (Rpower 2 h))
            (ddiv (Fin (h + - Rlog2 (IZR (Rceil (Rpower 2 h)))))
                  (Fin (Rlog2 (IZR (Rfloor (Rpower 2 h)))
                        + - Rlog2 (IZR (Rceil (Rpower 2 h))))))).
Proof.
  intros Hh Hfit.
  pose proof (Rpower2_ge_1 h Hh) as Hp.
  set (p := Rpower 2 h) in *.
  pose proof (Rfloor_bounds p) as Hf.
  pose proof (Rceil_bounds p) as Hc.
  pose proof (Rfloor_le_Rceil p) as Hfc.
  assert (Hf1 : (1 <= Rfloor p)%Z).
  { apply Z.lt_succ_r, lt_IZR. rewrite succ_IZR. lra. }
  unfold find_states, dpow2, double_to_uint32. fold p.
  rewrite Rtrunc_nonneg by lra.
  replace ((0 <=? Rfloor p)%Z && (Rfloor p <? U32.modulus)%Z)%bool
    with true
    by (symmetry; apply andb_true_intro; split;
        [apply Z.leb_le | apply Z.ltb_lt]; lia).
  cbn [dceil].
  rewrite Rtrunc_nonneg
    by (apply IZR_le with (n := 0%Z); lia).
  rewrite Rfloor_IZR.
  replace ((0 <=? Rceil p)%Z && (Rceil p <? U32.modulus)%Z)%bool
    with true
    by (symmetry; apply andb_true_intro; split;
        [apply Z.leb_le | apply Z.ltb_lt]; lia).
  unfold uint_to_double, dlog2.
  rewrite !Rsign_pos by (apply IZR_lt with (n := 0%Z); lia).
  reflexivity.
Qed.

Lemma find_states_some h st :
  0 <= h -> find_states (Fin h) = Some st ->
  (Rceil (Rpower 2 h) < U32.modulus)%Z.
Proof.
  intros Hh. unfold find_states, dpow2, double_to_uint32.
  destruct (_ && _)%bool; [| discriminate].
  cbn [dceil].
  pose proof (Rceil_bounds (Rpower 2 h)) as Hc.
  pose proof (Rpower2_ge_1 h Hh) as Hp.
  assert (Hc0 : (0 <= Rceil (Rpower 2 h))%Z) by (apply le_IZR; lra).
  rewrite Rtrunc_nonneg by (apply IZR_le with (n := 0%Z); lia).
  rewrite Rfloor_IZR.
  destruct (_ && _)%bool eqn:E; [| discriminate].
  intros _. apply andb_prop in E. destruct E as [_ E].
  now apply Z.ltb_lt in E.
Qed.

End FindStates.

Section FindStatesTheorems.
Local Open Scope R_scope.

(** A target strictly between 0 and 1 bit: one low state, two high
    states, and the ratio [1 - h]. *)
Lemma find_states_below_one_bit h :
  0 < h < 1 ->
  find_states (Fin h) = Some (mkStates 2 1 (Fin (1 - h))).
Proof.
  intros [H0 H1].
  assert (Hlo : 1 < Rpower 2 h).
  { rewrite <- (Rpower_O 2) by lra. apply Rpower_lt; lra. }
  assert (Hhi : Rpower 2 h < 2).
  { rewrite <- (Rpower_1 2) at 2 by lra. apply Rpower_lt; lra. }
  assert (Ef : Rfloor (Rpower 2 h) = 1%Z) by (apply Rfloor_unique; lra).
  assert (Ec : Rceil (Rpower 2 h) = 2%Z) by (apply Rceil_unique; lra).
  rewrite find_states_finite; [| lra | rewrite Ec; reflexivity].
  rewrite Ef, Ec, Rlog2_1, Rlog2_2.
  unfold ddiv. rewrite Rsign_neg by lra.
  do 3 f_equal. field.
Qed.

(** C6.  At the target entropy 0 the allocator yields one low and one high
    state, and the ratio it returns is the quotient [0/0], not 1. *)
Theorem find_states_zero_entropy :
  find_states (Fin 0) = Some (mkStates 1 1 NaN).
Proof.
  assert (Ef : Rfloor (Rpower 2 0) = 1%Z).
  { apply Rfloor_unique. rewrite Rpower_O; lra. }
  assert (Ec : Rceil (Rpower 2 0) = 1%Z).
  { apply Rceil_unique. rewrite Rpower_O; lra. }
  rewrite find_states_finite; [| lra | rewrite Ec; reflexivity].
  rewrite Ef, Ec, Rlog2_1.
  unfold ddiv. rewrite !Rsign_zero by lra. reflexivity.
Qed.

(** C7, as stated, fails: at the target [1.5 * 0.5] the allocator does not
    yield two low and three high states. *)
Lemma find_states_three_quarters_not_2_3 :
  ~ exists st, find_states (dmul (Fin (3/2)) (Fin (1/2))) = Some st /\
               st_low st = 2%Z /\ st_high st = 3%Z.
Proof.
  intros [st [Hst [Hlow _]]].
  cbn [dmul] in Hst.
  rewrite find_states_below_one_bit in Hst by lra.
  injection Hst as <-. discriminate Hlow.
Qed.

End FindStatesTheorems.

(** ** The bit allocator in binary64 arithmetic *)

Section MixingError.
Local Open Scope R_scope.

Lemma Rabs_le_inv a b : Rabs a <= b -> - b <= a <= b.
Proof.
  unfold Rabs. destruct (Rcase_abs a); intros H; lra.
Qed.

Lemma Rabs_mult_le a b A B :
  Rabs a <= A -> Rabs b <= B -> Rabs (a * b) <= A * B.
Proof.
  intros Ha Hb. rewrite Rabs_mult.
  pose proof (Rabs_pos a). pose proof (Rabs_pos b).
  apply Rmult_le_compat; assumption.
Qed.

(** The error of the mixing identity, from the errors of the six rounded
    operations.  [g] is the distance of the two exact logarithms, [x] the
    distance of the target from the greater one, [ea] and [eb] the errors
    of the library on the two logarithms, [n] and [d] the rounded
    differences and [r] the rounded quotient; [u] is half the relative
    distance of binary64 numbers and [eta] half the least of them. *)
Lemma mixing_error (g x ea eb n d r u eta : R) :
  u = / 9007199254740992 ->
  0 <= eta <= / 1267650600228229401496703205376 ->
  / 4294967296 <= g <= 1 ->
  0 <= x <= g ->
  Rabs ea <= 64 * u -> Rabs eb <= 64 * u ->
  Rabs (n - (- x - ea)) <= u * Rabs (- x - ea) + eta ->
  Rabs (d - (- g + eb - ea)) <= u * Rabs (- g + eb - ea) + eta ->
  d < 0 /\ Rabs (n / d) <= 3 /\
  (Rabs (r - n / d) <= u * Rabs (n / d) + eta ->
   Rabs (x - r * g) <= / 1000000000000).
Proof.
  intros Eu Heta Hg Hx Hea Heb Hn Hd.
  assert (Hu : 0 < u) by (rewrite Eu; lra).
  apply Rabs_le_inv in Hea, Heb.
  set (Np := x + ea). set (Dp := g - eb + ea).
  assert (HNp : Rabs Np <= g + 64 * u) by (apply Rabs_le; unfold Np; lra).
  assert (HDp1 : g - 128 * u <= Dp) by (unfold Dp; lra).
  assert (HDp2 : Dp <= g + 128 * u) by (unfold Dp; lra).
  assert (HDp0 : 0 < Dp) by (rewrite Eu in *; lra).
  set (N := - n). set (D := - d).
  assert (HdN : Rabs (N - Np) <= u * (g + 64 * u) + eta).
  { replace (N - Np) with (- (n - (- x - ea))) by (unfold N, Np; ring).
    rewrite Rabs_Ropp. apply Rle_trans with (1 := Hn).
    replace (- x - ea) with (- Np) by (unfold Np; ring).
    rewrite Rabs_Ropp. nra. }
  assert (HdD : Rabs (D - Dp) <= u * (g + 128 * u) + eta).
  { replace (D - Dp) with (- (d - (- g + eb - ea))) by (unfold D, Dp; ring).
    rewrite Rabs_Ropp. apply Rle_trans with (1 := Hd).
    replace (- g + eb - ea) with (- Dp) by (unfold Dp; ring).
    rewrite Rabs_Ropp, (Rabs_pos_eq Dp) by lra. nra. }
  apply Rabs_le_inv in HdN, HdD.
  assert (HD : g / 2 <= D) by (rewrite Eu in *; nra).
  assert (Hd0 : d < 0) by (unfold D in HD; lra).
  split; [exact Hd0 |].
  assert (Eq : n / d = N / D) by (unfold N, D; field; lra).
  assert (HN : Rabs N <= g + 66 * u + eta).
  { apply Rabs_le_inv in HNp. apply Rabs_le. rewrite Eu in *. nra. }
  assert (Hq : Rabs (n / d) <= 3).
  { rewrite Eq. unfold Rdiv. rewrite Rabs_mult, Rabs_inv.
    rewrite (Rabs_pos_eq D) by lra.
    apply Rmult_le_reg_r with (r := D); [lra |].
    rewrite Rmult_assoc, Rinv_l, Rmult_1_r by lra.
    rewrite Eu in *. nra. }
  split; [exact Hq |].
  intros Hr.
  assert (HT : Rabs (N * g - x * D) <= 256 * u * g).
  { replace (N * g - x * D)
      with ((N - Np) * g + ea * g + x * (eb - ea) - x * (D - Dp))
      by (unfold Np, Dp; ring).
    apply Rabs_le. rewrite Eu in *. nra. }
  assert (Hqx : Rabs (n / d * g - x) <= 512 * u).
  { replace (n / d * g - x) with ((N * g - x * D) * / D)
      by (rewrite Eq; field; lra).
    rewrite Rabs_mult, Rabs_inv, (Rabs_pos_eq D) by lra.
    apply Rmult_le_reg_r with (r := D); [lra |].
    rewrite Rmult_assoc, Rinv_l, Rmult_1_r by lra.
    apply Rle_trans with (1 := HT). nra. }
  replace (x - r * g) with (- ((n / d * g - x) + (r - n / d) * g)) by ring.
  rewrite Rabs_Ropp.
  apply Rle_trans with (1 := Rabs_triang _ _).
  assert (Hrg : Rabs ((r - n / d) * g) <= (u * 3 + eta) * 1).
  { apply Rabs_mult_le.
    - apply Rle_trans with (1 := Hr). nra.
    - apply Rabs_le. lra. }
  rewrite Eu in *. lra.
Qed.

End MixingError.

Section RoundedFindStates.
Context `{lm : Libm} {laws : LibmLaws}.
Local Open Scope R_scope.

Lemma Rceil_IZR n : Rceil (IZR n) = n.
Proof. apply Rceil_unique. split; lra. Qed.

Lemma Rtrunc_IZR n : Rtrunc (IZR n) = n.
Proof.
  unfold Rtrunc. destruct (Rle_dec 0 (IZR n));
    [apply Rfloor_IZR | apply Rceil_IZR].
Qed.

Lemma bpow_m53 : bpow (-53) = / 9007199254740992.
Proof.
  replace (-53)%Z with (Z.opp 53) by reflexivity.
  rewrite bpow_opp, bpow_IZR by lia. reflexivity.
Qed.

Lemma bpow_m52 : bpow (-52) = 2 * / 9007199254740992.
Proof.
  replace (-52)%Z with (1 + -53)%Z by lia.
  now rewrite bpow_add, bpow_1, bpow_m53.
Qed.

Lemma bpow_m1075_small : 0 <= bpow (-1075) <= / 1267650600228229401496703205376.
Proof.
  split; [left; apply bpow_pos |].
  apply Rle_trans with (bpow (-100)); [apply bpow_le; lia |].
  replace (-100)%Z with (Z.opp 100) by reflexivity.
  rewrite bpow_opp, bpow_IZR by lia.
  apply Req_le. reflexivity.
Qed.

Lemma bpow_1023_large : 64 <= bpow 1023.
Proof.
  apply Rle_trans with (bpow 6); [| apply bpow_le; lia].
  rewrite bpow_IZR by lia. apply Req_le. reflexivity.
Qed.

Lemma bpow_m1022_small : bpow (-1022) <= 1.
Proof. rewrite <- bpow_0. apply bpow_le. lia. Qed.

(** What a call that returns has computed. *)
Lemma find_states_rounded_inv (entropy : double) (st : states) :
  Rounded.find_states entropy = Some st ->
  exists p,
    c_pow2 entropy = Fin p /\
    (0 <= Rtrunc p < U32.modulus)%Z /\
    (0 <= Rceil p < U32.modulus)%Z /\
    st = mkStates (Rceil p) (Rtrunc p)
           (fdiv (fsub entropy (c_log2 (Fin (IZR (Rceil p)))))
                 (fsub (c_log2 (Fin (IZR (Rtrunc p))))
                       (c_log2 (Fin (IZR (Rceil p)))))).
Proof.
  unfold Rounded.find_states, double_to_uint32.
  destruct (c_pow2 entropy) as [p | | |]; try discriminate.
  destruct ((0 <=? Rtrunc p)%Z && (Rtrunc p <? U32.modulus)%Z)%bool eqn:E1;
    [| discriminate].
  cbn [dceil]. rewrite Rtrunc_IZR.
  destruct ((0 <=? Rceil p)%Z && (Rceil p <? U32.modulus)%Z)%bool eqn:E2;
    [| discriminate].
  intros H. injection H as <-. exists p. unfold uint_to_double.
  apply andb_prop in E1 as [E1a E1b]. apply andb_prop in E2 as [E2a E2b].
  apply Z.leb_le in E1a, E2a. apply Z.ltb_lt in E1b, E2b.
  repeat split; assumption.
Qed.

Lemma find_states_rounded_eq (entropy : double) (p : R) :
  c_pow2 entropy = Fin p ->
  (0 <= Rtrunc p < U32.modulus)%Z ->
  (0 <= Rceil p < U32.modulus)%Z ->
  Rounded.find_states entropy
  = Some (mkStates (Rceil p) (Rtrunc p)
            (fdiv (fsub entropy (c_log2 (Fin (IZR (Rceil p)))))
                  (fsub (c_log2 (Fin (IZR (Rtrunc p))))
                        (c_log2 (Fin (IZR (Rceil p))))))).
Proof.
  intros Ep [H1 H2] [H3 H4].
  unfold Rounded.find_states, double_to_uint32. rewrite Ep.
  replace ((0 <=? Rtrunc p)%Z && (Rtrunc p <? U32.modulus)%Z)%bool
    with true
    by (symmetry; apply andb_true_intro; split;
        [apply Z.leb_le | apply Z.ltb_lt]; lia).
  cbn [dceil]. rewrite Rtrunc_IZR.
  replace ((0 <=? Rceil p)%Z && (Rceil p <? U32.modulus)%Z)%bool
    with true
    by (symmetry; apply andb_true_intro; split;
        [apply Z.leb_le | apply Z.ltb_lt]; lia).
  reflexivity.
Qed.

Lemma representable_uint32 n :
  (0 <= n <= U32.modulus)%Z -> representable (IZR n).
Proof.
  intros Hn. apply representable_IZR. unfold U32.modulus in Hn.
  assert ((2 ^ 32 < 2 ^ 53)%Z) by (apply Z.pow_lt_mono_r; lia). lia.
Qed.

(** The power of two lies strictly between the two state counts when they
    differ. *)
Lemma pow_between (H p : R) :
  0 <= H ->
  faithful (Rpower 2 H) (Fin p) ->
  (Rtrunc p < U32.modulus)%Z ->
  Rtrunc p <> Rceil p ->
  (1 <= Rtrunc p)%Z /\ Rceil p = (Rtrunc p + 1)%Z /\
  IZR (Rtrunc p) < Rpower 2 H < IZR (Rtrunc p) + 1.
Proof.
  intros HH (y & E & _ & Hord) Hmax Hne. injection E as <-.
  pose proof (Rpower2_ge_1 H HH) as Hp1.
  assert (Hp : 1 <= p).
  { apply (Hord 1); [apply (representable_IZR 1); reflexivity | exact Hp1]. }
  rewrite Rtrunc_nonneg in * by lra.
  pose proof (Rfloor_bounds p) as Hf. pose proof (Rceil_bounds p) as Hc.
  pose proof (Rfloor_le_Rceil p) as Hfc.
  pose proof (Rceil_le_succ_Rfloor p) as Hcf.
  assert (Hf1 : (1 <= Rfloor p)%Z).
  { apply Z.lt_succ_r, lt_IZR. rewrite succ_IZR. lra. }
  assert (Ec : Rceil p = (Rfloor p + 1)%Z) by lia.
  rewrite Ec, plus_IZR in Hc.
  split; [exact Hf1 |]. split; [exact Ec |].
  assert (Hlo : IZR (Rfloor p) < p).
  { destruct Hf as [[Hf | Hf] _]; [exact Hf |].
    exfalso. apply Hne. symmetry. apply Rceil_unique. lra. }
  assert (Hhi : p < IZR (Rfloor p) + 1).
  { destruct Hc as [_ [Hc | Hc]]; [exact Hc |].
    exfalso. apply Hne. apply Rfloor_unique. lra. }
  split.
  - apply Rnot_le_lt. intros Hle.
    destruct (Hord (IZR (Rfloor p))) as [_ H2];
      [apply representable_uint32; lia |].
    specialize (H2 Hle). lra.
  - apply Rnot_le_lt. intros Hle. rewrite <- plus_IZR in Hle.
    destruct (Hord (IZR (Rfloor p + 1))) as [H1 _];
      [apply representable_uint32; lia |].
    specialize (H1 Hle). rewrite plus_IZR in H1. lra.
Qed.

Lemma ln_mono x y : 0 < x -> x <= y -> ln x <= ln y.
Proof.
  intros Hx [H | ->]; [| lra]. left. now apply ln_increasing.
Qed.

Lemma ln2_lt_1 : ln 2 < 1.
Proof.
  rewrite <- (ln_exp 1). apply ln_increasing; [lra |].
  pose proof (exp_ineq1 1). lra.
Qed.

Lemma Rlog2_uint32 n :
  (1 <= n <= U32.modulus)%Z -> 0 <= Rlog2 (IZR n) <= 32.
Proof.
  intros [H1 H2]. split.
  - rewrite <- Rlog2_1. apply Rlog2_le; [lra | now apply IZR_le].
  - replace 32 with (Rlog2 (IZR U32.modulus)).
    + apply Rlog2_le; [apply IZR_lt with (n := 0%Z); lia | now apply IZR_le].
    + unfold U32.modulus. rewrite <- bpow_IZR, bpow_Rpower by lia.
      apply Rlog2_Rpower.
Qed.

(** The distance of the logarithms of two consecutive state counts. *)
Lemma Rlog2_gap n :
  (1 <= n)%Z -> (n + 1 <= U32.modulus)%Z ->
  / 4294967296 <= Rlog2 (IZR n + 1) - Rlog2 (IZR n) <= 1.
Proof.
  intros H1 H2. apply IZR_le in H1, H2. rewrite plus_IZR in H2.
  unfold U32.modulus in H2.
  change (IZR (2 ^ 32)) with 4294967296 in H2.
  pose proof ln2_pos as Hl0. pose proof ln2_lt_1 as Hl1.
  assert (Hn : 0 < IZR n) by lra.
  assert (Hd : ln (IZR n + 1) - ln (IZR n) = ln ((IZR n + 1) / IZR n)).
  { unfold Rdiv. rewrite ln_mult, ln_Rinv; [ring | lra | lra |].
    now apply Rinv_0_lt_compat. }
  unfold Rlog2.
  replace (ln (IZR n + 1) / ln 2 - ln (IZR n) / ln 2)
    with ((ln (IZR n + 1) - ln (IZR n)) / ln 2) by (field; lra).
  rewrite Hd. split.
  - assert (Hge : / (IZR n + 1) <= ln ((IZR n + 1) / IZR n)).
    { pose proof (exp_ineq1_le (- / (IZR n + 1))) as He.
      assert (Hinv : 0 < / (IZR n + 1)) by (apply Rinv_0_lt_compat; lra).
      assert (Hq : (IZR n + 1) / IZR n = / (1 + - / (IZR n + 1)))
        by (field; lra).
      rewrite Hq, ln_Rinv.
      - assert (H0 : 0 < 1 + - / (IZR n + 1)).
        { apply Rmult_lt_reg_r with (r := IZR n + 1); [lra |].
          rewrite Rmult_0_l, Rmult_plus_distr_r, Ropp_mult_distr_l_reverse,
            Rinv_l by lra. lra. }
        apply (ln_mono _ _ H0) in He. rewrite ln_exp in He. lra.
      - apply Rmult_lt_reg_r with (r := IZR n + 1); [lra |].
        rewrite Rmult_0_l, Rmult_plus_distr_r, Ropp_mult_distr_l_reverse,
          Rinv_l by lra. lra. }
    assert (Hinv : / 4294967296 <= / (IZR n + 1)).
    { apply Rinv_le_contravar; lra. }
    apply Rle_trans with (/ (IZR n + 1)); [exact Hinv |].
    apply Rle_trans with (1 := Hge).
    assert (H0 : 0 <= ln ((IZR n + 1) / IZR n)).
    { apply Rle_trans with (2 := Hge). left. apply Rinv_0_lt_compat. lra. }
    apply Rmult_le_reg_r with (r := ln 2); [lra |].
    unfold Rdiv. rewrite Rmult_assoc, Rinv_l by lra. nra.
  - apply Rmult_le_reg_r with (r := ln 2); [lra |].
    unfold Rdiv at 1. rewrite Rmult_assoc, Rinv_l by lra.
    rewrite Rmult_1_r, Rmult_1_l.
    assert (Hq : (IZR n + 1) / IZR n <= 2).
    { apply Rmult_le_reg_r with (r := IZR n); [lra |].
      unfold Rdiv. rewrite Rmult_assoc, Rinv_l by lra. lra. }
    destruct Hq as [Hq | Hq]; [| rewrite Hq; lra].
    left. apply ln_increasing; [| exact Hq].
    apply Rdiv_lt_0_compat; lra.
Qed.

(** The error of the library on the logarithm of a state count. *)
Lemma log2_error n y :
  (1 <= n <= UINT32_MAX)%Z ->
  faithful (Rlog2 (IZR n)) (Fin y) ->
  Rabs (y - Rlog2 (IZR n)) <= 64 * / 9007199254740992.
Proof.
  intros Hn Hf.
  assert (Hn' : (1 <= n <= U32.modulus)%Z) by (unfold UINT32_MAX in Hn; lia).
  pose proof (Rlog2_uint32 n Hn') as [Hl0 Hl32].
  destruct (Z.eq_dec n 1) as [-> | Hn1].
  - rewrite Rlog2_1 in *. destruct Hf as (y' & E & _ & Hord).
    injection E as <-. destruct (Hord 0 representable_0) as [H1 H2].
    specialize (H1 ltac:(lra)). specialize (H2 ltac:(lra)).
    replace y with 0 by lra. rewrite Rminus_0_r, Rabs_R0. lra.
  - assert (Hl1 : 1 <= Rlog2 (IZR n)).
    { rewrite <- Rlog2_2. apply Rlog2_le; [lra |].
      apply (IZR_le 2 n). lia. }
    pose proof bpow_m1022_small. pose proof bpow_1023_large.
    apply Rle_trans with (bpow (-52) * Rlog2 (IZR n)).
    + apply faithful_error; [lra | lra | exact Hf].
    + rewrite bpow_m52. lra.
Qed.

End RoundedFindStates.

Section RoundedFindStatesTheorems.
Context `{lm : Libm} {laws : LibmLaws}.
Local Open Scope R_scope.

(** The values that a call with differing state counts goes through. *)
Lemma find_states_rounded_steps (H : R) (st : states) :
  0 <= H ->
  Rounded.find_states (Fin H) = Some st ->
  st_low st <> st_high st ->
  exists (low : Z) (ya yb n d : R),
    st_low st = low /\ st_high st = (low + 1)%Z /\
    (1 <= low)%Z /\ (low + 1 < U32.modulus)%Z /\
    IZR low < Rpower 2 H < IZR low + 1 /\
    faithful (Rlog2 (IZR low)) (Fin yb) /\
    faithful (Rlog2 (IZR low + 1)) (Fin ya) /\
    round (H + - ya) = Fin n /\
    round (yb + - ya) = Fin d /\
    d < 0 /\
    st_ratio st = round (n / d) /\
    exists r, round (n / d) = Fin r /\
      Rabs (Rlog2 (IZR low + 1) - H
            - r * (Rlog2 (IZR low + 1) - Rlog2 (IZR low)))
      <= / 1000000000000.
Proof.
  intros HH Hst Hne.
  destruct (find_states_rounded_inv _ _ Hst) as (p & Ep & Ht & Hc & ->).
  cbn [st_low st_high st_ratio] in *.
  pose proof (c_pow2_faithful _ _ Ep) as Hp.
  destruct (pow_between H p HH Hp (proj2 Ht) Hne) as (Hlow & Ec & Hbetween).
  set (low := Rtrunc p) in *. rewrite Ec in *. clear Ec.
  assert (Hlow' : (1 <= low <= UINT32_MAX)%Z) by (unfold UINT32_MAX; lia).
  assert (Hhigh' : (1 <= low + 1 <= UINT32_MAX)%Z)
    by (unfold UINT32_MAX; lia).
  pose proof (c_log2_faithful low Hlow') as Fb.
  pose proof (c_log2_faithful (low + 1)%Z Hhigh') as Fa.
  rewrite plus_IZR in *.
  destruct Fb as (yb & Eb & Fb). destruct Fa as (ya & Ea & Fa).
  assert (Fb' : faithful (Rlog2 (IZR low)) (Fin yb)) by (exists yb; auto).
  assert (Fa' : faithful (Rlog2 (IZR low + 1)) (Fin ya))
    by (exists ya; auto).
  rewrite Ea, Eb. unfold fsub. cbn [dsub dadd dopp rounded].
  set (L := Rlog2 (IZR low)) in *. set (U := Rlog2 (IZR low + 1)) in *.
  pose proof (Rlog2_gap low Hlow ltac:(lia)) as Hg. fold L U in Hg.
  pose proof (log2_error low yb Hlow' Fb') as Hyb. fold L in Hyb.
  pose proof (log2_error (low + 1)%Z ya Hhigh') as Hya.
  rewrite plus_IZR in Hya. specialize (Hya Fa'). fold U in Hya.
  assert (H0low : 0 < IZR low) by (apply IZR_lt with (n := 0%Z); lia).
  assert (HL : L < H).
  { rewrite <- (Rlog2_Rpower H). apply Rlog2_lt; lra. }
  assert (HU : H < U).
  { rewrite <- (Rlog2_Rpower H). apply Rlog2_lt; [apply Rpower2_pos | lra]. }
  pose proof (Rlog2_uint32 low ltac:(lia)) as HLr. fold L in HLr.
  pose proof (Rlog2_uint32 (low + 1)%Z ltac:(lia)) as HUr.
  rewrite plus_IZR in HUr. fold U in HUr.
  pose proof bpow_1023_large as Hbig.
  apply Rabs_le_inv in Hya as Hya', Hyb as Hyb'.
  destruct (round_finite (H + - ya)) as [n En].
  { apply Rle_lt_trans with 33; [apply Rabs_le; lra | lra]. }
  destruct (round_finite (yb + - ya)) as [d Ed].
  { apply Rle_lt_trans with 33; [apply Rabs_le; lra | lra]. }
  rewrite En, Ed.
  pose proof (round_error _ _ En) as Hn. pose proof (round_error _ _ Ed) as Hd.
  rewrite bpow_m53 in Hn, Hd.
  replace (H + - ya) with (- (U - H) - (ya - U)) in Hn by ring.
  replace (yb + - ya) with (- (U - L) + (yb - L) - (ya - U)) in Hd by ring.
  assert (Hcore := fun r =>
    mixing_error (U - L) (U - H) (ya - U) (yb - L) n d r
      (/ 9007199254740992) (bpow (-1075)) eq_refl bpow_m1075_small Hg
      ltac:(lra) Hya Hyb Hn Hd).
  destruct (Hcore 0) as (Hd0 & Hq & _).
  destruct (round_finite (n / d)) as [r Er].
  { apply Rle_lt_trans with (1 := Hq). lra. }
  exists low, ya, yb, n, d.
  repeat (split; [first [reflexivity | assumption | lia | lra] |]).
  split.
  { unfold fdiv, ddiv. rewrite Rsign_neg by exact Hd0. reflexivity. }
  exists r. split; [exact Er |].
  destruct (Hcore r) as (_ & _ & Hr). apply Hr.
  pose proof (round_error _ _ Er) as He. now rewrite bpow_m53 in He.
Qed.

(** C1, as amended.  With a C library whose [pow] and [log2] round
    faithfully: for a target entropy [H >= 0] whose allocation yields
    [low <> high], [low] is the floor and [high] the ceiling of [2^H], and
    the ratio [r] is a number with
    [r * log2 low + (1 - r) * log2 high = H] up to [10^-12]. *)
Theorem find_states_mixing_tolerance (H : R) (st : states) :
  0 <= H ->
  Rounded.find_states (Fin H) = Some st ->
  st_low st <> st_high st ->
  st_low st = Rfloor (Rpower 2 H) /\
  st_high st = Rceil (Rpower 2 H) /\
  exists r, st_ratio st = Fin r /\
    Rabs (r * Rlog2 (IZR (st_low st))
          + (1 - r) * Rlog2 (IZR (st_high st)) - H)
    <= / 1000000000000.
Proof.
  intros HH Hst Hne.
  destruct (find_states_rounded_steps H st HH Hst Hne)
    as (low & ya & yb & n & d & El & Eh & _ & _ & Hb & _ & _ & _ & _ & _
        & Er & r & Err & Hr).
  rewrite El, Eh. split; [| split].
  - symmetry. apply Rfloor_unique. lra.
  - symmetry. apply Rceil_unique. rewrite plus_IZR. lra.
  - exists r. split; [congruence |]. rewrite plus_IZR.
    replace (r * Rlog2 (IZR low) + (1 - r) * Rlog2 (IZR low + 1) - H)
      with (Rlog2 (IZR low + 1) - H
            - r * (Rlog2 (IZR low + 1) - Rlog2 (IZR low))) by ring.
    exact Hr.
Qed.

(** With a C library whose [pow] and [log2] round faithfully: for a
    binary64 target [H >= 0] and differing state counts, [high] is
    [low + 1] and the ratio that [find_states] returns is a number from 0
    to 1, the two included. *)
Theorem find_states_ratio_is_probability (H : R) (st : states) :
  0 <= H -> representable H ->
  Rounded.find_states (Fin H) = Some st ->
  st_low st <> st_high st ->
  (1 <= st_low st)%Z /\ st_high st = (st_low st + 1)%Z /\
  exists r, st_ratio st = Fin r /\ 0 <= r <= 1.
Proof.
  intros HH Hrep Hst Hne.
  destruct (find_states_rounded_steps H st HH Hst Hne)
    as (low & ya & yb & n & d & El & Eh & Hlow & _ & Hb & Fb & Fa & En & Ed
        & Hd0 & Er & r & Err & _).
  rewrite El, Eh. split; [exact Hlow |]. split; [reflexivity |].
  exists r. split; [congruence |].
  assert (H0low : 0 < IZR low) by (apply IZR_lt with (n := 0%Z); lia).
  assert (HL : Rlog2 (IZR low) < H).
  { rewrite <- (Rlog2_Rpower H). apply Rlog2_lt; lra. }
  assert (HU : H < Rlog2 (IZR low + 1)).
  { rewrite <- (Rlog2_Rpower H). apply Rlog2_lt; [apply Rpower2_pos | lra]. }
  destruct Fb as (yb' & Eb & _ & Ob). injection Eb as <-.
  destruct Fa as (ya' & Ea & Hya & Oa). injection Ea as <-.
  destruct (Ob H Hrep) as [_ Hyb]. specialize (Hyb ltac:(lra)).
  destruct (Oa H Hrep) as [HyaH _]. specialize (HyaH ltac:(lra)).
  assert (Hn0 : n <= 0).
  { apply (round_mono (H + - ya) 0 n 0); [lra | exact En | exact round_0]. }
  assert (Hdn : d <= n).
  { apply (round_mono (yb + - ya) (H + - ya) d n); [lra | exact Ed | exact En]. }
  assert (Hq0 : 0 <= n / d).
  { replace (n / d) with ((- n) * / (- d)) by (field; lra).
    apply Rmult_le_pos; [lra |]. left. apply Rinv_0_lt_compat. lra. }
  assert (Hq1 : n / d <= 1).
  { apply Rmult_le_reg_r with (r := - d); [lra |].
    replace (n / d * - d) with (- n) by (field; lra). lra. }
  split.
  - apply (round_mono 0 (n / d) 0 r); [exact Hq0 | exact round_0 | exact Err].
  - apply (round_mono (n / d) 1 r 1); [exact Hq1 | exact Err |].
    apply (representable_IZR 1). reflexivity.
Qed.

End RoundedFindStatesTheorems.

(** ** The stand-in library and a run of the allocator *)

Section RoundedRun.
Local Open Scope R_scope.

Lemma nearest_even_unique m n :
  Rabs (m - IZR n) < 1/2 -> nearest_even m = n.
Proof.
  intros H. apply Rabs_def2 in H as [H1 H2].
  pose proof (Rfloor_bounds m) as Hf. unfold nearest_even.
  assert (Hlt : (Rfloor m < n + 1)%Z)
    by (apply lt_IZR; rewrite plus_IZR; lra).
  assert (Hgt : (n - 1 < Rfloor m + 1)%Z)
    by (apply lt_IZR; rewrite plus_IZR, minus_IZR; lra).
  destruct (total_order_T (m - IZR (Rfloor m)) (1/2)) as [[Hd | Hd] | Hd].
  - assert (Hgt' : (n < Rfloor m + 1)%Z)
      by (apply lt_IZR; rewrite plus_IZR; lra).
    lia.
  - exfalso.
    destruct (Z.eq_dec (Rfloor m) n) as [E | Hne].
    + rewrite E in Hd. lra.
    + assert (E : Rfloor m = (n - 1)%Z) by lia.
      rewrite E, minus_IZR in Hd. lra.
  - assert (Hlt' : (Rfloor m < n)%Z) by (apply lt_IZR; lra).
    lia.
Qed.

(** The rounding of a real of the binade [k], from the integer nearest
    to its multiple of the last place. *)
Lemma round_value_eq x k n :
  bpow k <= x < bpow (k + 1) -> (-1022 <= k)%Z ->
  Rabs (x * bpow (- (k - 52)) - IZR n) < 1/2 ->
  round_value x = IZR n * bpow (k - 52).
Proof.
  intros Hx Hk Hn. unfold round_value, ulp_exponent.
  rewrite (binade_unique x k Hx).
  replace (Z.max k (-1022)) with k by lia.
  now rewrite (nearest_even_unique _ n Hn).
Qed.

Lemma rounded_libm_laws : LibmLaws (lm := rounded_libm).
Proof.
  pose proof bpow_1023_large as Hbig.
  split; cbn [c_pow2 c_log2 rounded_libm dpow2 rounded].
  - intros x p E. now apply round_faithful.
  - intros x Hx. apply round_finite.
    rewrite Rabs_pos_eq by (left; apply Rpower2_pos).
    rewrite bpow_Rpower. now apply Rpower2_lt.
  - intros n Hn. unfold dlog2.
    rewrite Rsign_pos by (apply IZR_lt with (n := 0%Z); lia).
    cbn [rounded].
    pose proof (Rlog2_uint32 n ltac:(unfold UINT32_MAX in Hn; lia)) as Hl.
    destruct (round_finite (Rlog2 (IZR n))) as [y Ey].
    { apply Rle_lt_trans with 32; [apply Rabs_le; lra | lra]. }
    rewrite Ey. now apply round_faithful.
  - unfold dlog2. now rewrite Rsign_zero.
Qed.

Lemma tenth_bounds : 1/10 <= tenth <= 11/100.
Proof. unfold tenth. lra. Qed.

Lemma Rpower2_tenth : 21/20 <= Rpower 2 tenth <= 9/8.
Proof.
  pose proof tenth_bounds as Ht. pose proof ln_lt_2 as Hl1.
  pose proof ln2_lt_1 as Hl2.
  unfold Rpower. set (y := tenth * ln 2).
  assert (Hy : 1/20 <= y <= 11/100) by (unfold y; nra).
  split.
  - pose proof (exp_ineq1_le y). lra.
  - pose proof (exp_ineq1_le (- y)) as He. rewrite exp_Ropp in He.
    pose proof (exp_pos y) as Hp.
    apply Rmult_le_reg_r with (r := / exp y);
      [now apply Rinv_0_lt_compat |].
    rewrite Rinv_r by lra. lra.
Qed.

Lemma faithful_exact t d : representable t -> faithful t d -> d = Fin t.
Proof.
  intros Ht (y & -> & _ & Hord). destruct (Hord t Ht) as [H1 H2].
  specialize (H1 ltac:(lra)). specialize (H2 ltac:(lra)).
  f_equal. lra.
Qed.

Lemma round_tenth_minus_1 : round (tenth + Ropp 1) = Fin (- nine_tenths).
Proof.
  pose proof bpow_1023_large as Hbig.
  replace (tenth + Ropp 1) with (- (1 - tenth)) by ring.
  rewrite round_opp.
  assert (Hx : bpow (-1) <= 1 - tenth < bpow (-1 + 1)).
  { rewrite bpow_m1. change (-1 + 1)%Z with 0%Z. rewrite bpow_0.
    unfold tenth. lra. }
  rewrite round_of_pos by (unfold tenth; lra).
  rewrite round_pos_small by (unfold tenth; lra).
  rewrite (round_value_eq (1 - tenth) (-1) 8106479329266893 Hx ltac:(lia)).
  - cbn [dopp]. do 2 f_equal. change (-1 - 52)%Z with (-53)%Z.
    rewrite bpow_m53. unfold nine_tenths. lra.
  - change (- (-1 - 52))%Z with 53%Z. rewrite bpow_IZR by lia.
    change (IZR (2 ^ 53)) with 9007199254740992.
    apply Rabs_def1; unfold tenth; lra.
Qed.

Lemma representable_nine_tenths : representable nine_tenths.
Proof.
  replace nine_tenths with (IZR 8106479329266893 * bpow (-53))
    by (rewrite bpow_m53; unfold nine_tenths; lra).
  apply representable_grid; [split; reflexivity | lia |].
  pose proof bpow_1023_large. pose proof (bpow_lt 1023 1024 ltac:(lia)).
  rewrite bpow_m53. lra.
Qed.

(** The run of [find_states] on the binary64 number nearest to 0.1, the
    same for every library that rounds faithfully: one low state, two
    high states, and as the ratio the binary64 number nearest to 0.9. *)
Lemma find_states_tenth `{lm : Libm} {laws : LibmLaws} :
  Rounded.find_states (Fin tenth) = Some (mkStates 2 1 (Fin nine_tenths)).
Proof.
  pose proof Rpower2_tenth as Ht. pose proof bpow_1023_large as Hbig.
  pose proof bpow_m1022_small as Hsmall.
  destruct (c_pow2_finite tenth) as [p Ep]; [unfold tenth; lra |].
  assert (Hp : 41/40 <= p <= 5/4).
  { pose proof (faithful_error (Rpower 2 tenth) p ltac:(lra) ltac:(lra)
                  (c_pow2_faithful _ _ Ep)) as He.
    rewrite bpow_m52 in He. apply Rabs_le_inv in He. lra. }
  assert (Ef : Rtrunc p = 1%Z).
  { rewrite Rtrunc_nonneg by lra. apply Rfloor_unique. lra. }
  assert (Ec : Rceil p = 2%Z) by (apply Rceil_unique; lra).
  rewrite (find_states_rounded_eq (Fin tenth) p Ep);
    [| rewrite Ef; change U32.modulus with 4294967296%Z; lia
     | rewrite Ec; change U32.modulus with 4294967296%Z; lia].
  rewrite Ef, Ec. do 2 f_equal.
  assert (L1 : c_log2 (Fin 1) = Fin 0).
  { rewrite <- Rlog2_1. apply faithful_exact.
    - rewrite Rlog2_1. apply representable_0.
    - apply (c_log2_faithful 1). unfold UINT32_MAX, U32.modulus. lia. }
  assert (L2 : c_log2 (Fin 2) = Fin 1).
  { rewrite <- Rlog2_2. apply faithful_exact.
    - rewrite Rlog2_2. apply (representable_IZR 1). reflexivity.
    - apply (c_log2_faithful 2). unfold UINT32_MAX, U32.modulus. lia. }
  rewrite L1, L2.
  unfold fsub. cbn [dsub dadd dopp rounded].
  assert (E1 : round (0 + Ropp 1) = Fin (-1)).
  { replace (0 + Ropp 1) with (IZR (-1)) by lra.
    rewrite (representable_IZR (-1) eq_refl). reflexivity. }
  rewrite E1, round_tenth_minus_1. unfold fdiv, ddiv.
  rewrite Rsign_neg by lra. cbn [rounded].
  replace (- nine_tenths / -1) with nine_tenths by (unfold nine_tenths; lra).
  apply representable_nine_tenths.
Qed.

Lemma tenth_identity_gap :
  nine_tenths * Rlog2 (IZR 1) + (1 - nine_tenths) * Rlog2 (IZR 2) <> tenth.
Proof. rewrite Rlog2_1, Rlog2_2. unfold nine_tenths, tenth. lra. Qed.

End RoundedRun.

(** C1, as stated, fails.  At the binary64 number nearest to 0.1 the
    state counts are 1 and 2 and the ratio is the binary64 number nearest
    to 0.9: [r * log2 1 + (1 - r) * log2 2] is [1 - r], which differs
    from the target in the last place. *)
Lemma find_states_tenth_not_exact :
  exists st r,
    Rounded.find_states (lm := rounded_libm) (Fin tenth) = Some st /\
    st_low st <> st_high st /\
    st_ratio st = Fin r /\
    (r * Rlog2 (IZR (st_low st)) + (1 - r) * Rlog2 (IZR (st_high st))
     <> tenth)%R.
Proof.
  exists (mkStates 2 1 (Fin nine_tenths)), nine_tenths.
  split; [apply (find_states_tenth (laws := rounded_libm_laws)) |].
  split; [discriminate |]. split; [reflexivity |].
  exact tenth_identity_gap.
Qed.

(** The run on the binary64 number nearest to 0.1, with the stand-in
    library. *)
Lemma find_states_mixing_tolerance_witness :
  exists r,
    st_ratio (mkStates 2 1 (Fin nine_tenths)) = Fin r /\
    (Rabs (r * Rlog2 (IZR 1) + (1 - r) * Rlog2 (IZR 2) - tenth)
     <= / 1000000000000)%R.
Proof.
  assert (H0 : (0 <= tenth)%R) by (unfold tenth; lra).
  destruct (find_states_mixing_tolerance (laws := rounded_libm_laws)
              tenth _ H0
              (find_states_tenth (laws := rounded_libm_laws)))
    as (_ & _ & Hr); [discriminate |].
  exact Hr.
Defined.

Lemma representable_tenth : representable tenth.
Proof.
  replace tenth with (IZR 3602879701896397 * bpow (-55))%R.
  - apply representable_grid; [split; reflexivity | lia |].
    pose proof bpow_1023_large. pose proof (bpow_lt 1023 1024 ltac:(lia)).
    replace (-55)%Z with (Z.opp 55) by reflexivity.
    rewrite bpow_opp, bpow_IZR by lia.
    change (IZR (2 ^ 55)) with 36028797018963968%R. lra.
  - replace (-55)%Z with (Z.opp 55) by reflexivity.
    rewrite bpow_opp, bpow_IZR by lia. reflexivity.
Qed.

Lemma find_states_ratio_is_probability_witness :
  (1 <= 1)%Z /\ 2%Z = (1 + 1)%Z /\
  exists r, st_ratio (mkStates 2 1 (Fin nine_tenths)) = Fin r /\
            (0 <= r <= 1)%R.
Proof.
  assert (H0 : (0 <= tenth)%R) by (unfold tenth; lra).
  exact (find_states_ratio_is_probability (laws := rounded_libm_laws)
           tenth _ H0 representable_tenth
           (find_states_tenth (laws := rounded_libm_laws))
           ltac:(discriminate)).
Defined.

Section RoundedEdges.
Context `{lm : Libm} {laws : LibmLaws}.
Local Open Scope R_scope.

(** When the two state counts coincide the divisor is zero and the ratio
    is not a number: the quotient [0/0] when the target is the logarithm
    of the count, an infinity otherwise. *)
Lemma find_states_rounded_equal_states (H : R) (st : states) :
  0 <= H ->
  Rounded.find_states (Fin H) = Some st ->
  st_low st = st_high st ->
  st_ratio st = NaN \/ st_ratio st = PInf \/ st_ratio st = NInf.
Proof.
  intros HH Hst Heq.
  destruct (find_states_rounded_inv _ _ Hst) as (p & Ep & Ht & Hc & ->).
  cbn [st_low st_high st_ratio] in *. rewrite Heq.
  destruct (c_pow2_faithful _ _ Ep) as (y & E & _ & Hord). injection E as <-.
  assert (Hp : 1 <= p).
  { apply (Hord 1); [apply (representable_IZR 1); reflexivity |].
    now apply Rpower2_ge_1. }
  assert (H1 : (1 <= Rceil p)%Z).
  { pose proof (Rceil_bounds p). apply le_IZR. lra. }
  destruct (c_log2_faithful (Rceil p)) as (a & -> & _);
    [unfold UINT32_MAX; lia |].
  unfold fsub. cbn [dsub dopp dadd rounded].
  replace (a + - a) with 0 by ring. rewrite round_0.
  unfold fdiv, ddiv. rewrite (Rsign_zero 0) by reflexivity.
  destruct (round (H + - a)) as [n | | |]; cbn [rounded]; auto.
  destruct (Rsign n); cbn; auto.
Qed.

(** With a C library whose [pow] and [log2] round faithfully, a negative
    binary64 target has one of three allocations, by the value [p] that
    [pow] returns: no low and one high state with the ratio 0 when [p] is
    strictly between 0 and 1; no state at all and the ratio NaN when [p]
    has underflowed to 0; one low and one high state and the ratio minus
    infinity when [p] has been rounded to 1. *)
Theorem find_states_negative_entropy (h : R) :
  h < 0 -> representable h ->
  exists p,
    c_pow2 (Fin h) = Fin p /\
    ((0 < p < 1 /\
      Rounded.find_states (Fin h) = Some (mkStates 1 0 (Fin 0))) \/
     (p = 0 /\
      Rounded.find_states (Fin h) = Some (mkStates 0 0 NaN)) \/
     (p = 1 /\
      Rounded.find_states (Fin h) = Some (mkStates 1 1 NInf))).
Proof.
  intros Hh Hrep.
  destruct (c_pow2_finite h) as [p Ep]; [lra |].
  exists p. split; [exact Ep |].
  destruct (c_pow2_faithful _ _ Ep) as (y & E & _ & Hord). injection E as <-.
  pose proof (Rpower2_pos h) as Hpos.
  assert (Hlt1 : Rpower 2 h < 1).
  { rewrite <- (Rpower_O 2) by lra. apply Rpower_lt; lra. }
  assert (Hp0 : 0 <= p) by (apply (Hord 0 representable_0); lra).
  assert (Hp1 : p <= 1).
  { apply (Hord 1); [apply (representable_IZR 1); reflexivity | lra]. }
  assert (L0 : c_log2 (Fin (IZR 0)) = NInf) by apply c_log2_zero.
  assert (L1 : c_log2 (Fin (IZR 1)) = Fin 0).
  { rewrite <- Rlog2_1. apply faithful_exact.
    - rewrite Rlog2_1. apply representable_0.
    - apply (c_log2_faithful 1). unfold UINT32_MAX, U32.modulus. lia. }
  assert (Eh : round (h + - 0) = Fin h).
  { replace (h + - 0) with h by ring. exact Hrep. }
  assert (Hrange0 : (0 <= 0 < U32.modulus)%Z)
    by (change U32.modulus with 4294967296%Z; lia).
  assert (Hrange1 : (0 <= 1 < U32.modulus)%Z)
    by (change U32.modulus with 4294967296%Z; lia).
  destruct (Req_dec p 0) as [E0 | N0]; [| destruct (Req_dec p 1) as [E1 | N1]].
  - right. left. split; [exact E0 |]. subst p.
    assert (Ef : Rtrunc 0 = 0%Z) by apply (Rtrunc_IZR 0).
    assert (Ec : Rceil 0 = 0%Z) by apply (Rceil_IZR 0).
    rewrite (find_states_rounded_eq (Fin h) 0 Ep); rewrite ?Ef, ?Ec;
      try exact Hrange0.
    rewrite L0. reflexivity.
  - right. right. split; [exact E1 |]. subst p.
    assert (Ef : Rtrunc 1 = 1%Z) by apply (Rtrunc_IZR 1).
    assert (Ec : Rceil 1 = 1%Z) by apply (Rceil_IZR 1).
    rewrite (find_states_rounded_eq (Fin h) 1 Ep); rewrite ?Ef, ?Ec;
      try exact Hrange1.
    rewrite L1. unfold fsub. cbn [dsub dopp dadd rounded].
    rewrite Eh. replace (0 + - 0) with 0 by ring. rewrite round_0.
    unfold fdiv, ddiv. rewrite (Rsign_zero 0) by reflexivity.
    rewrite Rsign_neg by exact Hh. reflexivity.
  - left. split; [lra |].
    assert (Ef : Rtrunc p = 0%Z).
    { rewrite Rtrunc_nonneg by lra. apply Rfloor_unique. lra. }
    assert (Ec : Rceil p = 1%Z) by (apply Rceil_unique; lra).
    rewrite (find_states_rounded_eq (Fin h) p Ep); rewrite ?Ef, ?Ec;
      try exact Hrange0; try exact Hrange1.
    rewrite L0, L1. unfold fsub. cbn [dsub dopp dadd rounded].
    rewrite Eh. unfold fdiv. cbn [ddiv rounded]. now rewrite round_0.
Qed.

End RoundedEdges.

(** The target -1 with the stand-in library. *)
Lemma find_states_negative_entropy_witness :
  exists p,
    c_pow2 (Libm := rounded_libm) (Fin (-1)) = Fin p /\
    (((0 < p < 1)%R /\
      Rounded.find_states (lm := rounded_libm) (Fin (-1))
      = Some (mkStates 1 0 (Fin 0))) \/
     (p = 0%R /\
      Rounded.find_states (lm := rounded_libm) (Fin (-1))
      = Some (mkStates 0 0 NaN)) \/
     (p = 1%R /\
      Rounded.find_states (lm := rounded_libm) (Fin (-1))
      = Some (mkStates 1 1 NInf))).
Proof.
  apply (find_states_negative_entropy (laws := rounded_libm_laws) (-1)).
  - lra.
  - apply (representable_IZR (-1)). reflexivity.
Defined.

(** The two targets of the allocator that the properties over exact
    arithmetic evaluate, in binary64 arithmetic. *)
Section RoundedAgreement.
Context `{lm : Libm} {laws : LibmLaws}.
Local Open Scope R_scope.

Lemma c_log2_1 : c_log2 (Fin 1) = Fin 0.
Proof.
  rewrite <- Rlog2_1. apply faithful_exact.
  - rewrite Rlog2_1. apply representable_0.
  - apply (c_log2_faithful 1). unfold UINT32_MAX, U32.modulus. lia.
Qed.

Lemma c_log2_2 : c_log2 (Fin 2) = Fin 1.
Proof.
  rewrite <- Rlog2_2. apply faithful_exact.
  - rewrite Rlog2_2. apply (representable_IZR 1). reflexivity.
  - apply (c_log2_faithful 2). unfold UINT32_MAX, U32.modulus. lia.
Qed.

(** The target entropy 0 in binary64 arithmetic: the power and the
    logarithm are exact, and the ratio is the quotient [0/0], as over exact
    arithmetic. *)
Lemma find_states_rounded_zero_entropy :
  Rounded.find_states (Fin 0) = Some (mkStates 1 1 NaN).
Proof.
  destruct (c_pow2_finite 0) as [p Ep]; [lra |].
  assert (E : Fin p = Fin 1).
  { apply faithful_exact; [apply (representable_IZR 1); reflexivity |].
    rewrite <- (Rpower_O 2) by lra. now apply c_pow2_faithful. }
  injection E as ->.
  rewrite (find_states_rounded_eq (Fin 0) 1 Ep);
    rewrite ?(Rtrunc_IZR 1), ?(Rceil_IZR 1);
    [| change U32.modulus with 4294967296%Z; lia
     | change U32.modulus with 4294967296%Z; lia].
  rewrite c_log2_1. unfold fsub. cbn [dsub dadd dopp rounded].
  replace (0 + - 0) with 0 by lra. rewrite round_0.
  unfold fdiv, ddiv. rewrite (Rsign_zero 0) by reflexivity. reflexivity.
Qed.

Lemma Rpower2_three_quarters : 11/8 <= Rpower 2 (3/4) <= 16/9.
Proof.
  pose proof ln_lt_2 as Hl1. pose proof ln2_lt_1 as Hl2.
  split.
  - unfold Rpower. pose proof (exp_ineq1_le (3/4 * ln 2)). lra.
  - assert (Hq : 9/8 <= Rpower 2 (1/4)).
    { unfold Rpower. pose proof (exp_ineq1_le (1/4 * ln 2)). lra. }
    assert (Hm : Rpower 2 (3/4) * Rpower 2 (1/4) = 2).
    { rewrite <- Rpower_plus. replace (3/4 + 1/4) with 1 by lra.
      apply Rpower_1. lra. }
    assert (Hp : 0 < Rpower 2 (3/4)) by apply exp_pos.
    nra.
Qed.

(** The target entropy 0.75 in binary64 arithmetic: one low state, two
    high states and the ratio 0.25, as over exact arithmetic. *)
Lemma find_states_rounded_three_quarters :
  Rounded.find_states (Fin (3/4)) = Some (mkStates 2 1 (Fin (1/4))).
Proof.
  pose proof Rpower2_three_quarters as Ht. pose proof bpow_1023_large as Hbig.
  pose proof bpow_m1022_small as Hsmall.
  pose proof (bpow_lt 1023 1024 ltac:(lia)) as Hbig'.
  destruct (c_pow2_finite (3/4)) as [p Ep]; [lra |].
  assert (Hp : 5/4 <= p <= 15/8).
  { pose proof (faithful_error (Rpower 2 (3/4)) p ltac:(lra) ltac:(lra)
                  (c_pow2_faithful _ _ Ep)) as He.
    rewrite bpow_m52 in He. apply Rabs_le_inv in He. lra. }
  assert (Ef : Rtrunc p = 1%Z).
  { rewrite Rtrunc_nonneg by lra. apply Rfloor_unique. lra. }
  assert (Ec : Rceil p = 2%Z) by (apply Rceil_unique; lra).
  rewrite (find_states_rounded_eq (Fin (3/4)) p Ep);
    [| rewrite Ef; change U32.modulus with 4294967296%Z; lia
     | rewrite Ec; change U32.modulus with 4294967296%Z; lia].
  rewrite Ef, Ec. do 2 f_equal.
  rewrite c_log2_1, c_log2_2.
  assert (Eq : round (1/4) = Fin (1/4)).
  { replace (1/4) with (IZR 1 * bpow (-2)).
    - apply representable_grid; [split; reflexivity | lia |].
      apply Rle_lt_trans with (IZR 1 * bpow 0);
        [apply Rmult_le_compat_l; [lra | apply bpow_le; lia] |].
      rewrite bpow_0. lra.
    - replace (-2)%Z with (Z.opp 2) by reflexivity.
      rewrite bpow_opp, bpow_IZR by lia. change (IZR (2 ^ 2)) with 4. lra. }
  unfold fsub. cbn [dsub dadd dopp rounded].
  replace (0 + Ropp 1) with (IZR (-1)) by lra.
  rewrite (representable_IZR (-1) eq_refl).
  replace (3/4 + Ropp 1) with (- (1/4)) by lra.
  rewrite round_opp, Eq. cbn [dopp].
  unfold fdiv, ddiv. rewrite Rsign_neg by lra. cbn [rounded].
  replace (- (1/4) / -1) with (1/4) by lra.
  exact Eq.
Qed.

End RoundedAgreement.

(** ** Arrays *)

Section ArrayFacts.
Context {A : Type}.
Implicit Types (a : list A) (i j : Z) (v : A).

Lemma set_nth_spec a (n : nat) v a' :
  set_nth a n v = Some a' ->
  (n < length a)%nat /\ length a' = length a /\
  nth_error a' n = Some v /\
  forall m, m <> n -> nth_error a' m = nth_error a m.
Proof.
  revert n a'. induction a as [| x r IH]; intros n a' Hs.
  - discriminate.
  - destruct n as [| n]; cbn in Hs.
    + injection Hs as <-. cbn. repeat split; try lia.
      intros [| m] Hm; [congruence | reflexivity].
    + destruct (set_nth r n v) as [r' |] eqn:E; [| discriminate].
      injection Hs as <-. destruct (IH _ _ E) as (Hn & Hl & Hg & Ho).
      cbn. repeat split; try lia; try assumption.
      intros [| m] Hm; [reflexivity |]. cbn. apply Ho. congruence.
Qed.

Lemma set_nth_defined a (n : nat) v :
  (n < length a)%nat -> exists a', set_nth a n v = Some a'.
Proof.
  revert n. induction a as [| x r IH]; intros n Hn; [cbn in Hn; lia |].
  destruct n as [| n]; cbn; [eauto |].
  destruct (IH n) as [r' ->]; [cbn in Hn; lia | eauto].
Qed.

Lemma zset_defined a i v :
  0 <= i < Z.of_nat (length a) -> exists a', zset a i v = Some a'.
Proof.
  intros Hi. unfold zset.
  destruct (Z.ltb_spec i 0); [lia |]. apply set_nth_defined. lia.
Qed.

Lemma zset_range a i v a' :
  zset a i v = Some a' -> 0 <= i < Z.of_nat (length a).
Proof.
  unfold zset. destruct (Z.ltb_spec i 0); [discriminate |].
  intros Hs. apply set_nth_spec in Hs. lia.
Qed.

Lemma zset_length a i v a' :
  zset a i v = Some a' -> length a' = length a.
Proof.
  unfold zset. destruct (Z.ltb_spec i 0); [discriminate |].
  intros Hs. now apply set_nth_spec in Hs.
Qed.

Lemma zget_zset_same a i v a' :
  zset a i v = Some a' -> zget a' i = Some v.
Proof.
  unfold zset, zget. destruct (Z.ltb_spec i 0); [discriminate |].
  intros Hs. now apply set_nth_spec in Hs.
Qed.

Lemma zget_zset_other a i v a' j :
  zset a i v = Some a' -> j <> i -> zget a' j = zget a j.
Proof.
  unfold zset, zget. destruct (Z.ltb_spec i 0); [discriminate |].
  intros Hs Hj. destruct (Z.ltb_spec j 0); [reflexivity |].
  apply set_nth_spec in Hs. apply Hs. lia.
Qed.

Lemma zget_range a i v :
  zget a i = Some v -> 0 <= i < Z.of_nat (length a).
Proof.
  unfold zget. destruct (Z.ltb_spec i 0); [discriminate |].
  intros Hg. assert (nth_error a (Z.to_nat i) <> None) by congruence.
  apply nth_error_Some in H0. lia.
Qed.

Lemma zget_defined a i :
  0 <= i < Z.of_nat (length a) -> exists v, zget a i = Some v.
Proof.
  intros Hi. unfold zget. destruct (Z.ltb_spec i 0); [lia |].
  destruct (nth_error a (Z.to_nat i)) eqn:E; [eauto |].
  apply nth_error_None in E. lia.
Qed.

Lemma zget_In a i v : zget a i = Some v -> In v a.
Proof.
  unfold zget. destruct (Z.ltb_spec i 0); [discriminate |].
  apply nth_error_In.
Qed.

End ArrayFacts.

Lemma u32_small x : in_range x -> u32 x = x.
Proof. unfold in_range, u32; intros; now apply Z.mod_small. Qed.

Lemma zrange_In lo hi i : In i (zrange lo hi) <-> lo <= i < hi.
Proof.
  unfold zrange. rewrite in_map_iff. split.
  - intros [n [<- Hn]]. apply in_seq in Hn. lia.
  - intros Hi. exists (Z.to_nat (i - lo)). split; [lia |].
    apply in_seq. lia.
Qed.

Lemma zrange_length lo hi : length (zrange lo hi) = Z.to_nat (hi - lo).
Proof. unfold zrange. now rewrite length_map, length_seq. Qed.

Lemma zrange_nth lo hi (n : nat) d :
  (n < Z.to_nat (hi - lo))%nat -> nth n (zrange lo hi) d = lo + Z.of_nat n.
Proof.
  intros Hn. unfold zrange.
  rewrite nth_indep with (d' := lo + Z.of_nat 0)
    by (rewrite length_map, length_seq; lia).
  rewrite (map_nth (fun n => lo + Z.of_nat n)), seq_nth by lia. lia.
Qed.

Lemma zrange_empty lo hi : hi <= lo -> zrange lo hi = [].
Proof.
  intros H. unfold zrange. replace (Z.to_nat (hi - lo)) with 0%nat by lia.
  reflexivity.
Qed.

Lemma zrange_cons lo hi : lo < hi -> zrange lo hi = lo :: zrange (lo + 1) hi.
Proof.
  intros H. unfold zrange.
  replace (Z.to_nat (hi - lo)) with (S (Z.to_nat (hi - (lo + 1)))) by lia.
  cbn [seq map]. f_equal; [lia |].
  rewrite <- seq_shift, map_map. apply map_ext. intros n. lia.
Qed.

Lemma zrange_snoc lo hi :
  lo <= hi -> zrange lo (hi + 1) = zrange lo hi ++ [hi].
Proof.
  intros H. unfold zrange.
  replace (Z.to_nat (hi + 1 - lo)) with (Z.to_nat (hi - lo) + 1)%nat by lia.
  rewrite seq_app, map_app. cbn. do 2 f_equal. lia.
Qed.

(** ** Alphabets *)

Lemma index_from_spec (a : alphabet_t) (s : symbol_t) (i : Z) :
  (index_from a s i = ALPHABET_SYMBOL_NOT_FOUND /\ ~ In s a) \/
  (i <= index_from a s i < i + alphabet_size a /\
   zget a (index_from a s i - i) = Some s).
Proof.
  revert i. induction a as [| x r IH]; intros i; cbn [index_from].
  - left. split; [reflexivity | intros []].
  - destruct (Z.eqb_spec x s) as [-> | Hne].
    + right. unfold alphabet_size. cbn [length]. split; [lia |].
      now rewrite Z.sub_diag.
    + destruct (IH (i + 1)) as [[E Hn] | [Hr Hg]].
      * left. split; [exact E |]. intros [? | ?]; [congruence | tauto].
      * right. unfold alphabet_size in *. cbn [length]. split; [lia |].
        unfold zget in *.
        destruct (Z.ltb_spec (index_from r s (i + 1) - (i + 1)) 0);
          [discriminate |].
        destruct (Z.ltb_spec (index_from r s (i + 1) - i) 0); [lia |].
        replace (Z.to_nat (index_from r s (i + 1) - i))
          with (S (Z.to_nat (index_from r s (i + 1) - (i + 1)))) by lia.
        exact Hg.
Qed.

Lemma get_symbol_index_missing (a : alphabet_t) (s : symbol_t) :
  ~ In s a -> get_symbol_index a s = ALPHABET_SYMBOL_NOT_FOUND.
Proof.
  intros Hn. unfold get_symbol_index.
  destruct (index_from_spec a s 0) as [[E _] | [_ Hg]]; [exact E |].
  exfalso. apply Hn. eapply zget_In; eassumption.
Qed.

Lemma get_symbol_index_found (a : alphabet_t) (s : symbol_t) :
  alphabet_size a <= UINT32_MAX ->
  get_symbol_index a s <> ALPHABET_SYMBOL_NOT_FOUND ->
  0 <= get_symbol_index a s < alphabet_size a /\
  zget a (get_symbol_index a s) = Some s.
Proof.
  intros Hsz Hf. unfold get_symbol_index in *.
  destruct (index_from_spec a s 0) as [[E _] | [Hr Hg]]; [congruence |].
  rewrite Z.sub_0_r in Hg. split; [lia | exact Hg].
Qed.

(** ** The conditional quantizer store *)

Section StoreTheorems.
Context `{wl : Well}.

(** C10.  On a column initialised for the alphabet [a], with [prev] at
    index [idx] of [a]: [store_cond_quantizers] succeeds, leaves [lo] in
    slot [2 * idx] and [hi] in slot [2 * idx + 1], and records as the ratio
    of the context the [ratio] field of [lo]. *)
Theorem store_cond_quantizers_slots (lo hi : quantizer_t)
  (lst : cond_quantizer_list_t) (column : Z) (prev : symbol_t)
  (a : alphabet_t) (slots : list (option quantizer_t))
  (ratios : list double) :
  zget (input_alphabets lst) column = Some (Some a) ->
  zget (q lst) column = Some (Some slots) ->
  zget (ratio lst) column = Some (Some ratios) ->
  Z.of_nat (length slots) = 2 * alphabet_size a ->
  Z.of_nat (length ratios) = alphabet_size a ->
  2 * alphabet_size a <= UINT32_MAX ->
  get_symbol_index a prev <> ALPHABET_SYMBOL_NOT_FOUND ->
  exists lst',
    store_cond_quantizers lo hi lst column prev = Some lst' /\
    get_cond_quantizer_indexed lst' column (2 * get_symbol_index a prev)
      = Some (Some lo) /\
    get_cond_quantizer_indexed lst' column (2 * get_symbol_index a prev + 1)
      = Some (Some hi) /\
    get_ratio lst' column (get_symbol_index a prev) = Some (qz_ratio lo).
Proof.
  intros Ha Hq Hr Hls Hlr Hsz Hf.
  assert (Hsz' : alphabet_size a <= UINT32_MAX)
    by (unfold alphabet_size in *; lia).
  destruct (get_symbol_index_found _ _ Hsz' Hf) as [Hidx _].
  set (idx := get_symbol_index a prev) in *.
  assert (E0 : u32 (2 * idx) = 2 * idx)
    by (apply u32_small; unfold in_range, UINT32_MAX in *; lia).
  assert (E1 : u32 (2 * idx + 1) = 2 * idx + 1)
    by (apply u32_small; unfold in_range, UINT32_MAX in *; lia).
  destruct (zset_defined slots (2 * idx) (Some lo)) as [s1 Hs1];
    [lia |].
  destruct (zset_defined s1 (2 * idx + 1) (Some hi)) as [s2 Hs2];
    [rewrite (zset_length _ _ _ _ Hs1); lia |].
  destruct (zset_defined ratios idx (qz_ratio lo)) as [r1 Hr1];
    [lia |].
  destruct (zset_defined (q lst) column (Some s2)) as [qs Hqs];
    [eapply zget_range; eassumption |].
  destruct (zset_defined (ratio lst) column (Some r1)) as [rs Hrs];
    [eapply zget_range; eassumption |].
  eexists. split.
  - unfold store_cond_quantizers. rewrite Ha. cbn [obind]. fold idx.
    rewrite Hq. cbn [obind]. rewrite E0, Hs1. cbn [obind].
    rewrite E1, Hs2. cbn [obind]. rewrite Hr. cbn [obind].
    rewrite Hr1. cbn [obind]. rewrite Hqs. cbn [obind].
    rewrite Hrs. cbn [obind]. reflexivity.
  - unfold get_cond_quantizer_indexed, get_ratio. cbn [q ratio].
    rewrite (zget_zset_same _ _ _ _ Hqs), (zget_zset_same _ _ _ _ Hrs).
    cbn [obind]. repeat split.
    + rewrite (zget_zset_other _ _ _ _ _ Hs2) by lia.
      apply (zget_zset_same _ _ _ _ Hs1).
    + apply (zget_zset_same _ _ _ _ Hs2).
    + apply (zget_zset_same _ _ _ _ Hr1).
Qed.

(** C8.  For a context symbol that the input alphabet of the column does
    not hold, [choose_quantizer] ends in the failure of its assertion and
    returns no quantizer. *)
Theorem choose_quantizer_missing_context (lst : cond_quantizer_list_t)
  (column : Z) (s : symbol_t) (a : alphabet_t) :
  zget (input_alphabets lst) column = Some (Some a) ->
  ~ In s a ->
  choose_quantizer lst column s = AssertionFailed.
Proof.
  intros Ha Hs. unfold choose_quantizer. rewrite Ha. cbn [obind].
  rewrite (get_symbol_index_missing _ _ Hs).
  now rewrite Z.eqb_refl.
Qed.

Lemma well_uniform_range (v : Z) :
  in_range v ->
  exists u, well_uniform v = Fin u /\ (0 <= u <= 1)%R.
Proof.
  intros [Hlo Hhi]. unfold well_uniform, uint_to_double, fdiv, ddiv.
  assert (Hmax : (0 < IZR UINT32_MAX)%R)
    by (apply IZR_lt with (n := 0); reflexivity).
  rewrite Rsign_pos by exact Hmax. cbn [rounded].
  assert (Hv0 : (0 <= IZR v)%R) by (apply IZR_le with (n := 0); lia).
  assert (Hv1 : (IZR v <= IZR UINT32_MAX)%R)
    by (apply IZR_le; unfold UINT32_MAX; lia).
  assert (Hq : (0 <= IZR v / IZR UINT32_MAX <= 1)%R).
  { split.
    - apply Rmult_le_pos; [exact Hv0 |].
      left. now apply Rinv_0_lt_compat.
    - apply Rmult_le_reg_r with (r := IZR UINT32_MAX); [exact Hmax |].
      unfold Rdiv. rewrite Rmult_assoc, Rinv_l by lra. lra. }
  destruct (round_finite (IZR v / IZR UINT32_MAX)%R) as [u Eu].
  { rewrite Rabs_pos_eq by apply Hq. pose proof bpow_1023_large. lra. }
  exists u. split; [exact Eu |]. split.
  - apply (round_mono 0 (IZR v / IZR UINT32_MAX) 0 u);
      [apply Hq | apply round_0 | exact Eu].
  - apply (round_mono (IZR v / IZR UINT32_MAX) 1 u 1);
      [apply Hq | exact Eu |].
    apply (representable_IZR 1). reflexivity.
Qed.

Lemma dge_dlt (x : R) (r : double) :
  is_nan r = false -> dge (Fin x) r = negb (dlt (Fin x) r).
Proof.
  destruct r as [y | | |]; cbn; try reflexivity; [| discriminate].
  intros _. destruct (Rge_dec x y), (Rlt_dec x y); try reflexivity; lra.
Qed.

(** C5, as amended.  For a context symbol [p] at index [idx] of the input
    alphabet of the column: [choose_quantizer] advances the generator held
    in the store by one draw [v], forms [u], the double nearest to
    [v / UINT32_MAX], in [[0,1]], and returns the high quantizer (slot
    [2 * idx + 1]) exactly when [u >= ratio[column][idx]], the low one
    (slot [2 * idx]) otherwise.  For a ratio that is not NaN that is the
    low quantizer exactly when [u < ratio[column][idx]]. *)
Theorem choose_quantizer_selects (lst : cond_quantizer_list_t)
  (column : Z) (p : symbol_t) (a : alphabet_t) (r : double)
  (v : Z) (w : well_state_t) (lo hi : option quantizer_t) :
  zget (input_alphabets lst) column = Some (Some a) ->
  2 * alphabet_size a <= UINT32_MAX ->
  get_symbol_index a p <> ALPHABET_SYMBOL_NOT_FOUND ->
  well_1024a (well lst) = (v, w) ->
  in_range v ->
  get_ratio lst column (get_symbol_index a p) = Some r ->
  get_cond_quantizer_indexed lst column (2 * get_symbol_index a p)
    = Some lo ->
  get_cond_quantizer_indexed lst column (2 * get_symbol_index a p + 1)
    = Some hi ->
  exists u, well_uniform v = Fin u /\ (0 <= u <= 1)%R /\
    choose_quantizer lst column p
    = Returned (if dge (Fin u) r then hi else lo, set_well lst w) /\
    (is_nan r = false -> dge (Fin u) r = negb (dlt (Fin u) r)).
Proof.
  intros Ha Hsz Hf Hw Hv Hr Hlo Hhi.
  assert (Hsz' : alphabet_size a <= UINT32_MAX)
    by (unfold alphabet_size in *; lia).
  destruct (get_symbol_index_found _ _ Hsz' Hf) as [Hidx _].
  destruct (well_uniform_range v Hv) as [u [Eu Hu]].
  exists u. split; [exact Eu |]. split; [exact Hu |].
  unfold choose_quantizer. rewrite Ha. cbn [obind].
  set (idx := get_symbol_index a p) in *.
  destruct (Z.eqb_spec idx ALPHABET_SYMBOL_NOT_FOUND) as [E | _];
    [contradiction |].
  rewrite Hw, Hr, Eu.
  assert (E0 : u32 (2 * idx) = 2 * idx)
    by (apply u32_small; unfold in_range, UINT32_MAX in *; lia).
  assert (E1 : u32 (2 * idx + 1) = 2 * idx + 1)
    by (apply u32_small; unfold in_range, UINT32_MAX in *; lia).
  rewrite E0, E1.
  split.
  - destruct (dge (Fin u) r); [now rewrite Hhi | now rewrite Hlo].
  - apply dge_dlt.
Qed.

End StoreTheorems.

(** Storing [ex_lo] and [ex_hi] under the context 0 of [ex_opened]. *)
Lemma store_cond_quantizers_slots_witness :
  exists lst',
    store_cond_quantizers ex_lo ex_hi ex_opened 0 0 = Some lst' /\
    get_cond_quantizer_indexed lst' 0 (2 * get_symbol_index [0] 0)
      = Some (Some ex_lo) /\
    get_cond_quantizer_indexed lst' 0 (2 * get_symbol_index [0] 0 + 1)
      = Some (Some ex_hi) /\
    get_ratio lst' 0 (get_symbol_index [0] 0) = Some (qz_ratio ex_lo).
Proof.
  apply (store_cond_quantizers_slots (wl := counter_well) ex_lo ex_hi
           ex_opened 0 0 [0] [None; None] [Fin 0]);
    try reflexivity; discriminate.
Defined.

(** The context 7 is not in the input alphabet {0} of [ex_store]. *)
Lemma choose_quantizer_missing_context_witness :
  choose_quantizer ex_store 0 7 = AssertionFailed.
Proof.
  apply (choose_quantizer_missing_context (wl := counter_well)
           ex_store 0 7 [0]); [reflexivity |].
  intros [E | []]. discriminate E.
Defined.

(** A draw from [ex_store] under the context 0. *)
Lemma choose_quantizer_selects_witness :
  exists u, well_uniform 0 = Fin u /\ (0 <= u <= 1)%R /\
    choose_quantizer ex_store 0 0
    = Returned (if dge (Fin u) (Fin (1/4)) then Some ex_hi else Some ex_lo,
                set_well ex_store 1) /\
    (is_nan (Fin (1/4)) = false ->
     dge (Fin u) (Fin (1/4)) = negb (dlt (Fin u) (Fin (1/4)))).
Proof.
  apply (choose_quantizer_selects (wl := counter_well) ex_store 0 0 [0]
           (Fin (1/4)) 0 1 (Some ex_lo) (Some ex_hi));
    try reflexivity; try discriminate.
  split; [reflexivity | reflexivity].
Defined.

(** C5, counterexample.  In [ex_store_nan] the context 0 is in the input
    alphabet of column 0 and its ratio is NaN.  The draw [u] is not below
    the ratio, and the selector returns the low quantizer [ex_lo], not the
    high quantizer [ex_hi] of slot 1. *)
Lemma choose_quantizer_nan_ratio_low :
  exists u,
    well_uniform 0 = Fin u /\
    get_ratio ex_store_nan 0 (get_symbol_index [0] 0) = Some NaN /\
    dlt (Fin u) NaN = false /\
    get_cond_quantizer_indexed ex_store_nan 0 (2 * get_symbol_index [0] 0 + 1)
    = Some (Some ex_hi) /\
    choose_quantizer ex_store_nan 0 0
    = Returned (Some ex_lo, set_well ex_store_nan 1) /\
    ex_lo <> ex_hi.
Proof.
  assert (Hv : in_range 0) by (split; [lia | reflexivity]).
  destruct (well_uniform_range 0 Hv) as [u [Eu _]].
  exists u. split; [exact Eu |].
  split; [reflexivity |]. split; [reflexivity |]. split; [reflexivity |].
  split.
  - unfold choose_quantizer. cbn -[well_uniform]. rewrite Eu. reflexivity.
  - discriminate.
Qed.

(** ** The codebook file *)

Section WriteCodebookTheorems.
Context `{wl : Well}.

Lemma obind_some_inv {A B} (m : option A) (k : A -> option B) (b : B) :
  obind m k = Some b -> exists a, m = Some a /\ k a = Some b.
Proof. destruct m as [a |]; [eauto | discriminate]. Qed.

Lemma write_blocks_eq (quantizers : cond_quantizer_list_t) (size i : Z)
  (js : list Z) (fp : file) :
  ofold (fun fp j =>
           q_temp <- get_cond_quantizer quantizers i j ;;
           match q_temp with
           | Some qz =>
               linebuf <- quantizer_line qz size ;;
               Some (fwrite linebuf fp)
           | None => Some (fwrite (empty size) fp)
           end) js fp
  = (blocks <- omap (block_bytes quantizers size i) js ;;
     Some (fp ++ concat blocks)).
Proof.
  revert fp. induction js as [| j js IH]; intros fp; cbn [ofold omap obind].
  - now rewrite app_nil_r.
  - unfold block_bytes at 1.
    destruct (get_cond_quantizer quantizers i j) as [[qz |] |];
      cbn [obind]; [| | reflexivity].
    + destruct (quantizer_line qz size) as [l |]; cbn [obind];
        [| reflexivity].
      rewrite IH. unfold fwrite.
      destruct (omap _ js); cbn [obind concat]; [| reflexivity].
      now rewrite app_assoc.
    + rewrite IH. unfold fwrite.
      destruct (omap _ js); cbn [obind concat]; [| reflexivity].
      now rewrite app_assoc.
Qed.

Lemma write_column_line_eq (quantizers : cond_quantizer_list_t)
  (size i : Z) (fp : file) :
  write_column_line quantizers size i fp
  = (l <- column_line quantizers size i ;; Some (fp ++ l ++ eol)).
Proof.
  unfold write_column_line, column_line. rewrite write_blocks_eq.
  destruct (omap _ _); cbn [obind]; [| reflexivity].
  unfold fwrite. now rewrite app_assoc.
Qed.

Lemma write_column_twice (quantizers : cond_quantizer_list_t)
  (size i : Z) (fp : file) :
  ofold (fun fp z => write_column_line quantizers size i fp)
        (zrange 0 2) fp
  = (l <- column_line quantizers size i ;;
     Some (fp ++ (l ++ eol) ++ (l ++ eol))).
Proof.
  change (zrange 0 2) with [0; 1]. cbn [ofold].
  rewrite write_column_line_eq.
  destruct (column_line quantizers size i) as [l |] eqn:E; cbn [obind];
    [| reflexivity].
  rewrite write_column_line_eq, E. cbn [obind].
  now rewrite <- !app_assoc.
Qed.

Lemma write_columns_eq (quantizers : cond_quantizer_list_t) (size : Z)
  (cs : list Z) (fp : file) :
  ofold (fun fp i =>
           ofold (fun fp z => write_column_line quantizers size i fp)
                 (zrange 0 2) fp) cs fp
  = (cols <- omap (column_line quantizers size) cs ;;
     Some (fp ++ file_of_records (flat_map (fun l => [l; l]) cols))).
Proof.
  revert fp. induction cs as [| i cs IH]; intros fp; cbn [ofold omap obind].
  - unfold file_of_records. cbn. now rewrite app_nil_r.
  - rewrite write_column_twice.
    destruct (column_line quantizers size i) as [l |]; cbn [obind];
      [| reflexivity].
    rewrite IH.
    destruct (omap _ cs) as [cols |]; cbn [obind]; [| reflexivity].
    unfold file_of_records. cbn [flat_map map concat app].
    now rewrite <- !app_assoc.
Qed.

(** C9, amended.  The file that [write_codebook] produces is a sequence of
    newline-terminated records.  Records 4 and 5 are both the encoding of
    the quantizer in slot 0 of column 0, the low one (each byte the symbol
    plus 33); and for every column [c >= 1] the two records written, numbers
    [2c + 4] and [2c + 5], are the same line. *)
Theorem write_codebook_records (quantizers : cond_quantizer_list_t)
  (fp : file) :
  write_codebook quantizers = Some fp ->
  exists (q_lo : quantizer_t) (line0 : list Z) (records : list (list Z)),
    get_cond_quantizer_indexed quantizers 0 0 = Some (Some q_lo) /\
    quantizer_line q_lo (alphabet_size (qz_alphabet q_lo)) = Some line0 /\
    fp = file_of_records records /\
    nth_error records 3 = Some line0 /\
    nth_error records 4 = Some line0 /\
    forall c, 1 <= c < columns quantizers ->
      exists line,
        column_line quantizers (alphabet_size (qz_alphabet q_lo)) c
          = Some line /\
        nth_error records (Z.to_nat (2 * c + 3)) = Some line /\
        nth_error records (Z.to_nat (2 * c + 4)) = Some line.
Proof.
  unfold write_codebook. intros Hw.
  apply obind_some_inv in Hw. destruct Hw as [ptr [Hptr Hw]].
  apply obind_some_inv in Hw. destruct Hw as [q_lo [-> Hw]].
  apply obind_some_inv in Hw. destruct Hw as [ratios [Hratios Hw]].
  apply obind_some_inv in Hw. destruct Hw as [line0 [Hline0 Hw]].
  rewrite write_columns_eq in Hw.
  apply obind_some_inv in Hw. destruct Hw as [cols [Hcols Hw]].
  injection Hw as <-.
  set (size := alphabet_size (qz_alphabet q_lo)) in *.
  set (e := empty (columns quantizers)).
  exists q_lo, line0,
    ([e; e; ratios; line0; line0] ++ flat_map (fun l => [l; l]) cols).
  split; [exact Hptr |]. split; [exact Hline0 |]. split.
  - unfold file_of_records, fwrite. rewrite map_app, concat_app.
    f_equal. cbn [map concat]. now rewrite app_nil_r, <- !app_assoc.
  - split; [reflexivity |]. split; [reflexivity |].
    intros c Hc.
    assert (Hnth : forall (cs : list Z) (ls : list (list Z)) (n : nat),
               omap (column_line quantizers size) cs = Some ls ->
               (n < length cs)%nat ->
               exists line,
                 column_line quantizers size (nth n cs 0) = Some line /\
                 nth_error (flat_map (fun l => [l; l]) ls) (2 * n)
                   = Some line /\
                 nth_error (flat_map (fun l => [l; l]) ls) (2 * n + 1)
                   = Some line).
    { induction cs as [| i cs IH]; intros ls n Hls Hn;
        [cbn in Hn; lia |].
      cbn [omap] in Hls.
      destruct (column_line quantizers size i) as [l |] eqn:El;
        [| discriminate].
      destruct (omap _ cs) as [ls' |] eqn:Els; [| discriminate].
      injection Hls as <-. destruct n as [| n].
      - exists l. cbn. auto.
      - destruct (IH ls' n eq_refl) as [line [H1 [H2 H3]]];
          [cbn in Hn; lia |].
        exists line. split; [exact H1 |].
        replace (2 * S n)%nat with (S (S (2 * n))) by lia.
        cbn. split; [exact H2 | exact H3]. }
    destruct (Hnth _ _ (Z.to_nat (c - 1)) Hcols) as [line [H1 [H2 H3]]].
    { rewrite zrange_length. lia. }
    assert (Ec : nth (Z.to_nat (c - 1)) (zrange 1 (columns quantizers)) 0
                 = c).
    { rewrite zrange_nth by lia. lia. }
    rewrite Ec in H1. exists line. split; [exact H1 |].
    replace (Z.to_nat (2 * c + 3)) with (5 + 2 * Z.to_nat (c - 1))%nat
      by lia.
    replace (Z.to_nat (2 * c + 4)) with (5 + (2 * Z.to_nat (c - 1) + 1))%nat
      by lia.
    split; [exact H2 | exact H3].
Qed.

End WriteCodebookTheorems.

Lemma file_lines_records (records : list (list Z)) :
  Forall (fun l => ~ In 10 l) records ->
  file_lines (file_of_records records) = records.
Proof.
  assert (Hl : forall l cur rest, ~ In 10 l ->
            lines_from cur (l ++ 10 :: rest)
            = (rev cur ++ l) :: lines_from [] rest).
  { induction l as [| b l IH]; intros cur rest Hn; cbn [app lines_from].
    - now rewrite app_nil_r.
    - destruct (Z.eqb_spec b 10) as [-> | _]; [exfalso; apply Hn; now left |].
      rewrite IH by (intros Hin; apply Hn; now right).
      cbn [rev]. now rewrite <- app_assoc. }
  unfold file_lines, file_of_records.
  induction 1 as [| l records Hn _ IH]; [reflexivity |].
  cbn [map concat]. unfold eol at 1. rewrite <- app_assoc. cbn [app].
  rewrite Hl by exact Hn. cbn [rev app]. now rewrite IH.
Qed.

Section WriteCodebookExamples.
Local Open Scope R_scope.

Lemma ratio_byte_quarter :
  double_to_uint8 (fmul (Fin (1/4)) (Fin 100)) = Some 25%Z.
Proof.
  unfold fmul. cbn [dmul rounded].
  replace (1/4 * 100)%R with (IZR 25) by lra.
  pose proof (representable_IZR 25 eq_refl) as E.
  unfold representable in E. rewrite E.
  cbn [double_to_uint8].
  rewrite Rtrunc_nonneg by lra. rewrite Rfloor_IZR. reflexivity.
Qed.

Lemma write_codebook_ex_store :
  write_codebook ex_store
  = Some [32; 10; 32; 10; 58; 10; 33; 33; 35; 35; 10; 33; 33; 35; 35; 10]%Z.
Proof.
  unfold write_codebook.
  change (get_cond_quantizer_indexed ex_store 0 0)
    with (Some (Some ex_lo)).
  cbn [obind].
  assert (Er : ratio_line ex_store = Some [58%Z]).
  { unfold ratio_line.
    change (zrange 0 (columns ex_store)) with [0%Z]. cbn [omap].
    change (get_ratio ex_store 0 0) with (Some (Fin (1/4))).
    cbn [obind]. rewrite ratio_byte_quarter. reflexivity. }
  rewrite Er. reflexivity.
Qed.

Lemma write_codebook_ex_store2 :
  exists fp, write_codebook ex_store2 = Some fp.
Proof.
  unfold write_codebook.
  change (get_cond_quantizer_indexed ex_store2 0 0)
    with (Some (Some ex_lo)).
  cbn [obind].
  assert (Er : ratio_line ex_store2 = Some [58; 58]%Z).
  { unfold ratio_line.
    change (zrange 0 (columns ex_store2)) with [0; 1]%Z. cbn [omap].
    change (get_ratio ex_store2 0 0) with (Some (Fin (1/4))).
    change (get_ratio ex_store2 1 0) with (Some (Fin (1/4))).
    cbn [obind]. rewrite ratio_byte_quarter. reflexivity. }
  rewrite Er. eexists. reflexivity.
Qed.

End WriteCodebookExamples.

(** C9, as stated, fails: in the file written for [ex_store], whose
    column 0 holds [ex_lo] and [ex_hi], line 5 is the encoding of [ex_lo]
    and not that of [ex_hi]. *)
Lemma write_codebook_line5_is_low :
  exists fp,
    write_codebook ex_store = Some fp /\
    get_cond_quantizer_indexed ex_store 0 0 = Some (Some ex_lo) /\
    get_cond_quantizer_indexed ex_store 0 1 = Some (Some ex_hi) /\
    file_line fp 4 = quantizer_line ex_lo 4 /\
    file_line fp 5 = quantizer_line ex_lo 4 /\
    file_line fp 5 <> quantizer_line ex_hi 4.
Proof.
  eexists. split; [exact write_codebook_ex_store |].
  repeat split; try reflexivity. discriminate.
Qed.

(** The file written for the two-column list [ex_store2]. *)
Lemma write_codebook_records_witness :
  exists (fp : file) (q_lo : quantizer_t) (line0 : list Z)
         (records : list (list Z)),
    write_codebook ex_store2 = Some fp /\
    get_cond_quantizer_indexed ex_store2 0 0 = Some (Some q_lo) /\
    quantizer_line q_lo (alphabet_size (qz_alphabet q_lo)) = Some line0 /\
    fp = file_of_records records /\
    nth_error records 3 = Some line0 /\
    nth_error records 4 = Some line0 /\
    forall c, 1 <= c < columns ex_store2 ->
      exists line,
        column_line ex_store2 (alphabet_size (qz_alphabet q_lo)) c
          = Some line /\
        nth_error records (Z.to_nat (2 * c + 3)) = Some line /\
        nth_error records (Z.to_nat (2 * c + 4)) = Some line.
Proof.
  destruct write_codebook_ex_store2 as [fp Hfp].
  destruct (write_codebook_records (wl := counter_well) ex_store2 fp Hfp)
    as [q_lo [line0 [records Hrec]]].
  exists fp, q_lo, line0, records. split; [exact Hfp | exact Hrec].
Defined.

(** ** The statistics of the training lines *)

Lemma ofold_app {A S} (f : S -> A -> option S) (l1 l2 : list A) (s : S) :
  ofold f (l1 ++ l2) s = (s' <- ofold f l1 s ;; ofold f l2 s').
Proof.
  revert s. induction l1 as [| a l1 IH]; intros s; cbn [app ofold obind];
    [reflexivity |].
  destruct (f s a); cbn [obind]; [apply IH | reflexivity].
Qed.

Lemma zrange_NoDup lo hi : NoDup (zrange lo hi).
Proof.
  unfold zrange. apply Injective_map_NoDup; [| apply seq_NoDup].
  intros x y Hxy. lia.
Qed.

Section CountingTheorems.
Context `{pops : PmfOps}.

Variable columns : Z.
Variable N : Z.
Hypothesis no_wrap : 1 + N * (columns - 1) <= UINT32_MAX.

Lemma cond_pmf_index_valid (lst : cond_pmf_list_t) c s :
  alphabet_size (cp_alphabet lst) = N -> valid_context columns N c s ->
  cond_pmf_index lst c s = 1 + (c - 1) * N + s.
Proof.
  intros HN [Hc Hs]. unfold cond_pmf_index. rewrite HN.
  destruct (Z.eqb_spec c 0); [lia |].
  apply u32_small. unfold in_range, UINT32_MAX in *. nia.
Qed.

Lemma cond_pmf_index_inj (lst : cond_pmf_list_t) c s c' s' :
  alphabet_size (cp_alphabet lst) = N ->
  valid_context columns N c s -> valid_context columns N c' s' ->
  cond_pmf_index lst c s = cond_pmf_index lst c' s' -> c = c' /\ s = s'.
Proof.
  intros HN Hv Hv'.
  rewrite (cond_pmf_index_valid lst c s HN Hv),
          (cond_pmf_index_valid lst c' s' HN Hv').
  destruct Hv as [Hc Hs], Hv' as [Hc' Hs']. intros E.
  assert (c = c') by nia. subst c'. split; [reflexivity | lia].
Qed.

Lemma increment_cond_pmf_spec (lst lst' : cond_pmf_list_t) c prev s :
  increment_cond_pmf lst c prev s = Some lst' ->
  cp_alphabet lst' = cp_alphabet lst /\
  cp_columns lst' = cp_columns lst /\
  marginal_pmfs lst' = marginal_pmfs lst /\
  forall i,
    zget (pmfs lst') i =
    if i =? cond_pmf_index lst c prev
    then option_map (fun p => pmf_increment p s) (zget (pmfs lst) i)
    else zget (pmfs lst) i.
Proof.
  unfold increment_cond_pmf. intros Hi.
  destruct (zget (pmfs lst) (cond_pmf_index lst c prev)) as [p |] eqn:Ep;
    [| discriminate].
  cbn [obind] in Hi.
  destruct (zset (pmfs lst) _ _) as [ps |] eqn:Es; [| discriminate].
  injection Hi as <-. cbn. repeat split.
  intros i. destruct (Z.eqb_spec i (cond_pmf_index lst c prev)) as [-> | Hne].
  - rewrite (zget_zset_same _ _ _ _ Es), Ep. reflexivity.
  - apply (zget_zset_other _ _ _ _ _ Es Hne).
Qed.

Lemma line_symbol_zget (line : line_t) c s :
  zget line c = Some s -> line_symbol line c = s.
Proof. unfold line_symbol. now intros ->. Qed.

(** The loop over the columns of one line. *)
Lemma count_columns_spec (line : line_t) (cs : list Z) :
  line_in_range N line ->
  NoDup cs -> (forall c, In c cs -> 1 <= c < columns) ->
  forall lst lst',
    alphabet_size (cp_alphabet lst) = N ->
    ofold (fun l column =>
             dprev <- zget line (column - 1) ;;
             d <- zget line column ;;
             increment_cond_pmf l column dprev d) cs lst = Some lst' ->
    cp_alphabet lst' = cp_alphabet lst /\
    cp_columns lst' = cp_columns lst /\
    marginal_pmfs lst' = marginal_pmfs lst /\
    zget (pmfs lst') 0 = zget (pmfs lst) 0 /\
    forall c s, valid_context columns N c s ->
      zget (pmfs lst') (cond_pmf_index lst c s) =
      if existsb (Z.eqb c) cs && (line_symbol line (c - 1) =? s)
      then option_map (fun p => pmf_increment p (line_symbol line c))
             (zget (pmfs lst) (cond_pmf_index lst c s))
      else zget (pmfs lst) (cond_pmf_index lst c s).
Proof.
  intros Hline. induction cs as [| c0 cs IH]; intros Hnd Hcs lst lst' HN Hf.
  - cbn in Hf. injection Hf as <-. cbn. repeat split.
  - cbn [ofold] in Hf.
    destruct (zget line (c0 - 1)) as [dprev |] eqn:Eprev; [| discriminate].
    destruct (zget line c0) as [d |] eqn:Ed; [| discriminate].
    cbn [obind] in Hf.
    destruct (increment_cond_pmf lst c0 dprev d) as [lst1 |] eqn:E1;
      [| discriminate].
    destruct (increment_cond_pmf_spec _ _ _ _ _ E1)
      as (Ha1 & Hc1 & Hm1 & Hp1).
    apply NoDup_cons_iff in Hnd as [Hnotin Hnd'].
    assert (HN1 : alphabet_size (cp_alphabet lst1) = N) by congruence.
    destruct (IH Hnd' (fun c Hc => Hcs c (or_intror Hc)) lst1 lst' HN1 Hf)
      as (Ha & Hc & Hm & H0 & Hp).
    assert (Hc0 : 1 <= c0 < columns) by (apply Hcs; now left).
    assert (Hv0 : valid_context columns N c0 dprev).
    { split; [exact Hc0 |].
      unfold line_in_range in Hline. rewrite Forall_forall in Hline.
      apply Hline. eapply zget_In; eassumption. }
    assert (Eidx : forall c s, cond_pmf_index lst1 c s
                               = cond_pmf_index lst c s).
    { intros c s. unfold cond_pmf_index. now rewrite Ha1. }
    repeat split; try congruence.
    + rewrite H0, Hp1.
      destruct (Z.eqb_spec 0 (cond_pmf_index lst c0 dprev)) as [E | _];
        [| reflexivity].
      rewrite (cond_pmf_index_valid lst c0 dprev HN Hv0) in E.
      destruct Hv0. nia.
    + intros c s Hv. rewrite <- Eidx, Hp by exact Hv. rewrite Eidx.
      rewrite !Hp1. cbn [existsb].
      destruct (Z.eqb_spec c c0) as [-> | Hne].
      * assert (Hex : existsb (Z.eqb c0) cs = false).
        { apply not_true_is_false. intros Hex.
          apply existsb_exists in Hex. destruct Hex as [x [Hx Ex]].
          apply Z.eqb_eq in Ex. subst x. contradiction. }
        rewrite Hex. cbn [orb andb].
        rewrite (line_symbol_zget _ _ _ Eprev), (line_symbol_zget _ _ _ Ed).
        destruct (Z.eqb_spec dprev s) as [-> | Hs].
        -- now rewrite Z.eqb_refl.
        -- destruct (Z.eqb_spec (cond_pmf_index lst c0 s)
                       (cond_pmf_index lst c0 dprev)) as [E | _];
             [| reflexivity].
           apply (cond_pmf_index_inj lst _ _ _ _ HN Hv Hv0) in E.
           destruct E; congruence.
      * cbn [orb].
        destruct (Z.eqb_spec (cond_pmf_index lst c s)
                    (cond_pmf_index lst c0 dprev)) as [E | _].
        -- apply (cond_pmf_index_inj lst _ _ _ _ HN Hv Hv0) in E.
           destruct E; congruence.
        -- reflexivity.
Qed.

(** One training line. *)
Lemma count_line_spec (line : line_t) (lst lst' : cond_pmf_list_t) :
  line_in_range N line ->
  alphabet_size (cp_alphabet lst) = N ->
  count_line columns lst line = Some lst' ->
  cp_alphabet lst' = cp_alphabet lst /\
  cp_columns lst' = cp_columns lst /\
  marginal_pmfs lst' = marginal_pmfs lst /\
  zget (pmfs lst') 0 =
    option_map (fun p => pmf_increment p (line_symbol line 0))
      (zget (pmfs lst) 0) /\
  forall c s, valid_context columns N c s ->
    zget (pmfs lst') (cond_pmf_index lst c s) =
    if line_symbol line (c - 1) =? s
    then option_map (fun p => pmf_increment p (line_symbol line c))
           (zget (pmfs lst) (cond_pmf_index lst c s))
    else zget (pmfs lst) (cond_pmf_index lst c s).
Proof.
  intros Hline HN. unfold count_line. intros Hc.
  destruct (zget line 0) as [d0 |] eqn:E0; [| discriminate].
  cbn [obind] in Hc.
  destruct (increment_cond_pmf lst 0 0 d0) as [lst0 |] eqn:Ei;
    [| discriminate].
  cbn [obind] in Hc.
  destruct (increment_cond_pmf_spec _ _ _ _ _ Ei) as (Ha0 & Hc0 & Hm0 & Hp0).
  assert (HN0 : alphabet_size (cp_alphabet lst0) = N) by congruence.
  destruct (count_columns_spec line (zrange 1 columns) Hline
              (zrange_NoDup 1 columns)
              (fun c Hc => proj1 (zrange_In 1 columns c) Hc)
              lst0 lst' HN0 Hc) as (Ha & Hcc & Hm & H0 & Hp).
  assert (Eidx : forall c s, cond_pmf_index lst0 c s
                             = cond_pmf_index lst c s).
  { intros c s. unfold cond_pmf_index. now rewrite Ha0. }
  repeat split; try congruence.
  - rewrite H0, Hp0. change (cond_pmf_index lst 0 0) with 0.
    cbn. now rewrite (line_symbol_zget _ _ _ E0).
  - intros c s Hv. rewrite <- Eidx, Hp by exact Hv. rewrite Eidx.
    assert (Hex : existsb (Z.eqb c) (zrange 1 columns) = true).
    { apply existsb_exists. exists c. split; [| apply Z.eqb_refl].
      apply zrange_In. apply Hv. }
    rewrite Hex. cbn [andb]. rewrite !Hp0.
    change (cond_pmf_index lst 0 0) with 0.
    destruct (Z.eqb_spec (cond_pmf_index lst c s) 0) as [E | _];
      [| reflexivity].
    rewrite (cond_pmf_index_valid lst c s HN Hv) in E.
    destruct Hv. nia.
Qed.

Lemma option_map_compose {A B C} (f : A -> B) (g : B -> C) (o : option A) :
  option_map g (option_map f o) = option_map (fun a => g (f a)) o.
Proof. now destruct o. Qed.

(** All the training lines. *)
Lemma count_lines_spec (lines : list line_t) :
  Forall (line_in_range N) lines ->
  forall lst lst',
    alphabet_size (cp_alphabet lst) = N ->
    ofold (count_line columns) lines lst = Some lst' ->
    cp_alphabet lst' = cp_alphabet lst /\
    cp_columns lst' = cp_columns lst /\
    marginal_pmfs lst' = marginal_pmfs lst /\
    zget (pmfs lst') 0 =
      option_map (fun p => increments p (column0_symbols lines))
        (zget (pmfs lst) 0) /\
    forall c s, valid_context columns N c s ->
      zget (pmfs lst') (cond_pmf_index lst c s) =
      option_map (fun p => increments p (context_symbols lines c s))
        (zget (pmfs lst) (cond_pmf_index lst c s)).
Proof.
  induction 1 as [| line lines Hline _ IH]; intros lst lst' HN Hf.
  - cbn in Hf. injection Hf as <-. repeat split.
    + now destruct (zget (pmfs lst) 0).
    + intros c s _. now destruct (zget (pmfs lst) _).
  - cbn [ofold] in Hf.
    destruct (count_line columns lst line) as [lst1 |] eqn:E1;
      [| discriminate].
    destruct (count_line_spec line lst lst1 Hline HN E1)
      as (Ha1 & Hc1 & Hm1 & H01 & Hp1).
    assert (HN1 : alphabet_size (cp_alphabet lst1) = N) by congruence.
    destruct (IH lst1 lst' HN1 Hf) as (Ha & Hc & Hm & H0 & Hp).
    assert (Eidx : forall c s, cond_pmf_index lst1 c s
                               = cond_pmf_index lst c s).
    { intros c s. unfold cond_pmf_index. now rewrite Ha1. }
    repeat split; try congruence.
    + rewrite H0, H01, option_map_compose. reflexivity.
    + intros c s Hv. rewrite <- Eidx, Hp by exact Hv. rewrite Eidx.
      rewrite Hp1 by exact Hv. unfold context_symbols. cbn [filter].
      destruct (line_symbol line (c - 1) =? s).
      * rewrite option_map_compose. reflexivity.
      * reflexivity.
Qed.

End CountingTheorems.

Lemma dmul_1_l (x : double) : dmul (Fin 1) x = x.
Proof.
  destruct x as [x | | |]; cbn; try reflexivity.
  - f_equal. apply Rmult_1_l.
  - now rewrite Rsign_pos by lra.
  - now rewrite Rsign_pos by lra.
Qed.

Lemma zget_repeat {A} (x : A) (n : nat) (i : Z) :
  0 <= i < Z.of_nat n -> zget (repeat x n) i = Some x.
Proof.
  intros Hi. destruct (zget_defined (repeat x n) i) as [v Hv];
    [now rewrite repeat_length |].
  rewrite Hv. f_equal. apply zget_In in Hv.
  now apply repeat_spec in Hv.
Qed.

Lemma fold_left_map_dadd {A} (t : A -> double) (l : list A) (a : double) :
  fold_left (fun acc j => dadd acc (t j)) l a = fold_left dadd (map t l) a.
Proof. revert a. induction l as [| x l IH]; intros a; cbn; auto. Qed.

Lemma fold_left_pointwise {A B} (f g : A -> B -> A) (l : list B) (a : A) :
  (forall x y, f x y = g x y) -> fold_left f l a = fold_left g l a.
Proof.
  intros Hfg. revert a. induction l as [| y l IH]; intros a; cbn;
    [reflexivity |].
  rewrite Hfg. apply IH.
Qed.

Section MarginalTheorems.
Context `{pops : PmfOps} {laws : PmfLaws}.

Variable counted : cond_pmf_list_t.

Lemma marginal_fold_spec (c : Z) (js : list Z) :
  forall m m',
    ofold (fun m j =>
             mc <- zget m c ;;
             cj <- get_cond_pmf counted c j ;;
             mp <- zget m (c - 1) ;;
             zset m c
               (combine_pmfs mc cj (Fin 1) (get_probability mp j) mc))
          js m = Some m' ->
    length m' = length m /\
    (forall c', c' <> c -> zget m' c' = zget m c') /\
    forall mc0, zget m c = Some mc0 ->
      exists mc, zget m' c = Some mc /\
        forall k,
          get_probability mc k =
          fold_left (fun acc j =>
                       dadd acc (dmul (prev_probability m c j)
                                      (cond_probability counted c j k)))
                    js (get_probability mc0 k).
Proof.
  induction js as [| j js IH]; intros m m' Hf.
  - cbn in Hf. injection Hf as <-. repeat split. intros mc0 H0.
    exists mc0. split; [exact H0 | reflexivity].
  - cbn [ofold] in Hf.
    destruct (zget m c) as [mc |] eqn:Emc; [| discriminate].
    destruct (get_cond_pmf counted c j) as [cj |] eqn:Ecj; [| discriminate].
    destruct (zget m (c - 1)) as [mp |] eqn:Emp; [| discriminate].
    cbn [obind] in Hf.
    destruct (zset m c _) as [m1 |] eqn:E1; [| discriminate].
    destruct (IH m1 m' Hf) as (Hl & Ho & Hc).
    assert (Hprev : forall x, prev_probability m1 c x
                              = prev_probability m c x).
    { intros x. unfold prev_probability.
      now rewrite (zget_zset_other _ _ _ _ _ E1) by lia. }
    repeat split.
    + rewrite Hl. apply (zset_length _ _ _ _ E1).
    + intros c' Hc'. rewrite Ho by exact Hc'.
      apply (zget_zset_other _ _ _ _ _ E1 Hc').
    + intros mc0 Hmc0. injection Hmc0 as <-.
      destruct (Hc _ (zget_zset_same _ _ _ _ E1)) as [mc' [Hg Hk]].
      exists mc'. split; [exact Hg |]. intros k. rewrite Hk.
      cbn [fold_left]. rewrite combine_pmfs_probability, dmul_1_l.
      assert (Ep : prev_probability m c j = get_probability mp j)
        by (unfold prev_probability; now rewrite Emp).
      assert (Ec : cond_probability counted c j k = get_probability cj k)
        by (unfold cond_probability; now rewrite Ecj).
      rewrite Ep, Ec.
      apply fold_left_pointwise. intros acc x. now rewrite Hprev.
Qed.

Lemma marginal_column_spec (c : Z) (m m' : pmf_list_t) :
  marginal_column counted m c = Some m' ->
  length m' = length m /\
  (forall c', c' <> c -> zget m' c' = zget m c') /\
  forall mc0, zget m c = Some mc0 ->
    exists mc, zget m' c = Some mc /\
      forall k,
        get_probability mc k =
        fold_left dadd
          (map (fun j => dmul (prev_probability m c j)
                              (cond_probability counted c j k))
               (zrange 0 (alphabet_size (cp_alphabet counted))))
          (get_probability mc0 k).
Proof.
  intros Hm. unfold marginal_column in Hm.
  destruct (marginal_fold_spec c _ m m' Hm) as (Hl & Ho & Hc).
  repeat split; [exact Hl | exact Ho |].
  intros mc0 H0. destruct (Hc mc0 H0) as [mc [Hg Hk]].
  exists mc. split; [exact Hg |]. intros k.
  rewrite Hk. apply fold_left_map_dadd.
Qed.

Lemma marginals_prefix (columns : Z) (marg0 : pmf_list_t) :
  Z.of_nat (length marg0) = columns ->
  (forall c, 1 <= c < columns ->
             zget marg0 c = Some (alloc_pmf (cp_alphabet counted))) ->
  forall (n : nat) (m : pmf_list_t),
    1 + Z.of_nat n <= columns ->
    ofold (marginal_column counted) (zrange 1 (1 + Z.of_nat n)) marg0
      = Some m ->
    length m = length marg0 /\
    (forall c, 1 + Z.of_nat n <= c -> zget m c = zget marg0 c) /\
    forall c, 1 <= c < 1 + Z.of_nat n -> marginal_ok counted m c.
Proof.
  intros Hlen Hfresh. induction n as [| n IH]; intros m Hn Hf.
  - rewrite zrange_empty in Hf by lia. cbn in Hf. injection Hf as <-.
    repeat split. intros c Hc. lia.
  - replace (1 + Z.of_nat (S n)) with (1 + Z.of_nat n + 1) in Hf by lia.
    rewrite zrange_snoc, ofold_app in Hf by lia.
    destruct (ofold _ (zrange 1 (1 + Z.of_nat n)) marg0) as [m1 |] eqn:E1;
      [| discriminate].
    cbn [obind ofold] in Hf.
    destruct (marginal_column counted m1 (1 + Z.of_nat n)) as [m2 |] eqn:E2;
      [| discriminate].
    injection Hf as <-.
    destruct (IH m1 ltac:(lia) eq_refl) as (Hl1 & Hu1 & Hq1).
    destruct (marginal_column_spec _ _ _ E2) as (Hl2 & Ho2 & Hc2).
    repeat split.
    + congruence.
    + intros c Hc. rewrite Ho2 by lia. apply Hu1. lia.
    + intros c Hc. destruct (Z.eq_dec c (1 + Z.of_nat n)) as [-> | Hne].
      * intros k Hk.
        assert (H0 : zget m1 (1 + Z.of_nat n)
                     = Some (alloc_pmf (cp_alphabet counted))).
        { rewrite Hu1 by lia. apply Hfresh. lia. }
        destruct (Hc2 _ H0) as [mc [Hg Hv]].
        destruct (zget_defined m1 (1 + Z.of_nat n - 1)) as [mp Hmp];
          [lia |].
        exists mc, mp. split; [exact Hg |]. split.
        -- rewrite Ho2 by lia. exact Hmp.
        -- rewrite Hv, alloc_pmf_probability by exact Hk.
           unfold dsum. f_equal. apply map_ext. intros s.
           unfold prev_probability. now rewrite Hmp.
      * intros k Hk. destruct (Hq1 c ltac:(lia) k Hk)
          as [mc [mp [Hg [Hp Hv]]]].
        exists mc, mp. rewrite !Ho2 by lia. auto.
Qed.

End MarginalTheorems.

Section StatisticsTheorem.
Context `{pops : PmfOps} {laws : PmfLaws}.


End StatisticsTheorem.

(** ** The PMF operations of the specification satisfy its laws *)

Lemma nth_error_combine {A B} (la : list A) (lb : list B) (n : nat) :
  nth_error (combine la lb) n =
  match nth_error la n, nth_error lb n with
  | Some x, Some y => Some (x, y)
  | _, _ => None
  end.
Proof.
  revert lb n. induction la as [| x la IH]; intros lb n.
  - cbn. now destruct n.
  - destruct lb as [| y lb].
    + cbn. destruct n as [| n]; cbn; [reflexivity |].
      now destruct (nth_error la n).
    + destruct n as [| n]; cbn; [reflexivity | apply IH].
Qed.

Lemma dmul_NaN_r (x : double) : dmul x NaN = NaN.
Proof. now destruct x. Qed.

Lemma dadd_NaN_r (x : double) : dadd x NaN = NaN.
Proof. now destruct x. Qed.

Lemma spec_pmf_laws : @PmfLaws SpecPmf.ops.
Proof.
  split.
  - intros a b wa wb out s. cbn.
    unfold SpecPmf.get_probability, SpecPmf.combine_pmfs, zget. cbn [pmf].
    destruct (Z.ltb_spec s 0).
    + now rewrite !dmul_NaN_r.
    + rewrite nth_error_map, nth_error_combine.
      destruct (nth_error (pmf a) (Z.to_nat s)) as [x |],
               (nth_error (pmf b) (Z.to_nat s)) as [y |]; cbn [option_map];
        rewrite ?dmul_NaN_r, ?dadd_NaN_r; reflexivity.
  - intros A s Hs. cbn. unfold SpecPmf.get_probability, SpecPmf.alloc_pmf.
    cbn [pmf]. now rewrite zget_repeat.
Qed.

Lemma calculate_statistics_ex :
  exists stats,
    calculate_statistics (pops := SpecPmf.ops) ex_info ex_pmf_list = Some stats.
Proof. eexists. reflexivity. Qed.


(** ** The propagation of P(Q | X) *)

(** Evaluation of a closed computation on doubles: the program is run, and
    the signs of the reals it tests are decided by [lra]. *)
Ltac decide_signs :=
  repeat (match goal with
          | |- context [Rsign ?x] =>
              first [ rewrite (Rsign_pos x) by lra
                    | rewrite (Rsign_zero x) by lra
                    | rewrite (Rsign_neg x) by lra ]
          end; cbv beta iota).

Ltac eval_doubles := lazy -[IZR Rdiv Rsign]; decide_signs.

(** Equality of two lists of PMFs with finite entries, entry by entry. *)
Ltac pmf_entries :=
  repeat match goal with
         | |- Some _ = Some _ => apply f_equal
         | |- _ :: _ = _ :: _ => apply f_equal2
         | |- mkPmf _ _ = mkPmf _ _ => apply f_equal
         | |- Fin _ = Fin _ => apply f_equal
         | |- [] = [] => reflexivity
         end.

Section QpmfExample.
Local Open Scope R_scope.

(** What the specification describes on the input [ex3_*]: the rows
    (7/8, 1/8) and (3/8, 5/8). *)
Lemma compute_qpmf_list_spec_ex3 :
  compute_qpmf_list_spec (pops := SpecPmf.ops) (wl := counter_well)
    ex3_in_pmfs 2 ex3_prev_qpmf_list [0; 1]%Z [0; 1]%Z ex3_q_list
    ex3_qpmf_list
  = Some [mkPmf true [Fin (7/8); Fin (1/8)];
          mkPmf true [Fin (3/8); Fin (5/8)]].
Proof. eval_doubles. pmf_entries; field. Qed.

(** C3.  On the input [ex3_*] (column 2, two previous contexts)
    [compute_qpmf_list] returns the rows (12/13, 1/13) and (1/4, 3/4): the
    running value of [p_q_xq] is not reset between the previous contexts
    and multiplies the whole accumulated entry, so the result is not the
    renormalized sum over the contexts of contribution times weight, which
    has the rows (7/8, 1/8) and (3/8, 5/8). *)
Theorem compute_qpmf_list_ex3 :
  compute_qpmf_list (pops := SpecPmf.ops) (wl := counter_well)
    ex3_qpmf_list ex3_in_pmfs 2 ex3_prev_qpmf_list [0; 1]%Z [0; 1]%Z
    ex3_q_list
  = Some [mkPmf true [Fin (12/13); Fin (1/13)];
          mkPmf true [Fin (1/4); Fin (3/4)]]
  /\
  compute_qpmf_list (pops := SpecPmf.ops) (wl := counter_well)
    ex3_qpmf_list ex3_in_pmfs 2 ex3_prev_qpmf_list [0; 1]%Z [0; 1]%Z
    ex3_q_list
  <> compute_qpmf_list_spec (pops := SpecPmf.ops) (wl := counter_well)
       ex3_in_pmfs 2 ex3_prev_qpmf_list [0; 1]%Z [0; 1]%Z ex3_q_list
       ex3_qpmf_list.
Proof.
  assert (E : compute_qpmf_list (pops := SpecPmf.ops) (wl := counter_well)
                ex3_qpmf_list ex3_in_pmfs 2 ex3_prev_qpmf_list
                [0; 1]%Z [0; 1]%Z ex3_q_list
              = Some [mkPmf true [Fin (12/13); Fin (1/13)];
                      mkPmf true [Fin (1/4); Fin (3/4)]]).
  { eval_doubles. pmf_entries; field. }
  split; [exact E |].
  rewrite E, compute_qpmf_list_spec_ex3. intros Heq.
  injection Heq as Heq _. lra.
Qed.

End QpmfExample.

(** ** Unions of alphabets *)

Lemma insert_symbol_In (s x : symbol_t) (a : alphabet_t) :
  In x (insert_symbol s a) <-> x = s \/ In x a.
Proof.
  induction a as [| y a IH]; cbn [insert_symbol].
  - cbn. intuition.
  - destruct (Z.ltb_spec s y); [cbn; intuition |].
    destruct (Z.eqb_spec s y) as [-> | Hne]; [cbn; intuition |].
    cbn [In]. rewrite IH. intuition.
Qed.

Lemma insert_symbol_sorted (s : symbol_t) (a : alphabet_t) :
  StronglySorted Z.lt a -> StronglySorted Z.lt (insert_symbol s a).
Proof.
  induction 1 as [| y a Hs IH Hy]; cbn [insert_symbol].
  - repeat constructor.
  - destruct (Z.ltb_spec s y) as [Hlt | Hge].
    + constructor; [now constructor |].
      constructor; [exact Hlt |].
      rewrite Forall_forall in *. intros z Hz. specialize (Hy z Hz). lia.
    + destruct (Z.eqb_spec s y) as [-> | Hne]; [now constructor |].
      constructor; [exact IH |].
      rewrite Forall_forall in *. intros z Hz.
      apply insert_symbol_In in Hz. destruct Hz as [-> | Hz];
        [lia | now apply Hy].
Qed.

Lemma alphabet_union_In (a b : alphabet_t) (s : symbol_t) :
  In s (alphabet_union a b) <-> In s a \/ In s b.
Proof.
  unfold alphabet_union. rewrite <- in_app_iff.
  induction (a ++ b) as [| x l IH]; cbn [fold_right].
  - cbn. tauto.
  - rewrite insert_symbol_In, IH. cbn. intuition.
Qed.

Lemma alphabet_union_sorted (a b : alphabet_t) :
  StronglySorted Z.lt (alphabet_union a b).
Proof.
  unfold alphabet_union.
  induction (a ++ b) as [| x l IH]; cbn [fold_right].
  - constructor.
  - now apply insert_symbol_sorted.
Qed.

Lemma sorted_NoDup (a : alphabet_t) : StronglySorted Z.lt a -> NoDup a.
Proof.
  induction 1 as [| y a Hs IH Hy]; constructor; [| exact IH].
  intros Hin. rewrite Forall_forall in Hy. specialize (Hy y Hin). lia.
Qed.

(** A duplicate-free alphabet of symbols below [B] has at most [B]
    symbols. *)
Lemma bounded_alphabet_size (a : alphabet_t) (B : Z) :
  0 <= B ->
  NoDup a -> (forall s, In s a -> 0 <= s < B) -> alphabet_size a <= B.
Proof.
  intros HB Hnd Hb. unfold alphabet_size.
  assert (Hincl : incl a (zrange 0 B)).
  { intros s Hs. apply zrange_In. now apply Hb. }
  pose proof (NoDup_incl_length Hnd Hincl) as Hlen.
  rewrite zrange_length in Hlen. lia.
Qed.

(** ** Frame properties of the operations on the quantizer store *)

Section StoreFrame.
Context `{wl : Well}.

Lemma get_cond_quantizer_indexed_ext (lst lst' : cond_quantizer_list_t)
  (c j : Z) :
  zget (q lst') c = zget (q lst) c ->
  get_cond_quantizer_indexed lst' c j = get_cond_quantizer_indexed lst c j.
Proof. unfold get_cond_quantizer_indexed. now intros ->. Qed.

Lemma cond_quantizer_init_column_spec (lst lst' : cond_quantizer_list_t)
  (c : Z) (u : alphabet_t) :
  cond_quantizer_init_column lst c u = Some lst' ->
  zget (input_alphabets lst') c = Some (Some u) /\
  zget (q lst') c
    = Some (Some (repeat None (Z.to_nat (u32 (alphabet_size u * 2))))) /\
  zget (ratio lst') c
    = Some (Some (repeat (Fin 0) (Z.to_nat (alphabet_size u)))) /\
  forall c', c' <> c ->
    zget (input_alphabets lst') c' = zget (input_alphabets lst) c' /\
    zget (q lst') c' = zget (q lst) c' /\
    zget (ratio lst') c' = zget (ratio lst) c'.
Proof.
  unfold cond_quantizer_init_column, duplicate_alphabet. intros Hi.
  destruct (zset (input_alphabets lst) c _) as [ia |] eqn:Eia;
    [| discriminate].
  cbn [obind] in Hi.
  destruct (zset (q lst) c _) as [qs |] eqn:Eqs; [| discriminate].
  cbn [obind] in Hi.
  destruct (zset (ratio lst) c _) as [rs |] eqn:Ers; [| discriminate].
  injection Hi as <-. cbn [input_alphabets q ratio].
  split; [apply (zget_zset_same _ _ _ _ Eia) |].
  split; [apply (zget_zset_same _ _ _ _ Eqs) |].
  split; [apply (zget_zset_same _ _ _ _ Ers) |].
  intros c' Hc'.
  rewrite (zget_zset_other _ _ _ _ _ Eia Hc'),
          (zget_zset_other _ _ _ _ _ Eqs Hc'),
          (zget_zset_other _ _ _ _ _ Ers Hc').
  auto.
Qed.

Lemma cond_quantizer_init_column_stored (P : quantizer_t -> Prop)
  (lst lst' : cond_quantizer_list_t) (c : Z) (u : alphabet_t) :
  cond_quantizer_init_column lst c u = Some lst' ->
  stored P lst -> stored P lst'.
Proof.
  intros Hi HP c' j qz Hg.
  destruct (cond_quantizer_init_column_spec _ _ _ _ Hi)
    as (_ & Hq & _ & Ho).
  destruct (Z.eq_dec c' c) as [-> | Hne].
  - unfold get_cond_quantizer_indexed in Hg. rewrite Hq in Hg.
    cbn [obind] in Hg. apply zget_In, repeat_spec in Hg. discriminate.
  - apply (HP c' j).
    rewrite <- Hg. symmetry. apply get_cond_quantizer_indexed_ext.
    apply (Ho c' Hne).
Qed.

Lemma store_cond_quantizers_frame (lo hi : quantizer_t)
  (lst lst' : cond_quantizer_list_t) (c : Z) (prev : symbol_t) :
  store_cond_quantizers lo hi lst c prev = Some lst' ->
  input_alphabets lst' = input_alphabets lst /\
  (forall c', c' <> c ->
     zget (q lst') c' = zget (q lst) c' /\
     zget (ratio lst') c' = zget (ratio lst) c') /\
  (forall j qz,
     get_cond_quantizer_indexed lst' c j = Some (Some qz) ->
     qz = lo \/ qz = hi \/
     get_cond_quantizer_indexed lst c j = Some (Some qz)) /\
  forall n, slots_length lst c n -> slots_length lst' c n.
Proof.
  unfold store_cond_quantizers. intros Hs.
  destruct (zget (input_alphabets lst) c) as [[a |] |]; try discriminate.
  cbn [obind] in Hs.
  destruct (zget (q lst) c) as [[slots |] |] eqn:Eq; try discriminate.
  cbn [obind] in Hs.
  destruct (zset slots _ (Some lo)) as [s1 |] eqn:Es1; [| discriminate].
  cbn [obind] in Hs.
  destruct (zset s1 _ (Some hi)) as [s2 |] eqn:Es2; [| discriminate].
  cbn [obind] in Hs.
  destruct (zget (ratio lst) c) as [[ratios |] |]; try discriminate.
  cbn [obind] in Hs.
  destruct (zset ratios _ _) as [r1 |]; [| discriminate].
  cbn [obind] in Hs.
  destruct (zset (q lst) c _) as [qs |] eqn:Eqs; [| discriminate].
  cbn [obind] in Hs.
  destruct (zset (ratio lst) c _) as [rs |] eqn:Ers; [| discriminate].
  injection Hs as <-. cbn [input_alphabets q ratio].
  split; [reflexivity |]. split; [| split].
  - intros c' Hc'.
    now rewrite (zget_zset_other _ _ _ _ _ Eqs Hc'),
                (zget_zset_other _ _ _ _ _ Ers Hc').
  - intros j qz. unfold get_cond_quantizer_indexed. cbn [q].
    rewrite (zget_zset_same _ _ _ _ Eqs), Eq. cbn [obind].
    set (i0 := u32 (2 * get_symbol_index a prev)) in *.
    set (i1 := u32 (2 * get_symbol_index a prev + 1)) in *.
    destruct (Z.eq_dec j i1) as [-> | Hj1].
    + rewrite (zget_zset_same _ _ _ _ Es2). intros E.
      injection E as <-. auto.
    + rewrite (zget_zset_other _ _ _ _ _ Es2 Hj1).
      destruct (Z.eq_dec j i0) as [-> | Hj0].
      * rewrite (zget_zset_same _ _ _ _ Es1). intros E.
        injection E as <-. auto.
      * rewrite (zget_zset_other _ _ _ _ _ Es1 Hj0). auto.
  - intros n [slots0 [E0 Hn]]. unfold slots_length. cbn [q].
    rewrite (zget_zset_same _ _ _ _ Eqs). exists s2. split; [reflexivity |].
    rewrite (zset_length _ _ _ _ Es2), (zset_length _ _ _ _ Es1).
    congruence.
Qed.

Lemma store_cond_quantizers_stored (P : quantizer_t -> Prop)
  (lo hi : quantizer_t) (lst lst' : cond_quantizer_list_t) (c : Z)
  (prev : symbol_t) :
  store_cond_quantizers lo hi lst c prev = Some lst' ->
  P lo -> P hi -> stored P lst -> stored P lst'.
Proof.
  intros Hs Hlo Hhi HP c' j qz Hg.
  destruct (store_cond_quantizers_frame _ _ _ _ _ _ Hs)
    as (_ & Ho & Hc & _).
  destruct (Z.eq_dec c' c) as [-> | Hne].
  - destruct (Hc j qz Hg) as [-> | [-> | Hold]]; auto.
    now apply (HP c j).
  - apply (HP c' j). rewrite <- Hg. symmetry.
    apply get_cond_quantizer_indexed_ext. apply (Ho c' Hne).
Qed.

End StoreFrame.

(** ** The codebook generator *)

Section GeneratorTheorems.
Context `{pops : PmfOps} `{des : Designer} `{wl : Well}.

Lemma frame_refl c lst : frame c lst lst.
Proof. repeat split; auto. Qed.

Lemma frame_trans c l1 l2 l3 : frame c l1 l2 -> frame c l2 l3 -> frame c l1 l3.
Proof.
  intros (Ha & Hq & Hs & Hl) (Ha' & Hq' & Hs' & Hl'). repeat split.
  - congruence.
  - intros c' Hc'. rewrite Hq', Hq by exact Hc'. reflexivity.
  - intros P HP Hst. apply Hs'; [exact HP |]. now apply Hs.
  - intros n Hn. now apply Hl', Hl.
Qed.

Lemma design_and_store_frame (p : pmf_t) (dist : distortion_t)
  (comp : double) (lst : cond_quantizer_list_t) (c : Z) (sym : symbol_t)
  r :
  design_and_store p dist comp lst c sym = Some r ->
  frame c lst (fst (fst (fst r))).
Proof.
  unfold design_and_store. intros Hd.
  destruct (find_states _) as [st |]; [| discriminate].
  cbn [obind] in Hd.
  destruct (store_cond_quantizers _ _ lst c sym) as [lst' |] eqn:Es;
    [| discriminate].
  injection Hd as <-. cbn [fst].
  destruct (store_cond_quantizers_frame _ _ _ _ _ _ Es)
    as (Ha & Ho & _ & Hl).
  repeat split.
  - exact Ha.
  - intros c' Hc'. apply (Ho c' Hc').
  - intros P HP Hst.
    apply (store_cond_quantizers_stored P _ _ _ _ _ _ Es); auto.
  - exact Hl.
Qed.

Lemma design_loop_frame (xpmf_list : pmf_list_t) (dist : distortion_t)
  (comp : double) (c : Z) (u : alphabet_t) (js : list Z) :
  forall acc acc',
    ofold (design_context xpmf_list dist comp c u) js acc = Some acc' ->
    frame c (fst (fst (fst acc))) (fst (fst (fst acc'))).
Proof.
  induction js as [| j js IH]; intros acc acc' Hf.
  - cbn in Hf. injection Hf as <-. apply frame_refl.
  - cbn [ofold] in Hf.
    destruct (design_context xpmf_list dist comp c u acc j) as [acc1 |] eqn:E1;
      [| discriminate].
    apply frame_trans with (l2 := fst (fst (fst acc1))); [| now apply IH].
    destruct acc as [[[l lo] hi] r]. unfold design_context in E1.
    destruct (zget u j) as [sym |]; [| discriminate].
    destruct (zget xpmf_list j) as [pj |]; [| discriminate].
    cbn [obind] in E1. cbn [fst].
    now apply (design_and_store_frame pj dist comp l c sym).
Qed.


Lemma output_union_fold (lst : cond_quantizer_list_t) (c1 : Z)
  (js : list Z) :
  forall u0 u,
    ofold (fun u j =>
             ptr <- get_cond_quantizer_indexed lst c1 j ;;
             qz <- ptr ;;
             Some (alphabet_union u (qz_output_alphabet qz))) js u0
    = Some u ->
    (forall j, In j js ->
       exists qz, get_cond_quantizer_indexed lst c1 j = Some (Some qz)) /\
    (forall s, In s u <->
       In s u0 \/
       exists j qz, In j js /\
         get_cond_quantizer_indexed lst c1 j = Some (Some qz) /\
         In s (qz_output_alphabet qz)) /\
    (js <> [] \/ StronglySorted Z.lt u0 -> StronglySorted Z.lt u).
Proof.
  induction js as [| j js IH]; intros u0 u Hf.
  - cbn in Hf. injection Hf as <-. split; [| split].
    + intros j [].
    + intros s. split; [auto |].
      intros [Hs | [j [qz [[] _]]]]. exact Hs.
    + intros [Hne | Hs]; [congruence | exact Hs].
  - cbn [ofold] in Hf.
    destruct (get_cond_quantizer_indexed lst c1 j) as [[qz |] |] eqn:Ej;
      try discriminate.
    cbn [obind] in Hf.
    destruct (IH _ _ Hf) as (Hall & Hin & Hsorted). split; [| split].
    + intros j' [<- | Hj']; [eauto | now apply Hall].
    + intros s. split.
      * intros Hs. apply Hin in Hs.
        destruct Hs as [Hs | [j' [qz' [Hj' Hq']]]].
        -- apply alphabet_union_In in Hs. destruct Hs as [Hs | Hs];
             [now left | right].
           exists j, qz. split; [now left | auto].
        -- right. exists j', qz'. split; [now right | exact Hq'].
      * intros [Hs | [j' [qz' [[<- | Hj'] [Hg Hs]]]]]; apply Hin.
        -- left. apply alphabet_union_In. now left.
        -- left. apply alphabet_union_In. right.
           rewrite Ej in Hg. injection Hg as <-. exact Hs.
        -- right. eauto.
    + intros _. apply Hsorted. right. apply alphabet_union_sorted.
Qed.

Lemma output_union_spec (lst : cond_quantizer_list_t) (c : Z)
  (prev u : alphabet_t) :
  2 * alphabet_size prev <= UINT32_MAX ->
  1 <= alphabet_size prev ->
  output_union lst c prev = Some u ->
  (forall j, 0 <= j < 2 * alphabet_size prev ->
     exists qz, get_cond_quantizer_indexed lst (c - 1) j = Some (Some qz)) /\
  (forall s, In s u <->
     exists j qz, 0 <= j < 2 * alphabet_size prev /\
       get_cond_quantizer_indexed lst (c - 1) j = Some (Some qz) /\
       In s (qz_output_alphabet qz)) /\
  StronglySorted Z.lt u.
Proof.
  intros Hmax Hne. unfold output_union, duplicate_alphabet.
  rewrite u32_small by (unfold in_range, UINT32_MAX in *; lia).
  destruct (get_cond_quantizer_indexed lst (c - 1) 0) as [[first |] |] eqn:E0;
    try discriminate.
  cbn [obind]. intros Hf.
  destruct (output_union_fold _ _ _ _ _ Hf) as (Hall & Hin & Hsorted).
  split; [| split].
  - intros j Hj. destruct (Z.eq_dec j 0) as [-> | Hj0]; [eauto |].
    apply Hall, zrange_In. lia.
  - intros s. rewrite Hin. split.
    + intros [Hs | [j [qz [Hj Hq]]]].
      * exists 0, first. split; [lia | auto].
      * apply zrange_In in Hj. exists j, qz. split; [lia | exact Hq].
    + intros [j [qz [Hj [Hg Hs]]]].
      destruct (Z.eq_dec j 0) as [-> | Hj0].
      * left. rewrite E0 in Hg. injection Hg as <-. exact Hs.
      * right. exists j, qz. split; [apply zrange_In; lia | auto].
  - apply Hsorted. left. rewrite zrange_cons by lia. discriminate.
Qed.

Lemma output_union_nonempty (lst : cond_quantizer_list_t) (c : Z)
  (prev u : alphabet_t) :
  output_union lst c prev = Some u ->
  slots_length lst (c - 1) (Z.to_nat (2 * alphabet_size prev)) ->
  1 <= alphabet_size prev.
Proof.
  unfold output_union, get_cond_quantizer_indexed at 1.
  intros Hu [slots [Hq Hlen]]. rewrite Hq in Hu. cbn [obind] in Hu.
  destruct (zget slots 0) as [ptr |] eqn:E0; [| discriminate].
  apply zget_range in E0. lia.
Qed.

Lemma codebook_column_spec (in_pmfs : cond_pmf_list_t)
  (dist : distortion_t) (comp : double) (g g' : gen_state) (c : Z) :
  codebook_column in_pmfs dist comp g c = Some g' ->
  exists u lst1,
    output_union (g_list g) c (g_prev_output_union g) = Some u /\
    cond_quantizer_init_column (g_list g) c u = Some lst1 /\
    frame c lst1 (g_list g') /\
    g_prev_output_union g' = u.
Proof.
  unfold codebook_column. intros Hc.
  destruct (output_union _ _ _) as [u |] eqn:Eu; [| discriminate].
  cbn [obind] in Hc.
  destruct (cond_quantizer_init_column _ _ _) as [lst1 |] eqn:Ei;
    [| discriminate].
  cbn [obind] in Hc.
  match type of Hc with
  | obind ?m _ = _ => destruct m as [qpmf_list |]; [| discriminate]
  end.
  cbn [obind] in Hc.
  destruct (compute_xpmf_list _ _ _ _ _) as [xpmf_list |]; [| discriminate].
  cbn [obind] in Hc.
  destruct (ofold _ _ _) as [[[[lst' lo] hi] r] |] eqn:Ef; [| discriminate].
  cbn [obind] in Hc. injection Hc as <-. cbn [g_list g_prev_output_union].
  exists u, lst1. split; [reflexivity |]. split; [exact Ei |].
  split; [| reflexivity].
  apply (design_loop_frame _ _ _ _ _ _ _ _ Ef).
Qed.

Lemma column_ok_ext (lst lst' : cond_quantizer_list_t) (c : Z) :
  zget (input_alphabets lst') c = zget (input_alphabets lst) c ->
  zget (input_alphabets lst') (c - 1) = zget (input_alphabets lst) (c - 1) ->
  zget (q lst') (c - 1) = zget (q lst) (c - 1) ->
  column_ok lst c -> column_ok lst' c.
Proof.
  intros Ha Ha' Hq (a & a' & H1 & H2 & H3 & H4).
  exists a, a'. rewrite Ha, Ha'. split; [exact H1 |]. split; [exact H2 |].
  assert (E : forall j, get_cond_quantizer_indexed lst' (c - 1) j
                        = get_cond_quantizer_indexed lst (c - 1) j)
    by (intros j; now apply get_cond_quantizer_indexed_ext).
  split.
  - intros j Hj. rewrite E. now apply H3.
  - intros s. rewrite H4. split; intros [j [qz Hj]]; exists j, qz.
    + now rewrite E.
    + now rewrite <- E.
Qed.

Lemma codebook_column_invariant (in_pmfs : cond_pmf_list_t)
  (dist : distortion_t) (comp : double) (g g' : gen_state) (c : Z) col0 :
  designed output_in_range ->
  1 <= c ->
  gen_invariant col0 c g ->
  codebook_column in_pmfs dist comp g c = Some g' ->
  gen_invariant col0 (c + 1) g'.
Proof.
  intros Hdes Hc (Hprev & Hsize & Hslots & Hstored & Hia0 & Hq0 & Hok) Hstep.
  destruct (codebook_column_spec _ _ _ _ _ _ Hstep)
    as (u & lst1 & Hu & Hinit & (Fa & Fq & Fs & Fl) & Hu').
  pose proof (output_union_nonempty _ _ _ _ Hu Hslots) as Hne.
  assert (Hmax : 2 * alphabet_size (g_prev_output_union g) <= UINT32_MAX)
    by (unfold SYMBOL_LIMIT, UINT32_MAX, modulus in *; lia).
  destruct (output_union_spec _ _ _ _ Hmax Hne Hu) as (Hall & Hin & Hsorted).
  destruct (cond_quantizer_init_column_spec _ _ _ _ Hinit)
    as (Ia & Iq & _ & Io).
  assert (Husize : alphabet_size u <= SYMBOL_LIMIT).
  { apply bounded_alphabet_size;
      [unfold SYMBOL_LIMIT; lia | now apply sorted_NoDup |].
    intros s Hs. apply Hin in Hs. destruct Hs as [j [qz [_ [Hg Hs]]]].
    now apply (Hstored _ _ _ Hg). }
  unfold gen_invariant. replace (c + 1 - 1) with c by lia. rewrite Hu'.
  assert (Eia : forall c', c' <> c ->
            zget (input_alphabets (g_list g')) c'
            = zget (input_alphabets (g_list g)) c').
  { intros c' Hc'. rewrite Fa. apply (Io c' Hc'). }
  assert (Eq : forall c', c' <> c ->
            zget (q (g_list g')) c' = zget (q (g_list g)) c').
  { intros c' Hc'. rewrite Fq by exact Hc'. apply (Io c' Hc'). }
  split; [now rewrite Fa |]. split; [exact Husize |]. split.
  { apply Fl. unfold slots_length. rewrite Iq. eexists.
    split; [reflexivity |]. rewrite repeat_length.
    rewrite u32_small
      by (unfold in_range, SYMBOL_LIMIT, modulus, alphabet_size in *; lia).
    f_equal. lia. }
  split.
  { apply Fs; [exact Hdes |].
    apply (cond_quantizer_init_column_stored _ _ _ _ _ Hinit Hstored). }
  split; [rewrite Eia by lia; exact Hia0 |].
  split; [rewrite Eq by lia; exact Hq0 |].
  intros c' Hc'. destruct (Z.eq_dec c' c) as [-> | Hcc].
  - exists u, (g_prev_output_union g).
    split; [rewrite Fa; exact Ia |].
    split; [rewrite Eia by lia; exact Hprev |].
    assert (E : forall j, get_cond_quantizer_indexed (g_list g') (c - 1) j
                          = get_cond_quantizer_indexed (g_list g) (c - 1) j).
    { intros j. apply get_cond_quantizer_indexed_ext. apply Eq. lia. }
    split.
    + intros j Hj. rewrite E. now apply Hall.
    + intros s. rewrite Hin. split; intros [j [qz Hj]]; exists j, qz.
      * now rewrite E.
      * now rewrite <- E.
  - apply (column_ok_ext (g_list g)).
    + apply Eia. lia.
    + apply Eia. lia.
    + apply Eq. lia.
    + apply Hok. lia.
Qed.

Lemma alloc_stored (P : quantizer_t -> Prop) (n : Z) :
  stored P (alloc_conditional_quantizer_list n).
Proof.
  intros c j qz Hg. unfold get_cond_quantizer_indexed in Hg.
  cbn [alloc_conditional_quantizer_list q] in Hg.
  destruct (zget (repeat None (Z.to_nat n)) c) as [col |] eqn:E;
    [| discriminate].
  apply zget_In, repeat_spec in E. subst col. discriminate.
Qed.

(** Column 0: the allocation for the entropy of the unconditional PMF
    times [comp], the two quantizers designed for it in the slots 0 and 1,
    and the ratio of the low one recorded. *)
Lemma codebook_column0_spec (info : quality_file_t)
  (stats : cond_pmf_list_t) (dist : distortion_t) (comp : double)
  (g0 : gen_state) :
  codebook_column0 info stats dist comp = Some g0 ->
  exists p0 st,
    get_cond_pmf stats 0 0 = Some p0 /\
    find_states (dmul (get_entropy p0) comp) = Some st /\
    zget (input_alphabets (g_list g0)) 0 = Some (Some [0]) /\
    zget (q (g_list g0)) 0
      = Some (Some
          [Some (fst (generate_quantizer p0 dist (st_low st) (st_ratio st)));
           Some (fst (generate_quantizer p0 dist (st_high st)
                        (dsub (Fin 1) (st_ratio st))))]) /\
    get_ratio (g_list g0) 0 0
      = Some (qz_ratio
                (fst (generate_quantizer p0 dist (st_low st)
                        (st_ratio st)))) /\
    g_prev_output_union g0 = [0] /\
    forall P, designed P -> stored P (g_list g0).
Proof.
  unfold codebook_column0. intros H0.
  destruct (cond_quantizer_init_column _ 0 _) as [lst0 |] eqn:Ei;
    [| discriminate].
  cbn [obind] in H0.
  destruct (get_cond_pmf stats 0 0) as [p0 |]; [| discriminate].
  cbn [obind] in H0.
  destruct (design_and_store p0 dist comp lst0 0 0)
    as [[[[lst1 lo] hi] r] |] eqn:Ed; [| discriminate].
  cbn [obind] in H0. injection H0 as <-. cbn [g_list g_prev_output_union].
  pose proof (design_and_store_frame _ _ _ _ _ _ _ Ed)
    as (Fa & _ & Fs & _). cbn [fst] in *.
  destruct (cond_quantizer_init_column_spec _ _ _ _ Ei)
    as (Ia & Iq & Ir & _).
  change (alloc_alphabet 1) with [0] in *.
  unfold design_and_store in Ed.
  destruct (find_states _) as [st |] eqn:Est; [| discriminate].
  cbn [obind] in Ed.
  set (q_lo := fst (generate_quantizer p0 dist (st_low st) (st_ratio st)))
    in *.
  set (q_hi := fst (generate_quantizer p0 dist (st_high st)
                      (dsub (Fin 1) (st_ratio st)))) in *.
  destruct (store_cond_quantizers q_lo q_hi lst0 0 0) as [lst1' |] eqn:Es;
    [| discriminate].
  injection Ed as -> _ _ _.
  exists p0, st. split; [reflexivity |]. split; [exact Est |].
  split; [rewrite Fa; exact Ia |].
  unfold store_cond_quantizers in Es. rewrite Ia, Iq, Ir in Es.
  cbn [obind] in Es.
  change (zset (repeat None _) (u32 (2 * get_symbol_index [0] 0))
            (Some q_lo))
    with (Some [Some q_lo; @None quantizer_t]) in Es.
  cbn [obind] in Es.
  change (zset [Some q_lo; None] (u32 (2 * get_symbol_index [0] 0 + 1))
            (Some q_hi))
    with (Some [Some q_lo; Some q_hi]) in Es.
  cbn [obind] in Es.
  change (zset (repeat (Fin 0) _) (get_symbol_index [0] 0) (qz_ratio q_lo))
    with (Some [qz_ratio q_lo]) in Es.
  cbn [obind] in Es.
  destruct (zset (q lst0) 0 _) as [qs |] eqn:Eqs; [| discriminate].
  cbn [obind] in Es.
  destruct (zset (ratio lst0) 0 _) as [rs |] eqn:Ers; [| discriminate].
  injection Es as <-. unfold get_ratio. cbn [q ratio].
  rewrite (zget_zset_same _ _ _ _ Eqs), (zget_zset_same _ _ _ _ Ers).
  repeat split.
  intros P HP. apply Fs; [exact HP |].
  apply (cond_quantizer_init_column_stored _ _ _ _ _ Ei).
  apply alloc_stored.
Qed.

Lemma columns_prefix (in_pmfs : cond_pmf_list_t) (dist : distortion_t)
  (comp : double) (g0 : gen_state) col0 :
  designed output_in_range ->
  gen_invariant col0 1 g0 ->
  forall (n : nat) (g : gen_state),
    ofold (codebook_column in_pmfs dist comp)
          (zrange 1 (1 + Z.of_nat n)) g0 = Some g ->
    gen_invariant col0 (1 + Z.of_nat n) g.
Proof.
  intros Hdes Hinv0. induction n as [| n IH]; intros g Hf.
  - rewrite zrange_empty in Hf by lia. cbn in Hf. injection Hf as <-.
    exact Hinv0.
  - replace (1 + Z.of_nat (S n)) with (1 + Z.of_nat n + 1) in * by lia.
    rewrite zrange_snoc, ofold_app in Hf by lia.
    destruct (ofold _ (zrange 1 (1 + Z.of_nat n)) g0) as [g1 |];
      [| discriminate].
    cbn [obind ofold] in Hf.
    destruct (codebook_column in_pmfs dist comp g1 (1 + Z.of_nat n))
      as [g2 |] eqn:E2; [| discriminate].
    injection Hf as <-.
    apply (codebook_column_invariant in_pmfs dist comp g1 g2
             (1 + Z.of_nat n) col0 Hdes ltac:(lia) (IH g1 eq_refl) E2).
Qed.

(** The invariant after the last column. *)
Lemma generate_codebooks_invariant (info : quality_file_t)
  (in_pmfs : cond_pmf_list_t) (dist : distortion_t) (comp : double)
  (lst : cond_quantizer_list_t) :
  designed output_in_range ->
  generate_codebooks info in_pmfs dist comp = Some lst ->
  exists stats p0 st g,
    calculate_statistics info in_pmfs = Some stats /\
    get_cond_pmf stats 0 0 = Some p0 /\
    find_states (dmul (get_entropy p0) comp) = Some st /\
    g_list g = lst /\
    gen_invariant
      (Some (Some
         [Some (fst (generate_quantizer p0 dist (st_low st) (st_ratio st)));
          Some (fst (generate_quantizer p0 dist (st_high st)
                       (dsub (Fin 1) (st_ratio st))))]))
      (Z.max 1 (qf_columns info)) g.
Proof.
  intros Hdes. unfold generate_codebooks. intros Hg.
  destruct (calculate_statistics info in_pmfs) as [stats |];
    [| discriminate].
  cbn [obind] in Hg.
  destruct (codebook_column0 info stats dist comp) as [g0 |] eqn:E0;
    [| discriminate].
  cbn [obind] in Hg.
  destruct (ofold _ _ g0) as [g |] eqn:Ef; [| discriminate].
  injection Hg as <-.
  destruct (codebook_column0_spec _ _ _ _ _ E0)
    as (p0 & st & Hp0 & Hst & Hia & Hq & _ & Hu & Hstored).
  exists stats, p0, st, g. split; [reflexivity |]. split; [exact Hp0 |].
  split; [exact Hst |]. split; [reflexivity |].
  assert (Hinv0 : gen_invariant
            (Some (Some
               [Some (fst (generate_quantizer p0 dist (st_low st)
                             (st_ratio st)));
                Some (fst (generate_quantizer p0 dist (st_high st)
                             (dsub (Fin 1) (st_ratio st))))])) 1 g0).
  { unfold gen_invariant. rewrite Hu. change (1 - 1) with 0.
    split; [exact Hia |].
    split; [unfold SYMBOL_LIMIT, alphabet_size; cbn; lia |].
    split; [unfold slots_length; rewrite Hq; eexists; split; reflexivity |].
    split; [now apply Hstored |].
    split; [exact Hia |]. split; [exact Hq |].
    intros c' Hc'. lia. }
  destruct (Z.le_gt_cases (qf_columns info) 1) as [Hle | Hgt].
  - rewrite zrange_empty in Ef by lia. cbn in Ef. injection Ef as <-.
    now rewrite Z.max_l by lia.
  - rewrite Z.max_r by lia.
    replace (qf_columns info)
      with (1 + Z.of_nat (Z.to_nat (qf_columns info - 1))) by lia.
    apply (columns_prefix stats dist comp g0 _ Hdes Hinv0).
    replace (1 + Z.of_nat (Z.to_nat (qf_columns info - 1)))
      with (qf_columns info) by lia.
    exact Ef.
Qed.

Lemma columns_keep_column0 (in_pmfs : cond_pmf_list_t)
  (dist : distortion_t) (comp : double) (cs : list Z) :
  (forall c, In c cs -> 1 <= c) ->
  forall g g',
    ofold (codebook_column in_pmfs dist comp) cs g = Some g' ->
    zget (q (g_list g')) 0 = zget (q (g_list g)) 0.
Proof.
  induction cs as [| c cs IH]; intros Hcs g g' Hf.
  - cbn in Hf. now injection Hf as <-.
  - cbn [ofold] in Hf.
    destruct (codebook_column in_pmfs dist comp g c) as [g1 |] eqn:E1;
      [| discriminate].
    rewrite (IH (fun c' Hc' => Hcs c' (or_intror Hc')) g1 g' Hf).
    destruct (codebook_column_spec _ _ _ _ _ _ E1)
      as (u & lst1 & _ & Hinit & (_ & Fq & _) & _).
    destruct (cond_quantizer_init_column_spec _ _ _ _ Hinit)
      as (_ & _ & _ & Io).
    assert (Hc : 0 <> c) by (specialize (Hcs c (or_introl eq_refl)); lia).
    rewrite Fq by exact Hc. apply (Io 0 Hc).
Qed.

(** C2.  In the list that [generate_codebooks] returns, the input alphabet
    of column 0 is the singleton {0}; and for every column [c >= 1] the
    input alphabet of [c] holds exactly the symbols of the output alphabets
    of the quantizers in the [2 * |input_alphabet[c-1]|] slots of column
    [c - 1], each of which holds a quantizer.  The designer is taken to
    return output symbols below [SYMBOL_LIMIT]. *)
Theorem generate_codebooks_input_alphabets (info : quality_file_t)
  (in_pmfs : cond_pmf_list_t) (dist : distortion_t) (comp : double)
  (lst : cond_quantizer_list_t) :
  (forall p d n r s,
     In s (qz_output_alphabet (fst (generate_quantizer p d n r))) ->
     0 <= s < SYMBOL_LIMIT) ->
  generate_codebooks info in_pmfs dist comp = Some lst ->
  zget (input_alphabets lst) 0 = Some (Some [0]) /\
  forall c, 1 <= c < qf_columns info ->
    exists a a',
      zget (input_alphabets lst) c = Some (Some a) /\
      zget (input_alphabets lst) (c - 1) = Some (Some a') /\
      (forall j, 0 <= j < 2 * alphabet_size a' ->
         exists qz,
           get_cond_quantizer_indexed lst (c - 1) j = Some (Some qz)) /\
      forall s, In s a <->
        exists j qz, 0 <= j < 2 * alphabet_size a' /\
          get_cond_quantizer_indexed lst (c - 1) j = Some (Some qz) /\
          In s (qz_output_alphabet qz).
Proof.
  intros Hdes Hgen.
  destruct (generate_codebooks_invariant info in_pmfs dist comp lst
              Hdes Hgen)
    as (stats & p0 & st & g & _ & _ & _ & <- & Hinv).
  destruct Hinv as (_ & _ & _ & _ & Hia0 & _ & Hok).
  split; [exact Hia0 |].
  intros c Hc. apply Hok. lia.
Qed.

(** C7, amended.  With [comp = 0.5] and a column-0 entropy of 1.5 bits the
    allocator is called on 0.75 and yields one low state, two high states
    and the ratio 0.25; the list that [generate_codebooks] returns holds,
    in the slots 0 and 1 of column 0, the quantizer designed for one state
    with the ratio 0.25 and the quantizer designed for two states with the
    ratio 0.75. *)
Theorem generate_codebooks_three_quarters (info : quality_file_t)
  (in_pmfs stats : cond_pmf_list_t) (dist : distortion_t) (p0 : pmf_t)
  (lst : cond_quantizer_list_t) :
  calculate_statistics info in_pmfs = Some stats ->
  get_cond_pmf stats 0 0 = Some p0 ->
  get_entropy p0 = Fin (3/2) ->
  generate_codebooks info in_pmfs dist (Fin (1/2)) = Some lst ->
  find_states (dmul (get_entropy p0) (Fin (1/2)))
    = Some (mkStates 2 1 (Fin (1/4))) /\
  get_cond_quantizer_indexed lst 0 0
    = Some (Some (fst (generate_quantizer p0 dist 1 (Fin (1/4))))) /\
  get_cond_quantizer_indexed lst 0 1
    = Some (Some (fst (generate_quantizer p0 dist 2 (Fin (3/4))))).
Proof.
  intros Hstats Hp0 Hent Hgen.
  assert (Hfs : find_states (dmul (get_entropy p0) (Fin (1/2)))
                = Some (mkStates 2 1 (Fin (1/4)))).
  { rewrite Hent. cbn [dmul].
    rewrite find_states_below_one_bit by lra.
    do 3 f_equal. lra. }
  split; [exact Hfs |].
  unfold generate_codebooks in Hgen. rewrite Hstats in Hgen.
  cbn [obind] in Hgen.
  destruct (codebook_column0 info stats dist (Fin (1/2))) as [g0 |] eqn:E0;
    [| discriminate].
  cbn [obind] in Hgen.
  destruct (ofold _ _ g0) as [g |] eqn:Ef; [| discriminate].
  injection Hgen as <-.
  destruct (codebook_column0_spec _ _ _ _ _ E0)
    as (p0' & st & Hp0' & Hst & _ & Hq & _).
  rewrite Hp0 in Hp0'. injection Hp0' as <-.
  rewrite Hfs in Hst. injection Hst as <-. cbn [st_low st_high st_ratio] in Hq.
  pose proof (columns_keep_column0 stats dist (Fin (1/2)) _
                (fun c Hc => proj1 (proj1 (zrange_In _ _ _) Hc)) g0 g Ef)
    as Hkeep.
  unfold get_cond_quantizer_indexed. rewrite Hkeep, Hq. cbn [obind].
  replace (dsub (Fin 1) (Fin (1/4))) with (Fin (3/4))
    by (cbn; f_equal; lra).
  split; reflexivity.
Qed.

End GeneratorTheorems.

(** ** A run of the generator *)

Section GeneratorRun.
Local Open Scope R_scope.

Lemma Rlog2_half_eq x : x = 1/2 -> Rlog2 x = -1.
Proof.
  intros ->. unfold Rlog2. replace (1/2) with (/ 2) by lra.
  rewrite ln_Rinv by lra. field. pose proof ln2_pos; lra.
Qed.

Lemma Rlog2_quarter_eq x : x = 1/4 -> Rlog2 x = -2.
Proof.
  intros ->. unfold Rlog2. replace (1/4) with (/ (2 * 2)) by lra.
  rewrite ln_Rinv, ln_mult by lra. field. pose proof ln2_pos; lra.
Qed.

End GeneratorRun.

Ltac rewrite_logs :=
  repeat match goal with
         | |- context [Rlog2 ?x] =>
             first [ rewrite (Rlog2_half_eq x) by (field; lra)
                   | rewrite (Rlog2_quarter_eq x) by (field; lra) ]
         end.

(** Runs a closed computation that may hold a list of quantizers; the
    generator instance is kept folded. *)
Ltac run_doubles := lazy -[IZR Rdiv Rsign Rlog2 counter_well]; decide_signs.

(** Replaces the closed term [t] by its value: computed by [tac], or shown
    by [tac] to be [v]. *)
Ltac compute_at t tac :=
  let T := type of t in
  let v := fresh "v" in
  let E := fresh "E" in
  evar (v : T);
  assert (E : t = v) by (subst v; tac; reflexivity);
  subst v; rewrite E; clear E.

Ltac compute_to t v tac :=
  let E := fresh "E" in
  assert (E : t = v) by tac;
  rewrite E; clear E.

(** The design and storage of the quantizers of one context whose PMF has
    1.5 bits of entropy, with [comp = 1/2]. *)
Ltac design_step :=
  unfold design_and_store at 1;
  match goal with
  | |- context [@get_entropy ?a ?b] =>
      compute_to (@get_entropy a b) (Fin (3/2))
        ltac:(run_doubles; rewrite_logs; f_equal; field)
  end;
  cbn [dmul]; rewrite find_states_below_one_bit by lra;
  cbn [obind st_low st_high st_ratio];
  match goal with
  | |- context [@store_cond_quantizers ?o ?a ?b ?c ?d ?e] =>
      compute_at (@store_cond_quantizers o a b c d e) run_doubles
  end;
  cbn [obind].

Lemma get_entropy_ex7 :
  get_entropy (PmfOps := SpecPmf.ops) ex7_pmf = Fin (3/2).
Proof. run_doubles. rewrite_logs. f_equal. field. Qed.

Lemma calculate_statistics_ex7 :
  calculate_statistics (pops := SpecPmf.ops) ex7_info ex7_in_pmfs
  = Some ex7_stats.
Proof. run_doubles. do 2 f_equal. pmf_entries; field. Qed.

Lemma generate_codebooks_ex7 :
  exists lst,
    generate_codebooks (pops := SpecPmf.ops) (des := clamp_designer)
      (wl := counter_well) ex7_info ex7_in_pmfs tt (Fin (1/2)) = Some lst.
Proof.
  eexists. unfold generate_codebooks.
  rewrite calculate_statistics_ex7. cbn [obind].
  unfold codebook_column0.
  match goal with
  | |- context [@cond_quantizer_init_column ?o ?a ?b ?c] =>
      compute_at (@cond_quantizer_init_column o a b c) run_doubles
  end.
  cbn [obind].
  change (get_cond_pmf ex7_stats 0 0) with (Some ex7_pmf). cbn [obind].
  design_step.
  change (zrange 1 (qf_columns ex7_info)) with [1]. cbn [ofold].
  unfold codebook_column at 1.
  cbn [g_list g_prev_output_union g_lo g_hi g_ratio g_prev_qpmf_list].
  match goal with
  | |- context [@output_union ?o ?a ?b ?c] =>
      compute_at (@output_union o a b c) run_doubles
  end.
  cbn [obind].
  match goal with
  | |- context [@cond_quantizer_init_column ?o ?a ?b ?c] =>
      compute_at (@cond_quantizer_init_column o a b c) run_doubles
  end.
  cbn [obind].
  match goal with
  | |- context [if 1 =? 1 then ?x else ?y] =>
      compute_at (if 1 =? 1 then x else y) run_doubles
  end.
  cbn [obind].
  match goal with
  | |- context [@compute_xpmf_list ?o ?a ?b ?c ?d ?e] =>
      compute_to (@compute_xpmf_list o a b c d e) (Some [ex7_pmf; ex7_pmf])
        ltac:(run_doubles; pmf_entries; field)
  end.
  cbn [obind].
  change (zrange 0 (alphabet_size [0; 1])) with [0; 1]. cbn [ofold].
  unfold design_context at 1.
  change (zget [0; 1] 0) with (Some 0).
  change (zget [ex7_pmf; ex7_pmf] 0) with (Some ex7_pmf).
  cbn [obind]. design_step.
  unfold design_context at 1.
  change (zget [0; 1] 1) with (Some 1).
  change (zget [ex7_pmf; ex7_pmf] 1) with (Some ex7_pmf).
  cbn [obind]. design_step.
  reflexivity.
Qed.

Lemma clamp_designer_in_range :
  forall p d n r s,
    In s (qz_output_alphabet
            (fst (generate_quantizer (Designer := clamp_designer) p d n r))) ->
    0 <= s < SYMBOL_LIMIT.
Proof.
  intros p d n r s. cbn. rewrite zrange_In. unfold SYMBOL_LIMIT. lia.
Qed.

(** The input alphabets of the two-column run. *)
Lemma generate_codebooks_input_alphabets_witness :
  exists lst,
    generate_codebooks (pops := SpecPmf.ops) (des := clamp_designer)
      (wl := counter_well) ex7_info ex7_in_pmfs tt (Fin (1/2)) = Some lst /\
    zget (input_alphabets lst) 0 = Some (Some [0]) /\
    forall c, 1 <= c < qf_columns ex7_info ->
      exists a a',
        zget (input_alphabets lst) c = Some (Some a) /\
        zget (input_alphabets lst) (c - 1) = Some (Some a') /\
        (forall j, 0 <= j < 2 * alphabet_size a' ->
           exists qz,
             get_cond_quantizer_indexed lst (c - 1) j = Some (Some qz)) /\
        forall s, In s a <->
          exists j qz, 0 <= j < 2 * alphabet_size a' /\
            get_cond_quantizer_indexed lst (c - 1) j = Some (Some qz) /\
            In s (qz_output_alphabet qz).
Proof.
  destruct generate_codebooks_ex7 as [lst Hlst].
  exists lst. split; [exact Hlst |].
  exact (generate_codebooks_input_alphabets (pops := SpecPmf.ops)
           (des := clamp_designer) (wl := counter_well)
           ex7_info ex7_in_pmfs tt (Fin (1/2)) lst
           clamp_designer_in_range Hlst).
Defined.

(** Column 0 of the two-column run. *)
Lemma generate_codebooks_three_quarters_witness :
  exists lst,
    generate_codebooks (pops := SpecPmf.ops) (des := clamp_designer)
      (wl := counter_well) ex7_info ex7_in_pmfs tt (Fin (1/2)) = Some lst /\
    find_states (dmul (get_entropy (PmfOps := SpecPmf.ops) ex7_pmf)
                      (Fin (1/2)))
      = Some (mkStates 2 1 (Fin (1/4))) /\
    get_cond_quantizer_indexed lst 0 0
      = Some (Some (clamp_quantizer 4 1 (Fin (1/4)))) /\
    get_cond_quantizer_indexed lst 0 1
      = Some (Some (clamp_quantizer 4 2 (Fin (3/4)))).
Proof.
  destruct generate_codebooks_ex7 as [lst Hlst].
  exists lst. split; [exact Hlst |].
  exact (generate_codebooks_three_quarters (pops := SpecPmf.ops)
           (des := clamp_designer) (wl := counter_well)
           ex7_info ex7_in_pmfs ex7_stats tt ex7_pmf lst
           calculate_statistics_ex7 eq_refl get_entropy_ex7 Hlst).
Defined.

(** ** More on the bit allocator *)

Section FindStatesRange.
Local Open Scope R_scope.

(** The inputs on which [find_states] is defined: minus infinity, and the
    numbers whose power of two is at most [UINT32_MAX]. *)
Theorem find_states_defined_iff (entropy : double) :
  (exists st, find_states entropy = Some st) <->
  entropy = NInf \/
  exists h, entropy = Fin h /\ Rpower 2 h <= IZR UINT32_MAX.
Proof.
  split.
  - intros [st Hst]. destruct entropy as [h | | |].
    + right. exists h. split; [reflexivity |].
      unfold find_states, dpow2, double_to_uint32 in Hst.
      pose proof (Rpower2_pos h) as Hp.
      rewrite Rtrunc_nonneg in Hst by lra.
      destruct (_ && _)%bool; [| discriminate].
      cbn [dceil] in Hst.
      pose proof (Rceil_bounds (Rpower 2 h)) as Hc.
      assert (Hc0 : (0 <= Rceil (Rpower 2 h))%Z).
      { apply Z.lt_succ_r, lt_IZR. rewrite succ_IZR. lra. }
      rewrite Rtrunc_nonneg in Hst by (apply IZR_le with (n := 0%Z); lia).
      rewrite Rfloor_IZR in Hst.
      destruct (_ && _)%bool eqn:E; [| discriminate].
      apply andb_prop in E. destruct E as [_ E]. apply Z.ltb_lt in E.
      assert (E' : (Rceil (Rpower 2 h) <= UINT32_MAX)%Z)
        by (unfold UINT32_MAX; lia).
      apply IZR_le in E'. lra.
    + discriminate.
    + now left.
    + discriminate.
  - intros [-> | [h [-> Hmax]]].
    + unfold find_states, dpow2, double_to_uint32.
      rewrite Rtrunc_nonneg by lra. rewrite Rfloor_IZR.
      cbn [Z.leb Z.ltb andb Z.compare dceil].
      assert (Ec : Rceil 0 = 0%Z) by (apply Rceil_unique; lra).
      rewrite Ec. rewrite Rtrunc_nonneg by lra. rewrite Rfloor_IZR.
      cbn [Z.leb Z.ltb andb Z.compare]. eexists. reflexivity.
    + pose proof (Rpower2_pos h) as Hp.
      pose proof (Rfloor_bounds (Rpower 2 h)) as Hf.
      pose proof (Rceil_bounds (Rpower 2 h)) as Hc.
      pose proof (Rfloor_le_Rceil (Rpower 2 h)) as Hle.
      assert (Hf0 : (0 <= Rfloor (Rpower 2 h))%Z).
      { apply Z.lt_succ_r, lt_IZR. rewrite succ_IZR. lra. }
      assert (Hcm : (Rceil (Rpower 2 h) < U32.modulus)%Z).
      { apply lt_IZR. unfold UINT32_MAX in Hmax. rewrite minus_IZR in Hmax.
        lra. }
      unfold find_states, dpow2, double_to_uint32.
      rewrite Rtrunc_nonneg by lra.
      replace ((0 <=? Rfloor (Rpower 2 h))%Z
               && (Rfloor (Rpower 2 h) <? U32.modulus)%Z)%bool with true
        by (symmetry; apply andb_true_intro; split;
            [apply Z.leb_le | apply Z.ltb_lt]; lia).
      cbn [dceil].
      rewrite Rtrunc_nonneg by (apply IZR_le with (n := 0%Z); lia).
      rewrite Rfloor_IZR.
      replace ((0 <=? Rceil (Rpower 2 h))%Z
               && (Rceil (Rpower 2 h) <? U32.modulus)%Z)%bool with true
        by (symmetry; apply andb_true_intro; split;
            [apply Z.leb_le | apply Z.ltb_lt]; lia).
      eexists. reflexivity.
Qed.

(** More target entropy never yields fewer states. *)
Theorem find_states_monotone (h1 h2 : R) (st1 st2 : states) :
  0 <= h1 <= h2 ->
  find_states (Fin h1) = Some st1 ->
  find_states (Fin h2) = Some st2 ->
  (st_low st1 <= st_low st2)%Z /\ (st_high st1 <= st_high st2)%Z.
Proof.
  intros [H1 H12] Hst1 Hst2.
  assert (H2 : 0 <= h2) by lra.
  rewrite (find_states_finite h1 H1 (find_states_some h1 st1 H1 Hst1))
    in Hst1.
  rewrite (find_states_finite h2 H2 (find_states_some h2 st2 H2 Hst2))
    in Hst2.
  injection Hst1 as <-. injection Hst2 as <-. cbn [st_low st_high].
  pose proof (Rpower2_mono h1 h2 H12).
  split; [now apply Rfloor_mono | now apply Rceil_mono].
Qed.

End FindStatesRange.

(** Targets of one quarter and three quarters of a bit. *)
Lemma find_states_monotone_witness :
  (st_low (mkStates 2 1 (Fin (1 - 1/4)))
   <= st_low (mkStates 2 1 (Fin (1 - 3/4))))%Z /\
  (st_high (mkStates 2 1 (Fin (1 - 1/4)))
   <= st_high (mkStates 2 1 (Fin (1 - 3/4))))%Z.
Proof.
  apply (find_states_monotone (1/4) (3/4)).
  - lra.
  - apply find_states_below_one_bit; lra.
  - apply find_states_below_one_bit; lra.
Defined.

(** ** Lookups and updates of the conditional quantizer store *)

Section StoreLookup.
Context `{wl : Well}.

Lemma zset_undefined {A} (a : list A) (i : Z) (v : A) :
  ~ 0 <= i < Z.of_nat (length a) -> zset a i v = None.
Proof.
  intros Hi. destruct (zset a i v) as [a' |] eqn:E; [| reflexivity].
  apply zset_range in E. contradiction.
Qed.

Lemma zget_undefined {A} (a : list A) (i : Z) :
  ~ 0 <= i < Z.of_nat (length a) -> zget a i = None.
Proof.
  intros Hi. destruct (zget a i) as [v |] eqn:E; [| reflexivity].
  apply zget_range in E. contradiction.
Qed.

(** On a list fresh from [alloc_conditional_quantizer_list n]: the
    initialisation of a column is defined exactly for the columns below [n];
    afterwards the column holds the alphabet, a null pointer in each of its
    [2 * size] slots, the ratio 0 for each context, and the lookup by symbol
    returns a null pointer for every symbol. *)
Theorem cond_quantizer_init_column_alloc (n column : Z) (u : alphabet_t) :
  2 * alphabet_size u <= UINT32_MAX ->
  (~ 0 <= column < n ->
     cond_quantizer_init_column (alloc_conditional_quantizer_list n) column u
     = None) /\
  (0 <= column < n ->
     exists lst',
       cond_quantizer_init_column (alloc_conditional_quantizer_list n)
         column u = Some lst' /\
       zget (input_alphabets lst') column = Some (Some u) /\
       (forall j, 0 <= j < 2 * alphabet_size u ->
          get_cond_quantizer_indexed lst' column j = Some None) /\
       (forall j, ~ 0 <= j < 2 * alphabet_size u ->
          get_cond_quantizer_indexed lst' column j = None) /\
       (forall i, 0 <= i < alphabet_size u ->
          get_ratio lst' column i = Some (Fin 0)) /\
       (forall s, get_cond_quantizer lst' column s = Some None)).
Proof.
  intros Hsz. split.
  - intros Hc. unfold cond_quantizer_init_column,
      alloc_conditional_quantizer_list. cbn [input_alphabets].
    rewrite zset_undefined; [reflexivity |].
    rewrite repeat_length. lia.
  - intros Hc.
    set (lst := alloc_conditional_quantizer_list n).
    assert (Hlen : forall {A} (x : A),
               0 <= column < Z.of_nat (length (repeat x (Z.to_nat n))))
      by (intros; rewrite repeat_length; lia).
    destruct (zset_defined (input_alphabets lst) column
                (Some (duplicate_alphabet u))) as [ia Hia];
      [apply Hlen |].
    destruct (zset_defined (q lst) column
                (Some (repeat None (Z.to_nat (u32 (alphabet_size u * 2))))))
      as [qs Hqs]; [apply Hlen |].
    destruct (zset_defined (ratio lst) column
                (Some (repeat (Fin 0) (Z.to_nat (alphabet_size u)))))
      as [rs Hrs]; [apply Hlen |].
    assert (Hi : cond_quantizer_init_column lst column u
                 = Some (mkCondQuantizerList (columns lst) ia qs rs
                           (well lst))).
    { unfold cond_quantizer_init_column.
      rewrite Hia. cbn [obind]. rewrite Hqs. cbn [obind].
      rewrite Hrs. reflexivity. }
    eexists. split; [exact Hi |].
    destruct (cond_quantizer_init_column_spec _ _ _ _ Hi)
      as (Ha & Hq & Hr & _).
    assert (E2 : u32 (alphabet_size u * 2) = 2 * alphabet_size u).
    { rewrite Z.mul_comm. apply u32_small.
      unfold in_range, UINT32_MAX, alphabet_size in *. lia. }
    rewrite E2 in Hq.
    assert (Hslot : forall j, 0 <= j < 2 * alphabet_size u ->
              get_cond_quantizer_indexed
                (mkCondQuantizerList (columns lst) ia qs rs (well lst))
                column j = Some None).
    { intros j Hj. unfold get_cond_quantizer_indexed.
      rewrite Hq. cbn [obind]. apply zget_repeat. lia. }
    split; [exact Ha |]. split; [exact Hslot |]. split; [| split].
    + intros j Hj. unfold get_cond_quantizer_indexed.
      rewrite Hq. cbn [obind]. apply zget_undefined.
      rewrite repeat_length. unfold alphabet_size in *. lia.
    + intros i Hi'. unfold get_ratio. rewrite Hr. cbn [obind].
      apply zget_repeat. lia.
    + intros s. unfold get_cond_quantizer. rewrite Ha. cbn [obind].
      destruct (Z.eqb_spec (get_symbol_index u s) ALPHABET_SYMBOL_NOT_FOUND)
        as [E | E]; cbn [negb]; [reflexivity |].
      apply Hslot.
      assert (Hsz' : alphabet_size u <= UINT32_MAX)
        by (unfold alphabet_size in *; lia).
      destruct (get_symbol_index_found _ _ Hsz' E) as [Hidx _]. lia.
Qed.

(** What a store changes: only the two slots and the one ratio of the
    context; the alphabets, the generator state, every other slot and
    ratio of the column and all other columns are as before. *)
Theorem store_cond_quantizers_other_slots (lo hi : quantizer_t)
  (lst lst' : cond_quantizer_list_t) (column : Z) (prev : symbol_t)
  (a : alphabet_t) :
  zget (input_alphabets lst) column = Some (Some a) ->
  store_cond_quantizers lo hi lst column prev = Some lst' ->
  columns lst' = columns lst /\
  input_alphabets lst' = input_alphabets lst /\
  well lst' = well lst /\
  (forall j,
     j <> u32 (2 * get_symbol_index a prev) ->
     j <> u32 (2 * get_symbol_index a prev + 1) ->
     get_cond_quantizer_indexed lst' column j
     = get_cond_quantizer_indexed lst column j) /\
  (forall i, i <> get_symbol_index a prev ->
     get_ratio lst' column i = get_ratio lst column i) /\
  (forall c j, c <> column ->
     get_cond_quantizer_indexed lst' c j = get_cond_quantizer_indexed lst c j
     /\ get_ratio lst' c j = get_ratio lst c j).
Proof.
  intros Ha. unfold store_cond_quantizers. rewrite Ha. cbn [obind].
  set (idx := get_symbol_index a prev). intros Hs.
  destruct (zget (q lst) column) as [[slots |] |] eqn:Eq; try discriminate.
  cbn [obind] in Hs.
  destruct (zset slots _ (Some lo)) as [s1 |] eqn:Es1; [| discriminate].
  cbn [obind] in Hs.
  destruct (zset s1 _ (Some hi)) as [s2 |] eqn:Es2; [| discriminate].
  cbn [obind] in Hs.
  destruct (zget (ratio lst) column) as [[ratios |] |] eqn:Er;
    try discriminate.
  cbn [obind] in Hs.
  destruct (zset ratios _ _) as [r1 |] eqn:Er1; [| discriminate].
  cbn [obind] in Hs.
  destruct (zset (q lst) column _) as [qs |] eqn:Eqs; [| discriminate].
  cbn [obind] in Hs.
  destruct (zset (ratio lst) column _) as [rs |] eqn:Ers; [| discriminate].
  injection Hs as <-. cbn [columns input_alphabets well].
  split; [reflexivity |]. split; [reflexivity |]. split; [reflexivity |].
  unfold get_cond_quantizer_indexed, get_ratio. cbn [q ratio].
  split; [| split].
  - intros j Hj0 Hj1.
    rewrite (zget_zset_same _ _ _ _ Eqs), Eq. cbn [obind].
    rewrite (zget_zset_other _ _ _ _ _ Es2 Hj1).
    apply (zget_zset_other _ _ _ _ _ Es1 Hj0).
  - intros i Hi.
    rewrite (zget_zset_same _ _ _ _ Ers), Er. cbn [obind].
    apply (zget_zset_other _ _ _ _ _ Er1 Hi).
  - intros c j Hc.
    now rewrite (zget_zset_other _ _ _ _ _ Eqs Hc),
                (zget_zset_other _ _ _ _ _ Ers Hc).
Qed.

(** The lookup by symbol reads the slot [idx] of the symbol, while the
    store writes the slots [2 * idx] and [2 * idx + 1].  After a store under
    the symbol [prev], the lookup of [prev] returns the stored low quantizer
    only when [prev] is the first symbol of the alphabet, and otherwise
    returns what it returned before; the stored pair is returned for the
    symbols at the indexes [2 * idx] and [2 * idx + 1]. *)
Theorem get_cond_quantizer_after_store (lo hi : quantizer_t)
  (lst lst' : cond_quantizer_list_t) (column : Z) (prev : symbol_t)
  (a : alphabet_t) :
  zget (input_alphabets lst) column = Some (Some a) ->
  2 * alphabet_size a <= UINT32_MAX ->
  get_symbol_index a prev <> ALPHABET_SYMBOL_NOT_FOUND ->
  store_cond_quantizers lo hi lst column prev = Some lst' ->
  get_cond_quantizer lst' column prev
  = (if get_symbol_index a prev =? 0 then Some (Some lo)
     else get_cond_quantizer lst column prev) /\
  (forall s, get_symbol_index a s = 2 * get_symbol_index a prev ->
     get_cond_quantizer lst' column s = Some (Some lo)) /\
  (forall s, get_symbol_index a s = 2 * get_symbol_index a prev + 1 ->
     get_cond_quantizer lst' column s = Some (Some hi)).
Proof.
  intros Ha Hsz Hf Hs.
  assert (Hsz' : alphabet_size a <= UINT32_MAX)
    by (unfold alphabet_size in *; lia).
  destruct (get_symbol_index_found _ _ Hsz' Hf) as [Hidx _].
  pose proof Hs as Hs0.
  unfold store_cond_quantizers in Hs. rewrite Ha in Hs. cbn [obind] in Hs.
  set (idx := get_symbol_index a prev) in *.
  assert (E0 : u32 (2 * idx) = 2 * idx)
    by (apply u32_small; unfold in_range, UINT32_MAX in *; lia).
  assert (E1 : u32 (2 * idx + 1) = 2 * idx + 1)
    by (apply u32_small; unfold in_range, UINT32_MAX in *; lia).
  rewrite E0, E1 in Hs.
  destruct (zget (q lst) column) as [[slots |] |] eqn:Eq; try discriminate.
  cbn [obind] in Hs.
  destruct (zset slots _ (Some lo)) as [s1 |] eqn:Es1; [| discriminate].
  cbn [obind] in Hs.
  destruct (zset s1 _ (Some hi)) as [s2 |] eqn:Es2; [| discriminate].
  cbn [obind] in Hs.
  destruct (zget (ratio lst) column) as [[ratios |] |] eqn:Er;
    try discriminate.
  cbn [obind] in Hs.
  destruct (zset ratios _ _) as [r1 |] eqn:Er1; [| discriminate].
  cbn [obind] in Hs.
  destruct (zset (q lst) column _) as [qs |] eqn:Eqs; [| discriminate].
  cbn [obind] in Hs.
  destruct (zset (ratio lst) column _) as [rs |] eqn:Ers; [| discriminate].
  injection Hs as <-.
  assert (Hslot : forall j,
            get_cond_quantizer_indexed
              (mkCondQuantizerList (columns lst) (input_alphabets lst) qs rs
                 (well lst)) column j = zget s2 j).
  { intros j. unfold get_cond_quantizer_indexed. cbn [q].
    now rewrite (zget_zset_same _ _ _ _ Eqs). }
  assert (Hlo : zget s2 (2 * idx) = Some (Some lo)).
  { rewrite (zget_zset_other _ _ _ _ _ Es2) by lia.
    apply (zget_zset_same _ _ _ _ Es1). }
  assert (Hhi : zget s2 (2 * idx + 1) = Some (Some hi))
    by apply (zget_zset_same _ _ _ _ Es2).
  assert (Hnf : forall i, 0 <= i < 2 * alphabet_size a ->
                  (i =? ALPHABET_SYMBOL_NOT_FOUND) = false).
  { intros i Hi. apply Z.eqb_neq.
    unfold ALPHABET_SYMBOL_NOT_FOUND. lia. }
  unfold get_cond_quantizer. cbn [input_alphabets]. rewrite Ha.
  cbn [obind]. fold idx.
  split; [| split].
  - rewrite (Hnf idx) by lia. cbn [negb]. rewrite Hslot.
    destruct (Z.eqb_spec idx 0) as [E | E].
    + rewrite E in *. exact Hlo.
    + unfold get_cond_quantizer_indexed. rewrite Eq. cbn [obind].
      rewrite (zget_zset_other _ _ _ _ _ Es2) by lia.
      apply (zget_zset_other _ _ _ _ _ Es1). lia.
  - intros s ->.
    destruct (Z.eqb_spec (2 * idx) ALPHABET_SYMBOL_NOT_FOUND) as [E | E];
      cbn [negb].
    + unfold ALPHABET_SYMBOL_NOT_FOUND in E. lia.
    + now rewrite Hslot.
  - intros s ->.
    destruct (Z.eqb_spec (2 * idx + 1) ALPHABET_SYMBOL_NOT_FOUND) as [E | E];
      cbn [negb].
    + unfold ALPHABET_SYMBOL_NOT_FOUND in E. lia.
    + now rewrite Hslot.
Qed.

(** The store does not test the result of the symbol lookup: for a symbol
    that the alphabet of the column does not hold, its first write falls
    outside the slots of the column. *)
Theorem store_cond_quantizers_missing_symbol (lo hi : quantizer_t)
  (lst : cond_quantizer_list_t) (column : Z) (prev : symbol_t)
  (a : alphabet_t) (slots : list (option quantizer_t)) :
  zget (input_alphabets lst) column = Some (Some a) ->
  zget (q lst) column = Some (Some slots) ->
  Z.of_nat (length slots) <= UINT32_MAX - 1 ->
  ~ In prev a ->
  store_cond_quantizers lo hi lst column prev = None.
Proof.
  intros Ha Hq Hlen Hin. unfold store_cond_quantizers.
  rewrite Ha. cbn [obind]. rewrite Hq. cbn [obind].
  rewrite (get_symbol_index_missing _ _ Hin).
  rewrite zset_undefined; [reflexivity |].
  change (u32 (2 * ALPHABET_SYMBOL_NOT_FOUND)) with (UINT32_MAX - 1).
  lia.
Qed.

(** The ratios for which the draw does not matter: a ratio that is not a
    number or is above 1 always selects the low quantizer, a ratio of 0 or
    less always the high one. *)
Theorem choose_quantizer_degenerate_ratio (lst : cond_quantizer_list_t)
  (column : Z) (p : symbol_t) (a : alphabet_t) (r : double)
  (v : Z) (w : well_state_t) (lo hi : option quantizer_t) :
  zget (input_alphabets lst) column = Some (Some a) ->
  2 * alphabet_size a <= UINT32_MAX ->
  get_symbol_index a p <> ALPHABET_SYMBOL_NOT_FOUND ->
  well_1024a (well lst) = (v, w) ->
  in_range v ->
  get_ratio lst column (get_symbol_index a p) = Some r ->
  get_cond_quantizer_indexed lst column (2 * get_symbol_index a p)
    = Some lo ->
  get_cond_quantizer_indexed lst column (2 * get_symbol_index a p + 1)
    = Some hi ->
  (r = NaN -> choose_quantizer lst column p = Returned (lo, set_well lst w))
  /\
  (forall x, r = Fin x -> (1 < x)%R ->
     choose_quantizer lst column p = Returned (lo, set_well lst w)) /\
  (forall x, r = Fin x -> (x <= 0)%R ->
     choose_quantizer lst column p = Returned (hi, set_well lst w)).
Proof.
  intros Ha Hsz Hf Hw Hv Hr Hlo Hhi.
  assert (Hsz' : alphabet_size a <= UINT32_MAX)
    by (unfold alphabet_size in *; lia).
  destruct (get_symbol_index_found _ _ Hsz' Hf) as [Hidx _].
  destruct (well_uniform_range v Hv) as [u [Eu Hu]].
  unfold choose_quantizer. rewrite Ha. cbn [obind].
  set (idx := get_symbol_index a p) in *.
  destruct (Z.eqb_spec idx ALPHABET_SYMBOL_NOT_FOUND) as [E | _];
    [contradiction |].
  rewrite Hw, Hr, Eu.
  assert (E0 : u32 (2 * idx) = 2 * idx)
    by (apply u32_small; unfold in_range, UINT32_MAX in *; lia).
  assert (E1 : u32 (2 * idx + 1) = 2 * idx + 1)
    by (apply u32_small; unfold in_range, UINT32_MAX in *; lia).
  rewrite E0, E1.
  split; [| split].
  - intros ->. cbn [dge]. now rewrite Hlo.
  - intros x -> Hx. cbn [dge].
    destruct (Rge_dec u x); [lra |]. now rewrite Hlo.
  - intros x -> Hx. cbn [dge].
    destruct (Rge_dec u x); [| lra]. now rewrite Hhi.
Qed.

End StoreLookup.

(** The first column of a list allocated for two columns, initialised for
    the alphabet {5,7}. *)
Lemma cond_quantizer_init_column_alloc_witness :
  exists lst',
    cond_quantizer_init_column
      (alloc_conditional_quantizer_list (wl := counter_well) 2) 0 [5; 7]
    = Some lst' /\
    get_cond_quantizer lst' 0 7 = Some None.
Proof.
  assert (Hsz : 2 * alphabet_size [5; 7] <= UINT32_MAX)
    by (vm_compute; discriminate).
  destruct (cond_quantizer_init_column_alloc (wl := counter_well)
              2 0 [5; 7] Hsz) as [_ H].
  destruct H as (lst' & Hi & _ & _ & _ & _ & Hg); [lia |].
  exists lst'. split; [exact Hi | apply Hg].
Defined.

(** Storing under the second context, 7, of [ex_opened_pair]. *)
Lemma store_cond_quantizers_other_slots_witness :
  exists lst',
    store_cond_quantizers ex_lo ex_hi ex_opened_pair 0 7 = Some lst' /\
    get_cond_quantizer_indexed lst' 0 0
    = get_cond_quantizer_indexed ex_opened_pair 0 0 /\
    get_ratio lst' 0 0 = get_ratio ex_opened_pair 0 0.
Proof.
  eexists. split; [reflexivity |].
  destruct (store_cond_quantizers_other_slots ex_lo ex_hi ex_opened_pair
              _ 0 7 [5; 7] eq_refl eq_refl)
    as (_ & _ & _ & Hq & Hr & _).
  split; [apply Hq | apply Hr]; vm_compute; discriminate.
Defined.

Lemma get_cond_quantizer_after_store_witness :
  exists lst',
    store_cond_quantizers ex_lo ex_hi ex_opened_pair 0 7 = Some lst' /\
    get_cond_quantizer lst' 0 7 = Some None.
Proof.
  eexists. split; [reflexivity |].
  assert (Hsz : 2 * alphabet_size [5; 7] <= UINT32_MAX)
    by (vm_compute; discriminate).
  assert (Hf : get_symbol_index [5; 7] 7 <> ALPHABET_SYMBOL_NOT_FOUND)
    by (vm_compute; discriminate).
  destruct (get_cond_quantizer_after_store ex_lo ex_hi ex_opened_pair
              _ 0 7 [5; 7] eq_refl Hsz Hf eq_refl) as [H _].
  exact H.
Defined.

Lemma store_cond_quantizers_missing_symbol_witness :
  store_cond_quantizers ex_lo ex_hi ex_opened_pair 0 6 = None.
Proof.
  apply (store_cond_quantizers_missing_symbol ex_lo ex_hi ex_opened_pair
           0 6 [5; 7] [None; None; None; None] eq_refl eq_refl).
  - vm_compute; discriminate.
  - cbn. intros [H | [H | []]]; discriminate.
Defined.

(** The ratio [0/0] of [ex_store_nan]: the low quantizer is returned. *)
Lemma choose_quantizer_degenerate_ratio_witness :
  choose_quantizer ex_store_nan 0 0
  = Returned (Some ex_lo, set_well ex_store_nan 1).
Proof.
  assert (Hsz : 2 * alphabet_size [0] <= UINT32_MAX)
    by (vm_compute; discriminate).
  assert (Hf : get_symbol_index [0] 0 <> ALPHABET_SYMBOL_NOT_FOUND)
    by (vm_compute; discriminate).
  assert (Hv : in_range 0) by (unfold in_range; vm_compute; split;
                                 [discriminate | reflexivity]).
  destruct (choose_quantizer_degenerate_ratio ex_store_nan 0 0 [0] NaN
              0 1 (Some ex_lo) (Some ex_hi)
              eq_refl Hsz Hf eq_refl Hv eq_refl eq_refl eq_refl)
    as [H _].
  apply H. reflexivity.
Defined.

(** ** The deprecated bit allocator *)

Section BitAllocationTheorems.
Context `{pops : PmfOps}.

Lemma omap_snoc {A B} (f : A -> option B) (l : list A) (a : A) :
  omap f (l ++ [a]) =
  (bs <- omap f l ;; b <- f a ;; Some (bs ++ [b])).
Proof.
  induction l as [| x l IH]; cbn [omap app obind].
  - destruct (f a); reflexivity.
  - destruct (f x); [| reflexivity]. rewrite IH.
    destruct (omap f l); [| reflexivity]. cbn [obind].
    destruct (f a); reflexivity.
Qed.

(** The inner loop of the entropies: the sum of the terms, accumulated
    from the left on the entry [i]. *)
Lemma accumulate_terms_spec (pmf_list : cond_pmf_list_t) (pmf_temp : pmf_t)
  (i : Z) (js : list Z) :
  forall es es',
    ofold (fun es j =>
             e <- zget es i ;;
             cj <- get_cond_pmf pmf_list i j ;;
             zset es i (dadd e (dmul (get_probability pmf_temp j)
                                     (get_entropy cj)))) js es = Some es' ->
    length es' = length es /\
    (forall i', i' <> i -> zget es' i' = zget es i') /\
    (js = [] -> es' = es) /\
    forall e0, zget es i = Some e0 ->
      exists terms,
        omap (fun j =>
                cj <- get_cond_pmf pmf_list i j ;;
                Some (dmul (get_probability pmf_temp j) (get_entropy cj)))
             js = Some terms /\
        zget es' i = Some (fold_left dadd terms e0).
Proof.
  induction js as [| j js IH]; intros es es' Hf.
  - cbn in Hf. injection Hf as <-. repeat split; try reflexivity.
    intros e0 He0. exists []. split; [reflexivity | exact He0].
  - cbn [ofold] in Hf.
    destruct (zget es i) as [e |] eqn:Ee; [| discriminate].
    cbn [obind] in Hf.
    destruct (get_cond_pmf pmf_list i j) as [cj |] eqn:Ecj;
      [| discriminate].
    cbn [obind] in Hf.
    destruct (zset es i _) as [es1 |] eqn:Es1; [| discriminate].
    destruct (IH es1 es' Hf) as (Hl & Ho & _ & Hi).
    split; [rewrite Hl; apply (zset_length _ _ _ _ Es1) |].
    split; [| split; [discriminate |]].
    + intros i' Hi'. rewrite (Ho i' Hi').
      apply (zget_zset_other _ _ _ _ _ Es1 Hi').
    + intros e0 He0. assert (e0 = e) as -> by congruence.
      destruct (Hi _ (zget_zset_same _ _ _ _ Es1)) as [terms [Ht Hz]].
      exists (dmul (get_probability pmf_temp j) (get_entropy cj) :: terms).
      split; [| exact Hz].
      cbn [omap]. rewrite Ecj. cbn [obind]. now rewrite Ht.
Qed.

Lemma accumulate_entropy_spec (pmf_list : cond_pmf_list_t)
  (uc : pmf_list_t) (comp : double) (es es' : list double) (i : Z) :
  i <> 0 ->
  accumulate_entropy pmf_list uc comp es i = Some es' ->
  length es' = length es /\
  (forall i', i' <> i -> zget es' i' = zget es i') /\
  (zget es i = Some (Fin 0) ->
     exists e, column_entropy pmf_list uc comp i = Some e /\
               zget es' i = Some e).
Proof.
  intros Hi0. unfold accumulate_entropy. intros Hf.
  destruct (zget uc (i - 1)) as [pmf_temp |] eqn:Et; [| discriminate].
  cbn [obind] in Hf.
  destruct (ofold _ _ es) as [es1 |] eqn:E1; [| discriminate].
  cbn [obind] in Hf.
  destruct (zget es1 i) as [e1 |] eqn:Ee1; [| discriminate].
  cbn [obind] in Hf.
  destruct (accumulate_terms_spec _ _ _ _ _ _ E1) as (Hl & Ho & _ & Hacc).
  split; [rewrite (zset_length _ _ _ _ Hf); exact Hl |].
  split.
  - intros i' Hi'. rewrite (zget_zset_other _ _ _ _ _ Hf Hi').
    now apply Ho.
  - intros H0. destruct (Hacc _ H0) as [terms [Ht Hz]].
    assert (e1 = fold_left dadd terms (Fin 0)) as -> by congruence.
    eexists. split; [| apply (zget_zset_same _ _ _ _ Hf)].
    unfold column_entropy.
    destruct (Z.eqb_spec i 0) as [E | _]; [contradiction |].
    rewrite Et. cbn [obind]. rewrite Ht. reflexivity.
Qed.

Lemma accumulate_entropies_spec (pmf_list : cond_pmf_list_t)
  (uc : pmf_list_t) (comp : double) (cs : list Z) :
  NoDup cs -> ~ In 0 cs ->
  forall es es',
    ofold (accumulate_entropy pmf_list uc comp) cs es = Some es' ->
    length es' = length es /\
    (forall i, ~ In i cs -> zget es' i = zget es i) /\
    forall i, In i cs -> zget es i = Some (Fin 0) ->
      exists e, column_entropy pmf_list uc comp i = Some e /\
                zget es' i = Some e.
Proof.
  induction 1 as [| c cs Hc Hnd IH]; intros H0 es es' Hf.
  - cbn in Hf. injection Hf as <-.
    split; [reflexivity |]. split; [reflexivity |]. intros i [].
  - cbn [ofold] in Hf.
    destruct (accumulate_entropy pmf_list uc comp es c) as [es1 |] eqn:E1;
      [| discriminate].
    assert (Hc0 : c <> 0) by (intros ->; apply H0; now left).
    destruct (accumulate_entropy_spec _ _ _ _ _ _ Hc0 E1)
      as (Hl1 & Ho1 & Hc1).
    destruct (IH (fun H => H0 (or_intror H)) es1 es' Hf)
      as (Hl & Ho & Hin).
    split; [congruence |]. split.
    + intros i Hi. rewrite Ho by (intros H; apply Hi; now right).
      apply Ho1. intros ->. apply Hi. now left.
    + intros i [<- | Hi] Hz.
      * destruct (Hc1 Hz) as [e [He Hz']]. exists e. split; [exact He |].
        now rewrite (Ho c Hc).
      * apply Hin; [exact Hi |]. rewrite Ho1; [exact Hz |].
        intros ->. contradiction.
Qed.

Lemma column_entropies_spec (pmf_list : cond_pmf_list_t)
  (uc : pmf_list_t) (comp : double) (es : list double) :
  column_entropies pmf_list uc comp = Some es ->
  length es = Z.to_nat (cp_columns pmf_list) /\
  forall i, 0 <= i < cp_columns pmf_list ->
    exists e, column_entropy pmf_list uc comp i = Some e /\
              zget es i = Some e.
Proof.
  unfold column_entropies. intros Hf.
  destruct (get_cond_pmf pmf_list 0 0) as [p0 |] eqn:Ep0; [| discriminate].
  cbn [obind] in Hf.
  destruct (zset _ 0 _) as [es0 |] eqn:E0; [| discriminate].
  cbn [obind] in Hf.
  assert (Hn0 : ~ In 0 (zrange 1 (cp_columns pmf_list)))
    by (rewrite zrange_In; lia).
  destruct (accumulate_entropies_spec _ _ _ _ (zrange_NoDup _ _) Hn0 _ _ Hf)
    as (Hl & Ho & Hin).
  split.
  - rewrite Hl, (zset_length _ _ _ _ E0). apply repeat_length.
  - intros i Hi. destruct (Z.eq_dec i 0) as [-> | Hne].
    + exists (dmul (get_entropy p0) comp). split.
      * unfold column_entropy. cbn [Z.eqb]. now rewrite Ep0.
      * rewrite (Ho 0 Hn0). apply (zget_zset_same _ _ _ _ E0).
    + apply Hin; [rewrite zrange_In; lia |].
      rewrite (zget_zset_other _ _ _ _ _ E0 Hne).
      apply zget_repeat. lia.
Qed.

(** The loop over the columns that fills the three arrays leaves alone the
    entries of the columns it does not visit. *)
Lemma allocation_loop_keeps (mode : bit_alloc_mode)
  (entropies : list double) (c : Z) (cs : list Z) :
  ~ In c cs ->
  forall out out',
    ofold (fun out i =>
             e <- zget entropies i ;;
             st <- bit_allocation mode e ;;
             high <- zset (ba_high out) i (st_high st) ;;
             low <- zset (ba_low out) i (st_low st) ;;
             ratio <- zset (ba_ratio out) i (st_ratio st) ;;
             Some (mkBitAllocation high low ratio)) cs out = Some out' ->
    zget (ba_high out') c = zget (ba_high out) c /\
    zget (ba_low out') c = zget (ba_low out) c /\
    zget (ba_ratio out') c = zget (ba_ratio out) c.
Proof.
  induction cs as [| c' cs IH]; intros Hc out out' Hf.
  - cbn in Hf. injection Hf as <-. auto.
  - cbn [ofold] in Hf.
    destruct (zget entropies c') as [e' |]; [| discriminate].
    cbn [obind] in Hf.
    destruct (bit_allocation mode e') as [st' |]; [| discriminate].
    cbn [obind] in Hf.
    destruct (zset (ba_high out) c' _) as [h2 |] eqn:Eh2; [| discriminate].
    cbn [obind] in Hf.
    destruct (zset (ba_low out) c' _) as [l2 |] eqn:El2; [| discriminate].
    cbn [obind] in Hf.
    destruct (zset (ba_ratio out) c' _) as [r2 |] eqn:Er2; [| discriminate].
    cbn [obind] in Hf.
    assert (Hne : c <> c') by (intros ->; apply Hc; now left).
    destruct (IH (fun H => Hc (or_intror H)) _ _ Hf) as (A1 & A2 & A3).
    cbn [ba_high ba_low ba_ratio] in *.
    rewrite A1, A2, A3.
    rewrite (zget_zset_other _ _ _ _ _ Eh2 Hne),
            (zget_zset_other _ _ _ _ _ El2 Hne),
            (zget_zset_other _ _ _ _ _ Er2 Hne). auto.
Qed.

(** The loop over the columns that fills the three arrays. *)
Lemma allocation_loop_spec (mode : bit_alloc_mode)
  (entropies : list double) (cs : list Z) :
  NoDup cs ->
  forall out out',
    ofold (fun out i =>
             e <- zget entropies i ;;
             st <- bit_allocation mode e ;;
             high <- zset (ba_high out) i (st_high st) ;;
             low <- zset (ba_low out) i (st_low st) ;;
             ratio <- zset (ba_ratio out) i (st_ratio st) ;;
             Some (mkBitAllocation high low ratio)) cs out = Some out' ->
    length (ba_high out') = length (ba_high out) /\
    length (ba_low out') = length (ba_low out) /\
    length (ba_ratio out') = length (ba_ratio out) /\
    forall i, In i cs ->
      exists e st,
        zget entropies i = Some e /\ bit_allocation mode e = Some st /\
        zget (ba_high out') i = Some (st_high st) /\
        zget (ba_low out') i = Some (st_low st) /\
        zget (ba_ratio out') i = Some (st_ratio st).
Proof.
  induction 1 as [| c cs Hc Hnd IH]; intros out out' Hf.
  - cbn in Hf. injection Hf as <-. repeat split. intros i [].
  - cbn [ofold] in Hf.
    destruct (zget entropies c) as [e |] eqn:Ee; [| discriminate].
    cbn [obind] in Hf.
    destruct (bit_allocation mode e) as [st |] eqn:Est; [| discriminate].
    cbn [obind] in Hf.
    destruct (zset (ba_high out) c _) as [h1 |] eqn:Eh; [| discriminate].
    cbn [obind] in Hf.
    destruct (zset (ba_low out) c _) as [l1 |] eqn:El; [| discriminate].
    cbn [obind] in Hf.
    destruct (zset (ba_ratio out) c _) as [r1 |] eqn:Er; [| discriminate].
    cbn [obind] in Hf.
    destruct (IH _ _ Hf) as (Lh & Ll & Lr & Hin).
    destruct (allocation_loop_keeps _ _ _ _ Hc _ _ Hf) as (A1 & A2 & A3).
    cbn [ba_high ba_low ba_ratio] in *.
    rewrite (zset_length _ _ _ _ Eh) in Lh.
    rewrite (zset_length _ _ _ _ El) in Ll.
    rewrite (zset_length _ _ _ _ Er) in Lr.
    split; [exact Lh |]. split; [exact Ll |]. split; [exact Lr |].
    intros i [<- | Hi]; [| now apply Hin].
    exists e, st. split; [exact Ee |]. split; [exact Est |].
    rewrite A1, A2, A3.
    rewrite (zget_zset_same _ _ _ _ Eh), (zget_zset_same _ _ _ _ El),
            (zget_zset_same _ _ _ _ Er). auto.
Qed.

(** What [find_bit_allocation] returns: three arrays of [columns] entries
    that hold, for each column, the allocation of the mode for the entropy
    of the column. *)
Lemma find_bit_allocation_spec (pmf_list : cond_pmf_list_t) (comp : double)
  (mode : bit_alloc_mode) (out : bit_allocation_t) :
  find_bit_allocation pmf_list comp mode = Some out ->
  length (ba_high out) = Z.to_nat (cp_columns pmf_list) /\
  length (ba_low out) = Z.to_nat (cp_columns pmf_list) /\
  length (ba_ratio out) = Z.to_nat (cp_columns pmf_list) /\
  exists uc,
    unconditional_pmfs pmf_list = Some uc /\
    forall i, 0 <= i < cp_columns pmf_list ->
      exists e st,
        column_entropy pmf_list uc comp i = Some e /\
        bit_allocation mode e = Some st /\
        zget (ba_high out) i = Some (st_high st) /\
        zget (ba_low out) i = Some (st_low st) /\
        zget (ba_ratio out) i = Some (st_ratio st).
Proof.
  unfold find_bit_allocation. intros Hf.
  destruct (unconditional_pmfs pmf_list) as [uc |]; [| discriminate].
  cbn [obind] in Hf.
  destruct (column_entropies pmf_list uc comp) as [es |] eqn:Ees;
    [| discriminate].
  cbn [obind] in Hf.
  destruct (column_entropies_spec _ _ _ _ Ees) as [_ Hes].
  destruct (allocation_loop_spec _ _ _ (zrange_NoDup _ _) _ _ Hf)
    as (Lh & Ll & Lr & Hin).
  cbn [ba_high ba_low ba_ratio] in *. rewrite repeat_length in *.
  split; [exact Lh |]. split; [exact Ll |]. split; [exact Lr |].
  exists uc. split; [reflexivity |].
  intros i Hi.
  destruct (Hin i) as (e & st & He & Hst & H1 & H2 & H3);
    [rewrite zrange_In; lia |].
  destruct (Hes i Hi) as (e' & He' & Hz).
  assert (e' = e) as -> by congruence.
  exists e, st. auto.
Qed.

(** In the mode [BIT_ALLOC_MODE_INT_STATES] the arrays hold, for every
    column, what [find_states] returns for the entropy of the column. *)
Theorem find_bit_allocation_int_states (pmf_list : cond_pmf_list_t)
  (comp : double) (out : bit_allocation_t) :
  find_bit_allocation pmf_list comp BIT_ALLOC_MODE_INT_STATES = Some out ->
  exists uc,
    unconditional_pmfs pmf_list = Some uc /\
    forall i, 0 <= i < cp_columns pmf_list ->
      exists e st,
        column_entropy pmf_list uc comp i = Some e /\
        find_states e = Some st /\
        zget (ba_high out) i = Some (st_high st) /\
        zget (ba_low out) i = Some (st_low st) /\
        zget (ba_ratio out) i = Some (st_ratio st).
Proof.
  intros Hf.
  destruct (find_bit_allocation_spec _ _ _ _ Hf) as (_ & _ & _ & uc & Hu & H).
  exists uc. split; [exact Hu |]. intros i Hi.
  destruct (H i Hi) as (e & st & He & Hst & Hout).
  exists e, st. split; [exact He |]. split; [| exact Hout].
  rewrite <- Hst. unfold bit_allocation, find_states.
  destruct (double_to_uint32 (dpow2 e)); [| reflexivity]. cbn [obind].
  destruct (double_to_uint32 (dceil (dpow2 e))); reflexivity.
Qed.


Section IntPower.
Local Open Scope R_scope.

Lemma Rpower2_IZR (n : Z) : (0 <= n)%Z -> Rpower 2 (IZR n) = IZR (2 ^ n).
Proof.
  intros Hn. rewrite <- (Z2Nat.id n Hn) at 1.
  rewrite <- INR_IZR_INZ, Rpower_pow by lra.
  rewrite pow_IZR. now rewrite Z2Nat.id.
Qed.

(** The allocation of the mode [BIT_ALLOC_MODE_INT_POWER] for a finite
    non-negative entropy.  The difference [h - ceil h] is rounded; the
    division by [floor h - ceil h = -1] is exact. *)
Lemma bit_allocation_int_power_spec (h : R) (st : states) :
  0 <= h ->
  bit_allocation BIT_ALLOC_MODE_INT_POWER (Fin h) = Some st ->
  st_low st = (2 ^ Rfloor h)%Z /\ st_high st = (2 ^ Rceil h)%Z /\
  (Rfloor h = Rceil h -> st_ratio st = NaN) /\
  (Rfloor h <> Rceil h ->
     exists r, st_ratio st = Fin r /\ 0 <= r <= 1 /\
       round (IZR (Rceil h) - h) = Fin r /\
       Rabs (r * Rlog2 (IZR (st_low st)) + (1 - r) * Rlog2 (IZR (st_high st))
             - h) <= / 4503599627370496).
Proof.
  intros Hh. unfold bit_allocation. cbn [dfloor dceil dpow2].
  pose proof (Rfloor_bounds h) as Hf. pose proof (Rceil_bounds h) as Hc.
  pose proof (Rfloor_le_Rceil h) as Hfc.
  assert (Hf0 : (0 <= Rfloor h)%Z).
  { apply Z.lt_succ_r, lt_IZR. rewrite succ_IZR. lra. }
  assert (Hc0 : (0 <= Rceil h)%Z) by lia.
  rewrite !Rpower2_IZR by assumption.
  unfold double_to_uint32.
  assert (Hpf : (0 <= 2 ^ Rfloor h)%Z) by (apply Z.pow_nonneg; lia).
  assert (Hpc : (0 <= 2 ^ Rceil h)%Z) by (apply Z.pow_nonneg; lia).
  rewrite !Rtrunc_nonneg by (apply IZR_le with (n := 0%Z); assumption).
  rewrite !Rfloor_IZR.
  destruct (_ && _)%bool; [| discriminate]. cbn [obind].
  destruct (_ && _)%bool; [| discriminate]. cbn [obind].
  intros Hst. injection Hst as <-. cbn [st_low st_high st_ratio].
  split; [reflexivity |]. split; [reflexivity |].
  unfold fdiv, fsub. cbn [dsub dopp dadd rounded]. split.
  - intros Heq. rewrite Heq in *.
    replace (h + - IZR (Rceil h)) with 0 by lra.
    replace (IZR (Rceil h) + - IZR (Rceil h)) with 0 by lra.
    rewrite round_0. unfold ddiv. rewrite (Rsign_zero 0) by reflexivity.
    reflexivity.
  - intros Hne.
    assert (Hlt : (Rfloor h < Rceil h)%Z) by lia.
    apply IZR_lt in Hlt.
    assert (H1 : IZR (Rceil h) = IZR (Rfloor h) + 1).
    { rewrite <- plus_IZR. f_equal.
      assert ((Rceil h <= Rfloor h + 1)%Z); [| lia].
      apply Z.lt_succ_r, lt_IZR. rewrite succ_IZR, plus_IZR. lra. }
    assert (Hlo : IZR (Rfloor h) < h).
    { destruct Hf as [[Hf | Hf] _]; [exact Hf |].
      exfalso. apply Hne. symmetry. apply Rceil_unique. lra. }
    replace (IZR (Rfloor h) + - IZR (Rceil h)) with (IZR (-1))
      by (rewrite H1; lra).
    pose proof (representable_IZR (-1) eq_refl) as Em1.
    unfold representable in Em1. rewrite Em1.
    set (x := h + - IZR (Rceil h)).
    assert (Hx : -1 < x < 0) by (unfold x; lra).
    destruct (round_finite x) as [y Ey].
    { rewrite Rabs_left by lra. pose proof bpow_1023_large. lra. }
    rewrite Ey.
    assert (Hy : -1 <= y <= 0).
    { split.
      - apply (round_mono (-1) x (-1) y); [lra | exact Em1 | exact Ey].
      - apply (round_mono x 0 y 0); [lra | exact Ey | apply round_0]. }
    pose proof (round_representable x y Ey) as Ry.
    unfold representable in Ry.
    assert (Er : round (- y) = Fin (- y)).
    { rewrite round_opp, Ry. reflexivity. }
    unfold ddiv. rewrite Rsign_neg by lra.
    replace (y / -1) with (- y) by (field; lra).
    cbn [rounded]. rewrite Er.
    exists (- y). split; [reflexivity |]. split; [lra |]. split.
    + replace (IZR (Rceil h) - h) with (- x) by (unfold x; lra).
      rewrite round_opp, Ey. reflexivity.
    + rewrite <- !Rpower2_IZR by assumption. rewrite !Rlog2_Rpower.
      replace (- y * IZR (Rfloor h) + (1 - - y) * IZR (Rceil h) - h)
        with (y - x) by (unfold x; rewrite H1; ring).
      pose proof (round_error x y Ey) as He.
      rewrite bpow_m53 in He. pose proof bpow_m1075_small as Hs.
      rewrite (Rabs_left x) in He by lra.
      eapply Rle_trans; [exact He |]. lra.
Qed.
End IntPower.

(** In the mode [BIT_ALLOC_MODE_INT_POWER], for every column whose entropy
    is a number [h >= 0]: the low and the high counts are the powers of two
    of the floor and of the ceiling of [h]; when [h] is an integer the
    ratio is the quotient [0/0]; when it is not, the ratio [r] is the
    double nearest to [ceil h - h], it lies in [[0,1]], and
    [r * log2 low + (1 - r) * log2 high] is [h] up to [2^-52]. *)
Theorem find_bit_allocation_int_power (pmf_list : cond_pmf_list_t)
  (comp : double) (out : bit_allocation_t) :
  find_bit_allocation pmf_list comp BIT_ALLOC_MODE_INT_POWER = Some out ->
  exists uc,
    unconditional_pmfs pmf_list = Some uc /\
    forall i h,
      0 <= i < cp_columns pmf_list ->
      column_entropy pmf_list uc comp i = Some (Fin h) ->
      (0 <= h)%R ->
      zget (ba_low out) i = Some (2 ^ Rfloor h) /\
      zget (ba_high out) i = Some (2 ^ Rceil h) /\
      exists ratio,
        zget (ba_ratio out) i = Some ratio /\
        (Rfloor h = Rceil h -> ratio = NaN) /\
        (Rfloor h <> Rceil h ->
           exists r, ratio = Fin r /\ (0 <= r <= 1)%R /\
             round (IZR (Rceil h) - h) = Fin r /\
             (Rabs (r * Rlog2 (IZR (2 ^ Rfloor h))
                    + (1 - r) * Rlog2 (IZR (2 ^ Rceil h)) - h)
              <= / 4503599627370496)%R).
Proof.
  intros Hf.
  destruct (find_bit_allocation_spec _ _ _ _ Hf) as (_ & _ & _ & uc & Hu & H).
  exists uc. split; [exact Hu |]. intros i h Hi He Hh.
  destruct (H i Hi) as (e & st & He' & Hst & H1 & H2 & H3).
  assert (e = Fin h) as -> by congruence.
  destruct (bit_allocation_int_power_spec h st Hh Hst)
    as (Elo & Ehi & Hint & Hmix).
  rewrite <- Elo, <- Ehi.
  split; [exact H2 |]. split; [exact H1 |].
  exists (st_ratio st). auto.
Qed.

End BitAllocationTheorems.

Section BitAllocationRun.
Local Open Scope R_scope.

Lemma unconditional_pmfs_ex :
  unconditional_pmfs (pops := SpecPmf.ops) ex_ba_pmfs
  = Some [ex3_half; ex3_half].
Proof. run_doubles. pmf_entries; field. Qed.

Lemma column_entropies_ex :
  column_entropies (pops := SpecPmf.ops) ex_ba_pmfs [ex3_half; ex3_half]
    (Fin (1/2))
  = Some [Fin (1/2); Fin (1/2)].
Proof. run_doubles. rewrite_logs. pmf_entries; field. Qed.

Lemma column_entropy_ex (i : Z) :
  (0 <= i < 2)%Z ->
  column_entropy (pops := SpecPmf.ops) ex_ba_pmfs [ex3_half; ex3_half]
    (Fin (1/2)) i = Some (Fin (1/2)).
Proof.
  intros Hi. assert (i = 0%Z \/ i = 1%Z) as [-> | ->] by lia;
    run_doubles; rewrite_logs; pmf_entries; field.
Qed.

Lemma find_bit_allocation_ex_int_states :
  find_bit_allocation (pops := SpecPmf.ops) ex_ba_pmfs (Fin (1/2))
    BIT_ALLOC_MODE_INT_STATES
  = Some (mkBitAllocation [2; 2]%Z [1; 1]%Z
            [Fin (1 - 1/2); Fin (1 - 1/2)]).
Proof.
  unfold find_bit_allocation.
  rewrite unconditional_pmfs_ex. cbn [obind].
  rewrite column_entropies_ex. cbn [obind].
  assert (E : bit_allocation BIT_ALLOC_MODE_INT_STATES (Fin (1/2))
              = Some (mkStates 2 1 (Fin (1 - 1/2)))).
  { rewrite <- (find_states_below_one_bit (1/2)) by lra.
    unfold bit_allocation, find_states.
    destruct (double_to_uint32 (dpow2 (Fin (1/2)))); [| reflexivity].
    cbn [obind].
    destruct (double_to_uint32 (dceil (dpow2 (Fin (1/2))))); reflexivity. }
  lazy -[bit_allocation IZR Rdiv]. rewrite E. reflexivity.
Qed.

Lemma bit_allocation_ex_int_power :
  bit_allocation BIT_ALLOC_MODE_INT_POWER (Fin (1/2))
  = Some (mkStates 2 1 (Fin (1/2))).
Proof.
  assert (Ef : Rfloor (1/2) = 0%Z) by (apply Rfloor_unique; lra).
  assert (Ec : Rceil (1/2) = 1%Z) by (apply Rceil_unique; lra).
  unfold bit_allocation. cbn [dfloor dceil dpow2]. rewrite Ef, Ec.
  rewrite !Rpower2_IZR by lia. unfold double_to_uint32.
  rewrite !Rtrunc_nonneg by (apply IZR_le with (n := 0%Z); discriminate).
  rewrite !Rfloor_IZR. cbn -[IZR Rdiv fdiv fsub].
  assert (Eh : round (1/2) = Fin (1/2)).
  { replace (1/2) with (IZR 1 * bpow (-1)) by (rewrite bpow_m1; lra).
    apply representable_grid; [split; reflexivity | lia |].
    pose proof bpow_1023_large. pose proof (bpow_lt 1023 1024 ltac:(lia)).
    rewrite bpow_m1. lra. }
  assert (En : fsub (Fin (1/2)) (Fin 1) = Fin (- (1/2))).
  { unfold fsub. cbn [dsub dopp dadd rounded].
    replace (1/2 + Ropp 1) with (- (1/2)) by lra.
    now rewrite round_opp, Eh. }
  assert (Ed : fsub (Fin 0) (Fin 1) = Fin (IZR (-1))).
  { unfold fsub. cbn [dsub dopp dadd rounded].
    replace (0 + Ropp 1) with (IZR (-1)) by lra.
    apply (representable_IZR (-1)). reflexivity. }
  rewrite En, Ed. unfold fdiv, ddiv. rewrite Rsign_neg by lra.
  cbn [rounded]. replace (- (1/2) / -1) with (1/2) by lra.
  now rewrite Eh.
Qed.

Lemma bit_allocation_ex_no_mix :
  bit_allocation BIT_ALLOC_MODE_NO_MIX (Fin (1/2))
  = Some (mkStates 0 1 (Fin 1)).
Proof.
  assert (Hlo : 1 < Rpower 2 (1/2)).
  { pose proof (Rpower_lt 2 0 (1/2)) as H.
    rewrite Rpower_O in H by lra. apply H; lra. }
  assert (Hhi : Rpower 2 (1/2) < 2).
  { pose proof (Rpower_lt 2 (1/2) 1) as H.
    rewrite Rpower_1 in H by lra. apply H; lra. }
  unfold bit_allocation. cbn [dfloor dpow2].
  rewrite (Rfloor_unique (Rpower 2 (1/2)) 1) by lra.
  unfold double_to_uint32. rewrite Rtrunc_nonneg by lra.
  rewrite Rfloor_IZR. reflexivity.
Qed.

Lemma find_bit_allocation_ex_int_power :
  find_bit_allocation (pops := SpecPmf.ops) ex_ba_pmfs (Fin (1/2))
    BIT_ALLOC_MODE_INT_POWER
  = Some (mkBitAllocation [2; 2]%Z [1; 1]%Z [Fin (1/2); Fin (1/2)]).
Proof.
  unfold find_bit_allocation.
  rewrite unconditional_pmfs_ex. cbn [obind].
  rewrite column_entropies_ex. cbn [obind].
  lazy -[bit_allocation IZR Rdiv].
  rewrite bit_allocation_ex_int_power. reflexivity.
Qed.

Lemma find_bit_allocation_ex_no_mix :
  find_bit_allocation (pops := SpecPmf.ops) ex_ba_pmfs (Fin (1/2))
    BIT_ALLOC_MODE_NO_MIX
  = Some (mkBitAllocation [0; 0]%Z [1; 1]%Z [Fin 1; Fin 1]).
Proof.
  unfold find_bit_allocation.
  rewrite unconditional_pmfs_ex. cbn [obind].
  rewrite column_entropies_ex. cbn [obind].
  lazy -[bit_allocation IZR Rdiv].
  rewrite bit_allocation_ex_no_mix. reflexivity.
Qed.

End BitAllocationRun.

(** The allocation for [ex_ba_pmfs] at [comp = 1/2]: each column has the
    entropy 1/2. *)
Lemma find_bit_allocation_int_states_witness :
  exists uc,
    unconditional_pmfs (pops := SpecPmf.ops) ex_ba_pmfs = Some uc /\
    forall i, 0 <= i < 2 ->
      exists e st,
        column_entropy (pops := SpecPmf.ops) ex_ba_pmfs uc (Fin (1/2)) i
        = Some e /\
        find_states e = Some st /\
        zget [2; 2] i = Some (st_high st) /\
        zget [1; 1] i = Some (st_low st) /\
        zget [Fin (1 - 1/2); Fin (1 - 1/2)]%R i = Some (st_ratio st).
Proof.
  exact (find_bit_allocation_int_states (pops := SpecPmf.ops) ex_ba_pmfs
           (Fin (1/2)) _ find_bit_allocation_ex_int_states).
Defined.


Lemma find_bit_allocation_int_power_witness :
  zget [1; 1] 0 = Some (2 ^ Rfloor (1/2)) /\
  zget [2; 2] 0 = Some (2 ^ Rceil (1/2)) /\
  exists ratio,
    zget [Fin (1/2); Fin (1/2)]%R 0 = Some ratio /\
    (Rfloor (1/2) = Rceil (1/2) -> ratio = NaN) /\
    (Rfloor (1/2) <> Rceil (1/2) ->
       exists r, ratio = Fin r /\ (0 <= r <= 1)%R /\
         round (IZR (Rceil (1/2)) - 1/2) = Fin r /\
         (Rabs (r * Rlog2 (IZR (2 ^ Rfloor (1/2)))
                + (1 - r) * Rlog2 (IZR (2 ^ Rceil (1/2))) - 1/2)
          <= / 4503599627370496)%R).
Proof.
  destruct (find_bit_allocation_int_power (pops := SpecPmf.ops) ex_ba_pmfs
              (Fin (1/2)) _ find_bit_allocation_ex_int_power)
    as (uc & Hu & H).
  rewrite unconditional_pmfs_ex in Hu. injection Hu as <-.
  apply (H 0 (1/2)%R).
  - cbn. lia.
  - apply column_entropy_ex. lia.
  - lra.
Defined.

(** ** The legacy codebooks *)

Section RunsFacts.

Lemma runs_cons2 (x y : Z) (r : list Z) :
  runs (x :: y :: r) = if x =? y then runs (y :: r) else x :: runs (y :: r).
Proof. reflexivity. Qed.

Lemma runs_head (y : Z) (r : list Z) : exists t, runs (y :: r) = y :: t.
Proof.
  revert y. induction r as [| z r IHr]; intros y; [now exists [] |].
  rewrite runs_cons2. destruct (Z.eqb_spec y z) as [-> | _]; [apply IHr |].
  eexists. reflexivity.
Qed.

Lemma runs_nonempty (l : list Z) : l <> [] -> runs l <> [].
Proof.
  destruct l as [| x r]; [contradiction |]. intros _.
  destruct (runs_head x r) as [t ->]. discriminate.
Qed.

Lemma runs_length_le (l : list Z) : (length (runs l) <= length l)%nat.
Proof.
  induction l as [| x [| y r] IH]; [cbn; lia | cbn; lia |].
  rewrite runs_cons2. destruct (x =? y); cbn [length] in *; lia.
Qed.

Lemma last_runs (l : list Z) (d : Z) : last (runs l) d = last l d.
Proof.
  induction l as [| x [| y r] IH]; [reflexivity | reflexivity |].
  rewrite runs_cons2.
  change (last (x :: y :: r) d) with (last (y :: r) d).
  destruct (Z.eqb_spec x y) as [-> | Hne]; [exact IH |].
  destruct (runs_head y r) as [t Et]. rewrite Et in *.
  exact IH.
Qed.

Lemma runs_snoc (l : list Z) (x : Z) :
  l <> [] ->
  runs (l ++ [x]) = if last l 0 =? x then runs l else runs l ++ [x].
Proof.
  induction l as [| a [| b r] IH]; intros Hl; [contradiction | |].
  - cbn. destruct (Z.eqb_spec a x) as [-> | _]; reflexivity.
  - assert (Hr : b :: r <> []) by discriminate.
    specialize (IH Hr).
    change ((a :: b :: r) ++ [x]) with (a :: b :: (r ++ [x])).
    change (last (a :: b :: r) 0) with (last (b :: r) 0).
    rewrite !runs_cons2. change (b :: r ++ [x]) with ((b :: r) ++ [x]).
    rewrite IH.
    destruct (a =? b), (last (b :: r) 0 =? x); reflexivity.
Qed.

(** No two neighbours of [runs l] are equal. *)
Lemma runs_no_repeat (l : list Z) (i : nat) (a b : Z) :
  nth_error (runs l) i = Some a -> nth_error (runs l) (S i) = Some b ->
  a <> b.
Proof.
  revert i. induction l as [| x [| y r] IH]; intros i Ha Hb.
  - destruct i; discriminate.
  - destruct i as [| i]; [discriminate | destruct i; discriminate].
  - rewrite runs_cons2 in Ha, Hb.
    destruct (Z.eqb_spec x y) as [-> | Hne]; [now apply (IH i) |].
    destruct i as [| i].
    + cbn [nth_error] in Ha, Hb. injection Ha as <-.
      destruct (runs_head y r) as [t Et]. rewrite Et in Hb.
      cbn in Hb. congruence.
    + apply (IH i); assumption.
Qed.

(** On a table in non-decreasing order the runs are in increasing order
    and are the values of the table. *)
Lemma runs_sorted (l : list Z) :
  Sorted Z.le l -> Sorted Z.lt (runs l) /\ forall v, In v (runs l) <-> In v l.
Proof.
  induction l as [| x [| y r] IH]; intros Hs.
  - split; [constructor | reflexivity].
  - split; [repeat constructor | reflexivity].
  - inversion Hs as [| ? ? Hs' Hhd]; subst.
    inversion Hhd as [| ? ? Hxy]; subst.
    destruct (IH Hs') as [IHs IHi]. rewrite runs_cons2.
    destruct (Z.eqb_spec x y) as [-> | Hne].
    + split; [exact IHs |]. intros v. rewrite IHi. cbn. tauto.
    + split.
      * constructor; [exact IHs |].
        destruct (runs_head y r) as [t ->]. constructor. lia.
      * intros v. cbn [In]. rewrite IHi. cbn. tauto.
Qed.

End RunsFacts.

Section ListBlocks.
Context {A : Type}.

Lemma zget_nth_error (a : list A) (n : nat) :
  zget a (Z.of_nat n) = nth_error a n.
Proof.
  unfold zget. destruct (Z.ltb_spec (Z.of_nat n) 0) as [H | _]; [lia |].
  now rewrite Nat2Z.id.
Qed.

Lemma zget_app_l (a b : list A) (i : Z) :
  0 <= i < Z.of_nat (length a) -> zget (a ++ b) i = zget a i.
Proof.
  intros Hi. rewrite <- (Z2Nat.id i) by lia. rewrite !zget_nth_error.
  apply nth_error_app1. lia.
Qed.

Lemma zget_app_r (a b : list A) (i : Z) :
  Z.of_nat (length a) <= i ->
  zget (a ++ b) i = zget b (i - Z.of_nat (length a)).
Proof.
  intros Hi. rewrite <- (Z2Nat.id i) by lia.
  replace (Z.of_nat (Z.to_nat i) - Z.of_nat (length a))
    with (Z.of_nat (Z.to_nat i - length a)) by lia.
  rewrite !zget_nth_error. apply nth_error_app2. lia.
Qed.

Lemma zget_last (a : list A) (d : A) :
  a <> [] -> zget a (Z.of_nat (length a) - 1) = Some (last a d).
Proof.
  intros Ha. destruct (exists_last Ha) as [a' [x ->]].
  rewrite last_last, length_app. cbn [length].
  replace (Z.of_nat (length a' + 1) - 1) with (Z.of_nat (length a')) by lia.
  rewrite zget_nth_error, nth_error_app2 by lia.
  now rewrite Nat.sub_diag.
Qed.

Lemma set_nth_app (a b : list A) (x v : A) :
  set_nth (a ++ x :: b) (length a) v = Some (a ++ v :: b).
Proof.
  induction a as [| y a IH]; cbn [app length set_nth]; [reflexivity |].
  now rewrite IH.
Qed.

Lemma zset_app (a b : list A) (x v : A) :
  zset (a ++ x :: b) (Z.of_nat (length a)) v = Some (a ++ v :: b).
Proof.
  unfold zset. destruct (Z.ltb_spec (Z.of_nat (length a)) 0); [lia |].
  rewrite Nat2Z.id. apply set_nth_app.
Qed.

Lemma firstn_snoc (l : list A) (n : nat) (x : A) :
  nth_error l n = Some x -> firstn (S n) l = firstn n l ++ [x].
Proof.
  revert n. induction l as [| y l IH]; intros [| n] H; try discriminate.
  - cbn in H. injection H as <-. reflexivity.
  - cbn [firstn app]. f_equal. now apply IH.
Qed.

Lemma skipn_cons_nth (l : list A) (n : nat) :
  (n < length l)%nat ->
  exists x, nth_error l n = Some x /\ skipn n l = x :: skipn (S n) l.
Proof.
  revert n. induction l as [| y l IH]; intros [| n] H; cbn in H; try lia.
  - exists y. auto.
  - destruct (IH n) as [x [H1 H2]]; [lia |]. exists x. auto.
Qed.

End ListBlocks.

Section GenerateUniques.
Variable cb_log2 : Z -> Z.

(** The state of the loop of [generate_uniques] after the entries
    [1, ..., k] of the table: the runs of the first [k + 1] entries followed
    by what the array held, and the index of the last run. *)
Lemma generate_uniques_loop (q U0 : list Z) (n : Z) :
  1 <= n <= 255 ->
  length q = Z.to_nat n -> length U0 = Z.to_nat n ->
  forall k : nat,
    1 + Z.of_nat k <= n ->
    exists q0 un0,
      zget q 0 = Some q0 /\ zset U0 0 q0 = Some un0 /\
      let R := runs (firstn (S k) q) in
      ofold (fun (acc : list Z * Z) s =>
               let (un, u) := acc in
               qs <- zget q s ;;
               uu <- zget un u ;;
               if negb (qs =? uu) then
                 let u' := u8 (u + 1) in
                 un' <- zset un u' qs ;;
                 Some (un', u')
               else Some (un, u))
            (zrange 1 (1 + Z.of_nat k)) (un0, 0)
      = Some (R ++ skipn (length R) U0, Z.of_nat (length R) - 1).
Proof.
  intros Hn Hq HU.
  destruct q as [| q0 q']; [cbn in Hq; lia |].
  destruct U0 as [| u0 U']; [cbn in HU; lia |].
  induction k as [| k IH]; intros Hk.
  - exists q0, (q0 :: U'). split; [reflexivity |]. split; [reflexivity |].
    reflexivity.
  - destruct IH as (q0' & un0 & Hq0 & Hun0 & IH); [lia |].
    exists q0', un0. split; [exact Hq0 |]. split; [exact Hun0 |].
    cbv zeta in *.
    replace (1 + Z.of_nat (S k)) with ((1 + Z.of_nat k) + 1) by lia.
    rewrite zrange_snoc by lia. rewrite ofold_app, IH. cbn [obind ofold].
    set (l := firstn (S k) (q0 :: q')) in *.
    assert (Hl : l <> []) by discriminate.
    assert (Hll : length l = S k).
    { unfold l. rewrite length_firstn. lia. }
    destruct (nth_error (q0 :: q') (S k)) as [x |] eqn:Ex.
    2: { apply nth_error_None in Ex. lia. }
    rewrite (firstn_snoc _ _ _ Ex). fold l.
    replace (1 + Z.of_nat k) with (Z.of_nat (S k)) by lia.
    rewrite zget_nth_error, Ex. cbn [obind].
    pose proof (runs_length_le l) as Hrl.
    pose proof (runs_nonempty l Hl) as Hrn.
    set (R := runs l) in *.
    assert (HR0 : (0 < length R)%nat) by (destruct R; [contradiction | cbn; lia]).
    rewrite zget_app_l by lia.
    rewrite (zget_last R 0 Hrn). cbn [obind].
    assert (HlR : last R 0 = last l 0) by (unfold R; apply last_runs).
    rewrite HlR. rewrite runs_snoc by exact Hl. fold R.
    destruct (Z.eqb_spec x (last l 0)) as [E | E]; cbn [negb].
    + rewrite E, Z.eqb_refl. reflexivity.
    + destruct (Z.eqb_spec (last l 0) x) as [E' | _]; [congruence |].
      replace (Z.of_nat (length R) - 1 + 1) with (Z.of_nat (length R))
        by lia.
      assert (E8 : u8 (Z.of_nat (length R)) = Z.of_nat (length R)).
      { unfold u8. apply Z.mod_small. lia. }
      rewrite E8.
      destruct (skipn_cons_nth (u0 :: U') (length R)) as [y [_ Hsk]];
        [lia |].
      rewrite Hsk, zset_app. cbn [obind].
      rewrite length_app. cbn [length].
      replace (length R + 1)%nat with (S (length R)) by lia.
      rewrite <- app_assoc. cbn [app].
      do 2 f_equal. lia.
Qed.

(** What [generate_uniques] leaves in the codebook. *)
Lemma generate_uniques_eq (cb : codebook_t) :
  1 <= cb_symbols cb <= 255 ->
  length (cb_quantizer cb) = Z.to_nat (cb_symbols cb) ->
  length (cb_uniques cb) = Z.to_nat (cb_symbols cb) ->
  let R := runs (cb_quantizer cb) in
  generate_uniques cb_log2 cb
  = Some (mkCodebook (cb_quantizer cb)
            (R ++ skipn (length R) (cb_uniques cb))
            (cb_max_unique_count cb) (Z.of_nat (length R))
            (u8 (cb_log2 (Z.of_nat (length R)))) (cb_symbols cb)).
Proof.
  intros Hn Hq HU R.
  destruct (generate_uniques_loop _ _ _ Hn Hq HU
              (Z.to_nat (cb_symbols cb - 1)))
    as (q0 & un0 & Hq0 & Hun0 & Hloop); [lia |].
  cbv zeta in Hloop.
  replace (1 + Z.of_nat (Z.to_nat (cb_symbols cb - 1)))
    with (cb_symbols cb) in Hloop by lia.
  replace (S (Z.to_nat (cb_symbols cb - 1)))
    with (length (cb_quantizer cb)) in Hloop by lia.
  rewrite firstn_all in Hloop. fold R in Hloop.
  unfold generate_uniques. rewrite Hq0. cbn [obind]. rewrite Hun0.
  cbn [obind]. rewrite Hloop. cbn [obind].
  pose proof (runs_length_le (cb_quantizer cb)) as Hrl. fold R in Hrl.
  replace (Z.of_nat (length R) - 1 + 1) with (Z.of_nat (length R)) by lia.
  assert (E8 : u8 (Z.of_nat (length R)) = Z.of_nat (length R)).
  { unfold u8. apply Z.mod_small. lia. }
  rewrite E8. reflexivity.
Qed.

End GenerateUniques.

Section LegacyTheorems.
Context `{wl : Well}.
Variable cb_log2 : Z -> Z.
Variable well_set_n : well_state_t -> Z -> well_state_t.

(** [generate_uniques] on a codebook of 1 to 255 symbols: the table is
    left as it is; the count is the number of runs of equal consecutive
    values in the table, between 1 and the number of symbols; the first
    [count] entries of [uniques] are the values of the runs, in order, so
    that no two neighbours among them are equal; the other entries of
    [uniques] are not written. *)
Theorem generate_uniques_runs (cb : codebook_t) :
  1 <= cb_symbols cb <= 255 ->
  length (cb_quantizer cb) = Z.to_nat (cb_symbols cb) ->
  length (cb_uniques cb) = Z.to_nat (cb_symbols cb) ->
  exists cb',
    generate_uniques cb_log2 cb = Some cb' /\
    cb_quantizer cb' = cb_quantizer cb /\
    cb_symbols cb' = cb_symbols cb /\
    1 <= cb_actual_unique_count cb' <= cb_symbols cb /\
    cb_bits cb' = u8 (cb_log2 (cb_actual_unique_count cb')) /\
    firstn (Z.to_nat (cb_actual_unique_count cb')) (cb_uniques cb')
      = runs (cb_quantizer cb) /\
    skipn (Z.to_nat (cb_actual_unique_count cb')) (cb_uniques cb')
      = skipn (Z.to_nat (cb_actual_unique_count cb')) (cb_uniques cb) /\
    forall i a b,
      0 <= i -> i + 1 < cb_actual_unique_count cb' ->
      zget (cb_uniques cb') i = Some a ->
      zget (cb_uniques cb') (i + 1) = Some b -> a <> b.
Proof.
  intros Hn Hq HU.
  pose proof (generate_uniques_eq cb_log2 cb Hn Hq HU) as Hg.
  cbv zeta in Hg.
  set (R := runs (cb_quantizer cb)) in *.
  pose proof (runs_length_le (cb_quantizer cb)) as Hrl. fold R in Hrl.
  assert (Hrn : R <> []).
  { apply runs_nonempty. intros E. rewrite E in Hq. cbn in Hq. lia. }
  assert (HR0 : (0 < length R)%nat)
    by (destruct R; [contradiction | cbn; lia]).
  eexists. split; [exact Hg |]. cbn [cb_quantizer cb_symbols
    cb_actual_unique_count cb_bits cb_uniques].
  rewrite Nat2Z.id.
  split; [reflexivity |]. split; [reflexivity |]. split; [lia |].
  split; [reflexivity |]. split; [| split].
  - rewrite firstn_app, Nat.sub_diag, firstn_all. cbn [firstn].
    apply app_nil_r.
  - rewrite skipn_app, Nat.sub_diag, skipn_all. reflexivity.
  - intros i a b Hi0 Hi.
    rewrite !zget_app_l by lia.
    rewrite <- (Z2Nat.id i) by lia.
    replace (Z.of_nat (Z.to_nat i) + 1) with (Z.of_nat (S (Z.to_nat i)))
      by lia.
    rewrite !zget_nth_error. apply runs_no_repeat.
Qed.

(** On a table in non-decreasing order, as the tables of the quantizers
    are, the entries counted by [generate_uniques] are in increasing order
    and are the values that the table takes. *)
Theorem generate_uniques_sorted (cb : codebook_t) :
  1 <= cb_symbols cb <= 255 ->
  length (cb_quantizer cb) = Z.to_nat (cb_symbols cb) ->
  length (cb_uniques cb) = Z.to_nat (cb_symbols cb) ->
  Sorted Z.le (cb_quantizer cb) ->
  exists cb',
    generate_uniques cb_log2 cb = Some cb' /\
    let found := firstn (Z.to_nat (cb_actual_unique_count cb'))
                   (cb_uniques cb') in
    Sorted Z.lt found /\
    forall v, In v found <-> In v (cb_quantizer cb).
Proof.
  intros Hn Hq HU Hs.
  pose proof (generate_uniques_eq cb_log2 cb Hn Hq HU) as Hg.
  cbv zeta in Hg. eexists. split; [exact Hg |].
  cbn [cb_actual_unique_count cb_uniques]. rewrite Nat2Z.id.
  rewrite firstn_app, Nat.sub_diag, firstn_all. cbn [firstn].
  rewrite app_nil_r. now apply runs_sorted.
Qed.

(** A loop of writes [a[c] = f c] over indexes inside the array. *)
Lemma ofold_zset {A} (f : Z -> A) (cs : list Z) :
  forall a : list A,
    (forall c, In c cs -> 0 <= c < Z.of_nat (length a)) ->
    exists a',
      ofold (fun a c => zset a c (f c)) cs a = Some a' /\
      length a' = length a /\
      (forall c, In c cs -> zget a' c = Some (f c)) /\
      (forall c, ~ In c cs -> zget a' c = zget a c).
Proof.
  induction cs as [| c cs IH]; intros a Hin.
  - exists a. split; [reflexivity |]. split; [reflexivity |].
    split; [intros c [] | reflexivity].
  - destruct (zset_defined a c (f c)) as [a1 Ha1]; [apply Hin; now left |].
    destruct (IH a1) as (a' & Hf & Hl & Hi & Ho).
    { intros c' Hc'. rewrite (zset_length _ _ _ _ Ha1).
      apply Hin. now right. }
    exists a'. cbn [ofold]. rewrite Ha1. split; [exact Hf |].
    split; [rewrite Hl; apply (zset_length _ _ _ _ Ha1) |]. split.
    + intros c' [<- | Hc']; [| now apply Hi].
      destruct (in_dec Z.eq_dec c cs) as [Hc | Hc]; [now apply Hi |].
      rewrite (Ho c Hc). apply (zget_zset_same _ _ _ _ Ha1).
    + intros c' Hc'. rewrite Ho by (intros H; apply Hc'; now right).
      apply (zget_zset_other _ _ _ _ _ Ha1).
      intros ->. apply Hc'. now left.
Qed.

Lemma init_codebook_array_spec (symbols columns : Z) :
  1 <= columns ->
  exists cb,
    init_codebook_array (repeat None (Z.to_nat columns)) symbols columns
    = Some cb /\
    length cb = Z.to_nat columns /\
    zget cb 0 = Some (Some [fresh_codebook symbols]) /\
    forall c, 1 <= c < columns ->
      zget cb c
      = Some (Some (repeat (fresh_codebook symbols) (Z.to_nat symbols))).
Proof.
  intros Hc. unfold init_codebook_array.
  destruct (zset_defined (repeat (@None (list codebook_t))
                            (Z.to_nat columns)) 0
              (Some [fresh_codebook symbols])) as [cb0 Hcb0];
    [rewrite repeat_length; lia |].
  rewrite Hcb0. cbn [obind].
  destruct (ofold_zset
              (fun _ : Z =>
                 Some (repeat (fresh_codebook symbols) (Z.to_nat symbols)))
              (zrange 1 columns) cb0) as (cb & Hf & Hl & Hi & Ho).
  { intros c Hin. apply zrange_In in Hin.
    rewrite (zset_length _ _ _ _ Hcb0), repeat_length. lia. }
  exists cb. split; [exact Hf |].
  split; [rewrite Hl, (zset_length _ _ _ _ Hcb0); apply repeat_length |].
  split.
  - rewrite Ho by (rewrite zrange_In; lia).
    apply (zget_zset_same _ _ _ _ Hcb0).
  - intros c Hc'. apply Hi. apply zrange_In. lia.
Qed.

(** [init_codebook_list] for no column writes the codebook of column 0
    into arrays without elements.  For at least one column, the list holds
    one zeroed codebook in column 0 and [symbols] zeroed codebooks in every
    other column, low and high, each with tables of [symbols] bytes; the
    ratios and the selection counts are 0. *)
Theorem init_codebook_list_shape (lst : codebook_list_t)
  (symbols columns : Z) :
  (columns = 0 ->
     init_codebook_list well_set_n lst symbols columns = None) /\
  (1 <= columns ->
     exists cl,
       init_codebook_list well_set_n lst symbols columns = Some cl /\
       cl_columns cl = columns /\ cl_symbols cl = symbols /\
       cl_well cl = well_set_n (cl_well lst) 0 /\
       zget (cl_low cl) 0 = Some (Some [fresh_codebook symbols]) /\
       zget (cl_high cl) 0 = Some (Some [fresh_codebook symbols]) /\
       (forall c, 1 <= c < columns ->
          zget (cl_low cl) c
          = Some (Some (repeat (fresh_codebook symbols) (Z.to_nat symbols)))
          /\
          zget (cl_high cl) c
          = Some (Some (repeat (fresh_codebook symbols)
                          (Z.to_nat symbols)))) /\
       (forall c, 0 <= c < columns ->
          zget (cl_ratio cl) c = Some 0 /\
          zget (cl_select_count cl) c = Some 0) /\
       (forall c, ~ 0 <= c < columns ->
          zget (cl_low cl) c = None /\ zget (cl_high cl) c = None /\
          zget (cl_ratio cl) c = None)).
Proof.
  split.
  - intros ->. reflexivity.
  - intros Hc. unfold init_codebook_list.
    destruct (init_codebook_array_spec symbols columns Hc)
      as (cb & Hcb & Hl & H0 & Hrest).
    rewrite Hcb. cbn [obind]. eexists. split; [reflexivity |].
    cbn [cl_columns cl_symbols cl_well cl_low cl_high cl_ratio
         cl_select_count].
    repeat (split; [reflexivity || exact H0 |]).
    split; [| split].
    + intros c Hc'. split; apply Hrest; exact Hc'.
    + intros c Hc'. split; apply zget_repeat; lia.
    + intros c Hc'. repeat split; apply zget_undefined;
        rewrite ?Hl, ?repeat_length; lia.
Qed.

(** Selection of a legacy codebook: a ratio of 100 or more always selects
    the low codebook and counts nothing; the ratio 0 always selects the
    high codebook and counts the selection.  Either way the generator
    advances by one draw. *)
Theorem choose_codebook_ratio_extremes (lst : codebook_list_t)
  (column prev_value v r count : Z) (w : well_state_t)
  (lows highs : list codebook_t) (lo hi : codebook_t) :
  well_1024a (cl_well lst) = (v, w) ->
  0 <= v ->
  zget (cl_ratio lst) column = Some r ->
  zget (cl_select_count lst) column = Some count ->
  zget (cl_low lst) column = Some (Some lows) ->
  zget (cl_high lst) column = Some (Some highs) ->
  zget lows prev_value = Some lo ->
  zget highs prev_value = Some hi ->
  (100 <= r ->
     choose_codebook lst column prev_value
     = Some (lo, mkCodebookList (cl_high lst) (cl_low lst) (cl_ratio lst)
                   (cl_select_count lst) (cl_symbols lst) (cl_columns lst)
                   w)) /\
  (r = 0 ->
     exists counts,
       zset (cl_select_count lst) column (u32 (count + 1)) = Some counts /\
       choose_codebook lst column prev_value
       = Some (hi, mkCodebookList (cl_high lst) (cl_low lst) (cl_ratio lst)
                     counts (cl_symbols lst) (cl_columns lst) w)).
Proof.
  intros Hw Hv Hr Hcount Hlow Hhigh Hlo Hhi.
  pose proof (Z.mod_pos_bound v 100 ltac:(lia)) as Hm.
  unfold choose_codebook. rewrite Hw, Hr. cbn [obind]. split.
  - intros Hr100.
    destruct (Z.geb_spec (v mod 100) r) as [H | _]; [lia |].
    rewrite Hlow. cbn [obind]. now rewrite Hlo.
  - intros ->.
    destruct (Z.geb_spec (v mod 100) 0) as [_ | H]; [| lia].
    rewrite Hcount. cbn [obind].
    destruct (zset_defined (cl_select_count lst) column (u32 (count + 1)))
      as [counts Hcounts]; [eapply zget_range; eassumption |].
    exists counts. split; [exact Hcounts |].
    rewrite Hcounts. cbn [obind]. rewrite Hhigh. cbn [obind].
    now rewrite Hhi.
Qed.

End LegacyTheorems.

(** The table [33; 33; 35; 35]: two runs. *)
Lemma generate_uniques_runs_witness :
  exists cb',
    generate_uniques ex_cb_log2 ex_codebook = Some cb' /\
    cb_actual_unique_count cb' = 2 /\
    cb_uniques cb' = [33; 35; 0; 0].
Proof.
  destruct (generate_uniques_runs ex_cb_log2 ex_codebook)
    as (cb' & Hg & _); [cbn; lia | reflexivity | reflexivity |].
  exists cb'. split; [exact Hg |].
  cbv in Hg. injection Hg as <-. split; reflexivity.
Defined.

Lemma generate_uniques_sorted_witness :
  exists cb',
    generate_uniques ex_cb_log2 ex_codebook = Some cb' /\
    let found := firstn (Z.to_nat (cb_actual_unique_count cb'))
                   (cb_uniques cb') in
    Sorted Z.lt found /\
    forall v, In v found <-> In v [33; 33; 35; 35].
Proof.
  apply (generate_uniques_sorted ex_cb_log2 ex_codebook).
  - cbn; lia.
  - reflexivity.
  - reflexivity.
  - cbn. repeat constructor; lia.
Defined.

(** The initialisation for two columns of four symbols. *)
Lemma init_codebook_list_shape_witness :
  exists cl,
    init_codebook_list (wl := counter_well) ex_well_set_n ex_codebook_list
      4 2 = Some cl /\
    zget (cl_low cl) 0 = Some (Some [fresh_codebook 4]) /\
    zget (cl_low cl) 1 = Some (Some (repeat (fresh_codebook 4) 4)).
Proof.
  destruct (init_codebook_list_shape (wl := counter_well) ex_well_set_n
              ex_codebook_list 4 2) as [_ H].
  destruct H as (cl & Hi & _ & _ & _ & H0 & _ & Hc & _); [lia |].
  exists cl. split; [exact Hi |]. split; [exact H0 |].
  apply (Hc 1). lia.
Defined.

(** The ratio 100 of [ex_codebook_list]: the low codebook. *)
Lemma choose_codebook_ratio_extremes_witness :
  choose_codebook ex_codebook_list 0 0
  = Some (mkCodebook [33; 33; 35; 35] [33; 35; 0; 0] 0 2 1 4,
          mkCodebookList (wl := counter_well)
            (cl_high ex_codebook_list) (cl_low ex_codebook_list)
            (cl_ratio ex_codebook_list) (cl_select_count ex_codebook_list)
            (cl_symbols ex_codebook_list) (cl_columns ex_codebook_list) 1).
Proof.
  destruct (choose_codebook_ratio_extremes ex_codebook_list 0 0 0 100 0 1
              _ _ _ _ eq_refl (Z.le_refl 0) eq_refl eq_refl eq_refl eq_refl
              eq_refl eq_refl) as [H _].
  apply H. lia.
Defined.

(** ** Reading a codebook file *)

Section LineBuffer.

Lemma overwrite_app {A} (buf new : list A) :
  (length new <= length buf)%nat ->
  overwrite buf new = Some (new ++ skipn (length new) buf).
Proof.
  revert buf. induction new as [| x new IH]; intros buf Hl; [reflexivity |].
  destruct buf as [| b buf]; [cbn in Hl; lia |].
  cbn [overwrite length skipn app]. rewrite IH by (cbn in Hl; lia).
  reflexivity.
Qed.

Lemma overwrite_length {A} (buf new r : list A) :
  overwrite buf new = Some r -> length r = length buf.
Proof.
  revert buf r. induction new as [| x new IH]; intros buf r H.
  - cbn in H. now injection H as <-.
  - destruct buf as [| b buf]; [discriminate |]. cbn [overwrite] in H.
    destruct (overwrite buf new) as [r' |] eqn:E; [| discriminate].
    injection H as <-. cbn [length]. f_equal. now apply IH.
Qed.

Lemma fgets_length (line line' : line_buffer) (fp fp' : file) :
  fgets line fp = Some (line', fp') -> length line' = length line.
Proof.
  unfold fgets. destruct (fgets_chars _ fp) as [[| c cs] rest].
  - intros H. now injection H as <- _.
  - destruct (overwrite line _) as [l |] eqn:E; [| discriminate].
    cbn [obind]. intros H. injection H as <- _.
    now apply overwrite_length in E.
Qed.

(** The characters taken from a stream that starts with a line shorter
    than the limit. *)
Lemma fgets_chars_line (l : list Z) (rest : file) (k : nat) :
  ~ In 10 l -> (length l < k)%nat ->
  fgets_chars k (l ++ 10 :: rest) = (l ++ [10], rest).
Proof.
  revert k. induction l as [| b l IH]; intros k Hn Hk.
  - destruct k as [| k]; [lia |]. reflexivity.
  - destruct k as [| k]; [cbn in Hk; lia |]. cbn [app fgets_chars].
    destruct (Z.eqb_spec b 10) as [-> | _]; [exfalso; apply Hn; now left |].
    rewrite IH; [reflexivity | | cbn in Hk; lia].
    intros H. apply Hn. now right.
Qed.

(** [fgets] on a stream that starts with a line that fits the buffer: the
    buffer holds the line, the newline and a null character, and keeps
    what it held beyond. *)
Lemma fgets_line (line : line_buffer) (l : list Z) (rest : file) :
  ~ In 10 l ->
  Z.of_nat (length line) = MAX_CODEBOOK_LINE_LENGTH ->
  Z.of_nat (length l) + 2 <= MAX_CODEBOOK_LINE_LENGTH ->
  fgets line (l ++ 10 :: rest)
  = Some (map Some l ++ Some 10 :: Some 0 :: skipn (length l + 2) line,
          rest).
Proof.
  intros Hn Hlen Hl. unfold fgets, MAX_CODEBOOK_LINE_LENGTH in *.
  rewrite fgets_chars_line by (assumption || lia).
  destruct (l ++ [10]) as [| c cs] eqn:E; [now destruct l |].
  rewrite <- E. rewrite overwrite_app.
  2: { rewrite length_app, length_map, length_app. cbn [length]. lia. }
  cbn [obind]. rewrite map_app, <- !app_assoc. cbn [map app].
  rewrite !length_app, length_map. cbn [length].
  replace (length l + (1 + 1))%nat with (length l + 2)%nat by lia.
  reflexivity.
Qed.

Lemma strlen_line (l : list Z) (tail : line_buffer) :
  ~ In 0 l -> strlen (map Some l ++ Some 0 :: tail)
              = Some (Z.of_nat (length l)).
Proof.
  induction l as [| b l IH]; intros Hn; [reflexivity |].
  cbn [map app strlen length].
  destruct (Z.eqb_spec b 0) as [-> | _]; [exfalso; apply Hn; now left |].
  rewrite IH by (intros H; apply Hn; now right). f_equal. lia.
Qed.

Lemma omap_zrange {B} (f : Z -> option B) (l : list B) :
  forall lo,
    (forall i, (i < length l)%nat -> f (lo + Z.of_nat i) = nth_error l i) ->
    omap f (zrange lo (lo + Z.of_nat (length l))) = Some l.
Proof.
  induction l as [| x l IH]; intros lo Hf.
  - rewrite zrange_empty by (cbn; lia). reflexivity.
  - rewrite zrange_cons by (cbn [length]; lia). cbn [omap].
    specialize (Hf 0%nat) as H0. cbn [length nth_error] in H0.
    rewrite Z.add_0_r in H0. rewrite H0 by lia.
    replace (lo + Z.of_nat (length (x :: l)))
      with (lo + 1 + Z.of_nat (length l)) by (cbn [length]; lia).
    rewrite IH; [reflexivity |].
    intros i Hi. replace (lo + 1 + Z.of_nat i) with (lo + Z.of_nat (S i))
      by lia.
    rewrite Hf by (cbn [length]; lia). reflexivity.
Qed.

Lemma omap_length {A B} (f : A -> option B) (l : list A) (r : list B) :
  omap f l = Some r -> length r = length l.
Proof.
  revert r. induction l as [| a l IH]; intros r H.
  - cbn in H. now injection H as <-.
  - cbn [omap] in H. destruct (f a); [| discriminate].
    destruct (omap f l) as [r' |]; [| discriminate].
    injection H as <-. cbn [length]. f_equal. now apply IH.
Qed.

(** The bytes read from a buffer that holds the line [a ++ b ++ c] are
    those of [b] when the read starts after [a]. *)
Lemma line_bytes_slice (a b c : list Z) (tail : line_buffer) :
  line_bytes (map Some (a ++ b ++ c) ++ tail) (Z.of_nat (length a))
    (Z.of_nat (length b)) = Some b.
Proof.
  unfold line_bytes.
  change (Z.of_nat (length b)) with (0 + Z.of_nat (length b)).
  apply omap_zrange. intros i Hi. cbv beta.
  rewrite Z.add_0_l, <- Nat2Z.inj_add, zget_nth_error.
  rewrite nth_error_app1 by (rewrite length_map, !length_app; lia).
  rewrite nth_error_map, nth_error_app2 by lia.
  replace (length a + i - length a)%nat with i by lia.
  rewrite nth_error_app1 by lia.
  destruct (nth_error b i) as [x |] eqn:E; [reflexivity |].
  apply nth_error_None in E. lia.
Qed.

End LineBuffer.

Section ReadCodebookEdges.
Context `{wl : Well}.
Variable cb_log2 : Z -> Z.
Variable well_set_n : well_state_t -> Z -> well_state_t.

Lemma ofold_fails {A S} (f : S -> A -> option S) (l : list A) (x : A) :
  In x l -> (forall s, f s x = None) -> forall s, ofold f l s = None.
Proof.
  induction l as [| a l IH]; intros Hin Hf s; [contradiction |].
  cbn [ofold]. destruct Hin as [-> | Hin]; [now rewrite Hf |].
  destruct (f s a); [now apply IH | reflexivity].
Qed.

(** A file without a first line, or whose first line is empty, gives no
    column: the length of the line is taken from a buffer that was never
    written, or the codebook of column 0 is written into arrays without
    elements. *)
Theorem read_codebook_no_columns (fp : file) (cb_list : codebook_list_t)
  (symbols : Z) :
  fp = [] \/ (exists rest, fp = 10 :: rest) ->
  read_codebook cb_log2 well_set_n fp cb_list symbols = None.
Proof.
  intros [-> | [rest ->]]; reflexivity.
Qed.

(** With more than 64 symbols, the codebook of the previous value 64 is
    copied from beyond the end of the line buffer. *)
Lemma load_line_overrun (cb : list (option (list codebook_t)))
  (column symbols : Z) (line : line_buffer) :
  Z.of_nat (length line) = MAX_CODEBOOK_LINE_LENGTH ->
  65 <= symbols <= 255 ->
  load_line cb_log2 cb column line symbols = None.
Proof.
  intros Hlen Hs. unfold load_line.
  apply (ofold_fails _ _ 64); [apply zrange_In; lia |].
  intros s. unfold load_codebook.
  destruct (zget s column) as [[cbs |] |]; try reflexivity. cbn [obind].
  destruct (zget cbs 64) as [c |]; [| reflexivity]. cbn [obind].
  assert (E : line_bytes line (u32 (64 * symbols)) symbols = None).
  { unfold line_bytes. rewrite zrange_cons by lia. cbn [omap].
    rewrite zget_undefined; [reflexivity |].
    unfold MAX_CODEBOOK_LINE_LENGTH in Hlen.
    rewrite u32_small
      by (unfold in_range; change U32.modulus with 4294967296; lia).
    lia. }
  now rewrite E.
Qed.

(** The line buffer has 4096 bytes and a line of column 1 or more is read
    as [symbols] blocks of [symbols] bytes: with 65 symbols or more and a
    first line of two characters or more, [read_codebook] reads outside the
    buffer, whatever the file holds. *)
Theorem read_codebook_line_overrun (l : list Z) (rest : file)
  (cb_list : codebook_list_t) (symbols : Z) :
  ~ In 10 l -> ~ In 0 l ->
  2 <= Z.of_nat (length l) <= MAX_CODEBOOK_LINE_LENGTH - 2 ->
  65 <= symbols <= 255 ->
  read_codebook cb_log2 well_set_n (l ++ 10 :: rest) cb_list symbols = None.
Proof.
  intros Hn10 Hn0 Hl Hs. unfold read_codebook.
  set (line0 := repeat None (Z.to_nat MAX_CODEBOOK_LINE_LENGTH)).
  assert (Hlen0 : Z.of_nat (length line0) = MAX_CODEBOOK_LINE_LENGTH)
    by (unfold line0; rewrite repeat_length; reflexivity).
  rewrite (fgets_line line0 l rest Hn10 Hlen0) by lia. cbn [obind].
  set (line1 := map Some l ++ _).
  assert (Hlen1 : Z.of_nat (length line1) = MAX_CODEBOOK_LINE_LENGTH).
  { rewrite <- Hlen0. f_equal.
    apply (fgets_length line0 line1 (l ++ 10 :: rest) rest).
    apply fgets_line; [assumption | assumption | lia]. }
  assert (Es : strlen line1 = Some (Z.of_nat (length l) + 1)).
  { unfold line1.
    change (map Some l ++ Some 10 :: Some 0 :: skipn (length l + 2) line0)
      with (map Some l ++ [Some 10] ++ Some 0 :: skipn (length l + 2) line0).
    rewrite app_assoc.
    change [Some 10] with (map (@Some Z) [10]). rewrite <- map_app.
    rewrite strlen_line.
    - rewrite length_app. cbn [length]. f_equal. lia.
    - intros H. apply in_app_or in H. destruct H as [H | [H | []]];
        [contradiction | discriminate]. }
  rewrite Es. cbn [obind].
  replace (Z.of_nat (length l) + 1 - 1) with (Z.of_nat (length l)) by lia.
  assert (Ec : u32 (Z.of_nat (length l)) = Z.of_nat (length l)).
  { apply u32_small. unfold in_range, MAX_CODEBOOK_LINE_LENGTH in *.
    change U32.modulus with 4294967296. lia. }
  rewrite Ec.
  destruct (init_codebook_list _ _ _ _) as [cl |]; [| reflexivity].
  cbn [obind].
  destruct (fgets line1 rest) as [[line2 fp2] |] eqn:E2; [| reflexivity].
  cbn [obind].
  pose proof (fgets_length _ _ _ _ E2) as L2.
  destruct (fgets line2 fp2) as [[line3 fp3] |] eqn:E3; [| reflexivity].
  cbn [obind].
  pose proof (fgets_length _ _ _ _ E3) as L3.
  destruct (ofold _ _ (cl_ratio cl)) as [ratio |]; [| reflexivity].
  cbn [obind].
  destruct (fgets line3 fp3) as [[line4 fp4] |] eqn:E4; [| reflexivity].
  cbn [obind].
  pose proof (fgets_length _ _ _ _ E4) as L4.
  destruct (load_codebook _ (cl_low cl) _ _ _ _ _) as [low |];
    [| reflexivity].
  cbn [obind].
  destruct (fgets line4 fp4) as [[line5 fp5] |] eqn:E5; [| reflexivity].
  cbn [obind].
  pose proof (fgets_length _ _ _ _ E5) as L5.
  destruct (load_codebook _ (cl_high cl) _ _ _ _ _) as [high |];
    [| reflexivity].
  cbn [obind].
  rewrite zrange_cons by lia. cbn [ofold].
  unfold read_column at 1. cbn [rs_line rs_fp rs_low rs_high].
  destruct (fgets line5 fp5) as [[line6 fp6] |] eqn:E6; [| reflexivity].
  cbn [obind].
  pose proof (fgets_length _ _ _ _ E6) as L6.
  rewrite load_line_overrun; [reflexivity | | exact Hs].
  congruence.
Qed.

End ReadCodebookEdges.

Section ReadCodebookLoad.
Context `{wl : Well}.
Variable cb_log2 : Z -> Z.

Lemma omap_nth {A B} (f : A -> option B) (l : list A) (r : list B)
  (i : nat) (a : A) :
  omap f l = Some r -> nth_error l i = Some a ->
  exists b, f a = Some b /\ nth_error r i = Some b.
Proof.
  revert r i. induction l as [| x l IH]; intros r i H Hi;
    [destruct i; discriminate |].
  cbn [omap] in H. destruct (f x) as [y |] eqn:Ey; [| discriminate].
  destruct (omap f l) as [r' |]; [| discriminate].
  injection H as <-. destruct i as [| i].
  - cbn in Hi. injection Hi as <-. exists y. auto.
  - cbn in Hi. destruct (IH r' i eq_refl Hi) as [b [H1 H2]].
    exists b. auto.
Qed.

Lemma concat_length_blocks {A} (blocks : list (list A)) (n : nat) :
  Forall (fun b => length b = n) blocks ->
  length (concat blocks) = (length blocks * n)%nat.
Proof.
  induction 1 as [| b blocks Hb _ IH]; [reflexivity |].
  cbn [concat length]. rewrite length_app, IH, Hb. lia.
Qed.

(** The load of one codebook from a line into a column of zeroed
    codebooks. *)
Lemma load_codebook_fresh (cb : list (option (list codebook_t)))
  (column j : Z) (line : line_buffer) (off symbols : Z)
  (cbs : list codebook_t) (bytes : list Z) :
  1 <= symbols <= 255 ->
  zget cb column = Some (Some cbs) ->
  zget cbs j = Some (fresh_codebook symbols) ->
  line_bytes line off symbols = Some bytes ->
  exists cbs' cb',
    zset cbs j (loaded_codebook cb_log2 symbols bytes) = Some cbs' /\
    zset cb column (Some cbs') = Some cb' /\
    load_codebook cb_log2 cb column j line off symbols = Some cb'.
Proof.
  intros Hs Hcol Hj Hb.
  assert (Hlen : length bytes = Z.to_nat symbols).
  { unfold line_bytes in Hb. apply omap_length in Hb.
    rewrite Hb, zrange_length. lia. }
  destruct (zset_defined cbs j (loaded_codebook cb_log2 symbols bytes))
    as [cbs' Hcbs']; [eapply zget_range; eassumption |].
  destruct (zset_defined cb column (Some cbs')) as [cb' Hcb'];
    [eapply zget_range; eassumption |].
  exists cbs', cb'. split; [exact Hcbs' |]. split; [exact Hcb' |].
  unfold load_codebook. rewrite Hcol. cbn [obind]. rewrite Hj.
  cbn [obind]. rewrite Hb. cbn [obind].
  cbn [fresh_codebook cb_quantizer cb_uniques cb_max_unique_count
       cb_actual_unique_count cb_bits cb_symbols].
  rewrite overwrite_app by (rewrite repeat_length; lia).
  rewrite Hlen. rewrite <- (repeat_length 0 (Z.to_nat symbols)) at 1.
  rewrite skipn_all, app_nil_r. cbn [obind].
  rewrite generate_uniques_eq;
    [| exact Hs | exact Hlen | apply repeat_length].
  cbv zeta. cbn [cb_quantizer cb_uniques cb_max_unique_count cb_symbols
                 obind].
  fold (loaded_codebook cb_log2 symbols bytes).
  rewrite Hcbs'. cbn [obind]. exact Hcb'.
Qed.

(** The load of the codebooks of one line, made of [symbols] blocks of
    [symbols] bytes, into a column of zeroed codebooks. *)
Lemma load_line_fresh (column symbols : Z) (blocks : list (list Z))
  (tail : line_buffer) :
  1 <= symbols <= 255 ->
  length blocks = Z.to_nat symbols ->
  Forall (fun b => length b = Z.to_nat symbols) blocks ->
  forall cb,
    zget cb column
    = Some (Some (repeat (fresh_codebook symbols) (Z.to_nat symbols))) ->
    exists cb',
      load_line cb_log2 cb column (map Some (concat blocks) ++ tail) symbols
      = Some cb' /\
      length cb' = length cb /\
      zget cb' column
      = Some (Some (map (loaded_codebook cb_log2 symbols) blocks)) /\
      forall c, c <> column -> zget cb' c = zget cb c.
Proof.
  intros Hs Hlen Hblocks cb Hcol. unfold load_line.
  set (line := map Some (concat blocks) ++ tail).
  set (f := fun cb j => load_codebook cb_log2 cb column j line
                          (u32 (j * symbols)) symbols).
  set (n := Z.to_nat symbols) in *.
  assert (Hk : forall k : nat, (k <= n)%nat ->
            exists cb',
              ofold f (zrange 0 (Z.of_nat k)) cb = Some cb' /\
              length cb' = length cb /\
              zget cb' column
              = Some (Some (map (loaded_codebook cb_log2 symbols)
                              (firstn k blocks)
                            ++ repeat (fresh_codebook symbols) (n - k))) /\
              forall c, c <> column -> zget cb' c = zget cb c).
  { induction k as [| k IH]; intros Hkn.
    - exists cb. split; [reflexivity |]. split; [reflexivity |].
      split; [| reflexivity]. rewrite Nat.sub_0_r. exact Hcol.
    - destruct IH as (cb1 & Hf1 & Hl1 & Hc1 & Ho1); [lia |].
      replace (Z.of_nat (S k)) with (Z.of_nat k + 1) by lia.
      rewrite zrange_snoc by lia. rewrite ofold_app, Hf1. cbn [obind ofold].
      destruct (nth_error blocks k) as [b |] eqn:Eb.
      2: { apply nth_error_None in Eb. lia. }
      assert (Hb : length b = n).
      { rewrite Forall_forall in Hblocks. apply Hblocks.
        eapply nth_error_In; eassumption. }
      set (done := map (loaded_codebook cb_log2 symbols) (firstn k blocks))
        in *.
      assert (Hdone : length done = k).
      { unfold done. rewrite length_map, length_firstn. lia. }
      assert (Hbytes : line_bytes line (u32 (Z.of_nat k * symbols)) symbols
                       = Some b).
      { assert (Esplit : concat blocks
                         = concat (firstn k blocks) ++ b
                           ++ concat (skipn (S k) blocks)).
        { rewrite <- (firstn_skipn k blocks) at 1.
          rewrite concat_app. f_equal.
          destruct (skipn_cons_nth blocks k) as [x [Hx ->]]; [lia |].
          assert (x = b) as -> by congruence. reflexivity. }
        assert (Hpre : length (concat (firstn k blocks)) = (k * n)%nat).
        { rewrite (concat_length_blocks _ n).
          - rewrite length_firstn. f_equal. lia.
          - apply Forall_forall. intros x Hx.
            rewrite Forall_forall in Hblocks. apply Hblocks.
            rewrite <- (firstn_skipn k blocks). apply in_or_app. now left. }
        rewrite u32_small
          by (unfold in_range; change U32.modulus with 4294967296; nia).
        unfold line. rewrite Esplit.
        replace (Z.of_nat k * symbols)
          with (Z.of_nat (length (concat (firstn k blocks)))) by nia.
        pose proof (line_bytes_slice (concat (firstn k blocks)) b
                      (concat (skipn (S k) blocks)) tail) as H.
        replace (Z.of_nat (length b)) with symbols in H by lia.
        exact H. }
      destruct (load_codebook_fresh cb1 column (Z.of_nat k) line
                  (u32 (Z.of_nat k * symbols)) symbols _ b Hs Hc1)
        as (cbs' & cb' & Hcbs' & Hcb' & Hload); [| exact Hbytes |].
      { rewrite zget_app_r by lia. rewrite Hdone.
        replace (Z.of_nat k - Z.of_nat k) with 0 by lia.
        apply zget_repeat. lia. }
      exists cb'. unfold f at 1. rewrite Hload.
      split; [reflexivity |].
      split; [rewrite (zset_length _ _ _ _ Hcb'); exact Hl1 |].
      split.
      + rewrite (zget_zset_same _ _ _ _ Hcb'). do 2 f_equal.
        replace (n - k)%nat with (S (n - S k)) in Hcbs' by lia.
        cbn [repeat] in Hcbs'.
        replace (Z.of_nat k) with (Z.of_nat (length done)) in Hcbs' by lia.
        rewrite zset_app in Hcbs'.
        injection Hcbs' as <-.
        rewrite (firstn_snoc _ _ _ Eb), map_app, <- app_assoc.
        reflexivity.
      + intros c Hc. rewrite (zget_zset_other _ _ _ _ _ Hcb' Hc).
        now apply Ho1. }
  destruct (Hk n (Nat.le_refl n)) as (cb' & Hf & Hl & Hc & Ho).
  exists cb'. unfold n in Hf. rewrite Z2Nat.id in Hf by lia.
  split; [exact Hf |]. split; [exact Hl |]. split; [| exact Ho].
  rewrite Hc, Nat.sub_diag. cbn [repeat]. rewrite app_nil_r.
  rewrite <- Hlen, firstn_all. reflexivity.
Qed.

End ReadCodebookLoad.

Section ReadCodebookColumns.
Context `{wl : Well}.
Variable cb_log2 : Z -> Z.

Lemma file_of_records_cons (l : list Z) (records : list (list Z)) :
  file_of_records (l :: records) = l ++ 10 :: file_of_records records.
Proof.
  unfold file_of_records. cbn [map concat]. unfold eol.
  now rewrite <- app_assoc.
Qed.

(** The loop over the columns of [read_codebook] on a stream that holds,
    for each column, twice the same line of [symbols] blocks of [symbols]
    bytes. *)
Lemma read_columns_fresh (symbols : Z) :
  1 <= symbols <= 63 ->
  forall (colblocks : list (list (list Z))) (c0 : Z) (st : read_state),
    Forall (fun blocks =>
              length blocks = Z.to_nat symbols /\
              Forall (fun b => length b = Z.to_nat symbols) blocks /\
              ~ In 10 (concat blocks)) colblocks ->
    rs_fp st
    = file_of_records (flat_map (fun l => [l; l]) (map (@concat Z) colblocks))
    ->
    Z.of_nat (length (rs_line st)) = MAX_CODEBOOK_LINE_LENGTH ->
    (forall i, (i < length colblocks)%nat ->
       zget (rs_low st) (c0 + Z.of_nat i)
       = Some (Some (repeat (fresh_codebook symbols) (Z.to_nat symbols))) /\
       zget (rs_high st) (c0 + Z.of_nat i)
       = Some (Some (repeat (fresh_codebook symbols) (Z.to_nat symbols)))) ->
    exists st',
      ofold (read_column cb_log2 symbols)
            (zrange c0 (c0 + Z.of_nat (length colblocks))) st = Some st' /\
      (forall c, c < c0 ->
         zget (rs_low st') c = zget (rs_low st) c /\
         zget (rs_high st') c = zget (rs_high st) c) /\
      forall i blocks, nth_error colblocks i = Some blocks ->
        zget (rs_low st') (c0 + Z.of_nat i)
        = Some (Some (map (loaded_codebook cb_log2 symbols) blocks)) /\
        zget (rs_high st') (c0 + Z.of_nat i)
        = Some (Some (map (loaded_codebook cb_log2 symbols) blocks)).
Proof.
  intros Hs. assert (Hs' : 1 <= symbols <= 255) by lia.
  induction colblocks as [| blocks rest IH]; intros c0 st Hall Hfp Hline Hfresh.
  - exists st. rewrite zrange_empty by (cbn; lia).
    split; [reflexivity |]. split; [auto |].
    intros i blocks Hi. destruct i; discriminate.
  - inversion Hall as [| ? ? [Hlen [Hblocks Hn10]] Hall']; subst.
    rewrite zrange_cons by (cbn [length]; lia). cbn [ofold].
    cbn [map flat_map app] in Hfp. rewrite !file_of_records_cons in Hfp.
    set (l := concat blocks) in *.
    assert (Hll : Z.of_nat (length l) + 2 <= MAX_CODEBOOK_LINE_LENGTH).
    { unfold l. rewrite (concat_length_blocks _ _ Hblocks), Hlen.
      unfold MAX_CODEBOOK_LINE_LENGTH. nia. }
    destruct (Hfresh 0%nat) as [Hlow0 Hhigh0]; [cbn; lia |].
    rewrite Z.add_0_r in Hlow0, Hhigh0.
    unfold read_column at 1. rewrite Hfp.
    rewrite (fgets_line _ l _ Hn10 Hline Hll). cbn [obind].
    set (tail1 := Some 10 :: Some 0 :: skipn (length l + 2) (rs_line st)).
    destruct (load_line_fresh cb_log2 c0 symbols blocks tail1 Hs' Hlen
                Hblocks (rs_low st) Hlow0)
      as (low1 & Hload1 & Ll1 & Hc1 & Ho1).
    fold l in Hload1. rewrite Hload1. cbn [obind].
    assert (Hline1 : Z.of_nat (length (map Some l ++ tail1))
                     = MAX_CODEBOOK_LINE_LENGTH).
    { rewrite <- Hline. f_equal.
      eapply fgets_length. apply (fgets_line _ l [] Hn10 Hline Hll). }
    rewrite (fgets_line _ l _ Hn10 Hline1 Hll). cbn [obind].
    set (tail2 := Some 10 :: Some 0 :: skipn (length l + 2) _).
    destruct (load_line_fresh cb_log2 c0 symbols blocks tail2 Hs' Hlen
                Hblocks (rs_high st) Hhigh0)
      as (high1 & Hload2 & Ll2 & Hc2 & Ho2).
    fold l in Hload2. rewrite Hload2. cbn [obind].
    set (st1 := mkReadState _ _ low1 high1).
    destruct (IH (c0 + 1) st1 Hall') as (st' & Hf & Hbefore & Hcols).
    + reflexivity.
    + cbn [st1 rs_line]. rewrite <- Hline1. f_equal.
      eapply fgets_length. apply (fgets_line _ l [] Hn10 Hline1 Hll).
    + intros i Hi. cbn [st1 rs_low rs_high].
      rewrite Ho1, Ho2 by lia.
      replace (c0 + 1 + Z.of_nat i) with (c0 + Z.of_nat (S i)) by lia.
      apply Hfresh. cbn [length]. lia.
    + exists st'.
      replace (c0 + Z.of_nat (length (blocks :: rest)))
        with (c0 + 1 + Z.of_nat (length rest)) by (cbn [length]; lia).
      split; [exact Hf |]. split.
      * intros c Hc. destruct (Hbefore c) as [H1 H2]; [lia |].
        rewrite H1, H2. cbn [st1 rs_low rs_high].
        rewrite Ho1, Ho2 by lia. auto.
      * intros i blocks' Hi. destruct i as [| i].
        -- cbn in Hi. injection Hi as <-. rewrite Z.add_0_r.
           destruct (Hbefore c0) as [H1 H2]; [lia |].
           rewrite H1, H2. cbn [st1 rs_low rs_high]. auto.
        -- cbn [nth_error] in Hi.
           replace (c0 + Z.of_nat (S i)) with (c0 + 1 + Z.of_nat i) by lia.
           now apply Hcols.
Qed.

End ReadCodebookColumns.

Section WrittenFile.
Context `{wl : Well}.

Lemma omap_In {A B} (f : A -> option B) (l : list A) (r : list B) (b : B) :
  omap f l = Some r -> In b r -> exists a, In a l /\ f a = Some b.
Proof.
  revert r. induction l as [| x l IH]; intros r H Hb.
  - cbn in H. injection H as <-. contradiction.
  - cbn [omap] in H. destruct (f x) as [y |] eqn:Ey; [| discriminate].
    destruct (omap f l) as [r' |]; [| discriminate].
    injection H as <-. destruct Hb as [<- | Hb].
    + exists x. split; [now left | exact Ey].
    + destruct (IH r' eq_refl Hb) as [a [Ha Hf]].
      exists a. split; [now right | exact Hf].
Qed.

(** The file of [write_codebook], record by record. *)
Lemma write_codebook_file (quantizers : cond_quantizer_list_t) (fp : file) :
  write_codebook quantizers = Some fp ->
  exists (q_lo : quantizer_t) (ratios line0 : list Z)
         (cols : list (list Z)),
    get_cond_quantizer_indexed quantizers 0 0 = Some (Some q_lo) /\
    ratio_line quantizers = Some ratios /\
    quantizer_line q_lo (alphabet_size (qz_alphabet q_lo)) = Some line0 /\
    omap (column_line quantizers (alphabet_size (qz_alphabet q_lo)))
         (zrange 1 (columns quantizers)) = Some cols /\
    fp = file_of_records
           ([empty (columns quantizers); empty (columns quantizers);
             ratios; line0; line0] ++ flat_map (fun l => [l; l]) cols).
Proof.
  unfold write_codebook. intros Hw.
  apply obind_some_inv in Hw. destruct Hw as [ptr [Hptr Hw]].
  apply obind_some_inv in Hw. destruct Hw as [q_lo [-> Hw]].
  apply obind_some_inv in Hw. destruct Hw as [ratios [Hratios Hw]].
  apply obind_some_inv in Hw. destruct Hw as [line0 [Hline0 Hw]].
  rewrite write_columns_eq in Hw.
  apply obind_some_inv in Hw. destruct Hw as [cols [Hcols Hw]].
  injection Hw as <-.
  exists q_lo, ratios, line0, cols.
  split; [exact Hptr |]. split; [exact Hratios |].
  split; [exact Hline0 |]. split; [exact Hcols |].
  unfold file_of_records, fwrite. rewrite map_app, concat_app.
  f_equal. cbn [map concat]. now rewrite app_nil_r, <- !app_assoc.
Qed.

Lemma quantizer_line_bytes (qz : quantizer_t) (size : Z) (l : list Z) :
  0 <= size -> byte_symbols qz ->
  quantizer_line qz size = Some l ->
  length l = Z.to_nat size /\ ~ In 10 l.
Proof.
  intros Hsz Hb Hl. unfold quantizer_line in Hl. split.
  - rewrite (omap_length _ _ _ Hl), zrange_length. f_equal. lia.
  - intros Hin. destruct (omap_In _ _ _ _ Hl Hin) as [i [_ Hi]].
    destruct (zget (qz_q qz) i) as [s |] eqn:Es; [| discriminate].
    cbn [obind] in Hi. injection Hi as Hi.
    apply zget_In in Es. unfold byte_symbols in Hb.
    rewrite Forall_forall in Hb. specialize (Hb s Es).
    unfold to_char in Hi. rewrite Z.mod_small in Hi by lia. lia.
Qed.

Lemma block_bytes_bytes (quantizers : cond_quantizer_list_t)
  (size i j : Z) (b : list Z) :
  0 <= size ->
  (forall qz, get_cond_quantizer quantizers i j = Some (Some qz) ->
              byte_symbols qz) ->
  block_bytes quantizers size i j = Some b ->
  length b = Z.to_nat size /\ ~ In 10 b.
Proof.
  intros Hsz Hq. unfold block_bytes.
  destruct (get_cond_quantizer quantizers i j) as [[qz |] |];
    cbn [obind]; [| | discriminate].
  - apply quantizer_line_bytes; [exact Hsz | now apply Hq].
  - intros H. injection H as <-. unfold empty. split.
    + apply repeat_length.
    + intros Hin. apply repeat_spec in Hin. discriminate.
Qed.

Lemma column_lines_blocks (quantizers : cond_quantizer_list_t) (size : Z)
  (cs : list Z) (cols : list (list Z)) :
  omap (column_line quantizers size) cs = Some cols ->
  exists colblocks,
    omap (fun i => omap (block_bytes quantizers size i) (zrange 0 size)) cs
    = Some colblocks /\
    cols = map (@concat Z) colblocks.
Proof.
  revert cols. induction cs as [| i cs IH]; intros cols H.
  - cbn in H. injection H as <-. exists []. auto.
  - cbn [omap] in H. unfold column_line at 1 in H.
    destruct (omap (block_bytes quantizers size i) (zrange 0 size))
      as [blocks |] eqn:Eb; [| discriminate].
    cbn [obind] in H.
    destruct (omap (column_line quantizers size) cs) as [cols' |];
      [| discriminate].
    injection H as <-.
    destruct (IH cols' eq_refl) as [colblocks [Hc ->]].
    exists (blocks :: colblocks). cbn [omap]. rewrite Eb, Hc. auto.
Qed.

Lemma double_to_uint8_range (d : double) (t : Z) :
  double_to_uint8 d = Some t -> 0 <= t < 256.
Proof.
  unfold double_to_uint8. destruct d as [x | | |]; try discriminate.
  destruct (_ && _)%bool eqn:E; [| discriminate].
  intros H. injection H as <-.
  apply andb_prop in E. destruct E as [E1 E2].
  apply Z.leb_le in E1. apply Z.ltb_lt in E2. lia.
Qed.

(** The byte written for a ratio between 0 and 1 is between 33 and 133. *)
Lemma ratio_byte_range (x : R) (t : Z) :
  (0 <= x <= 1)%R ->
  double_to_uint8 (fmul (Fin x) (Fin 100)) = Some t -> 0 <= t <= 100.
Proof.
  intros Hx. unfold fmul. cbn [dmul rounded].
  destruct (round (x * 100)) as [y | | |] eqn:Ey; try discriminate.
  assert (Hy : (0 <= y <= 100)%R).
  { split.
    - apply (round_mono 0 (x * 100) 0 y); [lra | apply round_0 | exact Ey].
    - apply (round_mono (x * 100) 100 y 100); [lra | exact Ey |].
      apply (representable_IZR 100). reflexivity. }
  cbn [double_to_uint8].
  rewrite Rtrunc_nonneg by lra.
  destruct (_ && _)%bool; [| discriminate]. intros H. injection H as <-.
  pose proof (Rfloor_bounds y) as [Hlo Hhi]. split.
  - apply Z.lt_succ_r, lt_IZR. rewrite succ_IZR. lra.
  - apply le_IZR. lra.
Qed.

End WrittenFile.

Section ReadWritten.
Context `{wl : Well}.
Variable cb_log2 : Z -> Z.
Variable well_set_n : well_state_t -> Z -> well_state_t.

Lemma ofold_ext_in {A S} (f g : S -> A -> option S) (l : list A) :
  (forall s x, In x l -> f s x = g s x) ->
  forall s, ofold f l s = ofold g l s.
Proof.
  induction l as [| a l IH]; intros H s; [reflexivity |].
  cbn [ofold]. rewrite (H s a) by now left.
  destruct (g s a); [| reflexivity].
  apply IH. intros s' x Hx. apply H. now right.
Qed.

(** [loaded_codebook] is what [generate_uniques] makes of a zeroed
    codebook that holds the table. *)
Lemma loaded_codebook_generate_uniques (symbols : Z) (bytes : list Z) :
  1 <= symbols <= 255 -> length bytes = Z.to_nat symbols ->
  generate_uniques cb_log2
    (mkCodebook bytes (repeat 0 (Z.to_nat symbols)) 0 0 0 symbols)
  = Some (loaded_codebook cb_log2 symbols bytes).
Proof.
  intros Hs Hl.
  rewrite generate_uniques_eq; [reflexivity | exact Hs | exact Hl |].
  apply repeat_length.
Qed.

(** The loop that reads the ratios from the third line. *)
Lemma ratio_loop (l : list Z) (tail : line_buffer) (ratio0 : list Z) :
  length ratio0 = length l ->
  exists ratio,
    ofold (fun ratio j =>
             c <- zget (map Some l ++ tail) j ;;
             b <- c ;;
             zset ratio j (u8 (b - 33)))
          (zrange 0 (Z.of_nat (length l))) ratio0 = Some ratio /\
    forall j b, nth_error l j = Some b ->
      zget ratio (Z.of_nat j) = Some (u8 (b - 33)).
Proof.
  intros Hlen.
  set (f := fun j : Z => u8 (nth (Z.to_nat j) l 0 - 33)).
  destruct (ofold_zset f (zrange 0 (Z.of_nat (length l))) ratio0)
    as (ratio & Hf & _ & Hi & _).
  { intros c Hc. apply zrange_In in Hc. lia. }
  exists ratio. split.
  - rewrite <- Hf. apply ofold_ext_in. intros s j Hj.
    apply zrange_In in Hj.
    rewrite zget_app_l by (rewrite length_map; lia).
    rewrite <- (Z2Nat.id j) at 1 by lia.
    rewrite zget_nth_error, nth_error_map.
    destruct (nth_error l (Z.to_nat j)) as [b |] eqn:Eb.
    + cbn [option_map obind]. unfold f.
      now rewrite (nth_error_nth _ _ _ Eb).
    + apply nth_error_None in Eb. lia.
  - intros j b Hb. rewrite Hi.
    + unfold f. rewrite Nat2Z.id. now rewrite (nth_error_nth _ _ _ Hb).
    + apply zrange_In. split; [lia |].
      apply Nat2Z.inj_lt. apply nth_error_Some. congruence.
Qed.

(** A file written by [write_codebook] and read back by [read_codebook],
    for 1 to 4094 columns and 1 to 63 symbols, ratios between 0 and 1 and
    quantizer symbols below 223.  The reader returns the number of
    columns.  The ratio of a column is the ratio of its first context
    times 100, truncated.  The low and the high codebook of column 0 both
    hold the line of the quantizer in slot 0, the low one; for a column
    [c >= 1] the low and the high codebook of the previous value [j] both
    hold the block that the writer wrote for [j].  The tables hold the
    bytes of the file, that is the symbols plus 33. *)
Theorem read_codebook_of_written (quantizers : cond_quantizer_list_t)
  (fp : file) (cb_list : codebook_list_t) (q_lo : quantizer_t) :
  let symbols := alphabet_size (qz_alphabet q_lo) in
  write_codebook quantizers = Some fp ->
  get_cond_quantizer_indexed quantizers 0 0 = Some (Some q_lo) ->
  1 <= columns quantizers <= MAX_CODEBOOK_LINE_LENGTH - 2 ->
  1 <= symbols <= 63 ->
  byte_symbols q_lo ->
  (forall c j qz,
     1 <= c < columns quantizers -> 0 <= j < symbols ->
     get_cond_quantizer quantizers c j = Some (Some qz) ->
     byte_symbols qz) ->
  (forall c r,
     0 <= c < columns quantizers -> get_ratio quantizers c 0 = Some r ->
     exists x, r = Fin x /\ (0 <= x <= 1)%R) ->
  exists cl,
    read_codebook cb_log2 well_set_n fp cb_list symbols
    = Some (columns quantizers, cl) /\
    cl_columns cl = columns quantizers /\
    cl_symbols cl = symbols /\
    (forall c, 0 <= c < columns quantizers ->
       exists r t,
         get_ratio quantizers c 0 = Some r /\
         double_to_uint8 (fmul r (Fin 100)) = Some t /\
         zget (cl_ratio cl) c = Some t) /\
    (exists line0,
       quantizer_line q_lo symbols = Some line0 /\
       zget (cl_low cl) 0
       = Some (Some [loaded_codebook cb_log2 symbols line0]) /\
       zget (cl_high cl) 0
       = Some (Some [loaded_codebook cb_log2 symbols line0])) /\
    (forall c j,
       1 <= c < columns quantizers -> 0 <= j < symbols ->
       exists bytes lows highs,
         block_bytes quantizers symbols c j = Some bytes /\
         zget (cl_low cl) c = Some (Some lows) /\
         zget lows j = Some (loaded_codebook cb_log2 symbols bytes) /\
         zget (cl_high cl) c = Some (Some highs) /\
         zget highs j = Some (loaded_codebook cb_log2 symbols bytes)).
Proof.
  intros symbols Hw Hq0 Hcols Hsym Hb0 Hbq Hratio.
  assert (Hsym' : 1 <= symbols <= 255) by lia.
  destruct (write_codebook_file _ _ Hw)
    as (q_lo' & ratios & line0 & cols & Hq0' & Hr & Hl0 & Hc & Hfp).
  assert (q_lo' = q_lo) as -> by congruence.
  fold symbols in Hl0, Hc.
  set (C := columns quantizers) in *.
  unfold MAX_CODEBOOK_LINE_LENGTH in Hcols.
  (* the records *)
  set (e := empty C) in *.
  assert (He : length e = Z.to_nat C) by apply repeat_length.
  assert (He10 : ~ In 10 e)
    by (intros H; apply repeat_spec in H; discriminate).
  assert (He0 : ~ In 0 e)
    by (intros H; apply repeat_spec in H; discriminate).
  assert (Hrl : length ratios = Z.to_nat C).
  { unfold ratio_line in Hr. rewrite (omap_length _ _ _ Hr), zrange_length.
    f_equal. lia. }
  assert (Hrbyte : forall c b,
            nth_error ratios c = Some b ->
            exists r t,
              get_ratio quantizers (Z.of_nat c) 0 = Some r /\
              double_to_uint8 (fmul r (Fin 100)) = Some t /\
              b = to_char (t + 33) /\ 0 <= t <= 100).
  { intros c b Hb. unfold ratio_line in Hr.
    assert (Hc' : (c < Z.to_nat C)%nat).
    { rewrite <- Hrl. apply nth_error_Some. congruence. }
    assert (Hn : nth_error (zrange 0 C) c = Some (Z.of_nat c)).
    { rewrite (nth_error_nth' _ 0) by (rewrite zrange_length; lia).
      rewrite zrange_nth by lia. f_equal; lia. }
    destruct (omap_nth _ _ _ _ _ Hr Hn) as [b' [Hf Hb']].
    assert (b' = b) as -> by congruence.
    destruct (get_ratio quantizers (Z.of_nat c) 0) as [r |] eqn:Er;
      [| discriminate].
    cbn [obind] in Hf.
    destruct (double_to_uint8 (fmul r (Fin 100))) as [t |] eqn:Et;
      [| discriminate].
    cbn [obind] in Hf. injection Hf as <-.
    exists r, t. split; [reflexivity |]. split; [exact Et |].
    split; [reflexivity |].
    destruct (Hratio (Z.of_nat c) r) as [x [-> Hx]]; [lia | exact Er |].
    apply (ratio_byte_range x t Hx Et). }
  assert (Hr10 : ~ In 10 ratios).
  { intros Hin. apply In_nth_error in Hin. destruct Hin as [c Hcb].
    destruct (Hrbyte c 10 Hcb) as (r & t & _ & _ & Hb & Ht).
    unfold to_char in Hb. rewrite Z.mod_small in Hb by lia. lia. }
  destruct (quantizer_line_bytes q_lo symbols line0 ltac:(lia) Hb0 Hl0)
    as [Hl0len Hl010].
  destruct (column_lines_blocks _ _ _ _ Hc) as [colblocks [Hcb ->]].
  assert (Hcbl : length colblocks = Z.to_nat (C - 1)).
  { rewrite (omap_length _ _ _ Hcb), zrange_length. f_equal; lia. }
  assert (Hblock : forall i blocks,
            nth_error colblocks i = Some blocks ->
            omap (block_bytes quantizers symbols (1 + Z.of_nat i))
                 (zrange 0 symbols) = Some blocks).
  { intros i blocks Hi.
    assert (Hi' : (i < Z.to_nat (C - 1))%nat).
    { rewrite <- Hcbl. apply nth_error_Some. congruence. }
    assert (Hn : nth_error (zrange 1 C) i = Some (1 + Z.of_nat i)).
    { rewrite (nth_error_nth' _ 0) by (rewrite zrange_length; lia).
      rewrite zrange_nth by lia. reflexivity. }
    destruct (omap_nth _ _ _ _ _ Hcb Hn) as [b' [Hf Hb']].
    congruence. }
  assert (Hall : Forall (fun blocks =>
                   length blocks = Z.to_nat symbols /\
                   Forall (fun b => length b = Z.to_nat symbols) blocks /\
                   ~ In 10 (concat blocks)) colblocks).
  { apply Forall_forall. intros blocks Hin.
    apply In_nth_error in Hin. destruct Hin as [i Hi].
    pose proof (Hblock i blocks Hi) as Hbl.
    assert (Hi' : (i < Z.to_nat (C - 1))%nat).
    { rewrite <- Hcbl. apply nth_error_Some. congruence. }
    assert (Heach : forall b, In b blocks ->
              length b = Z.to_nat symbols /\ ~ In 10 b).
    { intros b Hb. destruct (omap_In _ _ _ _ Hbl Hb) as [j [Hj Hbj]].
      apply zrange_In in Hj.
      apply (block_bytes_bytes quantizers symbols (1 + Z.of_nat i) j b);
        [lia | | exact Hbj].
      intros qz Hqz. apply (Hbq (1 + Z.of_nat i) j); [lia | lia | exact Hqz]. }
    split; [| split].
    - rewrite (omap_length _ _ _ Hbl), zrange_length. f_equal; lia.
    - apply Forall_forall. intros b Hb. apply (Heach b Hb).
    - intros Hin. apply in_concat in Hin. destruct Hin as [b [Hb Hin]].
      now apply (Heach b Hb). }
  (* the run of the reader *)
  cbn [app] in Hfp. rewrite !file_of_records_cons in Hfp.
  unfold read_codebook. rewrite Hfp.
  set (line0' := repeat None (Z.to_nat MAX_CODEBOOK_LINE_LENGTH)).
  assert (Hlen0 : Z.of_nat (length line0') = MAX_CODEBOOK_LINE_LENGTH)
    by (unfold line0'; rewrite repeat_length; reflexivity).
  assert (Hnext : forall (line : line_buffer) (l : list Z) (rest : file),
            ~ In 10 l ->
            Z.of_nat (length line) = MAX_CODEBOOK_LINE_LENGTH ->
            Z.of_nat (length l) + 2 <= MAX_CODEBOOK_LINE_LENGTH ->
            exists tail,
              fgets line (l ++ 10 :: rest)
              = Some (map Some l ++ Some 10 :: Some 0 :: tail, rest) /\
              Z.of_nat (length (map Some l ++ Some 10 :: Some 0 :: tail))
              = MAX_CODEBOOK_LINE_LENGTH).
  { intros line l rest H10 Hlen Hl.
    eexists. split; [apply fgets_line; assumption |].
    rewrite <- Hlen. f_equal. eapply fgets_length.
    apply (fgets_line line l rest); assumption. }
  unfold MAX_CODEBOOK_LINE_LENGTH in Hnext at 2.
  (* line 1 *)
  destruct (Hnext line0' e) with (rest := e ++ 10 :: ratios ++ 10 :: line0
      ++ 10 :: line0 ++ 10 :: file_of_records
        (flat_map (fun l => [l; l]) (map (@concat Z) colblocks)))
    as (tail1 & Hg1 & Hlen1); [exact He10 | exact Hlen0 | lia |].
  rewrite Hg1. cbn [obind]. clear Hg1.
  assert (Es : strlen (map Some e ++ Some 10 :: Some 0 :: tail1)
               = Some (C + 1)).
  { change (map Some e ++ Some 10 :: Some 0 :: tail1)
      with (map Some e ++ [Some 10] ++ Some 0 :: tail1).
    rewrite app_assoc.
    change [Some 10] with (map (@Some Z) [10]). rewrite <- map_app.
    rewrite strlen_line.
    - rewrite length_app. cbn [length]. f_equal. lia.
    - intros H. apply in_app_or in H. destruct H as [H | [H | []]];
        [contradiction | discriminate]. }
  rewrite Es. cbn [obind].
  replace (C + 1 - 1) with C by lia.
  assert (Ec : u32 C = C).
  { apply u32_small. unfold in_range.
    change U32.modulus with 4294967296. lia. }
  rewrite Ec.
  (* the initialisation *)
  unfold init_codebook_list.
  destruct (init_codebook_array_spec symbols C ltac:(lia))
    as (arr & Harr & Larr & Harr0 & Harrc).
  rewrite Harr. cbn [obind cl_ratio cl_low cl_high cl_select_count
                     cl_symbols cl_columns cl_well].
  (* lines 2 and 3 *)
  destruct (Hnext (map Some e ++ Some 10 :: Some 0 :: tail1) e)
    with (rest := ratios ++ 10 :: line0 ++ 10 :: line0 ++ 10
      :: file_of_records
           (flat_map (fun l => [l; l]) (map (@concat Z) colblocks)))
    as (tail2 & Hg2 & Hlen2); [exact He10 | exact Hlen1 | lia |].
  rewrite Hg2. cbn [obind]. clear Hg2.
  destruct (Hnext (map Some e ++ Some 10 :: Some 0 :: tail2) ratios)
    with (rest := line0 ++ 10 :: line0 ++ 10 :: file_of_records
           (flat_map (fun l => [l; l]) (map (@concat Z) colblocks)))
    as (tail3 & Hg3 & Hlen3); [exact Hr10 | exact Hlen2 | lia |].
  rewrite Hg3. cbn [obind]. clear Hg3.
  destruct (ratio_loop ratios (Some 10 :: Some 0 :: tail3)
              (repeat 0 (Z.to_nat C))) as (ratio & Hratios & Hrat);
    [rewrite repeat_length; lia |].
  replace (Z.of_nat (length ratios)) with C in Hratios by lia.
  rewrite Hratios. cbn [obind].
  (* lines 4 and 5 *)
  destruct (Hnext (map Some ratios ++ Some 10 :: Some 0 :: tail3) line0)
    with (rest := line0 ++ 10 :: file_of_records
           (flat_map (fun l => [l; l]) (map (@concat Z) colblocks)))
    as (tail4 & Hg4 & Hlen4); [exact Hl010 | exact Hlen3 | lia |].
  rewrite Hg4. cbn [obind]. clear Hg4.
  assert (Hbytes0 : forall tail,
            line_bytes (map Some line0 ++ tail) 0 symbols = Some line0).
  { intros tail.
    pose proof (line_bytes_slice [] line0 [] tail) as H.
    cbn [app length] in H. rewrite app_nil_r in H.
    replace (Z.of_nat (length line0)) with symbols in H by lia.
    exact H. }
  destruct (load_codebook_fresh cb_log2 arr 0 0
              (map Some line0 ++ Some 10 :: Some 0 :: tail4) 0 symbols
              [fresh_codebook symbols] line0 Hsym' Harr0 eq_refl
              (Hbytes0 _)) as (cbs0 & low0 & Hcbs0 & Hlow0 & Hload0).
  cbn in Hcbs0. injection Hcbs0 as <-.
  rewrite Hload0. cbn [obind].
  destruct (Hnext (map Some line0 ++ Some 10 :: Some 0 :: tail4) line0)
    with (rest := file_of_records
           (flat_map (fun l => [l; l]) (map (@concat Z) colblocks)))
    as (tail5 & Hg5 & Hlen5); [exact Hl010 | exact Hlen4 | lia |].
  rewrite Hg5. cbn [obind]. clear Hg5.
  destruct (load_codebook_fresh cb_log2 arr 0 0
              (map Some line0 ++ Some 10 :: Some 0 :: tail5) 0 symbols
              [fresh_codebook symbols] line0 Hsym' Harr0 eq_refl
              (Hbytes0 _)) as (cbs1 & high0 & Hcbs1 & Hhigh0 & Hload1).
  cbn in Hcbs1. injection Hcbs1 as <-.
  rewrite Hload1. cbn [obind].
  assert (low0 = high0) as <- by congruence.
  (* the columns *)
  destruct (read_columns_fresh cb_log2 symbols Hsym colblocks 1
              (mkReadState
                 (file_of_records
                    (flat_map (fun l => [l; l]) (map (@concat Z) colblocks)))
                 (map Some line0 ++ Some 10 :: Some 0 :: tail5) low0 low0)
              Hall eq_refl Hlen5)
    as (st' & Hloop & Hbefore & Hread).
  { intros i Hi. cbn [rs_low rs_high].
    rewrite (zget_zset_other _ _ _ _ _ Hlow0) by lia.
    split; apply Harrc; lia. }
  replace (1 + Z.of_nat (length colblocks)) with C in Hloop by lia.
  rewrite Hloop. cbn [obind].
  eexists. split; [reflexivity |].
  cbn [cl_columns cl_symbols cl_ratio cl_low cl_high].
  split; [reflexivity |]. split; [reflexivity |].
  split; [| split].
  - intros c Hc'.
    destruct (nth_error ratios (Z.to_nat c)) as [b |] eqn:Eb.
    2: { apply nth_error_None in Eb. lia. }
    destruct (Hrbyte _ _ Eb) as (r & t & Hgr & Ht & Hbt & Htr).
    rewrite Z2Nat.id in Hgr by lia.
    exists r, t. split; [exact Hgr |]. split; [exact Ht |].
    rewrite <- (Z2Nat.id c) by lia. rewrite (Hrat _ _ Eb).
    f_equal. rewrite Hbt. unfold u8, to_char.
    rewrite (Z.mod_small (t + 33)) by lia.
    replace (t + 33 - 33) with t by lia. apply Z.mod_small. lia.
  - exists line0. split; [exact Hl0 |].
    destruct (Hbefore 0) as [H1 H2]; [lia |].
    cbn [rs_low rs_high] in H1, H2. rewrite H1, H2.
    split; apply (zget_zset_same _ _ _ _ Hlow0).
  - intros c j Hc' Hj.
    destruct (nth_error colblocks (Z.to_nat (c - 1))) as [blocks |] eqn:Ebl.
    2: { apply nth_error_None in Ebl. lia. }
    destruct (Hread _ _ Ebl) as [H1 H2].
    replace (1 + Z.of_nat (Z.to_nat (c - 1))) with c in H1, H2 by lia.
    pose proof (Hblock _ _ Ebl) as Hbl.
    replace (1 + Z.of_nat (Z.to_nat (c - 1))) with c in Hbl by lia.
    assert (Hn : nth_error (zrange 0 symbols) (Z.to_nat j) = Some j).
    { rewrite (nth_error_nth' _ 0) by (rewrite zrange_length; lia).
      rewrite zrange_nth by lia. f_equal; lia. }
    destruct (omap_nth _ _ _ _ _ Hbl Hn) as [bytes [Hbb Hnb]].
    exists bytes, (map (loaded_codebook cb_log2 symbols) blocks),
      (map (loaded_codebook cb_log2 symbols) blocks).
    split; [exact Hbb |]. split; [exact H1 |].
    assert (Hz : zget (map (loaded_codebook cb_log2 symbols) blocks) j
                 = Some (loaded_codebook cb_log2 symbols bytes)).
    { rewrite <- (Z2Nat.id j) by lia.
      rewrite zget_nth_error, nth_error_map, Hnb. reflexivity. }
    split; [exact Hz |]. split; [exact H2 | exact Hz].
Qed.

End ReadWritten.

Section FirstColumn.
Context `{wl : Well}.
Variable well_set_n : well_state_t -> Z -> well_state_t.

(** Column 0 of an initialised list holds one codebook, for the previous
    value 0: the selection for any other previous value designates an
    element outside the column. *)
Theorem choose_codebook_first_column (lst cl : codebook_list_t)
  (symbols columns prev_value : Z) :
  init_codebook_list well_set_n lst symbols columns = Some cl ->
  prev_value <> 0 ->
  choose_codebook cl 0 prev_value = None.
Proof.
  intros Hi Hp.
  assert (Hc : 1 <= columns).
  { destruct (Z.le_gt_cases 1 columns) as [H | H]; [exact H |].
    exfalso. unfold init_codebook_list, init_codebook_array in Hi.
    rewrite zset_undefined in Hi; [discriminate |].
    rewrite repeat_length. lia. }
  unfold init_codebook_list in Hi.
  destruct (init_codebook_array_spec symbols columns Hc)
    as (arr & Harr & _ & Harr0 & _).
  rewrite Harr in Hi. cbn [obind] in Hi. injection Hi as <-.
  assert (Hnone : zget [fresh_codebook symbols] prev_value = None)
    by (apply zget_undefined; cbn; lia).
  unfold choose_codebook.
  cbn [cl_well cl_ratio cl_select_count cl_high cl_low].
  destruct (well_1024a _) as [v w].
  destruct (zget (repeat 0 (Z.to_nat columns)) 0) as [r |]; [| reflexivity].
  cbn [obind].
  destruct (v mod 100 >=? r).
  - destruct (zset _ 0 _); [| reflexivity]. cbn [obind].
    rewrite Harr0. cbn [obind]. now rewrite Hnone.
  - rewrite Harr0. cbn [obind]. now rewrite Hnone.
Qed.

End FirstColumn.

(** An empty codebook file. *)
Lemma read_codebook_no_columns_witness :
  read_codebook (wl := counter_well) ex_cb_log2 ex_well_set_n [] ex_codebook_list 4 = None.
Proof.
  apply read_codebook_no_columns. now left.
Defined.

(** A file that starts with a line of two spaces, read for 65 symbols. *)
Lemma read_codebook_line_overrun_witness :
  read_codebook (wl := counter_well) ex_cb_log2 ex_well_set_n ([32; 32] ++ 10 :: [])
    ex_codebook_list 65 = None.
Proof.
  apply read_codebook_line_overrun.
  - cbn. intros [H | [H | []]]; discriminate.
  - cbn. intros [H | [H | []]]; discriminate.
  - cbn. lia.
  - lia.
Defined.

(** The list initialised for two columns of four symbols, asked for the
    previous value 1 in column 0. *)
Lemma choose_codebook_first_column_witness :
  exists cl,
    init_codebook_list (wl := counter_well) ex_well_set_n ex_codebook_list
      4 2 = Some cl /\
    choose_codebook cl 0 1 = None.
Proof.
  eexists. split; [reflexivity |].
  apply (choose_codebook_first_column (wl := counter_well) ex_well_set_n
           ex_codebook_list _ 4 2 1 eq_refl).
  discriminate.
Defined.

(** The file of [ex_store2], two columns of four symbols, read back. *)
Lemma read_codebook_of_written_witness :
  exists fp cl,
    write_codebook ex_store2 = Some fp /\
    read_codebook (wl := counter_well) ex_cb_log2 ex_well_set_n fp ex_codebook_list 4
    = Some (2, cl) /\
    zget (cl_low cl) 0
    = Some (Some [loaded_codebook ex_cb_log2 4 [33; 33; 35; 35]]) /\
    zget (cl_high cl) 0
    = Some (Some [loaded_codebook ex_cb_log2 4 [33; 33; 35; 35]]).
Proof.
  destruct write_codebook_ex_store2 as [fp Hfp].
  assert (Hlo : byte_symbols ex_lo).
  { unfold byte_symbols. cbn. repeat constructor; lia. }
  assert (Hhi : byte_symbols ex_hi).
  { unfold byte_symbols. cbn. repeat constructor; lia. }
  destruct (read_codebook_of_written (wl := counter_well) ex_cb_log2
              ex_well_set_n ex_store2 fp
              ex_codebook_list ex_lo Hfp eq_refl)
    as (cl & Hread & _ & _ & _ & Hcol0 & _).
  - cbn. lia.
  - cbn. lia.
  - exact Hlo.
  - intros c j qz Hc Hj.
    assert (c = 1) as -> by (cbn in Hc; lia).
    cbn in Hj.
    assert (j = 0 \/ j = 1 \/ j = 2 \/ j = 3) as [-> | [-> | [-> | ->]]]
      by lia; intros H; injection H as <-; assumption.
  - intros c r Hc.
    assert (c = 0 \/ c = 1) as [-> | ->] by (cbn in Hc; lia);
      intros H; injection H as <-; exists (1/4)%R; split;
      try reflexivity; lra.
  - exists fp, cl. split; [exact Hfp |]. split; [exact Hread |].
    destruct Hcol0 as (line0 & Hl0 & H1 & H2).
    assert (line0 = [33; 33; 35; 35]) as -> by (cbv in Hl0; congruence).
    auto.
Defined.

(** ** The size of the codebook file and the ratios it can hold *)

Section WriteCodebookSize.
Context `{wl : Well}.

Lemma omap_fails {A B} (f : A -> option B) (l : list A) (x : A) :
  In x l -> f x = None -> omap f l = None.
Proof.
  induction l as [| a l IH]; intros Hin Hf; [contradiction |].
  cbn [omap]. destruct Hin as [-> | Hin]; [now rewrite Hf |].
  destruct (f a); [| reflexivity]. now rewrite IH.
Qed.

Lemma list_sum_cons (a : nat) (l : list nat) :
  list_sum (a :: l) = (a + list_sum l)%nat.
Proof. reflexivity. Qed.

Lemma file_of_records_length (records : list (list Z)) :
  length (file_of_records records)
  = (list_sum (map (@length Z) records) + length records)%nat.
Proof.
  induction records as [| l records IH]; [reflexivity |].
  rewrite file_of_records_cons, length_app.
  change (length (10 :: file_of_records records))
    with (S (length (file_of_records records))).
  rewrite IH. cbn [map length]. rewrite list_sum_cons. lia.
Qed.

Lemma block_bytes_length (quantizers : cond_quantizer_list_t)
  (size i j : Z) (b : list Z) :
  0 <= size ->
  block_bytes quantizers size i j = Some b -> length b = Z.to_nat size.
Proof.
  intros Hsz. unfold block_bytes.
  destruct (get_cond_quantizer quantizers i j) as [[qz |] |];
    cbn [obind]; [| | discriminate].
  - unfold quantizer_line. intros H.
    rewrite (omap_length _ _ _ H), zrange_length. f_equal; lia.
  - intros H. injection H as <-. apply repeat_length.
Qed.

Lemma column_line_length (quantizers : cond_quantizer_list_t)
  (size i : Z) (l : list Z) :
  0 <= size ->
  column_line quantizers size i = Some l ->
  length l = (Z.to_nat size * Z.to_nat size)%nat.
Proof.
  intros Hsz. unfold column_line.
  destruct (omap _ _) as [blocks |] eqn:Eb; [| discriminate].
  cbn [obind]. intros H. injection H as <-.
  rewrite (concat_length_blocks _ (Z.to_nat size)).
  - rewrite (omap_length _ _ _ Eb), zrange_length. f_equal. f_equal; lia.
  - apply Forall_forall. intros b Hb.
    destruct (omap_In _ _ _ _ Eb Hb) as [j [_ Hj]].
    now apply (block_bytes_length quantizers size i j).
Qed.

(** The number of bytes of the file that [write_codebook] writes for
    [columns >= 1] columns and quantizers over [size] symbols: three lines
    of [columns] bytes, two lines of [size] bytes and, for each further
    column, two lines of [size * size] bytes, each line ended by a
    newline. *)
Theorem write_codebook_size (quantizers : cond_quantizer_list_t)
  (fp : file) (q_lo : quantizer_t) :
  write_codebook quantizers = Some fp ->
  get_cond_quantizer_indexed quantizers 0 0 = Some (Some q_lo) ->
  1 <= columns quantizers ->
  let size := alphabet_size (qz_alphabet q_lo) in
  Z.of_nat (length fp)
  = 3 * (columns quantizers + 1) + 2 * (size + 1)
    + 2 * (columns quantizers - 1) * (size * size + 1).
Proof.
  intros Hw Hq0 Hc size.
  destruct (write_codebook_file _ _ Hw)
    as (q_lo' & ratios & line0 & cols & Hq0' & Hr & Hl0 & Hcols & ->).
  assert (q_lo' = q_lo) as -> by congruence.
  fold size in Hl0, Hcols.
  assert (Hsz : 0 <= size) by (unfold size, alphabet_size; lia).
  assert (He : length (empty (columns quantizers))
               = Z.to_nat (columns quantizers)) by apply repeat_length.
  assert (Hrl : length ratios = Z.to_nat (columns quantizers)).
  { unfold ratio_line in Hr. rewrite (omap_length _ _ _ Hr), zrange_length.
    f_equal; lia. }
  assert (Hl0l : length line0 = Z.to_nat size).
  { unfold quantizer_line in Hl0.
    rewrite (omap_length _ _ _ Hl0), zrange_length. f_equal; lia. }
  assert (Hcl : length cols = Z.to_nat (columns quantizers - 1)).
  { rewrite (omap_length _ _ _ Hcols), zrange_length. f_equal; lia. }
  assert (Hsum : forall (cs : list Z) (ls : list (list Z)),
            omap (column_line quantizers size) cs = Some ls ->
            (list_sum (map (@length Z) (flat_map (fun l => [l; l]) ls))
             + length (flat_map (fun l => [l; l]) ls)
             = length ls * (2 * (Z.to_nat size * Z.to_nat size + 1)))%nat).
  { induction cs as [| i cs IH]; intros ls H.
    - cbn in H. injection H as <-. reflexivity.
    - cbn [omap] in H.
      destruct (column_line quantizers size i) as [l |] eqn:El;
        [| discriminate].
      destruct (omap _ cs) as [ls' |]; [| discriminate].
      injection H as <-. cbn [flat_map app map length].
      rewrite !list_sum_cons. specialize (IH ls' eq_refl).
      rewrite (column_line_length _ _ _ _ Hsz El). lia. }
  rewrite file_of_records_length, map_app, list_sum_app, length_app.
  cbn [map length]. rewrite !list_sum_cons. cbn [list_sum fold_right].
  specialize (Hsum _ _ Hcols).
  rewrite He, Hrl, Hl0l. nia.
Qed.

(** The third line holds [(uint8_t)(ratio * 100)] for the first context
    of each column: a ratio whose hundredfold has no [uint8_t] value, such
    as the quotient [0/0] that [find_states] returns for equal state counts,
    or a number up to -0.01 or from 2.56 on, makes [write_codebook]
    undefined. *)
Theorem write_codebook_ratio_not_a_byte
  (quantizers : cond_quantizer_list_t) (c : Z) (r : double) :
  0 <= c < columns quantizers ->
  get_ratio quantizers c 0 = Some r ->
  r = NaN \/ r = PInf \/ r = NInf \/
  (exists x, r = Fin x /\ (x * 100 <= -1 \/ 256 <= x * 100)%R) ->
  write_codebook quantizers = None.
Proof.
  intros Hc Hr Hbad.
  assert (Hbyte : double_to_uint8 (fmul r (Fin 100)) = None).
  { unfold fmul.
    destruct Hbad as [-> | [-> | [-> | [x [-> Hx]]]]];
      try reflexivity.
    - cbn [dmul]. rewrite Rsign_pos by lra. reflexivity.
    - cbn [dmul]. rewrite Rsign_pos by lra. reflexivity.
    - cbn [dmul rounded].
      destruct (round (x * 100)) as [y | | |] eqn:Ey; try reflexivity.
      cbn [double_to_uint8]. destruct Hx as [Hx | Hx].
      + assert (Hy : (y <= -1)%R).
        { apply (round_mono (x * 100) (-1) y (-1)); [exact Hx | exact Ey |].
          apply (representable_IZR (-1)). reflexivity. }
        unfold Rtrunc. destruct (Rle_dec 0 y) as [H | _]; [lra |].
        pose proof (Rceil_bounds y) as [Hlo Hhi].
        assert (Hneg : (Rceil y < 0)%Z).
        { apply lt_IZR. lra. }
        destruct (Z.leb_spec 0 (Rceil y)); [lia | reflexivity].
      + assert (Hy : (256 <= y)%R).
        { apply (round_mono 256 (x * 100) 256 y); [exact Hx | | exact Ey].
          apply (representable_IZR 256). reflexivity. }
        rewrite Rtrunc_nonneg by lra.
        pose proof (Rfloor_bounds y) as [Hlo Hhi].
        assert (Hbig : (256 <= Rfloor y)%Z).
        { apply Z.lt_succ_r, lt_IZR. rewrite succ_IZR. lra. }
        destruct (Z.ltb_spec (Rfloor y) 256); [lia |].
        now rewrite andb_false_r. }
  unfold write_codebook.
  destruct (get_cond_quantizer_indexed quantizers 0 0) as [[q_temp |] |];
    try reflexivity.
  cbn [obind].
  assert (E : ratio_line quantizers = None).
  { unfold ratio_line. apply (omap_fails _ _ c); [apply zrange_In; lia |].
    rewrite Hr. cbn [obind]. now rewrite Hbyte. }
  now rewrite E.
Qed.

End WriteCodebookSize.

(** The file of [ex_store2]: two columns, four symbols, 53 bytes. *)
Lemma write_codebook_size_witness :
  exists fp,
    write_codebook ex_store2 = Some fp /\ Z.of_nat (length fp) = 53.
Proof.
  destruct write_codebook_ex_store2 as [fp Hfp].
  exists fp. split; [exact Hfp |].
  apply (write_codebook_size ex_store2 fp ex_lo Hfp eq_refl).
  cbn. lia.
Defined.

(** The ratio [0/0] of [ex_store_nan]. *)
Lemma write_codebook_ratio_not_a_byte_witness :
  write_codebook ex_store_nan = None.
Proof.
  apply (write_codebook_ratio_not_a_byte ex_store_nan 0 NaN).
  - cbn. lia.
  - reflexivity.
  - now left.
Defined.

(** ** The conditional PMF list as allocated *)

Section AllocatedPmfList.
Context `{pops : PmfOps}.

(** The list that [alloc_conditional_pmf_list] returns for [columns >= 1]
    holds a fresh PMF for column 0 whatever the previous symbol, and for
    every column from 1 on and every previous symbol of the alphabet; the
    lookup is undefined at the column [columns], one past the last, for
    every symbol of the alphabet.  [get_cond_pmf] does
    not compare the previous symbol with the alphabet: the symbol
    [size + s] in a column addresses the PMF of the symbol [s] in the next
    column. *)
Theorem get_cond_pmf_allocated (alphabet : alphabet_t) (columns : Z) :
  1 <= columns ->
  1 + alphabet_size alphabet * columns <= UINT32_MAX ->
  let lst := alloc_conditional_pmf_list alphabet columns in
  (forall prev, get_cond_pmf lst 0 prev = Some (alloc_pmf alphabet)) /\
  (forall c s, 1 <= c < columns -> 0 <= s < alphabet_size alphabet ->
     get_cond_pmf lst c s = Some (alloc_pmf alphabet)) /\
  (forall s, 0 <= s < alphabet_size alphabet ->
     get_cond_pmf lst columns s = None) /\
  (forall c s, 1 <= c < columns -> 0 <= s < alphabet_size alphabet ->
     get_cond_pmf lst c (alphabet_size alphabet + s)
     = get_cond_pmf lst (c + 1) s).
Proof.
  intros Hc Hfit lst.
  set (N := alphabet_size alphabet) in *.
  assert (HN : 0 <= N) by (unfold N, alphabet_size; lia).
  assert (Hcount : u32 (1 + N * (columns - 1)) = 1 + N * (columns - 1)).
  { apply u32_small. unfold in_range, UINT32_MAX in *. nia. }
  assert (Hlen : Z.of_nat (length (pmfs lst)) = 1 + N * (columns - 1)).
  { unfold lst, alloc_conditional_pmf_list. cbn [pmfs]. fold N.
    rewrite Hcount, repeat_length. nia. }
  assert (Hidx : forall c s, 1 <= c -> 0 <= s ->
            1 + (c - 1) * N + s <= N * columns ->
            cond_pmf_index lst c s = 1 + (c - 1) * N + s).
  { intros c s Hc' Hs Hle. unfold cond_pmf_index.
    destruct (Z.eqb_spec c 0); [lia |].
    change (alphabet_size (cp_alphabet lst)) with N.
    apply u32_small. unfold in_range, UINT32_MAX in *. nia. }
  assert (Hget : forall i, 0 <= i < 1 + N * (columns - 1) ->
            zget (pmfs lst) i = Some (alloc_pmf alphabet)).
  { intros i Hi. unfold lst, alloc_conditional_pmf_list. cbn [pmfs].
    fold N. rewrite Hcount. apply zget_repeat. nia. }
  split; [| split; [| split]].
  - intros prev. unfold get_cond_pmf, cond_pmf_index. cbn [Z.eqb].
    apply Hget. nia.
  - intros c s Hc' Hs. unfold get_cond_pmf. rewrite Hidx by nia.
    apply Hget. nia.
  - intros s Hs. unfold get_cond_pmf. rewrite Hidx by nia.
    apply zget_undefined. rewrite Hlen. nia.
  - intros c s Hc' Hs. unfold get_cond_pmf.
    rewrite !Hidx by nia. f_equal. lia.
Qed.

End AllocatedPmfList.

Lemma get_cond_pmf_allocated_witness :
  get_cond_pmf ex_pmf_list 1 (4 + 1) = get_cond_pmf ex_pmf_list 2 1.
Proof.
  destruct (get_cond_pmf_allocated (pops := SpecPmf.ops) [0; 1; 2; 3] 3)
    as (_ & _ & _ & H).
  - lia.
  - vm_compute. discriminate.
  - apply (H 1 1); cbn; lia.
Defined.

(** ** The generator: no column, and the header of its result *)

Section GeneratorEdges.
Context `{pops : PmfOps} `{des : Designer} `{wl : Well}.

(** Without columns the statistics are undefined, the marginal of column
    0 being written into a list without elements, and so is the
    generator. *)
Theorem generate_codebooks_no_columns (info : quality_file_t)
  (in_pmfs : cond_pmf_list_t) (dist : distortion_t) (comp : double) :
  qf_columns info <= 0 ->
  calculate_statistics info in_pmfs = None /\
  generate_codebooks info in_pmfs dist comp = None.
Proof.
  intros Hc.
  assert (Hs : calculate_statistics info in_pmfs = None).
  { unfold calculate_statistics.
    destruct (ofold _ _ in_pmfs) as [counted |]; [| reflexivity].
    cbn [obind].
    destruct (get_cond_pmf counted 0 0); [| reflexivity]. cbn [obind].
    rewrite zget_undefined; [reflexivity |].
    unfold alloc_pmf_list. rewrite repeat_length. lia. }
  split; [exact Hs |]. unfold generate_codebooks. now rewrite Hs.
Qed.

(** The fields [columns] and [well] of a list. *)
Lemma init_column_header (lst lst' : cond_quantizer_list_t) (c : Z)
  (u : alphabet_t) :
  cond_quantizer_init_column lst c u = Some lst' ->
  columns lst' = columns lst /\ well lst' = well lst.
Proof.
  unfold cond_quantizer_init_column. intros H.
  destruct (zset (input_alphabets lst) c _); [| discriminate].
  cbn [obind] in H.
  destruct (zset (q lst) c _); [| discriminate]. cbn [obind] in H.
  destruct (zset (ratio lst) c _); [| discriminate].
  injection H as <-. auto.
Qed.

Lemma store_header (lo hi : quantizer_t) (lst lst' : cond_quantizer_list_t)
  (c : Z) (prev : symbol_t) :
  store_cond_quantizers lo hi lst c prev = Some lst' ->
  columns lst' = columns lst /\ well lst' = well lst.
Proof.
  unfold store_cond_quantizers. intros Hs.
  destruct (zget (input_alphabets lst) c) as [[a |] |]; try discriminate.
  cbn [obind] in Hs.
  destruct (zget (q lst) c) as [[slots |] |]; try discriminate.
  cbn [obind] in Hs.
  destruct (zset slots _ (Some lo)) as [s1 |]; [| discriminate].
  cbn [obind] in Hs.
  destruct (zset s1 _ (Some hi)) as [s2 |]; [| discriminate].
  cbn [obind] in Hs.
  destruct (zget (ratio lst) c) as [[ratios |] |]; try discriminate.
  cbn [obind] in Hs.
  destruct (zset ratios _ _) as [r1 |]; [| discriminate].
  cbn [obind] in Hs.
  destruct (zset (q lst) c _) as [qs |]; [| discriminate].
  cbn [obind] in Hs.
  destruct (zset (ratio lst) c _) as [rs |]; [| discriminate].
  injection Hs as <-. auto.
Qed.

Lemma design_and_store_header (p : pmf_t) (dist : distortion_t)
  (comp : double) (lst : cond_quantizer_list_t) (c : Z) (sym : symbol_t)
  r :
  design_and_store p dist comp lst c sym = Some r ->
  columns (fst (fst (fst r))) = columns lst /\
  well (fst (fst (fst r))) = well lst.
Proof.
  unfold design_and_store. intros Hd.
  destruct (find_states _) as [st |]; [| discriminate].
  cbn [obind] in Hd.
  destruct (store_cond_quantizers _ _ lst c sym) as [lst' |] eqn:Es;
    [| discriminate].
  injection Hd as <-. cbn [fst]. apply (store_header _ _ _ _ _ _ Es).
Qed.

Lemma design_loop_header (xpmf_list : pmf_list_t) (dist : distortion_t)
  (comp : double) (c : Z) (u : alphabet_t) (js : list Z) :
  forall acc r,
    ofold (design_context xpmf_list dist comp c u) js acc = Some r ->
    columns (fst (fst (fst r))) = columns (fst (fst (fst acc))) /\
    well (fst (fst (fst r))) = well (fst (fst (fst acc))).
Proof.
  induction js as [| j js IH]; intros acc r Hf.
  - cbn in Hf. injection Hf as <-. auto.
  - cbn [ofold] in Hf.
    destruct (design_context xpmf_list dist comp c u acc j) as [acc1 |]
      eqn:E1; [| discriminate].
    destruct (IH _ _ Hf) as [H1 H2]. rewrite H1, H2.
    destruct acc as [[[l lo] hi] rr]. unfold design_context in E1.
    destruct (zget u j); [| discriminate]. cbn [obind] in E1.
    destruct (zget xpmf_list j); [| discriminate]. cbn [obind] in E1.
    apply (design_and_store_header _ _ _ _ _ _ _ E1).
Qed.

Lemma codebook_column_header (in_pmfs : cond_pmf_list_t)
  (dist : distortion_t) (comp : double) (g g' : gen_state) (c : Z) :
  codebook_column in_pmfs dist comp g c = Some g' ->
  columns (g_list g') = columns (g_list g) /\
  well (g_list g') = well (g_list g).
Proof.
  unfold codebook_column. intros Hc.
  destruct (output_union _ _ _) as [u |]; [| discriminate].
  cbn [obind] in Hc.
  destruct (cond_quantizer_init_column _ _ _) as [lst1 |] eqn:Ei;
    [| discriminate].
  cbn [obind] in Hc.
  match type of Hc with
  | obind ?m _ = _ => destruct m as [qpmf_list |]; [| discriminate]
  end.
  cbn [obind] in Hc.
  destruct (compute_xpmf_list _ _ _ _ _) as [xpmf_list |]; [| discriminate].
  cbn [obind] in Hc.
  destruct (ofold _ _ _) as [[[[lst' lo] hi] r] |] eqn:Ef; [| discriminate].
  cbn [obind] in Hc. injection Hc as <-. cbn [g_list].
  destruct (design_loop_header _ _ _ _ _ _ _ _ Ef) as [H1 H2].
  cbn [fst] in H1, H2. rewrite H1, H2.
  apply (init_column_header _ _ _ _ Ei).
Qed.

(** The list that [generate_codebooks] returns has the number of columns
    of the input, and its generator state is the one that the allocation
    left, all zeros: the generator of codebooks never draws from it nor
    seeds it. *)
Theorem generate_codebooks_header (info : quality_file_t)
  (in_pmfs : cond_pmf_list_t) (dist : distortion_t) (comp : double)
  (lst : cond_quantizer_list_t) :
  generate_codebooks info in_pmfs dist comp = Some lst ->
  columns lst = qf_columns info /\ well lst = well_zeroed.
Proof.
  unfold generate_codebooks. intros Hg.
  destruct (calculate_statistics info in_pmfs) as [stats |];
    [| discriminate].
  cbn [obind] in Hg.
  destruct (codebook_column0 info stats dist comp) as [g0 |] eqn:E0;
    [| discriminate].
  cbn [obind] in Hg.
  destruct (ofold _ _ g0) as [g |] eqn:Ef; [| discriminate].
  injection Hg as <-.
  assert (H0 : columns (g_list g0) = qf_columns info /\
               well (g_list g0) = well_zeroed).
  { unfold codebook_column0 in E0.
    destruct (cond_quantizer_init_column _ 0 _) as [l0 |] eqn:Ei;
      [| discriminate].
    cbn [obind] in E0.
    destruct (get_cond_pmf stats 0 0) as [p0 |]; [| discriminate].
    cbn [obind] in E0.
    destruct (design_and_store p0 dist comp l0 0 0) as [[[[l1 lo] hi] r] |]
      eqn:Ed; [| discriminate].
    injection E0 as <-. cbn [g_list].
    destruct (design_and_store_header _ _ _ _ _ _ _ Ed) as [H1 H2].
    cbn [fst] in H1, H2. rewrite H1, H2.
    destruct (init_column_header _ _ _ _ Ei) as [H3 H4].
    rewrite H3, H4. auto. }
  destruct H0 as [<- <-]. clear E0.
  revert g0 g Ef.
  induction (zrange 1 (qf_columns info)) as [| c cs IH]; intros g0 g Ef.
  - cbn in Ef. injection Ef as <-. auto.
  - cbn [ofold] in Ef.
    destruct (codebook_column stats dist comp g0 c) as [g1 |] eqn:E1;
      [| discriminate].
    destruct (IH _ _ Ef) as [H1 H2]. rewrite H1, H2.
    apply (codebook_column_header _ _ _ _ _ _ E1).
Qed.

End GeneratorEdges.

Lemma generate_codebooks_no_columns_witness :
  calculate_statistics (pops := SpecPmf.ops) ex_no_columns ex7_in_pmfs
  = None /\
  generate_codebooks (pops := SpecPmf.ops) (des := clamp_designer)
    (wl := counter_well) ex_no_columns ex7_in_pmfs tt (Fin (1/2)) = None.
Proof.
  apply (generate_codebooks_no_columns (pops := SpecPmf.ops)
           (des := clamp_designer) (wl := counter_well)).
  cbn. lia.
Defined.

(** The run of the generator on [ex7_info]. *)
Lemma generate_codebooks_header_witness :
  exists lst,
    generate_codebooks (pops := SpecPmf.ops) (des := clamp_designer)
      (wl := counter_well) ex7_info ex7_in_pmfs tt (Fin (1/2)) = Some lst /\
    columns lst = 2 /\ well lst = 0.
Proof.
  destruct generate_codebooks_ex7 as [lst Hlst].
  exists lst. split; [exact Hlst |].
  exact (generate_codebooks_header (pops := SpecPmf.ops)
           (des := clamp_designer) (wl := counter_well)
           ex7_info ex7_in_pmfs tt (Fin (1/2)) lst Hlst).
Defined.

(** ** The store that the generator returns is complete *)

Section GeneratorComplete.
Context `{pops : PmfOps} `{des : Designer} `{wl : Well}.

Lemma column_complete_ext (lst lst' : cond_quantizer_list_t) (c : Z) :
  zget (input_alphabets lst') c = zget (input_alphabets lst) c ->
  zget (q lst') c = zget (q lst) c ->
  zget (ratio lst') c = zget (ratio lst) c ->
  column_complete lst c -> column_complete lst' c.
Proof.
  intros Ea Eq Er (a & Ha & Hnd & Hsz & Hall).
  exists a. rewrite Ea. split; [exact Ha |]. split; [exact Hnd |].
  split; [exact Hsz |]. intros idx Hidx.
  destruct (Hall idx Hidx) as (lo & hi & H1 & H2 & H3).
  exists lo, hi. unfold get_cond_quantizer_indexed, get_ratio in *.
  rewrite Eq, Er. auto.
Qed.

Lemma get_symbol_index_nth (u : alphabet_t) (k : Z) (s : symbol_t) :
  NoDup u -> zget u k = Some s -> get_symbol_index u s = k.
Proof.
  intros Hnd Hk. pose proof (zget_range _ _ _ Hk) as Hr.
  unfold get_symbol_index.
  destruct (index_from_spec u s 0) as [[_ Hn] | [Hi Hz]].
  - exfalso. apply Hn. eapply zget_In; eassumption.
  - rewrite Z.sub_0_r in Hz. set (i := index_from u s 0) in *.
    rewrite <- (Z2Nat.id i) in Hz by lia.
    rewrite <- (Z2Nat.id k) in Hk by lia.
    rewrite zget_nth_error in Hz, Hk.
    rewrite NoDup_nth_error in Hnd.
    assert (E : Z.to_nat i = Z.to_nat k).
    { apply Hnd; [unfold alphabet_size in Hi; lia | congruence]. }
    lia.
Qed.

(** What a store that succeeded has left. *)
Lemma store_cond_quantizers_inv (lo hi : quantizer_t)
  (lst lst' : cond_quantizer_list_t) (c : Z) (prev : symbol_t)
  (a : alphabet_t) :
  zget (input_alphabets lst) c = Some (Some a) ->
  0 <= get_symbol_index a prev ->
  2 * get_symbol_index a prev + 1 <= UINT32_MAX ->
  store_cond_quantizers lo hi lst c prev = Some lst' ->
  input_alphabets lst' = input_alphabets lst /\
  get_cond_quantizer_indexed lst' c (2 * get_symbol_index a prev)
    = Some (Some lo) /\
  get_cond_quantizer_indexed lst' c (2 * get_symbol_index a prev + 1)
    = Some (Some hi) /\
  get_ratio lst' c (get_symbol_index a prev) = Some (qz_ratio lo) /\
  (forall j, j <> 2 * get_symbol_index a prev ->
             j <> 2 * get_symbol_index a prev + 1 ->
     get_cond_quantizer_indexed lst' c j
     = get_cond_quantizer_indexed lst c j) /\
  (forall i, i <> get_symbol_index a prev ->
     get_ratio lst' c i = get_ratio lst c i) /\
  (forall c', c' <> c ->
     zget (q lst') c' = zget (q lst) c' /\
     zget (ratio lst') c' = zget (ratio lst) c').
Proof.
  intros Ha Hidx0 Hidx Hs.
  unfold store_cond_quantizers in Hs. rewrite Ha in Hs. cbn [obind] in Hs.
  set (idx := get_symbol_index a prev) in *.
  assert (E0 : u32 (2 * idx) = 2 * idx)
    by (apply u32_small; unfold in_range, UINT32_MAX in *; lia).
  assert (E1 : u32 (2 * idx + 1) = 2 * idx + 1)
    by (apply u32_small; unfold in_range, UINT32_MAX in *; lia).
  rewrite E0, E1 in Hs.
  destruct (zget (q lst) c) as [[slots |] |] eqn:Eq; try discriminate.
  cbn [obind] in Hs.
  destruct (zset slots _ (Some lo)) as [s1 |] eqn:Es1; [| discriminate].
  cbn [obind] in Hs.
  destruct (zset s1 _ (Some hi)) as [s2 |] eqn:Es2; [| discriminate].
  cbn [obind] in Hs.
  destruct (zget (ratio lst) c) as [[ratios |] |] eqn:Er;
    try discriminate.
  cbn [obind] in Hs.
  destruct (zset ratios _ _) as [r1 |] eqn:Er1; [| discriminate].
  cbn [obind] in Hs.
  destruct (zset (q lst) c _) as [qs |] eqn:Eqs; [| discriminate].
  cbn [obind] in Hs.
  destruct (zset (ratio lst) c _) as [rs |] eqn:Ers; [| discriminate].
  injection Hs as <-. cbn [input_alphabets].
  unfold get_cond_quantizer_indexed, get_ratio. cbn [q ratio].
  rewrite (zget_zset_same _ _ _ _ Eqs), (zget_zset_same _ _ _ _ Ers).
  rewrite Eq, Er. cbn [obind].
  split; [reflexivity |]. split; [| split; [| split; [| split; [| split]]]].
  - rewrite (zget_zset_other _ _ _ _ _ Es2) by lia.
    apply (zget_zset_same _ _ _ _ Es1).
  - apply (zget_zset_same _ _ _ _ Es2).
  - apply (zget_zset_same _ _ _ _ Er1).
  - intros j Hj0 Hj1. rewrite (zget_zset_other _ _ _ _ _ Es2 Hj1).
    apply (zget_zset_other _ _ _ _ _ Es1 Hj0).
  - intros i Hi. apply (zget_zset_other _ _ _ _ _ Er1 Hi).
  - intros c' Hc'.
    now rewrite (zget_zset_other _ _ _ _ _ Eqs Hc'),
                (zget_zset_other _ _ _ _ _ Ers Hc').
Qed.

(** The loop over the contexts of a column completes them one by one. *)
Lemma design_loop_complete (xpmf_list : pmf_list_t) (dist : distortion_t)
  (comp : double) (c : Z) (u : alphabet_t)
  (l0 : cond_quantizer_list_t) (lo0 hi0 : quantizer_t) (r0 : double) :
  zget (input_alphabets l0) c = Some (Some u) ->
  NoDup u -> alphabet_size u <= SYMBOL_LIMIT ->
  forall (k : nat) acc',
    Z.of_nat k <= alphabet_size u ->
    ofold (design_context xpmf_list dist comp c u) (zrange 0 (Z.of_nat k))
          (l0, lo0, hi0, r0) = Some acc' ->
    input_alphabets (fst (fst (fst acc'))) = input_alphabets l0 /\
    (forall c', c' <> c ->
       zget (q (fst (fst (fst acc')))) c' = zget (q l0) c' /\
       zget (ratio (fst (fst (fst acc')))) c' = zget (ratio l0) c') /\
    forall idx, 0 <= idx < Z.of_nat k ->
      exists lo hi,
        get_cond_quantizer_indexed (fst (fst (fst acc'))) c (2 * idx)
          = Some (Some lo) /\
        get_cond_quantizer_indexed (fst (fst (fst acc'))) c (2 * idx + 1)
          = Some (Some hi) /\
        get_ratio (fst (fst (fst acc'))) c idx = Some (qz_ratio lo).
Proof.
  intros Hu Hnd Hsz. induction k as [| k IH]; intros acc' Hk Hf.
  - cbn in Hf. injection Hf as <-. cbn [fst].
    split; [reflexivity |]. split; [auto |]. intros idx Hidx. lia.
  - replace (Z.of_nat (S k)) with (Z.of_nat k + 1) in Hf by lia.
    rewrite zrange_snoc, ofold_app in Hf by lia.
    destruct (ofold _ (zrange 0 (Z.of_nat k)) _) as [acc1 |] eqn:E1;
      [| discriminate].
    cbn [obind ofold] in Hf.
    destruct (design_context _ _ _ _ _ acc1 (Z.of_nat k)) as [acc2 |]
      eqn:E2; [| discriminate].
    injection Hf as <-.
    destruct (IH acc1 ltac:(lia) eq_refl) as (Ia & Io & Idone).
    destruct acc1 as [[[l1 lo1] hi1] r1]. cbn [fst] in *.
    unfold design_context in E2.
    destruct (zget u (Z.of_nat k)) as [sym |] eqn:Esym; [| discriminate].
    cbn [obind] in E2.
    destruct (zget xpmf_list (Z.of_nat k)) as [pj |]; [| discriminate].
    cbn [obind] in E2. unfold design_and_store in E2.
    destruct (find_states _) as [st |]; [| discriminate].
    cbn [obind] in E2.
    destruct (store_cond_quantizers _ _ l1 c sym) as [l2 |] eqn:Es;
      [| discriminate].
    injection E2 as <-. cbn [fst].
    pose proof (get_symbol_index_nth u _ _ Hnd Esym) as Eidx.
    assert (Hu1 : zget (input_alphabets l1) c = Some (Some u))
      by (rewrite Ia; exact Hu).
    destruct (store_cond_quantizers_inv _ _ _ _ _ _ _ Hu1
                ltac:(rewrite Eidx; lia)
                ltac:(rewrite Eidx;
                      unfold SYMBOL_LIMIT, UINT32_MAX, modulus in *; lia)
                Es)
      as (Sa & Slo & Shi & Sr & Sq & Sro & So).
    rewrite Eidx in *.
    split; [congruence |]. split.
    + intros c' Hc'. destruct (So c' Hc') as [H1 H2].
      destruct (Io c' Hc') as [H3 H4]. split; congruence.
    + intros idx Hidx. destruct (Z.eq_dec idx (Z.of_nat k)) as [-> | Hne].
      * eexists _, _. split; [exact Slo |]. split; [exact Shi | exact Sr].
      * destruct (Idone idx ltac:(lia)) as (lo & hi & H1 & H2 & H3).
        exists lo, hi. rewrite !Sq by lia. rewrite Sro by lia. auto.
Qed.

(** The step of the generator for column [c] completes the column and
    leaves the other columns as they are. *)
Lemma codebook_column_complete (in_pmfs : cond_pmf_list_t)
  (dist : distortion_t) (comp : double) (g g' : gen_state) (c : Z) col0 :
  designed output_in_range ->
  1 <= c ->
  gen_invariant col0 c g ->
  codebook_column in_pmfs dist comp g c = Some g' ->
  column_complete (g_list g') c /\
  forall c', c' <> c ->
    zget (input_alphabets (g_list g')) c'
    = zget (input_alphabets (g_list g)) c' /\
    zget (q (g_list g')) c' = zget (q (g_list g)) c' /\
    zget (ratio (g_list g')) c' = zget (ratio (g_list g)) c'.
Proof.
  intros Hdes Hc Hinv Hstep.
  pose proof (codebook_column_invariant _ _ _ _ _ _ _ Hdes Hc Hinv Hstep)
    as (_ & Hsize' & _).
  destruct Hinv as (Hprev & Hsize & Hslots & Hstored & _).
  unfold codebook_column in Hstep.
  destruct (output_union _ _ _) as [u |] eqn:Eu; [| discriminate].
  cbn [obind] in Hstep.
  destruct (cond_quantizer_init_column _ _ _) as [lst1 |] eqn:Ei;
    [| discriminate].
  cbn [obind] in Hstep.
  match type of Hstep with
  | obind ?m _ = _ => destruct m as [qpmf_list |]; [| discriminate]
  end.
  cbn [obind] in Hstep.
  destruct (compute_xpmf_list _ _ _ _ _) as [xpmf_list |]; [| discriminate].
  cbn [obind] in Hstep.
  destruct (ofold _ _ _) as [[[[lst' lo] hi] r] |] eqn:Ef; [| discriminate].
  cbn [obind] in Hstep. injection Hstep as <-.
  cbn [g_list g_prev_output_union] in *.
  pose proof (output_union_nonempty _ _ _ _ Eu Hslots) as Hne.
  assert (Hmax : 2 * alphabet_size (g_prev_output_union g) <= UINT32_MAX)
    by (unfold SYMBOL_LIMIT, UINT32_MAX, modulus in *; lia).
  destruct (output_union_spec _ _ _ _ Hmax Hne Eu) as (_ & _ & Hsorted).
  pose proof (sorted_NoDup _ Hsorted) as Hnd.
  destruct (cond_quantizer_init_column_spec _ _ _ _ Ei)
    as (Ia & _ & _ & Io).
  replace (alphabet_size u) with (Z.of_nat (Z.to_nat (alphabet_size u)))
    in Ef by (unfold alphabet_size; lia).
  destruct (design_loop_complete _ _ _ _ _ _ _ _ _ Ia Hnd Hsize'
              (Z.to_nat (alphabet_size u)) _
              ltac:(unfold alphabet_size; lia) Ef)
    as (La & Lo & Ldone).
  cbn [fst] in *. split.
  - exists u. rewrite La. split; [exact Ia |]. split; [exact Hnd |].
    split; [exact Hsize' |]. intros idx Hidx. apply Ldone.
    unfold alphabet_size in *. lia.
  - intros c' Hc'. destruct (Lo c' Hc') as [H1 H2].
    destruct (Io c' Hc') as (H3 & H4 & H5).
    rewrite La, H1, H2. auto.
Qed.

Lemma columns_complete (in_pmfs : cond_pmf_list_t) (dist : distortion_t)
  (comp : double) (g0 : gen_state) col0 :
  designed output_in_range ->
  gen_invariant col0 1 g0 ->
  column_complete (g_list g0) 0 ->
  forall (n : nat) (g : gen_state),
    ofold (codebook_column in_pmfs dist comp)
          (zrange 1 (1 + Z.of_nat n)) g0 = Some g ->
    forall c, 0 <= c < 1 + Z.of_nat n -> column_complete (g_list g) c.
Proof.
  intros Hdes Hinv0 H0. induction n as [| n IH]; intros g Hf c Hc.
  - rewrite zrange_empty in Hf by lia. cbn in Hf. injection Hf as <-.
    assert (c = 0) as -> by lia. exact H0.
  - replace (1 + Z.of_nat (S n)) with (1 + Z.of_nat n + 1) in * by lia.
    rewrite zrange_snoc, ofold_app in Hf by lia.
    destruct (ofold _ (zrange 1 (1 + Z.of_nat n)) g0) as [g1 |] eqn:E1;
      [| discriminate].
    cbn [obind ofold] in Hf.
    destruct (codebook_column in_pmfs dist comp g1 (1 + Z.of_nat n))
      as [g2 |] eqn:E2; [| discriminate].
    injection Hf as <-.
    pose proof (columns_prefix in_pmfs dist comp g0 col0 Hdes Hinv0 n g1 E1)
      as Hinv1.
    assert (H1n : 1 <= 1 + Z.of_nat n) by lia.
    destruct (codebook_column_complete _ _ _ _ _ _ _ Hdes H1n Hinv1 E2)
      as [Hnew Hold].
    destruct (Z.eq_dec c (1 + Z.of_nat n)) as [-> | Hne]; [exact Hnew |].
    destruct (Hold c Hne) as (H1 & H2 & H3).
    apply (column_complete_ext (g_list g1)); try assumption.
    apply (IH g1 eq_refl). lia.
Qed.

(** The store that [generate_codebooks] returns, for a designer whose
    quantizers have output symbols below [SYMBOL_LIMIT], is complete in
    every column: the input alphabet has no duplicates and at most
    [SYMBOL_LIMIT] symbols, every context has its low and its high
    quantizer and the ratio of the low one, and [choose_quantizer] on a
    symbol of the alphabet returns one of the two, advancing the
    generator: it never fails its assertion, never reads outside the
    column and never returns a null pointer. *)
Theorem generate_codebooks_complete (info : quality_file_t)
  (in_pmfs : cond_pmf_list_t) (dist : distortion_t) (comp : double)
  (lst : cond_quantizer_list_t) :
  (forall p d n r s,
     In s (qz_output_alphabet (fst (generate_quantizer p d n r))) ->
     0 <= s < SYMBOL_LIMIT) ->
  generate_codebooks info in_pmfs dist comp = Some lst ->
  forall c, 0 <= c < qf_columns info ->
    exists a,
      zget (input_alphabets lst) c = Some (Some a) /\
      NoDup a /\ alphabet_size a <= SYMBOL_LIMIT /\
      forall idx p, zget a idx = Some p ->
        exists lo hi,
          get_cond_quantizer_indexed lst c (2 * idx) = Some (Some lo) /\
          get_cond_quantizer_indexed lst c (2 * idx + 1) = Some (Some hi) /\
          get_ratio lst c idx = Some (qz_ratio lo) /\
          (choose_quantizer lst c p
           = Returned (Some lo, set_well lst (snd (well_1024a (well lst))))
           \/
           choose_quantizer lst c p
           = Returned (Some hi, set_well lst (snd (well_1024a (well lst))))).
Proof.
  intros Hdes Hg c Hc.
  assert (Hdes' : designed output_in_range)
    by (intros p d n r s; apply Hdes).
  assert (Hcomplete : column_complete lst c).
  { unfold generate_codebooks in Hg.
    destruct (calculate_statistics info in_pmfs) as [stats |];
      [| discriminate].
    cbn [obind] in Hg.
    destruct (codebook_column0 info stats dist comp) as [g0 |] eqn:E0;
      [| discriminate].
    cbn [obind] in Hg.
    destruct (ofold _ _ g0) as [g |] eqn:Ef; [| discriminate].
    injection Hg as <-.
    destruct (codebook_column0_spec _ _ _ _ _ E0)
      as (p0 & st & Hp0 & Hst & Hia & Hq & Hr & Hu & Hstored).
    assert (Hinv0 : gen_invariant
              (Some (Some
                 [Some (fst (generate_quantizer p0 dist (st_low st)
                               (st_ratio st)));
                  Some (fst (generate_quantizer p0 dist (st_high st)
                               (dsub (Fin 1) (st_ratio st))))])) 1 g0).
    { unfold gen_invariant. rewrite Hu. change (1 - 1) with 0.
      split; [exact Hia |].
      split; [unfold SYMBOL_LIMIT, alphabet_size; cbn; lia |].
      split; [unfold slots_length; rewrite Hq; eexists; split; reflexivity |].
      split; [now apply Hstored |].
      split; [exact Hia |]. split; [exact Hq |].
      intros c' Hc'. lia. }
    assert (H0 : column_complete (g_list g0) 0).
    { exists [0]. split; [exact Hia |].
      split; [repeat constructor; intros [] |].
      split; [unfold SYMBOL_LIMIT, alphabet_size; cbn; lia |].
      intros idx Hidx. assert (idx = 0) as ->
        by (unfold alphabet_size in Hidx; cbn in Hidx; lia).
      eexists _, _. unfold get_cond_quantizer_indexed. rewrite Hq.
      cbn [obind]. split; [reflexivity |]. split; [reflexivity |].
      exact Hr. }
    replace (qf_columns info)
      with (1 + Z.of_nat (Z.to_nat (qf_columns info - 1))) in Ef, Hc by lia.
    apply (columns_complete stats dist comp g0 _ Hdes' Hinv0 H0 _ g Ef c Hc). }
  destruct Hcomplete as (a & Ha & Hnd & Hsz & Hall).
  exists a. split; [exact Ha |]. split; [exact Hnd |]. split; [exact Hsz |].
  intros idx p Hp.
  pose proof (zget_range _ _ _ Hp) as Hidx.
  destruct (Hall idx Hidx) as (lo & hi & Hlo & Hhi & Hr).
  exists lo, hi. split; [exact Hlo |]. split; [exact Hhi |].
  split; [exact Hr |].
  pose proof (get_symbol_index_nth a idx p Hnd Hp) as Eidx.
  unfold choose_quantizer. rewrite Ha. cbn [obind]. rewrite Eidx.
  destruct (Z.eqb_spec idx ALPHABET_SYMBOL_NOT_FOUND) as [E | _].
  { exfalso. unfold ALPHABET_SYMBOL_NOT_FOUND, UINT32_MAX, modulus,
      SYMBOL_LIMIT, alphabet_size in *. lia. }
  destruct (well_1024a (well lst)) as [v w]. cbn [snd]. rewrite Hr.
  assert (E0 : u32 (2 * idx) = 2 * idx).
  { apply u32_small. unfold in_range, modulus, SYMBOL_LIMIT,
      alphabet_size in *. lia. }
  assert (E1 : u32 (2 * idx + 1) = 2 * idx + 1).
  { apply u32_small. unfold in_range, modulus, SYMBOL_LIMIT,
      alphabet_size in *. lia. }
  rewrite E0, E1.
  destruct (dge (well_uniform v) (qz_ratio lo)).
  - right. now rewrite Hhi.
  - left. now rewrite Hlo.
Qed.

End GeneratorComplete.

(** The run of the generator on [ex7_info] gives a complete store. *)
Lemma generate_codebooks_complete_witness :
  exists lst,
    generate_codebooks (pops := SpecPmf.ops) (des := clamp_designer)
      (wl := counter_well) ex7_info ex7_in_pmfs tt (Fin (1/2)) = Some lst /\
    forall c, 0 <= c < 2 ->
      exists a,
        zget (input_alphabets lst) c = Some (Some a) /\
        NoDup a /\ alphabet_size a <= SYMBOL_LIMIT /\
        forall idx p, zget a idx = Some p ->
          exists lo hi,
            get_cond_quantizer_indexed lst c (2 * idx) = Some (Some lo) /\
            get_cond_quantizer_indexed lst c (2 * idx + 1)
              = Some (Some hi) /\
            get_ratio lst c idx = Some (qz_ratio lo) /\
            (choose_quantizer (wl := counter_well) lst c p
             = Returned (Some lo,
                         set_well lst (snd (well_1024a (well lst))))
             \/
             choose_quantizer (wl := counter_well) lst c p
             = Returned (Some hi,
                         set_well lst (snd (well_1024a (well lst))))).
Proof.
  destruct generate_codebooks_ex7 as [lst Hlst].
  exists lst. split; [exact Hlst |].
  exact (generate_codebooks_complete (pops := SpecPmf.ops)
           (des := clamp_designer) (wl := counter_well)
           ex7_info ex7_in_pmfs tt (Fin (1/2)) lst
           clamp_designer_in_range Hlst).
Defined.

(** ** Loops that update entries *)

Section LoopFacts.
Context {A S : Type}.
Variable body : S -> A -> option S.

Lemma ofold_split (l1 l2 : list A) (a : A) (s s' : S) :
  ofold body (l1 ++ a :: l2) s = Some s' ->
  exists s1 s2,
    ofold body l1 s = Some s1 /\ body s1 a = Some s2 /\
    ofold body l2 s2 = Some s'.
Proof.
  rewrite ofold_app. destruct (ofold body l1 s) as [s1 |]; [| discriminate].
  cbn [obind ofold]. destruct (body s1 a) as [s2 |] eqn:E; [| discriminate].
  intros H. exists s1, s2. auto.
Qed.

Lemma ofold_invariant (I : S -> Prop) (l : list A) :
  (forall s a s', In a l -> I s -> body s a = Some s' -> I s') ->
  forall s s', I s -> ofold body l s = Some s' -> I s'.
Proof.
  induction l as [| a l IH]; intros Hstep s s' Hs Hf.
  - cbn in Hf. now injection Hf as <-.
  - cbn [ofold] in Hf. destruct (body s a) as [s1 |] eqn:E; [| discriminate].
    apply (IH (fun s a s' Ha => Hstep s a s' (or_intror Ha)) s1 s');
      [| exact Hf].
    apply (Hstep s a s1); [now left | exact Hs | exact E].
Qed.

Context {K V : Type}.
Variable obs : S -> K -> option V.
Variable g : A -> K -> V -> V.

Lemma ofold_pointwise (l : list A) :
  (forall s a s', In a l -> body s a = Some s' ->
     forall k, obs s' k = option_map (g a k) (obs s k)) ->
  forall s s', ofold body l s = Some s' ->
    forall k, obs s' k
              = option_map (fun v => fold_left (fun v a => g a k v) l v)
                  (obs s k).
Proof.
  induction l as [| a l IH]; intros Hstep s s' Hf k.
  - cbn in Hf. injection Hf as <-. cbn. now destruct (obs s k).
  - cbn [ofold] in Hf. destruct (body s a) as [s1 |] eqn:E; [| discriminate].
    rewrite (IH (fun s a s' Ha => Hstep s a s' (or_intror Ha)) s1 s' Hf k).
    rewrite (Hstep s a s1 (or_introl eq_refl) E k).
    now destruct (obs s k).
Qed.

End LoopFacts.

Lemma fold_left_untouched {A V} (h : A -> V -> V) (l : list A) (v : V) :
  (forall a, In a l -> forall v, h a v = v) ->
  fold_left (fun v a => h a v) l v = v.
Proof.
  revert v. induction l as [| b l IH]; intros v H; [reflexivity |].
  cbn. rewrite (H b (or_introl eq_refl)).
  apply IH. intros a Ha. apply H. now right.
Qed.

Lemma fold_left_single {A V} (h : A -> V -> V) (l : list A) (a : A) (v : V) :
  NoDup l -> In a l ->
  (forall b, In b l -> b <> a -> forall v, h b v = v) ->
  fold_left (fun v b => h b v) l v = h a v.
Proof.
  revert v. induction l as [| b l IH]; intros v Hnd Ha H; [destruct Ha |].
  apply NoDup_cons_iff in Hnd as [Hnotin Hnd]. cbn.
  destruct Ha as [-> | Ha].
  - apply fold_left_untouched. intros c Hc. apply H; [now right |].
    intros ->. contradiction.
  - rewrite (H b (or_introl eq_refl)) by (intros ->; contradiction).
    apply IH; [exact Hnd | exact Ha |].
    intros c Hc. apply H. now right.
Qed.

Lemma option_map_ext_in {V W} (f g : V -> W) (o : option V) :
  (forall v, o = Some v -> f v = g v) -> option_map f o = option_map g o.
Proof. destruct o; cbn; [intros H; now rewrite (H v) | reflexivity]. Qed.

Lemma zget_nth (a : list Z) (i v : Z) :
  zget a i = Some v -> nth (Z.to_nat i) a 0 = v.
Proof.
  unfold zget. destruct (i <? 0); [discriminate |].
  intros H. now apply nth_error_nth.
Qed.

Lemma zget_ext {A} (a b : list A) :
  (forall i, zget a i = zget b i) -> a = b.
Proof.
  intros H. apply nth_error_ext. intros n.
  specialize (H (Z.of_nat n)). unfold zget in H.
  destruct (Z.ltb_spec (Z.of_nat n) 0); [lia |].
  now rewrite Nat2Z.id in H.
Qed.

Lemma zget_map {A B} (f : A -> B) (a : list A) (i : Z) :
  zget (map f a) i = option_map f (zget a i).
Proof.
  unfold zget. destruct (i <? 0); [reflexivity |]. apply nth_error_map.
Qed.

Section UpdateEntry.

Lemma update_entry_inv (f : double -> double) (l l' : pmf_list_t)
  (x idx : Z) :
  update_entry f l x idx = Some l' ->
  exists p e v,
    zget l x = Some p /\ zget (pmf p) idx = Some e /\
    zset (pmf p) idx (f e) = Some v /\
    zset l x (mkPmf (pmf_ready p) v) = Some l'.
Proof.
  unfold update_entry. intros H.
  destruct (zget l x) as [p |] eqn:Ep; [| discriminate]. cbn [obind] in H.
  destruct (zget (pmf p) idx) as [e |] eqn:Ee; [| discriminate].
  cbn [obind] in H.
  destruct (zset (pmf p) idx (f e)) as [v |] eqn:Ev; [| discriminate].
  cbn [obind] in H. exists p, e, v. repeat split; auto.
Qed.

Lemma update_entry_pointwise (f : double -> double) (l l' : pmf_list_t)
  (x idx : Z) :
  update_entry f l x idx = Some l' ->
  forall k : Z * Z,
    pmf_entry l' (fst k) (snd k)
    = option_map (fun v => if (fst k =? x) && (snd k =? idx) then f v else v)
        (pmf_entry l (fst k) (snd k)).
Proof.
  intros H [x' idx']. cbn [fst snd].
  destruct (update_entry_inv _ _ _ _ _ H) as (p & e & v & Hp & He & Hv & Hl).
  unfold pmf_entry.
  destruct (Z.eqb_spec x' x) as [-> | Hx].
  - rewrite (zget_zset_same _ _ _ _ Hl), Hp. cbn [obind pmf andb].
    destruct (Z.eqb_spec idx' idx) as [-> | Hi].
    + now rewrite (zget_zset_same _ _ _ _ Hv), He.
    + rewrite (zget_zset_other _ _ _ _ _ Hv Hi).
      now destruct (zget (pmf p) idx').
  - rewrite (zget_zset_other _ _ _ _ _ Hl Hx). cbn [andb].
    now destruct (obind _ _).
Qed.

Lemma update_entry_rows (f : double -> double) (l l' : pmf_list_t)
  (x idx : Z) :
  update_entry f l x idx = Some l' ->
  length l' = length l /\
  forall x', x' <> x -> zget l' x' = zget l x'.
Proof.
  intros H.
  destruct (update_entry_inv _ _ _ _ _ H) as (p & e & v & Hp & He & Hv & Hl).
  split; [apply (zset_length _ _ _ _ Hl) |].
  intros x' Hx. apply (zget_zset_other _ _ _ _ _ Hl Hx).
Qed.

End UpdateEntry.

(** ** The distribution of the first column: [compute_qpmf_quan_list] *)

Section QpmfQuan.
Variables (q_lo q_hi : quantizer_t) (ratio : double)
  (q_output_union : alphabet_t).

Let lo_at (x : Z) : Z := @nth Z (Z.to_nat x) (qz_q q_lo) 0.
Let hi_at (x : Z) : Z := @nth Z (Z.to_nat x) (qz_q q_hi) 0.
Let sym_at (idx : Z) : Z := @nth Z (Z.to_nat idx) q_output_union 0.

Let quan_body (x : Z) (l : pmf_list_t) (idx : Z) : option pmf_list_t :=
  q_symbol <- zget q_output_union idx ;;
  lo_x <- zget (qz_q q_lo) x ;;
  l1 <- (if lo_x =? q_symbol
         then update_entry (fun e => dadd e ratio) l x idx
         else Some l) ;;
  hi_x <- zget (qz_q q_hi) x ;;
  if hi_x =? q_symbol
  then update_entry (fun e => dadd e (dsub (Fin 1) ratio)) l1 x idx
  else Some l1.

Lemma quan_body_pointwise (x idx : Z) (l l' : pmf_list_t) :
  quan_body x l idx = Some l' ->
  (exists lo_x hi_x, zget (qz_q q_lo) x = Some lo_x /\
                     zget (qz_q q_hi) x = Some hi_x) /\
  forall k : Z * Z,
    pmf_entry l' (fst k) (snd k)
    = option_map
        (fun v => if (fst k =? x) && (snd k =? idx)
                  then qpmf_quan_entry ratio (lo_at x) (hi_at x)
                         (sym_at idx) v
                  else v)
        (pmf_entry l (fst k) (snd k)).
Proof.
  unfold quan_body. intros H.
  destruct (zget q_output_union idx) as [s |] eqn:Es; [| discriminate].
  cbn [obind] in H.
  destruct (zget (qz_q q_lo) x) as [lo_x |] eqn:Elo; [| discriminate].
  cbn [obind] in H.
  match type of H with
  | obind ?m _ = _ => destruct m as [l1 |] eqn:E1; [| discriminate]
  end.
  cbn [obind] in H.
  destruct (zget (qz_q q_hi) x) as [hi_x |] eqn:Ehi; [| discriminate].
  cbn [obind] in H.
  split; [eauto |]. intros k.
  unfold lo_at, hi_at, sym_at.
  rewrite (zget_nth _ _ _ Es), (zget_nth _ _ _ Elo), (zget_nth _ _ _ Ehi).
  unfold qpmf_quan_entry.
  assert (H1 : pmf_entry l1 (fst k) (snd k)
               = option_map
                   (fun v => if (fst k =? x) && (snd k =? idx)
                             then (if lo_x =? s then dadd v ratio else v)
                             else v)
                   (pmf_entry l (fst k) (snd k))).
  { destruct (lo_x =? s).
    - apply (update_entry_pointwise _ _ _ _ _ E1).
    - injection E1 as <-. destruct (pmf_entry l _ _); cbn;
        [now destruct (_ && _) | reflexivity]. }
  destruct (hi_x =? s).
  - rewrite (update_entry_pointwise _ _ _ _ _ H k), H1.
    destruct (pmf_entry l _ _); cbn; [| reflexivity].
    now destruct (_ && _).
  - injection H as <-. exact H1.
Qed.

Lemma quan_row_pointwise (x : Z) (l l' : pmf_list_t) :
  ofold (quan_body x) (zrange 0 (alphabet_size q_output_union)) l = Some l' ->
  forall k : Z * Z,
    pmf_entry l' (fst k) (snd k)
    = option_map
        (fun v => if (fst k =? x) && (0 <=? snd k)
                     && (snd k <? alphabet_size q_output_union)
                  then qpmf_quan_entry ratio (lo_at x) (hi_at x)
                         (sym_at (snd k)) v
                  else v)
        (pmf_entry l (fst k) (snd k)).
Proof.
  intros H k.
  rewrite (ofold_pointwise (quan_body x)
             (fun l k => pmf_entry l (fst k) (snd k))
             (fun idx k v =>
                if (fst k =? x) && (snd k =? idx)
                then qpmf_quan_entry ratio (lo_at x) (hi_at x) (sym_at idx) v
                else v)
             _ (fun s a s' _ Hb => proj2 (quan_body_pointwise x a s s' Hb))
             l l' H k).
  apply option_map_ext_in. intros v _.
  destruct (Z.eqb_spec (fst k) x) as [Ex | Ex]; cbn [andb].
  - destruct (Z.leb_spec 0 (snd k)); destruct (Z.ltb_spec (snd k)
      (alphabet_size q_output_union)); cbn [andb].
    + rewrite (fold_left_single _ _ (snd k));
        [now rewrite Z.eqb_refl | apply zrange_NoDup
        | apply zrange_In; lia |].
      intros b _ Hb v0. now destruct (Z.eqb_spec (snd k) b); [congruence |].
    + apply fold_left_untouched. intros a Ha v0. apply zrange_In in Ha.
      now destruct (Z.eqb_spec (snd k) a); [lia |].
    + apply fold_left_untouched. intros a Ha v0. apply zrange_In in Ha.
      now destruct (Z.eqb_spec (snd k) a); [lia |].
    + apply fold_left_untouched. intros a Ha v0. apply zrange_In in Ha.
      now destruct (Z.eqb_spec (snd k) a); [lia |].
  - now apply fold_left_untouched.
Qed.

Lemma quan_list_pointwise (q_x_pmf l' : pmf_list_t) :
  compute_qpmf_quan_list q_lo q_hi q_x_pmf ratio q_output_union = Some l' ->
  forall k : Z * Z,
    pmf_entry l' (fst k) (snd k)
    = option_map
        (fun v => if (0 <=? fst k)
                     && (fst k <? alphabet_size (qz_alphabet q_lo))
                     && (0 <=? snd k)
                     && (snd k <? alphabet_size q_output_union)
                  then qpmf_quan_entry ratio (lo_at (fst k)) (hi_at (fst k))
                         (sym_at (snd k)) v
                  else v)
        (pmf_entry q_x_pmf (fst k) (snd k)).
Proof.
  intros H k. unfold compute_qpmf_quan_list in H.
  rewrite (ofold_pointwise _
             (fun l k => pmf_entry l (fst k) (snd k))
             (fun x k v =>
                if (fst k =? x) && (0 <=? snd k)
                   && (snd k <? alphabet_size q_output_union)
                then qpmf_quan_entry ratio (lo_at x) (hi_at x)
                       (sym_at (snd k)) v
                else v)
             _ (fun s a s' _ Hb => quan_row_pointwise a s s' Hb)
             q_x_pmf l' H k).
  apply option_map_ext_in. intros v _.
  destruct (Z.leb_spec 0 (fst k));
    destruct (Z.ltb_spec (fst k) (alphabet_size (qz_alphabet q_lo)));
    cbn [andb].
  - rewrite (fold_left_single _ _ (fst k));
      [now rewrite Z.eqb_refl | apply zrange_NoDup
      | apply zrange_In; lia |].
    intros b _ Hb v0. now destruct (Z.eqb_spec (fst k) b); [congruence |].
  - apply fold_left_untouched. intros a Ha v0. apply zrange_In in Ha.
    now destruct (Z.eqb_spec (fst k) a); [lia |].
  - apply fold_left_untouched. intros a Ha v0. apply zrange_In in Ha.
    now destruct (Z.eqb_spec (fst k) a); [lia |].
  - apply fold_left_untouched. intros a Ha v0. apply zrange_In in Ha.
    now destruct (Z.eqb_spec (fst k) a); [lia |].
Qed.

(** The quantizers are read at every source symbol, when the union is not
    empty. *)
Lemma quan_list_reads (q_x_pmf l' : pmf_list_t) (x : Z) :
  compute_qpmf_quan_list q_lo q_hi q_x_pmf ratio q_output_union = Some l' ->
  0 <= x < alphabet_size (qz_alphabet q_lo) ->
  1 <= alphabet_size q_output_union ->
  exists lo_x hi_x, zget (qz_q q_lo) x = Some lo_x /\
                    zget (qz_q q_hi) x = Some hi_x.
Proof.
  intros H Hx Hu. unfold compute_qpmf_quan_list in H.
  assert (Hin : In x (zrange 0 (alphabet_size (qz_alphabet q_lo))))
    by (apply zrange_In; lia).
  apply in_split in Hin as (l1 & l2 & El). rewrite El in H.
  apply ofold_split in H as (s1 & s2 & _ & Hb & _).
  rewrite zrange_cons in Hb by lia. cbn [ofold] in Hb.
  match type of Hb with
  | match ?m with _ => _ end = _ => destruct m as [s3 |] eqn:E3;
                                    [| discriminate]
  end.
  apply (quan_body_pointwise x 0 s1 s3 E3).
Qed.

(** When [compute_qpmf_quan_list] returns, the entry of the source symbol
    [x] and of the position [idx] of the union has received [ratio] if the
    low quantizer maps [x] to the symbol at [idx], and then [1 - ratio] if
    the high quantizer does; every entry outside the two ranges is as it
    was.  The counter [x] of the source symbols is a symbol, which counts
    an alphabet of fewer than [SYMBOL_LIMIT] symbols. *)
Theorem compute_qpmf_quan_list_entries (q_x_pmf l' : pmf_list_t) :
  alphabet_size (qz_alphabet q_lo) < SYMBOL_LIMIT ->
  compute_qpmf_quan_list q_lo q_hi q_x_pmf ratio q_output_union = Some l' ->
  forall x idx,
    (0 <= x < alphabet_size (qz_alphabet q_lo) ->
     0 <= idx < alphabet_size q_output_union ->
     exists lo_x hi_x q_symbol,
       zget (qz_q q_lo) x = Some lo_x /\
       zget (qz_q q_hi) x = Some hi_x /\
       zget q_output_union idx = Some q_symbol /\
       pmf_entry l' x idx
       = option_map (qpmf_quan_entry ratio lo_x hi_x q_symbol)
           (pmf_entry q_x_pmf x idx)) /\
    (~ (0 <= x < alphabet_size (qz_alphabet q_lo) /\
        0 <= idx < alphabet_size q_output_union) ->
     pmf_entry l' x idx = pmf_entry q_x_pmf x idx).
Proof.
  intros _ H x idx. pose proof (quan_list_pointwise _ _ H (x, idx)) as Hk.
  cbn [fst snd] in Hk. split.
  - intros Hx Hidx.
    destruct (quan_list_reads _ _ x H Hx ltac:(lia))
      as (lo_x & hi_x & Hlo & Hhi).
    destruct (zget_defined q_output_union idx Hidx) as [s Hs].
    exists lo_x, hi_x, s. repeat split; try assumption.
    rewrite Hk. apply option_map_ext_in. intros v _.
    unfold lo_at, hi_at, sym_at.
    rewrite (zget_nth _ _ _ Hlo), (zget_nth _ _ _ Hhi), (zget_nth _ _ _ Hs).
    destruct (Z.leb_spec 0 x); [| lia].
    destruct (Z.ltb_spec x (alphabet_size (qz_alphabet q_lo))); [| lia].
    destruct (Z.leb_spec 0 idx); [| lia].
    destruct (Z.ltb_spec idx (alphabet_size q_output_union)); [| lia].
    reflexivity.
  - intros Hout. rewrite Hk.
    destruct (pmf_entry q_x_pmf x idx) as [v |]; [| reflexivity]. cbn.
    destruct (Z.leb_spec 0 x); cbn [andb]; [| reflexivity].
    destruct (Z.ltb_spec x (alphabet_size (qz_alphabet q_lo))); cbn [andb];
      [| reflexivity].
    destruct (Z.leb_spec 0 idx); cbn [andb]; [| reflexivity].
    destruct (Z.ltb_spec idx (alphabet_size q_output_union)); cbn [andb];
      [| reflexivity].
    exfalso. apply Hout. lia.
Qed.

End QpmfQuan.

(** The run on the constant quantizer and the identity over {0,1}, with
    the ratio 1/2. *)
Lemma compute_qpmf_quan_list_entries_witness :
  exists l',
    compute_qpmf_quan_list ex3_const0 ex3_id ex3_qpmf_list (Fin (1/2)) [0; 1]
    = Some l' /\
    forall x idx,
      (0 <= x < alphabet_size (qz_alphabet ex3_const0) ->
       0 <= idx < alphabet_size [0; 1] ->
       exists lo_x hi_x q_symbol,
         zget (qz_q ex3_const0) x = Some lo_x /\
         zget (qz_q ex3_id) x = Some hi_x /\
         zget [0; 1] idx = Some q_symbol /\
         pmf_entry l' x idx
         = option_map (qpmf_quan_entry (Fin (1/2)) lo_x hi_x q_symbol)
             (pmf_entry ex3_qpmf_list x idx)) /\
      (~ (0 <= x < alphabet_size (qz_alphabet ex3_const0) /\
          0 <= idx < alphabet_size [0; 1]) ->
       pmf_entry l' x idx = pmf_entry ex3_qpmf_list x idx).
Proof.
  eexists. split; [reflexivity |].
  exact (compute_qpmf_quan_list_entries ex3_const0 ex3_id (Fin (1/2)) [0; 1]
           ex3_qpmf_list _ eq_refl eq_refl).
Defined.

(** ** The distribution of the next column: [compute_xpmf_list] *)

Lemma omap_defined {A B} (f : A -> option B) (l : list A) :
  (forall a, In a l -> f a <> None) ->
  exists bs, omap f l = Some bs.
Proof.
  induction l as [| a l IH]; intros H; [now exists [] |].
  cbn [omap]. destruct (f a) as [b |] eqn:E;
    [| now destruct (H a (or_introl eq_refl))].
  destruct IH as [bs ->]; [intros c Hc; apply H; now right |]. eauto.
Qed.

Lemma omap_default {A B} (f : A -> option B) (d : B) (l : list A)
  (bs : list B) :
  omap f l = Some bs ->
  map (fun a => match f a with Some b => b | None => d end) l = bs.
Proof.
  revert bs. induction l as [| a l IH]; intros bs H; cbn in H.
  - now injection H as <-.
  - destruct (f a) as [b |] eqn:E; [| discriminate].
    destruct (omap f l) as [bs' |]; [| discriminate].
    injection H as <-. cbn. rewrite E. f_equal. now apply IH.
Qed.

Section XpmfRows.
Context `{pops : PmfOps}.
Variables (qpmf_list : pmf_list_t) (in_pmfs : cond_pmf_list_t) (column : Z).

Let n : Z := pmf_list_size qpmf_list.

Let term_at (idx k x : Z) : double :=
  match xpmf_term qpmf_list in_pmfs column idx k x with
  | Some t => t
  | None => NaN
  end.

Let x_body (idx k : Z) (l : pmf_list_t) (x : Z) : option pmf_list_t :=
  qx <- zget qpmf_list x ;;
  cx <- get_cond_pmf in_pmfs column x ;;
  marg <- marginal_pmfs in_pmfs ;;
  mx <- zget marg (u32 (column - 1)) ;;
  update_entry
    (fun e => dadd e (dmul (dmul (get_probability qx idx)
                                 (get_probability cx k))
                           (get_probability mx x)))
    l idx k.

Let k_body (idx : Z) (l : pmf_list_t) (k : Z) : option pmf_list_t :=
  ofold (x_body idx k) (zrange 0 n) l.

(** The rows other than [idx] and the number of rows. *)
Let same_rows (idx : Z) (l l1 : pmf_list_t) : Prop :=
  length l1 = length l /\ forall x', x' <> idx -> zget l1 x' = zget l x'.

Lemma same_rows_refl idx l : same_rows idx l l.
Proof. split; auto. Qed.

Lemma same_rows_trans idx l l1 l2 :
  same_rows idx l l1 -> same_rows idx l1 l2 -> same_rows idx l l2.
Proof.
  intros [H1 H2] [H3 H4]. split; [congruence |].
  intros x' Hx. now rewrite H4, H2.
Qed.

Lemma x_body_spec (idx k x : Z) (l l1 : pmf_list_t) :
  x_body idx k l x = Some l1 ->
  xpmf_term qpmf_list in_pmfs column idx k x <> None /\
  pmf_entry l idx k <> None /\
  same_rows idx l l1 /\
  forall key : Z * Z,
    pmf_entry l1 (fst key) (snd key)
    = option_map
        (fun v => if (fst key =? idx) && (snd key =? k)
                  then dadd v (term_at idx k x) else v)
        (pmf_entry l (fst key) (snd key)).
Proof.
  unfold x_body, term_at, xpmf_term. intros H.
  destruct (zget qpmf_list x) as [qx |]; [| discriminate].
  cbn [obind] in *.
  destruct (get_cond_pmf in_pmfs column x) as [cx |]; [| discriminate].
  cbn [obind] in *.
  destruct (marginal_pmfs in_pmfs) as [marg |]; [| discriminate].
  cbn [obind] in *.
  destruct (zget marg (u32 (column - 1))) as [mx |]; [| discriminate].
  cbn [obind] in *.
  split; [discriminate |]. split.
  - destruct (update_entry_inv _ _ _ _ _ H) as (p & e & v & Hp & He & _).
    unfold pmf_entry. rewrite Hp. cbn [obind]. congruence.
  - split; [apply (update_entry_rows _ _ _ _ _ H) |].
    apply (update_entry_pointwise _ _ _ _ _ H).
Qed.

Lemma k_body_spec (idx k : Z) (l l1 : pmf_list_t) :
  k_body idx l k = Some l1 ->
  (forall x, 0 <= x < n ->
     xpmf_term qpmf_list in_pmfs column idx k x <> None) /\
  (1 <= n -> pmf_entry l idx k <> None) /\
  same_rows idx l l1 /\
  forall key : Z * Z,
    pmf_entry l1 (fst key) (snd key)
    = option_map
        (fun v => if (fst key =? idx) && (snd key =? k)
                  then fold_left (fun v x => dadd v (term_at idx k x))
                         (zrange 0 n) v
                  else v)
        (pmf_entry l (fst key) (snd key)).
Proof.
  unfold k_body. intros H. split; [| split; [| split]].
  - intros x Hx.
    assert (Hin : In x (zrange 0 n)) by (apply zrange_In; lia).
    apply in_split in Hin as (l2 & l3 & El). rewrite El in H.
    apply ofold_split in H as (s1 & s2 & _ & Hb & _).
    apply (x_body_spec _ _ _ _ _ Hb).
  - intros Hn. rewrite zrange_cons in H by lia. cbn [ofold] in H.
    destruct (x_body idx k l 0) as [s1 |] eqn:E; [| discriminate].
    apply (x_body_spec _ _ _ _ _ E).
  - revert H. apply (ofold_invariant (x_body idx k) (same_rows idx l));
      [| apply same_rows_refl].
    intros s a s' _ Hs Hb. apply (same_rows_trans _ _ _ _ Hs).
    apply (x_body_spec _ _ _ _ _ Hb).
  - intros key.
    rewrite (ofold_pointwise (x_body idx k)
               (fun l key => pmf_entry l (fst key) (snd key))
               (fun x key v =>
                  if (fst key =? idx) && (snd key =? k)
                  then dadd v (term_at idx k x) else v)
               _ (fun s a s' _ Hb =>
                    proj2 (proj2 (proj2 (x_body_spec idx k a s s' Hb))))
               l l1 H key).
    apply option_map_ext_in. intros v _.
    destruct ((fst key =? idx) && (snd key =? k)); [reflexivity |].
    now apply fold_left_untouched.
Qed.

Let acc_at (idx k : Z) (v : double) : double :=
  if (0 <=? k) && (k <? n)
  then fold_left (fun v x => dadd v (term_at idx k x)) (zrange 0 n) v
  else v.

Lemma k_loop_spec (idx : Z) (l l1 : pmf_list_t) :
  ofold (k_body idx) (zrange 0 n) l = Some l1 ->
  (forall k x, 0 <= k < n -> 0 <= x < n ->
     xpmf_term qpmf_list in_pmfs column idx k x <> None) /\
  (forall k, 0 <= k < n -> pmf_entry l idx k <> None) /\
  same_rows idx l l1 /\
  forall k, pmf_entry l1 idx k = option_map (acc_at idx k) (pmf_entry l idx k).
Proof.
  intros H.
  assert (Hpw : forall ks s s', ofold (k_body idx) ks s = Some s' ->
            forall key : Z * Z,
              pmf_entry s' (fst key) (snd key)
              = option_map
                  (fun v => fold_left
                     (fun v k =>
                        if (fst key =? idx) && (snd key =? k)
                        then fold_left (fun v x => dadd v (term_at idx k x))
                               (zrange 0 n) v
                        else v) ks v)
                  (pmf_entry s (fst key) (snd key))).
  { intros ks s s' Hf key.
    apply (ofold_pointwise (k_body idx)
             (fun l key => pmf_entry l (fst key) (snd key))
             (fun k key v =>
                if (fst key =? idx) && (snd key =? k)
                then fold_left (fun v x => dadd v (term_at idx k x))
                       (zrange 0 n) v
                else v)
             ks (fun s a s' _ Hb =>
                   proj2 (proj2 (proj2 (k_body_spec idx a s s' Hb))))
             s s' Hf key). }
  split; [| split; [| split]].
  - intros k x Hk Hx.
    assert (Hin : In k (zrange 0 n)) by (apply zrange_In; lia).
    apply in_split in Hin as (l2 & l3 & El). rewrite El in H.
    apply ofold_split in H as (s1 & s2 & _ & Hb & _).
    now apply (k_body_spec _ _ _ _ Hb).
  - intros k Hk.
    assert (Hin : In k (zrange 0 n)) by (apply zrange_In; lia).
    apply in_split in Hin as (l2 & l3 & El). rewrite El in H.
    apply ofold_split in H as (s1 & s2 & Hpre & Hb & _).
    destruct (k_body_spec _ _ _ _ Hb) as (_ & Hdef & _).
    specialize (Hdef ltac:(lia)).
    pose proof (Hpw l2 l s1 Hpre (idx, k)) as Hs1. cbn [fst snd] in Hs1.
    intros Hnone. apply Hdef. rewrite Hs1, Hnone. reflexivity.
  - revert H. apply (ofold_invariant (k_body idx) (same_rows idx l));
      [| apply same_rows_refl].
    intros s a s' _ Hs Hb. apply (same_rows_trans _ _ _ _ Hs).
    apply (k_body_spec _ _ _ _ Hb).
  - intros k. pose proof (Hpw _ _ _ H (idx, k)) as Hk. cbn [fst snd] in Hk.
    rewrite Hk. apply option_map_ext_in. intros v _. unfold acc_at.
    rewrite Z.eqb_refl. cbn [andb].
    destruct (Z.leb_spec 0 k); destruct (Z.ltb_spec k n); cbn [andb].
    + rewrite (fold_left_single _ _ k);
        [now rewrite Z.eqb_refl | apply zrange_NoDup
        | apply zrange_In; lia |].
      intros b _ Hb v0. now destruct (Z.eqb_spec k b); [congruence |].
    + apply fold_left_untouched. intros a Ha v0. apply zrange_In in Ha.
      now destruct (Z.eqb_spec k a); [lia |].
    + apply fold_left_untouched. intros a Ha v0. apply zrange_In in Ha.
      now destruct (Z.eqb_spec k a); [lia |].
    + apply fold_left_untouched. intros a Ha v0. apply zrange_In in Ha.
      now destruct (Z.eqb_spec k a); [lia |].
Qed.

(** Row [idx] of [l] is the renormalized row of sums over the source
    symbols, built on row [idx] of [xpmf_list]. *)
Let row_done (xpmf_list l : pmf_list_t) (idx : Z) : Prop :=
  exists old row p',
    zget xpmf_list idx = Some old /\
    renormalize_pmf (mkPmf true row) = Some p' /\
    zget l idx = Some p' /\
    (forall k, ~ 0 <= k < n -> zget row k = zget (pmf old) k) /\
    (forall k, 0 <= k < n ->
       exists e terms,
         zget (pmf old) k = Some e /\
         omap (xpmf_term qpmf_list in_pmfs column idx k) (zrange 0 n)
         = Some terms /\
         zget row k = Some (fold_left dadd terms e)).

Let idx_body (q_alphabet_union : alphabet_t) (l : pmf_list_t) (idx : Z)
  : option pmf_list_t :=
  q_symbol <- zget q_alphabet_union idx ;;
  l' <- ofold (k_body idx) (zrange 0 n) l ;;
  ready_and_renormalize l' idx.

Lemma idx_body_spec (u : alphabet_t) (idx : Z) (l l2 : pmf_list_t) :
  idx_body u l idx = Some l2 ->
  same_rows idx l l2 /\ row_done l l2 idx.
Proof.
  unfold idx_body. intros H.
  destruct (zget u idx) as [s |]; [| discriminate]. cbn [obind] in H.
  destruct (ofold (k_body idx) (zrange 0 n) l) as [l1 |] eqn:E1;
    [| discriminate].
  cbn [obind] in H. unfold ready_and_renormalize in H.
  destruct (zget l1 idx) as [p |] eqn:Ep; [| discriminate].
  cbn [obind] in H.
  destruct (renormalize_pmf _) as [p' |] eqn:Er; [| discriminate].
  cbn [obind] in H.
  destruct (k_loop_spec _ _ _ E1) as (Hterms & Hdef & [Hlen Hrows] & Hacc).
  split.
  - split; [rewrite (zset_length _ _ _ _ H); exact Hlen |].
    intros x' Hx. rewrite (zget_zset_other _ _ _ _ _ H Hx). now apply Hrows.
  - pose proof (zget_range _ _ _ Ep) as Hr. rewrite Hlen in Hr.
    destruct (zget_defined l idx Hr) as [old Hold].
    exists old, (pmf p), p'. split; [exact Hold |]. split; [exact Er |].
    split; [apply (zget_zset_same _ _ _ _ H) |].
    assert (Hent : forall k,
              zget (pmf p) k = option_map (acc_at idx k) (zget (pmf old) k)).
    { intros k. specialize (Hacc k). unfold pmf_entry in Hacc.
      now rewrite Ep, Hold in Hacc. }
    split.
    + intros k Hk. rewrite Hent. unfold acc_at.
      destruct (Z.leb_spec 0 k); destruct (Z.ltb_spec k n); cbn [andb];
        try lia; now destruct (zget (pmf old) k).
    + intros k Hk. specialize (Hdef k Hk). unfold pmf_entry in Hdef.
      rewrite Hold in Hdef. cbn [obind] in Hdef.
      destruct (zget (pmf old) k) as [e |] eqn:Ee; [| congruence].
      destruct (omap_defined
                  (xpmf_term qpmf_list in_pmfs column idx k) (zrange 0 n))
        as [terms Ht].
      { intros x Hx. apply zrange_In in Hx. now apply Hterms. }
      exists e, terms. split; [reflexivity |]. split; [exact Ht |].
      rewrite Hent, Ee. cbn [option_map]. unfold acc_at.
      destruct (Z.leb_spec 0 k); [| lia].
      destruct (Z.ltb_spec k n); [| lia]. cbn [andb].
      rewrite fold_left_map_dadd. unfold term_at.
      now rewrite (omap_default _ NaN _ _ Ht).
Qed.

Lemma idx_loop_spec (u : alphabet_t) (xpmf_list : pmf_list_t) (m : nat)
  (l : pmf_list_t) :
  ofold (idx_body u) (zrange 0 (Z.of_nat m)) xpmf_list = Some l ->
  length l = length xpmf_list /\
  (forall idx, ~ 0 <= idx < Z.of_nat m -> zget l idx = zget xpmf_list idx) /\
  (forall idx, 0 <= idx < Z.of_nat m -> row_done xpmf_list l idx).
Proof.
  revert l. induction m as [| m IH]; intros l H.
  - cbn in H. injection H as <-. split; [reflexivity |].
    split; [reflexivity | intros idx Hidx; lia].
  - replace (Z.of_nat (S m)) with (Z.of_nat m + 1) in * by lia.
    rewrite zrange_snoc, ofold_app in H by lia.
    destruct (ofold _ (zrange 0 (Z.of_nat m)) _) as [l1 |] eqn:E1;
      [| discriminate].
    cbn [obind ofold] in H.
    destruct (idx_body u l1 (Z.of_nat m)) as [l2 |] eqn:E2; [| discriminate].
    injection H as <-.
    destruct (IH l1 eq_refl) as (Hlen & Hout & Hdone).
    destruct (idx_body_spec _ _ _ _ E2) as ([Hlen2 Hrows2] & Hnew).
    split; [congruence |]. split.
    + intros idx Hidx. rewrite Hrows2 by lia. apply Hout. lia.
    + intros idx Hidx. destruct (Z.eq_dec idx (Z.of_nat m)) as [-> | Hne].
      * destruct Hnew as (old & row & p' & Hold & Hrest).
        exists old, row, p'. split; [| exact Hrest].
        rewrite <- Hold. symmetry. apply Hout. lia.
      * destruct (Hdone idx ltac:(lia)) as (old & row & p' & Hold & Hr & Hp' & Hrest).
        exists old, row, p'. split; [exact Hold |]. split; [exact Hr |].
        split; [| exact Hrest]. rewrite Hrows2 by exact Hne. exact Hp'.
Qed.

(** When [compute_xpmf_list] returns, row [idx] of the result, for each
    position [idx] of the union, is what [renormalize_pmf] made of the row
    of [xpmf_list] in which the entry of every symbol [k] below the size
    of [qpmf_list] has received, in the order of [x], the products
    [get_probability(qpmf_list[x], idx) * get_probability(cond(column, x), k)
     * get_probability(marginal[column - 1], x)], with [pmf_ready] set; the
    other entries of that row, and the rows past the union, are as they
    were.  The counters [k] and [x] are compared with the size of
    [qpmf_list]; [x] is a symbol, which counts fewer than [SYMBOL_LIMIT]
    PMFs. *)
Theorem compute_xpmf_list_rows (xpmf_list : pmf_list_t)
  (q_alphabet_union : alphabet_t) (l' : pmf_list_t) :
  pmf_list_size qpmf_list < SYMBOL_LIMIT ->
  compute_xpmf_list qpmf_list in_pmfs column xpmf_list q_alphabet_union
  = Some l' ->
  length l' = length xpmf_list /\
  (forall idx, ~ 0 <= idx < alphabet_size q_alphabet_union ->
     zget l' idx = zget xpmf_list idx) /\
  (forall idx, 0 <= idx < alphabet_size q_alphabet_union ->
     exists old row p',
       zget xpmf_list idx = Some old /\
       renormalize_pmf (mkPmf true row) = Some p' /\
       zget l' idx = Some p' /\
       (forall k, ~ 0 <= k < pmf_list_size qpmf_list ->
          zget row k = zget (pmf old) k) /\
       (forall k, 0 <= k < pmf_list_size qpmf_list ->
          exists e terms,
            zget (pmf old) k = Some e /\
            omap (xpmf_term qpmf_list in_pmfs column idx k)
              (zrange 0 (pmf_list_size qpmf_list))
            = Some terms /\
            zget row k = Some (fold_left dadd terms e))).
Proof.
  intros _ H.
  apply (idx_loop_spec q_alphabet_union xpmf_list
           (length q_alphabet_union) l').
  exact H.
Qed.

End XpmfRows.

Lemma compute_xpmf_list_ex3 :
  compute_xpmf_list (pops := SpecPmf.ops) ex3_prev_qpmf_list ex3_in_pmfs 2
    ex3_qpmf_list [0; 1]
  = Some [ex3_half; ex3_half].
Proof. run_doubles. pmf_entries; field. Qed.

(** The run on the uniform conditional PMFs of three columns, from
    P(Q | X = x) = (3/4, 1/4). *)
Lemma compute_xpmf_list_rows_witness :
  compute_xpmf_list (pops := SpecPmf.ops) ex3_prev_qpmf_list ex3_in_pmfs 2
    ex3_qpmf_list [0; 1]
  = Some [ex3_half; ex3_half] /\
  length [ex3_half; ex3_half] = length ex3_qpmf_list /\
  (forall idx, ~ 0 <= idx < alphabet_size [0; 1] ->
     zget [ex3_half; ex3_half] idx = zget ex3_qpmf_list idx) /\
  (forall idx, 0 <= idx < alphabet_size [0; 1] ->
     exists old row p',
       zget ex3_qpmf_list idx = Some old /\
       renormalize_pmf (PmfOps := SpecPmf.ops) (mkPmf true row) = Some p' /\
       zget [ex3_half; ex3_half] idx = Some p' /\
       (forall k, ~ 0 <= k < pmf_list_size ex3_prev_qpmf_list ->
          zget row k = zget (pmf old) k) /\
       (forall k, 0 <= k < pmf_list_size ex3_prev_qpmf_list ->
          exists e terms,
            zget (pmf old) k = Some e /\
            omap (xpmf_term (pops := SpecPmf.ops) ex3_prev_qpmf_list
                    ex3_in_pmfs 2 idx k)
              (zrange 0 (pmf_list_size ex3_prev_qpmf_list))
            = Some terms /\
            zget row k = Some (fold_left dadd terms e))).
Proof.
  split; [exact compute_xpmf_list_ex3 |].
  exact (compute_xpmf_list_rows (pops := SpecPmf.ops) ex3_prev_qpmf_list
           ex3_in_pmfs 2 ex3_qpmf_list [0; 1] [ex3_half; ex3_half]
           eq_refl compute_xpmf_list_ex3).
Defined.
